(** * Conway's Game of Life over a sparse int64 grid: three engines

    A shallow embedding of [include/game_of_life.h], [include/engine.h],
    [src/engine.cpp], [src/engine_hashtable.cpp],
    [src/engine_sorted_vector.cpp], [src/engine_hashlife.cpp] and of
    [GameOfLife::run] in [src/game_of_life.cpp].

    Conventions of the embedding:
    - [int64_t] and [int] are [Z]; every signed operation that the C++
      standard leaves undefined on overflow goes through [chk64], which
      yields the fault [SignedOverflow] instead of a value;
    - [CellSet] (a hash set) is [gset Cell], [CellCountMap] (a hash map)
      is [gmap Cell Z]; iterating a container walks [elements] /
      [map_to_list];
    - a [QuadNode*] is an index into the arena of the node pool, the null
      pointer is [None];
    - code that can fault or throw returns an [outcome]. *)

From Stdlib Require Import ZArith Lia Ascii String.
From stdpp Require Import gmap sets list strings sorting.

Local Open Scope Z_scope.

(** ** Faults and outcomes *)

Inductive fault :=
  | SignedOverflow      (* signed arithmetic left the int64 range *)
  | BadShift            (* shift count negative or >= width *)
  | NullDeref           (* read through a null QuadNode* *)
  | BadPointer          (* read outside the arena *)
  | OutOfBounds         (* vector index out of range *)
  | AssertFailed        (* assert() in NodePool::make *)
  | OutOfFuel.          (* the recursion bound of the model was too small *)

Inductive outcome (A : Type) :=
  | Done (a : A)
  | Fault (f : fault).
Arguments Done {A} a.
Arguments Fault {A} f.

Global Instance outcome_ret : MRet outcome := λ A a, Done a.
Global Instance outcome_bind : MBind outcome := λ A B f m,
  match m with Done a => f a | Fault e => Fault e end.

Fixpoint foldM {A B} (f : A → B → outcome A) (a : A) (l : list B) : outcome A :=
  match l with
  | [] => Done a
  | b :: l' => a' ← f a b; foldM f a' l'
  end.

(** ** 64-bit signed integers *)

Definition INT64_MIN : Z := -9223372036854775808.
Definition INT64_MAX : Z := 9223372036854775807.

Definition in_int64 (z : Z) : bool := (INT64_MIN <=? z) && (z <=? INT64_MAX).

Definition chk64 (z : Z) : outcome Z :=
  if in_int64 z then Done z else Fault SignedOverflow.

Definition add64 (a b : Z) : outcome Z := chk64 (a + b).
Definition sub64 (a b : Z) : outcome Z := chk64 (a - b).
(** C++ [/] truncates toward zero. *)
Definition div64 (a b : Z) : outcome Z := chk64 (Z.quot a b).

(** ** Cells *)

Module Cell.
Record t := mk { x : Z; y : Z }.
End Cell.
Abbreviation Cell := Cell.t.

Global Instance Cell_eq_dec : EqDecision Cell.
Proof. solve_decision. Defined.

Global Instance Cell_countable : Countable Cell :=
  inj_countable' (λ c, (Cell.x c, Cell.y c)) (λ p, Cell.mk p.1 p.2)
                 (λ c, match c with Cell.mk _ _ => eq_refl end).

Abbreviation CellSet := (gset Cell).
Abbreviation CellCountMap := (gmap Cell Z).

Definition cell_in_range (c : Cell) : bool :=
  in_int64 (Cell.x c) && in_int64 (Cell.y c).

(** Every coordinate of the set is an [int64_t] value. *)
Definition cells_in_range (S : CellSet) : Prop :=
  forallb cell_in_range (elements S) = true.

(** [GameOfLife::would_overflow] *)
Definition would_overflow (x y : Z) : bool :=
  (x =? INT64_MIN) || (x =? INT64_MAX) || (y =? INT64_MIN) || (y =? INT64_MAX).

Definition overflow_risk (c : Cell) : bool :=
  would_overflow (Cell.x c) (Cell.y c).

(** The braced initialiser [{ex, ey}] of a [Cell] whose two coordinates are
    computed by signed arithmetic. *)
Definition make_cell (ex ey : outcome Z) : outcome Cell :=
  kx ← ex; ky ← ey; Done (Cell.mk kx ky).

(** [GameOfLife::get_neighbors] *)
Definition get_neighbors (x y : Z) : outcome (list Cell) :=
  c0 ← make_cell (sub64 x 1) (sub64 y 1);
  c1 ← make_cell (Done x)    (sub64 y 1);
  c2 ← make_cell (add64 x 1) (sub64 y 1);
  c3 ← make_cell (sub64 x 1) (Done y);
  c4 ← make_cell (add64 x 1) (Done y);
  c5 ← make_cell (sub64 x 1) (add64 y 1);
  c6 ← make_cell (Done x)    (add64 y 1);
  c7 ← make_cell (add64 x 1) (add64 y 1);
  Done [c0; c1; c2; c3; c4; c5; c6; c7].

(** ** HashtableEngine (the counting engine) *)

Module HashtableEngine.

(** [++neighbor_count_buffer_[k]]: [operator[]] inserts 0 for a new key. *)
Definition bump (m : CellCountMap) (k : Cell) : CellCountMap :=
  <[k := default 0 (m !! k) + 1]> m.

Definition bump_at (m : CellCountMap) (ex ey : outcome Z) : outcome CellCountMap :=
  k ← make_cell ex ey; Done (bump m k).

(** Body of the first loop of [tick]. *)
Definition count_cell (m : CellCountMap) (cell : Cell) : outcome CellCountMap :=
  let x := Cell.x cell in
  let y := Cell.y cell in
  if would_overflow x y then Done m else
  m ← bump_at m (sub64 x 1) (sub64 y 1);
  m ← bump_at m (Done x)    (sub64 y 1);
  m ← bump_at m (add64 x 1) (sub64 y 1);
  m ← bump_at m (sub64 x 1) (Done y);
  m ← bump_at m (add64 x 1) (Done y);
  m ← bump_at m (sub64 x 1) (add64 y 1);
  m ← bump_at m (Done x)    (add64 y 1);
  bump_at m (add64 x 1) (add64 y 1).

(** Body of the second loop of [tick]. *)
Definition select (cells : CellSet) (cell : Cell) (count : Z) (acc : CellSet) : CellSet :=
  if (count =? 3) || ((count =? 2) && bool_decide (cell ∈ cells))
  then {[cell]} ∪ acc else acc.

Definition tick (cells : CellSet) : outcome CellSet :=
  neighbor_count_buffer_ ← foldM count_cell ∅ (elements cells);
  Done (map_fold (select cells) ∅ neighbor_count_buffer_).

End HashtableEngine.

(** ** SortedVectorEngine (the sorting engine) *)

Module SortedVectorEngine.

Definition cell_less (a b : Cell) : bool :=
  if negb (Cell.x a =? Cell.x b) then Cell.x a <? Cell.x b
  else Cell.y a <? Cell.y b.

(** The order [std::sort] establishes for a comparator [comp]: no element
    is [comp]-less than an earlier one. *)
Definition not_after (a b : Cell) : Prop := cell_less b a = false.

Global Instance not_after_dec a b : Decision (not_after a b).
Proof. unfold not_after. apply _. Defined.

(** [std::sort(first, last, cell_less)] *)
Definition sort_cells (l : list Cell) : list Cell := merge_sort not_after l.

(** [std::binary_search(first, last, v, cell_less)] on a range sorted by
    [cell_less]: is some element equivalent to [v]. *)
Definition binary_search (l : list Cell) (v : Cell) : bool :=
  existsb (λ e, negb (cell_less e v) && negb (cell_less v e)) l.

(** Second loop of [tick], step 2: the neighbours of one alive cell are
    pushed onto [candidates_]. *)
Definition emit (candidates : list Cell) (cell : Cell) : outcome (list Cell) :=
  let x := Cell.x cell in
  let y := Cell.y cell in
  if would_overflow x y then Done candidates else
  c0 ← make_cell (sub64 x 1) (sub64 y 1);
  c1 ← make_cell (Done x)    (sub64 y 1);
  c2 ← make_cell (add64 x 1) (sub64 y 1);
  c3 ← make_cell (sub64 x 1) (Done y);
  c4 ← make_cell (add64 x 1) (Done y);
  c5 ← make_cell (sub64 x 1) (add64 y 1);
  c6 ← make_cell (Done x)    (add64 y 1);
  c7 ← make_cell (add64 x 1) (add64 y 1);
  Done (candidates ++ [c0; c1; c2; c3; c4; c5; c6; c7]).

(** The inner [while]: how many further entries after position [i] equal
    [current]; [rest] is [candidates_] from position [i + 1] on. *)
Fixpoint run_length (current : Cell) (rest : list Cell) : nat :=
  match rest with
  | c :: rest' =>
      if (Cell.x c =? Cell.x current) && (Cell.y c =? Cell.y current)
      then S (run_length current rest') else O
  | [] => O
  end.

(** The outer [while (i < candidates_.size())]; [cands] is [candidates_]
    from position [i] on, [fuel] bounds the number of iterations. *)
Fixpoint walk (fuel : nat) (sorted_alive : list Cell) (cands : list Cell)
         (cells : CellSet) : outcome CellSet :=
  match cands with
  | [] => Done cells
  | current :: rest =>
      match fuel with
      | O => Fault OutOfFuel
      | S fuel' =>
          let count := Z.of_nat (S (run_length current rest)) in
          let cells' :=
            if count =? 3 then {[current]} ∪ cells
            else if count =? 2 then
              if binary_search sorted_alive current then {[current]} ∪ cells
              else cells
            else cells in
          walk fuel' sorted_alive (drop (run_length current rest) rest) cells'
      end
  end.

Definition tick (cells : CellSet) : outcome CellSet :=
  let sorted_alive_ := sort_cells (elements cells) in
  candidates_ ← foldM emit [] sorted_alive_;
  let candidates_ := sort_cells candidates_ in
  walk (length candidates_) sorted_alive_ candidates_ ∅.

End SortedVectorEngine.

(** ** The transition rule, stated on sets *)

(** Chebyshev distance exactly 1. *)
Definition adjacent (a b : Cell) : bool :=
  Z.max (Z.abs (Cell.x a - Cell.x b)) (Z.abs (Cell.y a - Cell.y b)) =? 1.

(** The cells of [S] that take part in neighbour generation. *)
Definition counted (S : CellSet) : CellSet :=
  filter (λ s, overflow_risk s = false) S.

(** Number of alive neighbours of [c], accumulated only from the cells of
    [S] that are not at overflow risk. *)
Definition live_neighbors (S : CellSet) (c : Cell) : nat :=
  size (filter (λ s, adjacent s c = true) (counted S)).

Definition blinker : CellSet :=
  {[ Cell.mk 0 0; Cell.mk 1 0; Cell.mk 2 0 ]}.
Definition blinker_turned : CellSet :=
  {[ Cell.mk 1 (-1); Cell.mk 1 0; Cell.mk 1 1 ]}.

(** ** HashLifeEngine (the quadtree engine) *)

Module HashLife.

(** [int64_t(1) << n].  For [n = 63] C++17 converts 2^63 to the signed
    type, which gives [INT64_MIN]; a count of 64 or more is undefined. *)
Definition shl1 (n : nat) : outcome Z :=
  if (n <? 63)%nat then Done (2 ^ Z.of_nat n)
  else if (n =? 63)%nat then Done INT64_MIN
  else Fault BadShift.

(** [static_cast<int>(v)] for an [int64_t] value. *)
Definition to_int (v : Z) : Z := (v + 2147483648) `mod` 4294967296 - 2147483648.

(** *** Nodes and the canonicalising pool *)

Abbreviation ptr := nat.

Record QuadNode := mkNode {
  level : nat;
  population : Z;
  nw : option ptr;
  ne : option ptr;
  sw : option ptr;
  se : option ptr;
  step1_result : option ptr
}.

(** The key compared by [QuadNodeEqual] and hashed by [QuadNodeHash]: the
    four child pointers. *)
Abbreviation NodeKey := (ptr * ptr * ptr * ptr)%type.

(** [arena] lists the nodes in allocation order (the chunks of the bump
    allocator laid end to end); a pointer is the position of its node. *)
Record NodePool := mkPool {
  arena : list QuadNode;
  canon_ : gmap NodeKey ptr;
  empty_cache_ : list (option ptr);
  dead_cell_ : ptr;
  alive_cell_ : ptr
}.

(** Computations over the pool that may fault. *)
Definition M (A : Type) : Type := NodePool → outcome (A * NodePool).

Global Instance M_ret : MRet M := λ A a P, Done (a, P).
Global Instance M_bind : MBind M := λ A B f m P,
  match m P with
  | Done (a, P') => f a P'
  | Fault e => Fault e
  end.

Definition lift {A} (o : outcome A) : M A := λ P,
  match o with Done a => Done (a, P) | Fault e => Fault e end.
Definition fail {A} (e : fault) : M A := λ _, Fault e.
Definition get_pool : M NodePool := λ P, Done (P, P).
Definition put_pool (P : NodePool) : M unit := λ _, Done (tt, P).

(** [alloc_raw] *)
Definition alloc_raw (lvl : nat) (pop : Z) (a b c d : option ptr) : M ptr := λ P,
  let node := mkNode lvl pop a b c d None in
  Done (length (arena P),
        mkPool (arena P ++ [node]) (canon_ P) (empty_cache_ P)
               (dead_cell_ P) (alive_cell_ P)).

(** [NodePool::clear] (and the constructor): everything is dropped and the
    two leaves are allocated afresh. *)
Definition clear : NodePool :=
  mkPool [mkNode 0 0 None None None None None;
          mkNode 0 1 None None None None None] ∅ [] 0%nat 1%nat.

(** [*p] *)
Definition load (p : ptr) : M QuadNode := λ P,
  match arena P !! p with
  | Some n => Done (n, P)
  | None => Fault BadPointer
  end.

(** [p->f] for a child field [f], where the value is used as a node. *)
Definition child (f : QuadNode → option ptr) (p : ptr) : M ptr :=
  n ← load p;
  match f n with
  | Some q => mret q
  | None => fail NullDeref
  end.

(** [p->f->g] *)
Definition child2 (f g : QuadNode → option ptr) (p : ptr) : M ptr :=
  q ← child f p; child g q.

Definition dead_cell : M ptr := λ P, Done (dead_cell_ P, P).
Definition alive_cell : M ptr := λ P, Done (alive_cell_ P, P).

(** [NodePool::leaf] *)
Definition leaf (alive : bool) : M ptr :=
  if alive then alive_cell else dead_cell.

(** [NodePool::make] *)
Definition make (nw ne sw se : ptr) : M ptr :=
  a ← load nw; b ← load ne; c ← load sw; d ← load se;
  if negb ((level a =? level b)%nat && (level b =? level c)%nat
           && (level c =? level d)%nat)
  then fail AssertFailed else
  P ← get_pool;
  match canon_ P !! (nw, ne, sw, se) with
  | Some node => mret node
  | None =>
      let lvl := (level a + 1)%nat in
      p1 ← lift (add64 (population a) (population b));
      p2 ← lift (add64 p1 (population c));
      pop ← lift (add64 p2 (population d));
      node ← alloc_raw lvl pop (Some nw) (Some ne) (Some sw) (Some se);
      P ← get_pool;
      put_pool (mkPool (arena P) (<[(nw, ne, sw, se) := node]> (canon_ P))
                       (empty_cache_ P) (dead_cell_ P) (alive_cell_ P));;
      mret node
  end.

(** [empty_cache_.resize(n, nullptr)] when the vector is shorter. *)
Definition resize_cache (n : nat) (cache : list (option ptr)) : list (option ptr) :=
  cache ++ replicate (n - length cache) None.

Definition set_cache (lvl : nat) (node : ptr) : M unit := λ P,
  if (lvl <? length (empty_cache_ P))%nat then
    Done (tt, mkPool (arena P) (canon_ P) (<[lvl := Some node]> (empty_cache_ P))
                     (dead_cell_ P) (alive_cell_ P))
  else Fault OutOfBounds.

(** [NodePool::empty_node] *)
Fixpoint empty_node (lvl : nat) : M ptr :=
  match lvl with
  | O => dead_cell
  | S lvl' =>
      P ← get_pool;
      match empty_cache_ P !! lvl with
      | Some (Some node) => mret node
      | _ =>
          (if (length (empty_cache_ P) <=? lvl)%nat then
             put_pool (mkPool (arena P) (canon_ P)
                              (resize_cache (lvl + 1) (empty_cache_ P))
                              (dead_cell_ P) (alive_cell_ P))
           else mret tt);;
          sub ← empty_node lvl';
          node ← make sub sub sub sub;
          set_cache lvl node;;
          mret node
      end
  end.

(** [empty_node(node->level - 1)]: at level 0 the argument is -1 and the
    cache is read out of bounds. *)
Definition empty_below (lvl : nat) : M ptr :=
  match lvl with
  | O => fail OutOfBounds
  | S lvl' => empty_node lvl'
  end.

(** [node->step1_result = r] *)
Definition set_step1 (p : ptr) (r : ptr) : M unit := λ P,
  match arena P !! p with
  | Some n =>
      let n' := mkNode (level n) (population n) (nw n) (ne n) (sw n) (se n) (Some r) in
      Done (tt, mkPool (<[p := n']> (arena P)) (canon_ P) (empty_cache_ P)
                       (dead_cell_ P) (alive_cell_ P))
  | None => Fault BadPointer
  end.

(** *** SortedCells *)

(** The comparator of [SortedCells::build] and [contains]. *)
Definition lex_less (a b : Cell) : bool :=
  (Cell.x a <? Cell.x b) || ((Cell.x a =? Cell.x b) && (Cell.y a <? Cell.y b)).

Definition lex_not_after (a b : Cell) : Prop := lex_less b a = false.
Global Instance lex_not_after_dec a b : Decision (lex_not_after a b).
Proof. unfold lex_not_after. apply _. Defined.

(** [SortedCells::build] *)
Definition build (cs : CellSet) : list Cell := merge_sort lex_not_after (elements cs).

(** [std::lower_bound(first, last, v, comp)] on a range partitioned by
    [comp _ v]: the range from the first element that is not [comp]-less
    than [v]. *)
Fixpoint lower_bound (comp : Cell → Cell → bool) (l : list Cell) (v : Cell) : list Cell :=
  match l with
  | [] => []
  | a :: l' => if comp a v then lower_bound comp l' v else l
  end.

(** The [while] loop of [has_cell_in]; [it] is the range from the iterator
    to the end. *)
Fixpoint scan_strip (it : list Cell) (x_end y y_end : Z) : bool :=
  match it with
  | [] => false
  | c :: it' =>
      if Cell.x c <? x_end then
        if (y <=? Cell.y c) && (Cell.y c <? y_end) then true
        else scan_strip it' x_end y y_end
      else false
  end.

(** [SortedCells::has_cell_in] *)
Definition has_cell_in (cells : list Cell) (x y size : Z) : outcome bool :=
  let it := lower_bound (λ a b, Cell.x a <? Cell.x b) cells (Cell.mk x 0) in
  x_end ← add64 x size;
  y_end ← add64 y size;
  Done (scan_strip it x_end y y_end).

(** [SortedCells::contains] *)
Definition contains (cells : list Cell) (x y : Z) : bool :=
  match lower_bound lex_less cells (Cell.mk x y) with
  | c :: _ => (Cell.x c =? x) && (Cell.y c =? y)
  | [] => false
  end.

(** *** Tree construction *)

(** [HashLifeEngine::expand]; the origin is passed by reference in the
    source and returned here.  The arguments of a call are evaluated left
    to right; C++ leaves the order open, it only decides arena positions. *)
Definition expand (node : ptr) (ox oy : Z) : M (ptr * Z * Z) :=
  n ← load node;
  half ← lift (match level n with
               | O => Fault BadShift
               | S l => shl1 l
               end);
  e ← empty_below (level n);
  ox ← lift (sub64 ox half);
  oy ← lift (sub64 oy half);
  n_nw ← child nw node;
  a ← make e e e n_nw;
  n_ne ← child ne node;
  b ← make e e n_ne e;
  n_sw ← child sw node;
  c ← make e n_sw e e;
  n_se ← child se node;
  d ← make n_se e e e;
  r ← make a b c d;
  mret (r, ox, oy).

(** [HashLifeEngine::build_recursive]; [sorted] is the member [sorted_]. *)
Fixpoint build_recursive (sorted : list Cell) (x y : Z) (lvl : nat) : M ptr :=
  size ← lift (shl1 lvl);
  has ← lift (has_cell_in sorted x y size);
  if negb has then empty_node lvl else
  match lvl with
  | O => leaf (contains sorted x y)
  | S lvl' =>
      let half := Z.shiftr size 1 in
      a ← build_recursive sorted x y lvl';
      xh ← lift (add64 x half);
      b ← build_recursive sorted xh y lvl';
      yh ← lift (add64 y half);
      c ← build_recursive sorted x yh lvl';
      xh ← lift (add64 x half);
      yh ← lift (add64 y half);
      d ← build_recursive sorted xh yh lvl';
      make a b c d
  end.

(** *** The one-generation step *)

(** [HashLifeEngine::center] *)
Definition center (node : ptr) : M ptr :=
  a ← child2 nw se node;
  b ← child2 ne sw node;
  c ← child2 sw ne node;
  d ← child2 se nw node;
  make a b c d.

(** [static_cast<int>(node->f->g->population)] *)
Definition grand_pop (f g : QuadNode → option ptr) (node : ptr) : M Z :=
  q ← child2 f g node;
  n ← load q;
  mret (to_int (population n)).

(** The array [g[4][4]] of [step_4x4], [g[i][j]] being [grid_at g i j]. *)
Definition grid_at (g : list (list Z)) (i j : Z) : Z :=
  default 0 (col ← g !! Z.to_nat i; col !! Z.to_nat j).

(** The lambda [life_rule] of [step_4x4]. *)
Definition life_rule (g : list (list Z)) (cx cy : Z) : bool :=
  let count :=
    foldl (λ count dy,
      foldl (λ count dx,
        if (dx =? 0) && (dy =? 0) then count
        else count + grid_at g (cx + dx) (cy + dy))
      count [-1; 0; 1])
    0 [-1; 0; 1] in
  let alive := negb (grid_at g cx cy =? 0) in
  (count =? 3) || ((count =? 2) && alive).

(** [HashLifeEngine::step_4x4] *)
Definition step_4x4 (node : ptr) : M ptr :=
  g00 ← grand_pop nw nw node;
  g10 ← grand_pop nw ne node;
  g20 ← grand_pop ne nw node;
  g30 ← grand_pop ne ne node;
  g01 ← grand_pop nw sw node;
  g11 ← grand_pop nw se node;
  g21 ← grand_pop ne sw node;
  g31 ← grand_pop ne se node;
  g02 ← grand_pop sw nw node;
  g12 ← grand_pop sw ne node;
  g22 ← grand_pop se nw node;
  g32 ← grand_pop se ne node;
  g03 ← grand_pop sw sw node;
  g13 ← grand_pop sw se node;
  g23 ← grand_pop se sw node;
  g33 ← grand_pop se se node;
  let g := [[g00; g01; g02; g03]; [g10; g11; g12; g13];
            [g20; g21; g22; g23]; [g30; g31; g32; g33]] in
  a ← leaf (life_rule g 1 1);
  b ← leaf (life_rule g 2 1);
  c ← leaf (life_rule g 1 2);
  d ← leaf (life_rule g 2 2);
  make a b c d.

(** [HashLifeEngine::slow_step].  The recursion descends one level per
    call; [fuel] bounds its depth. *)
Fixpoint slow_step (fuel : nat) (node : ptr) : M ptr :=
  match fuel with
  | O => fail OutOfFuel
  | S fuel' =>
      n ← load node;
      match step1_result n with
      | Some r => mret r
      | None =>
          if population n =? 0 then
            e ← empty_below (level n);
            set_step1 node e;;
            mret e
          else if (level n =? 2)%nat then
            r ← step_4x4 node;
            set_step1 node r;;
            mret r
          else
            n00 ← child nw node;
            n01 ← child ne node;
            n10 ← child sw node;
            n11 ← child se node;
            c01 ← (a ← child ne n00; b ← child nw n01;
                   c ← child se n00; d ← child sw n01; make a b c d);
            c10 ← (a ← child sw n00; b ← child se n00;
                   c ← child nw n10; d ← child ne n10; make a b c d);
            c11 ← (a ← child se n00; b ← child sw n01;
                   c ← child ne n10; d ← child nw n11; make a b c d);
            c12 ← (a ← child sw n01; b ← child se n01;
                   c ← child nw n11; d ← child ne n11; make a b c d);
            c21 ← (a ← child ne n10; b ← child nw n11;
                   c ← child se n10; d ← child sw n11; make a b c d);
            r00 ← center n00;
            r01 ← center c01;
            r02 ← center n01;
            r10 ← center c10;
            r11 ← center c11;
            r12 ← center c12;
            r20 ← center n10;
            r21 ← center c21;
            r22 ← center n11;
            q0 ← (t ← make r00 r01 r10 r11; slow_step fuel' t);
            q1 ← (t ← make r01 r02 r11 r12; slow_step fuel' t);
            q2 ← (t ← make r10 r11 r20 r21; slow_step fuel' t);
            q3 ← (t ← make r11 r12 r21 r22; slow_step fuel' t);
            r ← make q0 q1 q2 q3;
            set_step1 node r;;
            mret r
      end
  end.

(** [HashLifeEngine::flatten] *)
Fixpoint flatten (fuel : nat) (node : ptr) (x y : Z) (cells : CellSet) : M CellSet :=
  match fuel with
  | O => fail OutOfFuel
  | S fuel' =>
      n ← load node;
      if population n =? 0 then mret cells else
      match level n with
      | O => mret (if 0 <? population n then {[Cell.mk x y]} ∪ cells else cells)
      | S l =>
          half ← lift (shl1 l);
          n_nw ← child nw node;
          cells ← flatten fuel' n_nw x y cells;
          n_ne ← child ne node;
          xh ← lift (add64 x half);
          cells ← flatten fuel' n_ne xh y cells;
          n_sw ← child sw node;
          yh ← lift (add64 y half);
          cells ← flatten fuel' n_sw x yh cells;
          n_se ← child se node;
          xh ← lift (add64 x half);
          yh ← lift (add64 y half);
          flatten fuel' n_se xh yh cells
      end
  end.

(** *** One cluster *)

(** The bounding-box loop of [step_cluster]. *)
Definition bounding_box (cells : list Cell) : Z * Z * Z * Z :=
  foldl (λ '(min_x, max_x, min_y, max_y) cell,
           (Z.min min_x (Cell.x cell), Z.max max_x (Cell.x cell),
            Z.min min_y (Cell.y cell), Z.max max_y (Cell.y cell)))
        (INT64_MAX, INT64_MIN, INT64_MAX, INT64_MIN) cells.

(** [while ((int64_t(1) << level) < range) ++level;] *)
Fixpoint grow_level (fuel : nat) (lvl : nat) (range : Z) : outcome nat :=
  match fuel with
  | O => Fault OutOfFuel
  | S fuel' =>
      s ← shl1 lvl;
      if s <? range then grow_level fuel' (S lvl) range else Done lvl
  end.

(** [while (root->level < 2) root = expand(root, ox, oy);] *)
Fixpoint expand_to_2 (fuel : nat) (root : ptr) (ox oy : Z) : M (ptr * Z * Z) :=
  match fuel with
  | O => fail OutOfFuel
  | S fuel' =>
      n ← load root;
      if (level n <? 2)%nat then
        '(root, ox, oy) ← expand root ox oy;
        expand_to_2 fuel' root ox oy
      else mret (root, ox, oy)
  end.

(** [HashLifeEngine::step_cluster] *)
Definition step_cluster (cells : CellSet) : M CellSet :=
  if bool_decide (cells = ∅) then mret cells else
  let '(min_x, max_x, min_y, max_y) := bounding_box (elements cells) in
  range_x ← lift (d ← sub64 max_x min_x; add64 d 1);
  range_y ← lift (d ← sub64 max_y min_y; add64 d 1);
  let range := Z.max range_x range_y in
  lvl ← lift (grow_level 65 1 range);
  size ← lift (shl1 lvl);
  ox ← lift (d ← sub64 size range_x; q ← div64 d 2; sub64 min_x q);
  oy ← lift (d ← sub64 size range_y; q ← div64 d 2; sub64 min_y q);
  let sorted_ := build cells in
  root ← build_recursive sorted_ ox oy lvl;
  '(root, ox, oy) ← expand_to_2 3 root ox oy;
  '(root, ox, oy) ← expand root ox oy;
  '(root, ox, oy) ← expand root ox oy;
  n ← load root;
  result ← slow_step (level n) root;
  quarter ← lift (match level n with
                  | S (S l) => shl1 l
                  | _ => Fault BadShift
                  end);
  rx ← lift (add64 ox quarter);
  ry ← lift (add64 oy quarter);
  r ← load result;
  flatten (S (level r)) result rx ry ∅.

(** *** Clustering *)

Module ChunkKey.
Record t := mk { cx : Z; cy : Z }.
End ChunkKey.
Abbreviation ChunkKey := ChunkKey.t.

Global Instance ChunkKey_eq_dec : EqDecision ChunkKey.
Proof. solve_decision. Defined.

Global Instance ChunkKey_countable : Countable ChunkKey :=
  inj_countable' (λ k, (ChunkKey.cx k, ChunkKey.cy k)) (λ p, ChunkKey.mk p.1 p.2)
                 (λ k, match k with ChunkKey.mk _ _ => eq_refl end).

Definition CHUNK_SIZE : Z := 64.

(** [(v >= 0) ? v / CHUNK_SIZE : (v - CHUNK_SIZE + 1) / CHUNK_SIZE] *)
Definition chunk_index (v : Z) : outcome Z :=
  if 0 <=? v then div64 v CHUNK_SIZE
  else d ← sub64 v CHUNK_SIZE; d ← add64 d 1; div64 d CHUNK_SIZE.

(** [chunks[{cx, cy}].push_back(cell)] *)
Definition bucket (chunks : gmap ChunkKey (list Cell)) (cell : Cell)
  : outcome (gmap ChunkKey (list Cell)) :=
  cx ← chunk_index (Cell.x cell);
  cy ← chunk_index (Cell.y cell);
  let k := ChunkKey.mk cx cy in
  Done (<[k := default [] (chunks !! k) ++ [cell]]> chunks).

Abbreviation Parent := (gmap ChunkKey ChunkKey).

(** [parent[k]]: [operator[]] inserts a value-initialised key when [k] is
    absent. *)
Definition parent_at (parent : Parent) (k : ChunkKey) : ChunkKey * Parent :=
  match parent !! k with
  | Some v => (v, parent)
  | None => (ChunkKey.mk 0 0, <[k := ChunkKey.mk 0 0]> parent)
  end.

(** The lambda [find], with path compression. *)
Fixpoint find (fuel : nat) (parent : Parent) (k : ChunkKey) : outcome (ChunkKey * Parent) :=
  match fuel with
  | O => Fault OutOfFuel
  | S fuel' =>
      let '(p, parent) := parent_at parent k in
      if bool_decide (p = k) then Done (parent_at parent k)
      else
        let '(p, parent) := parent_at parent k in
        '(r, parent) ← find fuel' parent p;
        let parent := <[k := r]> parent in
        Done (parent_at parent k)
  end.

(** The lambda [unite]. *)
Definition unite (fuel : nat) (parent : Parent) (a b : ChunkKey) : outcome Parent :=
  '(a, parent) ← find fuel parent a;
  '(b, parent) ← find fuel parent b;
  if bool_decide (a = b) then Done parent else Done (<[a := b]> parent).

Definition offsets : list (Z * Z) :=
  [(-1, -1); (-1, 0); (-1, 1); (0, -1); (0, 0); (0, 1); (1, -1); (1, 0); (1, 1)].

(** Body of the merging loop for one chunk [key]. *)
Definition merge_around (chunks : gmap ChunkKey (list Cell)) (fuel : nat)
           (parent : Parent) (key : ChunkKey) : outcome Parent :=
  foldM (λ parent '(dx, dy),
           if (dx =? 0) && (dy =? 0) then Done parent else
           nx ← add64 (ChunkKey.cx key) dx;
           ny ← add64 (ChunkKey.cy key) dy;
           let neighbor := ChunkKey.mk nx ny in
           if bool_decide (is_Some (chunks !! neighbor))
           then unite fuel parent key neighbor
           else Done parent)
        parent offsets.

(** Body of the loop that fills [clusters]. *)
Definition gather (fuel : nat) (st : Parent * gmap ChunkKey CellSet)
           (entry : ChunkKey * list Cell) : outcome (Parent * gmap ChunkKey CellSet) :=
  let '(parent, clusters) := st in
  let '(key, chunk_cells) := entry in
  '(root, parent) ← find fuel parent key;
  Done (parent,
        foldl (λ clusters cell,
                 <[root := {[cell]} ∪ default ∅ (clusters !! root)]> clusters)
              clusters chunk_cells).

(** The final loop of [tick]: each cluster is stepped and its cells are
    inserted into [cells]. *)
Fixpoint step_all (clusters : list (ChunkKey * CellSet)) (cells : CellSet) : M CellSet :=
  match clusters with
  | [] => mret cells
  | (_, cluster_cells) :: rest =>
      cluster_cells ← step_cluster cluster_cells;
      step_all rest (cluster_cells ∪ cells)
  end.

(** [HashLifeEngine::tick], from the pool state [clear] it starts with. *)
Definition tick_in_pool (cells : CellSet) : M CellSet :=
  if bool_decide (cells = ∅) then mret cells else
  chunks ← lift (foldM bucket ∅ (elements cells));
  let parent : Parent :=
    foldl (λ parent '(key, _), <[key := key]> parent) ∅ (map_to_list chunks) in
  let fuel := S (size chunks) in
  parent ← lift (foldM (λ parent '(key, _), merge_around chunks fuel parent key)
                       parent (map_to_list chunks));
  '(_, clusters) ← lift (foldM (gather fuel) (parent, ∅) (map_to_list chunks));
  step_all (map_to_list clusters) ∅.

Definition tick (cells : CellSet) : outcome CellSet :=
  match tick_in_pool cells clear with
  | Done (cells', _) => Done cells'
  | Fault e => Fault e
  end.

End HashLife.


(** ** Engine selection ([src/engine.cpp]) *)

Inductive EngineType := Hashtable | Sorted | Hashlife.

(** A call that returns, throws [std::invalid_argument], or faults.  A
    throw carries the state the object is left in. *)
Inductive result (St A : Type) :=
  | Returned (a : A)
  | Threw (what : string) (st : St)
  | Faulted (f : fault).
Arguments Returned {St A} a.
Arguments Threw {St A} what st.
Arguments Faulted {St A} f.

(** [std::tolower] on an [unsigned char], "C" locale. *)
Definition tolower (c : ascii) : ascii :=
  let n := nat_of_ascii c in
  if ((65 <=? n) && (n <=? 90))%nat then ascii_of_nat (n + 32) else c.

(** The [std::transform] call of [parse_engine_type]. *)
Fixpoint lowercase (s : string) : string :=
  match s with
  | EmptyString => EmptyString
  | String c s' => String (tolower c) (lowercase s')
  end.

(** [parse_engine_type]; nothing is mutated, the state of a throw is [tt]. *)
Definition parse_engine_type (s : string) : result unit EngineType :=
  let lower := lowercase s in
  if String.eqb lower "hashtable" then Returned Hashtable
  else if String.eqb lower "sorted" then Returned Sorted
  else if String.eqb lower "hashlife" then Returned Hashlife
  else Threw ("Unknown engine type '" ++ s ++
              "'. Valid options: hashtable, sorted, hashlife")%string tt.

(** [create_engine] followed by the virtual call [engine->tick(cells)]. *)
Definition engine_tick (e : EngineType) (cells : CellSet) : outcome CellSet :=
  match e with
  | Hashtable => HashtableEngine.tick cells
  | Sorted => SortedVectorEngine.tick cells
  | Hashlife => HashLife.tick cells
  end.

(** ** GameOfLife ([src/game_of_life.cpp]) *)

Module GameOfLife.

Record t := mk { live_cells_ : CellSet; engine_ : EngineType }.

(** [GameOfLife::tick] *)
Definition tick (g : t) : outcome t :=
  cells ← engine_tick (engine_ g) (live_cells_ g);
  Done (mk cells (engine_ g)).

(** [for (int i = 0; i < iterations; i++) tick();] *)
Fixpoint run_loop (fuel : nat) (i iterations : Z) (g : t) : outcome t :=
  if i <? iterations then
    match fuel with
    | O => Fault OutOfFuel
    | S fuel' => g' ← tick g; run_loop fuel' (i + 1) iterations g'
    end
  else Done g.

(** [GameOfLife::run] *)
Definition run (iterations : Z) (g : t) : result t t :=
  if iterations <? 0 then Threw "Iterations must be non-negative" g
  else match run_loop (Z.to_nat iterations) 0 iterations g with
       | Done g' => Returned g'
       | Fault f => Faulted f
       end.

End GameOfLife.

(** ** Reference notions used by the statements *)

(** The eight cells around [c], in the order of [get_neighbors]. *)
Definition neighbors8 (c : Cell) : list Cell :=
  let x := Cell.x c in
  let y := Cell.y c in
  [Cell.mk (x - 1) (y - 1); Cell.mk x (y - 1); Cell.mk (x + 1) (y - 1);
   Cell.mk (x - 1) y;                          Cell.mk (x + 1) y;
   Cell.mk (x - 1) (y + 1); Cell.mk x (y + 1); Cell.mk (x + 1) (y + 1)].

(** All neighbour coordinates generated from a sequence of alive cells. *)
Definition candidates (l : list Cell) : list Cell :=
  flat_map (λ c, if overflow_risk c then [] else neighbors8 c) l.

(** Number of occurrences of [k] in [l]. *)
Definition occ (k : Cell) (l : list Cell) : nat :=
  length (filter (λ c, c = k) l).

(** The transition rule for a cell with [n] counted neighbours. *)
Definition rule (n : nat) (alive : Prop) : Prop :=
  n = 3%nat ∨ (n = 2%nat ∧ alive).

(** [n] successive advances of an engine. *)
Fixpoint advance_n (e : EngineType) (n : nat) (cells : CellSet) : outcome CellSet :=
  match n with
  | O => Done cells
  | S n' => cells' ← engine_tick e cells; advance_n e n' cells'
  end.

(** [n] successive calls of [GameOfLife::tick]. *)
Fixpoint ticks (n : nat) (g : GameOfLife.t) : outcome GameOfLife.t :=
  match n with
  | O => Done g
  | S n' => g' ← ticks n' g; GameOfLife.tick g'
  end.

(** Two characters that differ at most by case. *)
Definition same_letter (a b : ascii) : Prop :=
  a = b ∨
  ((65 <= nat_of_ascii a <= 90)%nat ∧ nat_of_ascii b = (nat_of_ascii a + 32)%nat) ∨
  ((65 <= nat_of_ascii b <= 90)%nat ∧ nat_of_ascii a = (nat_of_ascii b + 32)%nat).

(** [s] spells [name] up to case. *)
Fixpoint spells (name s : string) : Prop :=
  match name, s with
  | EmptyString, EmptyString => True
  | String a name', String b s' => same_letter a b ∧ spells name' s'
  | _, _ => False
  end.

(** The name each engine is selected by. *)
Definition engine_name (e : EngineType) : string :=
  match e with
  | Hashtable => "hashtable"
  | Sorted => "sorted"
  | Hashlife => "hashlife"
  end.

(** Either of the two engines that count neighbours cell by cell. *)
Definition counting_engine (e : EngineType) : Prop :=
  e = Hashtable ∨ e = Sorted.

(** All characters are lower-case letters. *)
Fixpoint lower_name (name : string) : Prop :=
  match name with
  | EmptyString => True
  | String a name' => (97 <= nat_of_ascii a <= 122)%nat ∧ lower_name name'
  end.

(** A boundary cell next to a vertical blinker. *)
Definition boundary_trap : CellSet :=
  {[ Cell.mk INT64_MAX 0;
     Cell.mk (INT64_MAX - 1) (-1); Cell.mk (INT64_MAX - 1) 0;
     Cell.mk (INT64_MAX - 1) 1 ]}.

(** ** What a node of the pool stands for *)

Module Quad.
Import HashLife.

(** A square of cells as a value: a single cell, or four squares of equal
    size in the order NW, NE, SW, SE. *)
Inductive qt :=
  | QLeaf (alive : bool)
  | QNode (a b c d : qt).

Fixpoint depth (t : qt) : nat :=
  match t with
  | QLeaf _ => O
  | QNode a _ _ _ => S (depth a)
  end.

(** [t] is a complete quadtree of level [k]. *)
Fixpoint full (k : nat) (t : qt) : Prop :=
  match k, t with
  | O, QLeaf _ => True
  | S k', QNode a b c d => full k' a ∧ full k' b ∧ full k' c ∧ full k' d
  | _, _ => False
  end.

(** Number of alive cells. *)
Fixpoint pop (t : qt) : Z :=
  match t with
  | QLeaf b => if b then 1 else 0
  | QNode a b c d => pop a + pop b + pop c + pop d
  end.

(** The cell in column [x] and row [y] of the square, counted from its
    north-west corner. *)
Fixpoint alive_at (t : qt) (x y : Z) : bool :=
  match t with
  | QLeaf b => b
  | QNode a b c d =>
      let h := 2 ^ Z.of_nat (depth a) in
      if y <? h then (if x <? h then alive_at a x y else alive_at b (x - h) y)
      else (if x <? h then alive_at c x (y - h) else alive_at d (x - h) (y - h))
  end.

Fixpoint empty_t (k : nat) : qt :=
  match k with
  | O => QLeaf false
  | S k' => QNode (empty_t k') (empty_t k') (empty_t k') (empty_t k')
  end.

Definition nw_t (t : qt) : qt := match t with QNode a _ _ _ => a | _ => t end.
Definition ne_t (t : qt) : qt := match t with QNode _ b _ _ => b | _ => t end.
Definition sw_t (t : qt) : qt := match t with QNode _ _ c _ => c | _ => t end.
Definition se_t (t : qt) : qt := match t with QNode _ _ _ d => d | _ => t end.

(** The square [center] builds. *)
Definition center_t (t : qt) : qt :=
  QNode (se_t (nw_t t)) (sw_t (ne_t t)) (ne_t (sw_t t)) (nw_t (se_t t)).

(** The array [g] that [step_4x4] fills. *)
Definition grid_t (t : qt) : list (list Z) :=
  let g f h := to_int (pop (h (f t))) in
  [[g nw_t nw_t; g nw_t sw_t; g sw_t nw_t; g sw_t sw_t];
   [g nw_t ne_t; g nw_t se_t; g sw_t ne_t; g sw_t se_t];
   [g ne_t nw_t; g ne_t sw_t; g se_t nw_t; g se_t sw_t];
   [g ne_t ne_t; g ne_t se_t; g se_t ne_t; g se_t se_t]].

(** The square [step_4x4] builds. *)
Definition step_4x4_t (t : qt) : qt :=
  let g := grid_t t in
  QNode (QLeaf (life_rule g 1 1)) (QLeaf (life_rule g 2 1))
        (QLeaf (life_rule g 1 2)) (QLeaf (life_rule g 2 2)).

(** The square [slow_step] builds for a square of level [k + 2]. *)
Fixpoint step_at (k : nat) (t : qt) : qt :=
  if pop t =? 0 then empty_t (depth t - 1) else
  match k with
  | O => step_4x4_t t
  | S k' =>
      let n00 := nw_t t in
      let n01 := ne_t t in
      let n10 := sw_t t in
      let n11 := se_t t in
      let c01 := QNode (ne_t n00) (nw_t n01) (se_t n00) (sw_t n01) in
      let c10 := QNode (sw_t n00) (se_t n00) (nw_t n10) (ne_t n10) in
      let c11 := QNode (se_t n00) (sw_t n01) (ne_t n10) (nw_t n11) in
      let c12 := QNode (sw_t n01) (se_t n01) (nw_t n11) (ne_t n11) in
      let c21 := QNode (ne_t n10) (nw_t n11) (se_t n10) (sw_t n11) in
      let r00 := center_t n00 in
      let r01 := center_t c01 in
      let r02 := center_t n01 in
      let r10 := center_t c10 in
      let r11 := center_t c11 in
      let r12 := center_t c12 in
      let r20 := center_t n10 in
      let r21 := center_t c21 in
      let r22 := center_t n11 in
      QNode (step_at k' (QNode r00 r01 r10 r11))
            (step_at k' (QNode r01 r02 r11 r12))
            (step_at k' (QNode r10 r11 r20 r21))
            (step_at k' (QNode r11 r12 r21 r22))
  end.

Definition step_t (t : qt) : qt := step_at (depth t - 2) t.

(** The transition rule on a grid of cells: the number of alive cells
    among the eight around (x, y), and the state of (x, y) one generation
    later. *)
Definition around (g : Z → Z → bool) (x y : Z) : Z :=
  Z.b2z (g (x - 1) (y - 1)) + Z.b2z (g x (y - 1)) + Z.b2z (g (x + 1) (y - 1)) +
  Z.b2z (g (x - 1) y)                             + Z.b2z (g (x + 1) y) +
  Z.b2z (g (x - 1) (y + 1)) + Z.b2z (g x (y + 1)) + Z.b2z (g (x + 1) (y + 1)).

Definition next_alive (g : Z → Z → bool) (x y : Z) : bool :=
  (around g x y =? 3) || ((around g x y =? 2) && g x y).

(** Pointer [p] of pool [P] is the root of the square [t]. *)
Fixpoint repr (P : NodePool) (p : ptr) (t : qt) : Prop :=
  match t with
  | QLeaf b => p = if b then alive_cell_ P else dead_cell_ P
  | QNode ta tb tc td =>
      (2 <= p)%nat ∧
      ∃ n a b c d,
        arena P !! p = Some n ∧
        nw n = Some a ∧ ne n = Some b ∧ sw n = Some c ∧ se n = Some d ∧
        repr P a ta ∧ repr P b tb ∧ repr P c tc ∧ repr P d td
  end.

(** The node is one of the two leaves. *)
Definition leaf_node (n : QuadNode) (pop : Z) : Prop :=
  level n = O ∧ population n = pop ∧
  nw n = None ∧ ne n = None ∧ sw n = None ∧ se n = None ∧
  step1_result n = None.

(** The node at position [i] is a composite node made by [make]: its
    children were allocated before it, are of the level below, its
    population is the sum of theirs, and the table of canonical nodes maps
    its four children to it. *)
Definition made_node (P : NodePool) (i : ptr) (n : QuadNode) : Prop :=
  ∃ a b c d na nb nc nd,
    nw n = Some a ∧ ne n = Some b ∧ sw n = Some c ∧ se n = Some d ∧
    (a < i)%nat ∧ (b < i)%nat ∧ (c < i)%nat ∧ (d < i)%nat ∧
    arena P !! a = Some na ∧ arena P !! b = Some nb ∧
    arena P !! c = Some nc ∧ arena P !! d = Some nd ∧
    level n = S (level na) ∧ level nb = level na ∧
    level nc = level na ∧ level nd = level na ∧
    population n = population na + population nb + population nc + population nd ∧
    canon_ P !! (a, b, c, d) = Some i.

(** The invariant of the pool between two calls of its operations. *)
Record pool_ok (P : NodePool) : Prop := {
  ok_dead : dead_cell_ P = 0%nat ∧ ∃ n, arena P !! 0%nat = Some n ∧ leaf_node n 0;
  ok_alive : alive_cell_ P = 1%nat ∧ ∃ n, arena P !! 1%nat = Some n ∧ leaf_node n 1;
  ok_made : ∀ i n, arena P !! i = Some n → (2 <= i)%nat → made_node P i n;
  ok_canon : ∀ a b c d i, canon_ P !! (a, b, c, d) = Some i →
      (2 <= i)%nat ∧
      ∃ n, arena P !! i = Some n ∧
           nw n = Some a ∧ ne n = Some b ∧ sw n = Some c ∧ se n = Some d;
  ok_memo : ∀ i n r, arena P !! i = Some n → step1_result n = Some r →
      ∃ t, repr P i t ∧ (2 <= depth t)%nat ∧ repr P r (step_t t);
  ok_cache : ∀ l p, empty_cache_ P !! l = Some (Some p) → repr P p (empty_t l)
}.

(** [P'] is a later state of the pool [P]: nodes stay where they are and
    keep their fields, a memoised result once set stays, canonical entries
    stay. *)
Record extends (P P' : NodePool) : Prop := {
  ext_dead : dead_cell_ P' = dead_cell_ P;
  ext_alive : alive_cell_ P' = alive_cell_ P;
  ext_arena : ∀ i n, arena P !! i = Some n →
      ∃ n', arena P' !! i = Some n' ∧
            level n' = level n ∧ population n' = population n ∧
            nw n' = nw n ∧ ne n' = ne n ∧ sw n' = sw n ∧ se n' = se n ∧
            (∀ r, step1_result n = Some r → step1_result n' = Some r);
  ext_canon : ∀ k i, canon_ P !! k = Some i → canon_ P' !! k = Some i;
  ext_cache : (length (empty_cache_ P) <= length (empty_cache_ P'))%nat
}.

(** Running [m] in pool [P] returns, in a pool that is again well formed
    and a later state of [P], a value that satisfies [Q]. *)
Definition returns {A} (m : M A) (P : NodePool) (Q : A → NodePool → Prop) : Prop :=
  ∃ a P', m P = Done (a, P') ∧ pool_ok P' ∧ extends P P' ∧ Q a P'.

(** Running [m] in pool [P]: whenever it returns, the pool is again well
    formed and a later state of [P], and the value satisfies [Q]; and when
    [total] is set, it does return. *)
Definition runs (total : bool) {A} (m : M A) (P : NodePool)
           (Q : A → NodePool → Prop) : Prop :=
  (total = true → ∃ a P', m P = Done (a, P')) ∧
  ∀ a P', m P = Done (a, P') → pool_ok P' ∧ extends P P' ∧ Q a P'.

(** The pool after [make] has allocated a node for a new key. *)
Definition pushed (P : NodePool) (n : QuadNode) (key : NodeKey) : NodePool :=
  mkPool (arena P ++ [n]) (<[key := length (arena P)]> (canon_ P))
         (empty_cache_ P) (dead_cell_ P) (alive_cell_ P).

(** A pool that differs from [P] in its cache of empty nodes only. *)
Definition with_cache (P : NodePool) (cache : list (option ptr)) : NodePool :=
  mkPool (arena P) (canon_ P) cache (dead_cell_ P) (alive_cell_ P).

(** A child field of a node and the quadrant it selects. *)
Inductive sel : (QuadNode → option ptr) → (qt → qt) → Prop :=
  | sel_nw : sel nw nw_t
  | sel_ne : sel ne ne_t
  | sel_sw : sel sw sw_t
  | sel_se : sel se se_t.

(** Some complete square of level [k] is at [p]. *)
Definition holds (k : nat) (p : ptr) (P : NodePool) : Prop :=
  ∃ t, repr P p t ∧ full k t.

(** A computation that leaves the pool as it is. *)
Definition reads {A} (m : M A) : Prop :=
  ∀ P a P', m P = Done (a, P') → P' = P.

(** The memo field of the node at [p] holds [r]. *)
Definition memo_is (P : NodePool) (p r : ptr) : Prop :=
  ∃ n, arena P !! p = Some n ∧ step1_result n = Some r.

(** [slow_step] on a square of level [k + 2] with enough fuel. *)
Definition slow_step_ok (total : bool) (k : nat) : Prop :=
  ∀ fuel P p t,
    pool_ok P → repr P p t → full (k + 2) t →
    (total = true → (k + 2 <= 31)%nat ∧ (k < fuel)%nat) →
    runs total (slow_step fuel p) P
         (λ r P', repr P' r (step_at k t) ∧ memo_is P' p r).

(** The square [u] shows the part of the square [t] whose north-west
    corner is at column [x0], row [y0]. *)
Definition window (t u : qt) (x0 y0 : Z) : Prop :=
  ∀ x y, 0 <= x < 2 ^ Z.of_nat (depth u) → 0 <= y < 2 ^ Z.of_nat (depth u) →
         alive_at u x y = alive_at t (x0 + x) (y0 + y).

(** A quadrant and its position, in units of the quadrant's side. *)
Inductive pos : (qt → qt) → Z → Z → Prop :=
  | pos_nw : pos nw_t 0 0
  | pos_ne : pos ne_t 1 0
  | pos_sw : pos sw_t 0 1
  | pos_se : pos se_t 1 1.

End Quad.

(** A 4x4 square that holds a horizontal blinker in its second row, built
    in a fresh pool. *)
Definition blinker_square : HashLife.M HashLife.ptr :=
  a ← HashLife.make 0%nat 0%nat 1%nat 1%nat;
  b ← HashLife.make 0%nat 0%nat 1%nat 0%nat;
  c ← HashLife.make 0%nat 0%nat 0%nat 0%nat;
  HashLife.make a b c c.

Definition blinker_tree : Quad.qt :=
  let l := Quad.QLeaf in
  Quad.QNode (Quad.QNode (l false) (l false) (l true) (l true))
             (Quad.QNode (l false) (l false) (l true) (l false))
             (Quad.QNode (l false) (l false) (l false) (l false))
             (Quad.QNode (l false) (l false) (l false) (l false)).

(** The pool and the root pointer that [blinker_square] leaves. *)
Definition blinker_pool : HashLife.NodePool :=
  match blinker_square HashLife.clear with
  | Done (_, P) => P
  | Fault _ => HashLife.clear
  end.

Definition blinker_root : HashLife.ptr :=
  match blinker_square HashLife.clear with
  | Done (p, _) => p
  | Fault _ => 0%nat
  end.

(** The pool that a tick of the quadtree engine on the blinker leaves. *)
Definition blinker_tick_pool : HashLife.NodePool :=
  match HashLife.tick_in_pool blinker HashLife.clear with
  | Done (_, P) => P
  | Fault _ => HashLife.clear
  end.

(** ** Cell hashing ([include/game_of_life.h]) *)

(** [static_cast<uint64_t>(v)], and the wrap-around of unsigned 64-bit
    arithmetic. *)
Definition to_uint64 (v : Z) : Z := v `mod` 2 ^ 64.

Definition kHashMultiplier : Z := 0x9e3779b97f4a7c15.

(** [CellHash::operator()]; [size_t] is 64 bits wide. *)
Definition CellHash (cell : Cell) : Z :=
  let h := to_uint64 (Cell.x cell) in
  let h := Z.lxor h (to_uint64 (to_uint64 (Cell.y cell) * kHashMultiplier)) in
  let h := Z.lxor h (Z.shiftr h 33) in
  let h := to_uint64 (h * 0xff51afd7ed558ccd) in
  let h := Z.lxor h (Z.shiftr h 33) in
  let h := to_uint64 (h * 0xc4ceb9fe1a85ec53) in
  let h := Z.lxor h (Z.shiftr h 33) in
  h.

(** ** File names ([include/game_of_life.h], [src/main.cpp]) *)

(** [s.rfind(c)]: the position of the last occurrence of [c]; [npos] is
    [None]. *)
Fixpoint rfind (c : ascii) (s : string) : option nat :=
  match s with
  | EmptyString => None
  | String a s' =>
      match rfind c s' with
      | Some i => Some (S i)
      | None => if Ascii.eqb a c then Some O else None
      end
  end.

(** [s.substr(pos)] for a position inside the string, as [rfind] gives
    it. *)
Fixpoint substr (pos : nat) (s : string) : string :=
  match pos, s with
  | O, _ => s
  | S p, String _ s' => substr p s'
  | S _, EmptyString => EmptyString
  end.

(** [has_valid_life_extension] *)
Definition has_valid_life_extension (filename : string) : bool :=
  match rfind "." filename with
  | None => false
  | Some dot_pos =>
      let ext := substr dot_pos filename in
      String.eqb ext ".life" || String.eqb ext ".lif"
  end.

(** [get_file_extension] *)
Definition get_file_extension (path : string) : string :=
  match rfind "." path with
  | None => EmptyString
  | Some dot => lowercase (substr dot path)
  end.

(** The string holds no dot. *)
Fixpoint dotless (s : string) : bool :=
  match s with
  | EmptyString => true
  | String a s' => negb (Ascii.eqb a ".") && dotless s'
  end.

(** ** Clamped arithmetic ([src/main.cpp]) *)

(** [safe_sub]; [&&] evaluates its right operand only when the left one
    holds. *)
Definition safe_sub (a b : Z) : outcome Z :=
  under ← (if 0 <? b then lim ← add64 INT64_MIN b; Done (a <? lim) else Done false);
  if (under : bool) then Done INT64_MIN else
  over ← (if b <? 0 then lim ← add64 INT64_MAX b; Done (lim <? a) else Done false);
  if (over : bool) then Done INT64_MAX else sub64 a b.

(** [safe_add] *)
Definition safe_add (a b : Z) : outcome Z :=
  over ← (if 0 <? b then lim ← sub64 INT64_MAX b; Done (lim <? a) else Done false);
  if (over : bool) then Done INT64_MAX else
  under ← (if b <? 0 then lim ← sub64 INT64_MIN b; Done (a <? lim) else Done false);
  if (under : bool) then Done INT64_MIN else add64 a b.

(** The nearest [int64_t] value. *)
Definition clamp64 (z : Z) : Z := Z.max INT64_MIN (Z.min INT64_MAX z).

(** ** Bounding box ([src/renderer.cpp]) *)

(** [get_bounding_box]: the flag it returns and the four output
    parameters; the loop is the one of [step_cluster]. *)
Definition get_bounding_box (game : GameOfLife.t) : bool * (Z * Z * Z * Z) :=
  let cells := GameOfLife.live_cells_ game in
  if bool_decide (cells = ∅) then (false, (0, 0, 0, 0))
  else (true, HashLife.bounding_box (elements cells)).

(** ** Squares of the plane and the cells they show *)

Module Region.
Import HashLife Quad.

(** The cell lies in the square of side [size] whose north-west corner is
    (x, y). *)
Definition in_box (x y size : Z) (c : Cell) : Prop :=
  x <= Cell.x c < x + size ∧ y <= Cell.y c < y + size.

(** The square [t], laid with its north-west corner on (ox, oy), shows the
    alive-set [C]: a cell of the square is alive exactly when its place
    is in [C]. *)
Definition shows (t : qt) (ox oy : Z) (C : CellSet) : Prop :=
  ∀ i j, 0 <= i < 2 ^ Z.of_nat (depth t) → 0 <= j < 2 ^ Z.of_nat (depth t) →
         (alive_at t i j = true ↔ Cell.mk (ox + i) (oy + j) ∈ C).

(** The square [expand] builds: [t] in the middle of a border of dead
    cells that is half as wide as [t]. *)
Definition expand_t (t : qt) : qt :=
  let e := empty_t (depth t - 1) in
  QNode (QNode e e e (nw_t t)) (QNode e e (ne_t t) e)
        (QNode e (sw_t t) e e) (QNode (se_t t) e e e).

End Region.

(** ** The rule on an alive-set seen as a grid *)

(** The alive-set as a function of the two coordinates. *)
Definition grid_of (C : CellSet) (x y : Z) : bool :=
  bool_decide (Cell.mk x y ∈ C).

(** The cells of the set all lie in the square window of side 2^29 whose
    north-west corner is (a, b). *)
Definition in_window (a b : Z) (C : CellSet) : Prop :=
  forallb (λ c, (a <=? Cell.x c) && (Cell.x c <? a + 2 ^ 29) &&
                (b <=? Cell.y c) && (Cell.y c <? b + 2 ^ 29))
          (elements C) = true.

(** Where such a window may lie. *)
Definition window_origin (a : Z) : Prop := - 2 ^ 62 <= a <= 2 ^ 62.

(** ** The union-find forest over the buckets *)

Module UnionFind.
Import HashLife.

(** [r] is the root that the chain of parents of [k] ends in. *)
Inductive root_of (parent : Parent) : ChunkKey → ChunkKey → Prop :=
  | root_self k : parent !! k = Some k → root_of parent k k
  | root_step k p r :
      parent !! k = Some p → p ≠ k → root_of parent p r → root_of parent k r.

(** Two buckets are in the same class. *)
Definition same (parent : Parent) (j1 j2 : ChunkKey) : Prop :=
  ∃ r, root_of parent j1 r ∧ root_of parent j2 r.

(** The parent map over the keys [D] has no cycle other than the loops at
    the roots: a rank grows strictly along every parent link. *)
Record forest (D : gset ChunkKey) (rank : ChunkKey → nat) (parent : Parent) : Prop := {
  f_dom : dom parent = D;
  f_in : ∀ k p, parent !! k = Some p → p ∈ D;
  f_rank : ∀ k p, parent !! k = Some p → p ≠ k → (rank k < rank p)%nat
}.

(** No two keys of one class of [p] are in different classes of [p']. *)
Definition grows (p p' : Parent) : Prop :=
  ∀ j1 j2, same p j1 j2 → same p' j1 j2.

(** The parent map is a forest over [D], for some rank. *)
Definition is_forest (D : gset ChunkKey) (parent : Parent) : Prop :=
  ∃ rank, forest D rank parent.

(** How many keys rank above [k]: a bound on the length of its chain. *)
Definition above (D : gset ChunkKey) (rank : ChunkKey → nat) (k : ChunkKey) : nat :=
  size (filter (λ j, (rank k < rank j)%nat) D).

(** The bucket of a cell. *)
Definition chunk_of (c : Cell) : ChunkKey :=
  ChunkKey.mk (Cell.x c `div` 64) (Cell.y c `div` 64).

(** Two buckets that touch, by a side or a corner. *)
Definition touching (k1 k2 : ChunkKey) : Prop :=
  -1 <= ChunkKey.cx k2 - ChunkKey.cx k1 <= 1 ∧
  -1 <= ChunkKey.cy k2 - ChunkKey.cy k1 <= 1.

End UnionFind.

(** The cells of the set all lie in the square of side [w] whose
    north-west corner is (a, b). *)
Definition within (a b w : Z) (C : CellSet) : Prop :=
  forallb (λ c, (a <=? Cell.x c) && (Cell.x c <? a + w) &&
                (b <=? Cell.y c) && (Cell.y c <? b + w))
          (elements C) = true.

Definition glider : CellSet :=
  {[ Cell.mk 0 1; Cell.mk 1 2; Cell.mk 2 0; Cell.mk 2 1; Cell.mk 2 2 ]}.

(** Two gliders, a little less than 2^29 cells apart. *)
Definition far_gliders : CellSet :=
  glider ∪ {[ Cell.mk 500000000 500000001; Cell.mk 500000001 500000002;
              Cell.mk 500000002 500000000; Cell.mk 500000002 500000001;
              Cell.mk 500000002 500000002 ]}.

(** A forest of two buckets, the first hanging under the second. *)
Definition two_buckets : HashLife.Parent :=
  {[ HashLife.ChunkKey.mk 0 0 := HashLife.ChunkKey.mk 1 0;
     HashLife.ChunkKey.mk 1 0 := HashLife.ChunkKey.mk 1 0 ]}.

Definition two_keys : gset HashLife.ChunkKey :=
  {[ HashLife.ChunkKey.mk 0 0; HashLife.ChunkKey.mk 1 0 ]}.

Definition two_ranks (k : HashLife.ChunkKey) : nat :=
  Z.to_nat (HashLife.ChunkKey.cx k).

(** ** Life 1.06 text: parsing and writing ([src/game_of_life.cpp]) *)

(** A stream or a [std::string] is the [string] of its bytes; a
    [const char*] into a line is the suffix of the line that starts at
    it, so [line_end] is the empty suffix and two pointers into one line
    are equal exactly when their suffixes have one length. *)

Module LifeText.

Definition nl : ascii := "010"%char.
Definition tab : ascii := "009"%char.
Definition cr : ascii := "013"%char.

(** [std::getline(input, line)]: the bytes up to the first newline, which
    is extracted and dropped, or up to the end of the input; it fails
    (the loop ends) when nothing at all could be extracted. *)
Fixpoint getline_chars (input : string) : string * string :=
  match input with
  | EmptyString => (EmptyString, EmptyString)
  | String c rest =>
      if Ascii.eqb c nl then (EmptyString, rest)
      else let '(line, rest') := getline_chars rest in (String c line, rest')
  end.

Definition getline (input : string) : option (string * string) :=
  match input with
  | EmptyString => None
  | _ => Some (getline_chars input)
  end.

Definition is_blank (c : ascii) : bool := Ascii.eqb c " " || Ascii.eqb c tab.

Definition is_space (c : ascii) : bool :=
  is_blank c || Ascii.eqb c cr || Ascii.eqb c nl.

(** [line.find_last_not_of(" \t\r\n")]; [None] is [npos]. *)
Fixpoint find_last_not_of (line : string) : option nat :=
  match line with
  | EmptyString => None
  | String c line' =>
      match find_last_not_of line' with
      | Some i => Some (S i)
      | None => if is_space c then None else Some O
      end
  end.

(** [line.resize(n)]: the first [n] bytes, filled up with NUL bytes. *)
Fixpoint resize (n : nat) (s : string) : string :=
  match n with
  | O => EmptyString
  | S n' =>
      match s with
      | String c s' => String c (resize n' s')
      | EmptyString => String Ascii.zero (resize n' EmptyString)
      end
  end.

(** The loops that advance [ptr] over spaces and tabs, up to [line_end]. *)
Fixpoint skip_blanks (ptr : string) : string :=
  match ptr with
  | String c ptr' => if is_blank c then skip_blanks ptr' else ptr
  | EmptyString => EmptyString
  end.

Definition same_pos (p q : string) : bool :=
  (String.length p =? String.length q)%nat.

Definition is_digit (c : ascii) : bool :=
  let n := nat_of_ascii c in ((48 <=? n) && (n <=? 57))%nat.

Definition digit_val (c : ascii) : Z := Z.of_nat (nat_of_ascii c) - 48.

(** The digits at the front of [s]: their value on top of [acc], their
    number on top of [n], and what follows them. *)
Fixpoint scan_digits (s : string) (acc : Z) (n : nat) : Z * nat * string :=
  match s with
  | String c s' =>
      if is_digit c then scan_digits s' (acc * 10 + digit_val c) (S n)
      else (acc, n, s)
  | EmptyString => (acc, n, s)
  end.

Inductive errc := errc_ok | invalid_argument | result_out_of_range.

(** [std::from_chars(first, last, value)] for [int64_t] in base 10: an
    optional minus sign and the longest run of digits.  Without a digit
    it returns [first] and [invalid_argument]; with a value outside the
    int64 range, the end of the digits and [result_out_of_range]. *)
Definition from_chars (first : string) : string * errc * Z :=
  let '(neg, body) :=
    match first with
    | String c s' => if Ascii.eqb c "-" then (true, s') else (false, first)
    | EmptyString => (false, first)
    end in
  let '(v, n, rest) := scan_digits body 0 0 in
  if (n =? 0)%nat then (first, invalid_argument, 0)
  else
    let value := if (neg : bool) then - v else v in
    if in_int64 value then (rest, errc_ok, value)
    else (rest, result_out_of_range, 0).

Definition malformed (line : string) : string :=
  "Invalid Life 1.06 file: malformed coordinate line '" +:+ line +:+ "'".

Definition trailing (line : string) : string :=
  "Invalid Life 1.06 file: unexpected content after coordinates '" +:+ line +:+ "'".

Definition bad_header : string :=
  "Invalid Life 1.06 file: missing or invalid header (expected '#Life 1.06')".

Definition no_header : string :=
  "Invalid Life 1.06 file: empty or missing header".

(** The body of the loop of [parse_cells] for a coordinate line. *)
Definition parse_line (line : string) : result unit Cell :=
  let ptr := skip_blanks line in
  let '(p1, ec1, x) := from_chars ptr in
  match ec1 with
  | errc_ok =>
      let ptr := skip_blanks p1 in
      if same_pos ptr p1 then Threw (malformed line) tt
      else
        let '(p2, ec2, y) := from_chars ptr in
        match ec2 with
        | errc_ok =>
            let ptr := skip_blanks p2 in
            if negb (same_pos ptr EmptyString) then Threw (trailing line) tt
            else Returned (Cell.mk x y)
        | _ => Threw (malformed line) tt
        end
  | _ => Threw (malformed line) tt
  end.

(** [while (std::getline(input, line)) ...] *)
Fixpoint parse_loop (fuel : nat) (input : string) (header_found : bool)
         (cells : CellSet) : result unit CellSet :=
  match fuel with
  | O => Faulted OutOfFuel
  | S fuel' =>
      match getline input with
      | None => if header_found then Returned cells else Threw no_header tt
      | Some (line, rest) =>
          match find_last_not_of line with
          | None => parse_loop fuel' rest header_found cells
          | Some e =>
              let line := resize (e + 1) line in
              if negb header_found then
                if negb (String.eqb line "#Life 1.06") then Threw bad_header tt
                else parse_loop fuel' rest true cells
              else
                match parse_line line with
                | Returned c => parse_loop fuel' rest header_found ({[ c ]} ∪ cells)
                | Threw what _ => Threw what tt
                | Faulted f => Faulted f
                end
          end
      end
  end.

(** [GameOfLife::parse_cells]; a pass of the loop consumes a byte at
    least. *)
Definition parse_cells (input : string) : result unit CellSet :=
  parse_loop (S (String.length input)) input false ∅.

(** [GameOfLife::parse(input, engine)] *)
Definition parse (input : string) (engine : EngineType) : result unit GameOfLife.t :=
  match parse_cells input with
  | Returned cells => Returned (GameOfLife.mk cells engine)
  | Threw what _ => Threw what tt
  | Faulted f => Faulted f
  end.

(** *** Writing *)

Definition digit_char (d : Z) : ascii := ascii_of_nat (Z.to_nat (d + 48)).

(** The decimal digits of [n] in front of [acc]. *)
Fixpoint digits (fuel : nat) (n : Z) (acc : string) : string :=
  match fuel with
  | O => acc
  | S fuel' =>
      let acc' := String (digit_char (n `mod` 10)) acc in
      if n <? 10 then acc' else digits fuel' (n `div` 10) acc'
  end.

(** What [std::to_chars] writes for an [int64_t]: a minus sign for a
    negative value, and the digits without leading zeros (19 at most). *)
Definition decimal (value : Z) : string :=
  if value <? 0 then String "-" (digits 19 (- value) EmptyString)
  else digits 19 value EmptyString.

(** [std::to_chars(first, last, value)] with [room = last - first]:
    [None] is [value_too_large], where the pointer returned is [last]. *)
Definition to_chars (room : Z) (value : Z) : option string :=
  let s := decimal value in
  if Z.of_nat (String.length s) <=? room then Some s else None.

Definition kBufSize : Z := 8192.
Definition kMaxLineLen : Z := 44.
Definition kHeader : string := "#Life 1.06" +:+ String nl EmptyString.

(** The stream written so far, and the bytes of [buf] below [pos]. *)
Record writer := mkWriter { out : string; buf : string }.

(** [end - pos] *)
Definition room (w : writer) : Z := kBufSize - Z.of_nat (String.length (buf w)).

Definition flush (w : writer) : writer :=
  mkWriter (out w +:+ buf w) EmptyString.

(** The store of one byte at the pointer, which then advances. *)
Definition store (c : ascii) (w : writer) : outcome writer :=
  if 0 <? room w then Done (mkWriter (out w) (buf w +:+ String c EmptyString))
  else Fault OutOfBounds.

(** [to_chars] at [pos]; after [value_too_large] the next store is at
    [end], outside the buffer. *)
Definition put_number (value : Z) (w : writer) : outcome writer :=
  match to_chars (room w) value with
  | Some s => Done (mkWriter (out w) (buf w +:+ s))
  | None => Fault OutOfBounds
  end.

(** The lambda [write_cell] *)
Definition write_cell (w : writer) (cell : Cell) : outcome writer :=
  let w := if room w <? kMaxLineLen then flush w else w in
  w ← put_number (Cell.x cell) w;
  w ← store " " w;
  w ← put_number (Cell.y cell) w;
  store nl w.

(** [GameOfLife::write(out, sorted)]: what the stream has received. *)
Definition write (live_cells_ : CellSet) (sorted : bool) : outcome string :=
  let w := mkWriter EmptyString kHeader in
  w ← foldM write_cell w
        (if sorted then SortedVectorEngine.sort_cells (elements live_cells_)
         else elements live_cells_);
  Done (out (if (0 <? String.length (buf w))%nat then flush w else w)).

(** [GameOfLife::format] *)
Definition format (g : GameOfLife.t) : outcome string :=
  write (GameOfLife.live_cells_ g) false.

(** The line [write] emits for a cell. *)
Definition cell_line (c : Cell) : string :=
  decimal (Cell.x c) +:+ String " " (decimal (Cell.y c) +:+ String nl EmptyString).

Fixpoint concat_lines (l : list string) : string :=
  match l with
  | [] => EmptyString
  | s :: l' => s +:+ concat_lines l'
  end.

(** Both coordinates of every cell are int64 values. *)
Definition cells_int64 (cells : list Cell) : Prop :=
  forallb (λ c, in_int64 (Cell.x c) && in_int64 (Cell.y c)) cells = true.

(** The lines that [parse_cells] accepts after the header: blank ones,
    and two decimal numbers with blanks around and between them. *)
Inductive item :=
  | Blank (ws : string)
  | Entry (lead : string) (c : Cell) (sep : string) (trail : string).

Fixpoint all_chars (p : ascii → bool) (s : string) : bool :=
  match s with
  | EmptyString => true
  | String c s' => p c && all_chars p s'
  end.

Definition inline_space (c : ascii) : bool := is_blank c || Ascii.eqb c cr.

Definition item_ok (i : item) : bool :=
  match i with
  | Blank ws => all_chars inline_space ws
  | Entry lead c sep trail =>
      all_chars is_blank lead && in_int64 (Cell.x c) && in_int64 (Cell.y c) &&
      all_chars is_blank sep && negb (String.eqb sep EmptyString) &&
      all_chars inline_space trail
  end.

(** The next byte, if there is one, is no digit. *)
Definition digits_end (rest : string) : Prop :=
  match rest with
  | String c _ => is_digit c = false
  | EmptyString => True
  end.

Definition item_text (i : item) : string :=
  match i with
  | Blank ws => ws +:+ String nl EmptyString
  | Entry lead c sep trail =>
      lead +:+ decimal (Cell.x c) +:+ sep +:+ decimal (Cell.y c) +:+ trail
           +:+ String nl EmptyString
  end.

Definition item_cells (i : item) : list Cell :=
  match i with
  | Blank _ => []
  | Entry _ c _ _ => [c]
  end.

End LifeText.

(** ** Command-line numbers ([src/main.cpp]) *)

Definition INT_MAX : Z := 2147483647.

(** [isspace] in the "C" locale. *)
Definition isspace (c : ascii) : bool :=
  let n := nat_of_ascii c in ((n =? 32) || ((9 <=? n) && (n <=? 13)))%nat.

Fixpoint skip_spaces (s : string) : string :=
  match s with
  | String c s' => if isspace c then skip_spaces s' else s
  | EmptyString => EmptyString
  end.

(** The bytes [strtol] can consume: spaces, signs and digits. *)
Definition number_char (c : ascii) : bool :=
  isspace c || LifeText.is_digit c || Ascii.eqb c "+" || Ascii.eqb c "-".

(** [std::strtol(str, &end, 10)] with a 64-bit [long]: the value, [end],
    and whether [errno] was set to [ERANGE]. *)
Definition strtol (str : string) : Z * string * bool :=
  let s := skip_spaces str in
  let '(neg, body) :=
    match s with
    | String c s' =>
        if Ascii.eqb c "-" then (true, s')
        else if Ascii.eqb c "+" then (false, s') else (false, s)
    | EmptyString => (false, s)
    end in
  let '(v, n, rest) := LifeText.scan_digits body 0 0 in
  if (n =? 0)%nat then (0, str, false)
  else
    let value := if (neg : bool) then - v else v in
    if value <? INT64_MIN then (INT64_MIN, rest, true)
    else if INT64_MAX <? value then (INT64_MAX, rest, true)
    else (value, rest, false).

(** [parse_positive_int].  The argument is [None] for a null pointer,
    else the bytes before the terminating NUL; the result is [None] for
    [false], and [Some v] for [true] with [result = v]. *)
Definition parse_positive_int (str : option string) : option Z :=
  match str with
  | None => None
  | Some EmptyString => None
  | Some s =>
      let '(val, end_, erange) := strtol s in
      if negb (String.eqb end_ EmptyString) then None
      else if erange || (val <? 0) || (INT_MAX <? val) then None
      else Some val
  end.

(** ** Groups of cells that lie far apart *)

(** The cell lies in the window of side 2^29 whose north-west corner is
    [w], at least [n] cells away from its border. *)
Definition inside (n : Z) (w : Z * Z) (c : Cell) : bool :=
  (w.1 + n <=? Cell.x c) && (Cell.x c <? w.1 + 2 ^ 29 - n) &&
  (w.2 + n <=? Cell.y c) && (Cell.y c <? w.2 + 2 ^ 29 - n).

(** At least 128 cells lie between the two windows, in x or in y. *)
Definition windows_apart (w1 w2 : Z * Z) : bool :=
  (w1.1 + 2 ^ 29 + 128 <=? w2.1) || (w2.1 + 2 ^ 29 + 128 <=? w1.1) ||
  (w1.2 + 2 ^ 29 + 128 <=? w2.2) || (w2.2 + 2 ^ 29 + 128 <=? w1.2).

Definition window_ok (w : Z * Z) : bool :=
  (- 2 ^ 62 <=? w.1) && (w.1 <=? 2 ^ 62) && (- 2 ^ 62 <=? w.2) && (w.2 <=? 2 ^ 62).

(** Every cell of the set lies at least [n] cells inside one of the
    windows [ws], which lie between -2^62 and 2^62 and pairwise at least
    128 cells apart. *)
Definition well_inside (n : Z) (ws : list (Z * Z)) (C : CellSet) : Prop :=
  forallb window_ok ws = true ∧
  forallb (λ w1, forallb (λ w2, bool_decide (w1 = w2) || windows_apart w1 w2) ws) ws
    = true ∧
  forallb (λ c, existsb (λ w, inside n w c) ws) (elements C) = true.

Definition in_windows (ws : list (Z * Z)) (C : CellSet) : Prop :=
  well_inside 0 ws C.

(** The bucket [k] and the window at [w] have a cell in common. *)
Definition meets (k : HashLife.ChunkKey) (w : Z * Z) : Prop :=
  w.1 < 64 * (HashLife.ChunkKey.cx k + 1) ∧ 64 * HashLife.ChunkKey.cx k < w.1 + 2 ^ 29 ∧
  w.2 < 64 * (HashLife.ChunkKey.cy k + 1) ∧ 64 * HashLife.ChunkKey.cy k < w.2 + 2 ^ 29.

Global Instance meets_dec k w : Decision (meets k w).
Proof. unfold meets. apply _. Defined.

(** The windows that a bucket meets. *)
Definition windows_of (ws : list (Z * Z)) (k : HashLife.ChunkKey) : list (Z * Z) :=
  filter (meets k) ws.

Definition far_glider : CellSet :=
  {[ Cell.mk 1099511627776 1; Cell.mk 1099511627777 2; Cell.mk 1099511627778 0;
     Cell.mk 1099511627778 1; Cell.mk 1099511627778 2 ]}.

(** ** The viewport of the PNG frames ([src/main.cpp], [src/renderer.cpp]) *)

Definition INT_MIN : Z := -2147483648.

(** Arithmetic on [int]. *)
Definition chk32 (z : Z) : outcome Z :=
  if (INT_MIN <=? z) && (z <=? INT_MAX) then Done z else Fault SignedOverflow.

Definition MAX_RENDER_CELLS : Z := 10000.

(** The viewport that [main] fixes before the simulation, from the
    bounding box of the pattern, [render_config.padding] and
    [iterations]; [None] when it turns the rendering off. *)
Definition fixed_viewport (game : GameOfLife.t) (padding iterations : Z)
  : outcome (option (Z * Z * Z * Z)) :=
  let '(found, (vp_min_x, vp_max_x, vp_min_y, vp_max_y)) := get_bounding_box game in
  if (found : bool) then
    d ← sub64 vp_max_x vp_min_x;
    width ← add64 d 1;
    d ← sub64 vp_max_y vp_min_y;
    height ← add64 d 1;
    if (MAX_RENDER_CELLS <? width) || (MAX_RENDER_CELLS <? height) then Done None
    else
      growth_padding ← chk32 (padding + Z.quot iterations 2);
      vp_min_x ← safe_sub vp_min_x growth_padding;
      vp_max_x ← safe_add vp_max_x growth_padding;
      vp_min_y ← safe_sub vp_min_y growth_padding;
      vp_max_y ← safe_add vp_max_y growth_padding;
      Done (Some (vp_min_x, vp_max_x, vp_min_y, vp_max_y))
  else Done (Some (-50, 50, -50, 50)).

(** The guard of [render_frame_fixed_viewport] for one axis; [&&]
    evaluates its right operand only when the left one holds. *)
Definition span_guard (min_v max_v : Z) : outcome bool :=
  if (0 <? max_v) && (min_v <? 0) then
    lim ← add64 INT64_MAX min_v; Done (lim <? max_v)
  else Done false.

(** The head of [render_frame_fixed_viewport], up to the sanity check of
    the dimensions: [None] is [return false], else the width and the
    height of the viewport in cells. *)
Definition viewport_cells (max_cells_dimension min_x max_x min_y max_y : Z)
  : outcome (option (Z * Z)) :=
  over ← span_guard min_x max_x;
  if (over : bool) then Done None else
  over ← span_guard min_y max_y;
  if (over : bool) then Done None else
  d ← sub64 max_x min_x;
  width_cells ← add64 d 1;
  d ← sub64 max_y min_y;
  height_cells ← add64 d 1;
  if (max_cells_dimension <? width_cells) || (max_cells_dimension <? height_cells) ||
     (width_cells <=? 0) || (height_cells <=? 0)
  then Done None
  else Done (Some (width_cells, height_cells)).

(** Two cells further apart than an [int64_t] can tell. *)
Definition wide_pair : CellSet :=
  {[ Cell.mk (-5000000000000000000) 0; Cell.mk 5000000000000000000 7 ]}.

(** ** The quadtree engine under either reading of signed overflow *)

(** Signed overflow is undefined in C++; [HashLife] above reads it as a
    fault.  [HashLifeAs] is the coordinate arithmetic of the same engine
    with the conversion [ov] of a mathematical result to [int64_t] as a
    parameter: [chk64] gives the reading above, [wrapped] the
    two's-complement wrap-around of the machine's arithmetic.  Nodes,
    pool and the one-generation step are those of [HashLife]. *)

Definition wrap64 (z : Z) : Z := (z + 2 ^ 63) `mod` 2 ^ 64 - 2 ^ 63.

Definition wrapped (z : Z) : outcome Z := Done (wrap64 z).

Module HashLifeAs.
Import HashLife.

(** [SortedCells::has_cell_in] *)
Definition has_cell_in (ov : Z → outcome Z) (cells : list Cell) (x y size : Z)
  : outcome bool :=
  let it := lower_bound (λ a b, Cell.x a <? Cell.x b) cells (Cell.mk x 0) in
  x_end ← ov (x + size);
  y_end ← ov (y + size);
  Done (scan_strip it x_end y y_end).

(** [HashLifeEngine::expand] *)
Definition expand (ov : Z → outcome Z) (node : ptr) (ox oy : Z) : M (ptr * Z * Z) :=
  n ← load node;
  half ← lift (match level n with
               | O => Fault BadShift
               | S l => shl1 l
               end);
  e ← empty_below (level n);
  ox ← lift (ov (ox - half));
  oy ← lift (ov (oy - half));
  n_nw ← child nw node;
  a ← make e e e n_nw;
  n_ne ← child ne node;
  b ← make e e n_ne e;
  n_sw ← child sw node;
  c ← make e n_sw e e;
  n_se ← child se node;
  d ← make n_se e e e;
  r ← make a b c d;
  mret (r, ox, oy).

(** [HashLifeEngine::build_recursive] *)
Definition build_recursive (ov : Z → outcome Z)
  : list Cell → Z → Z → nat → M ptr :=
  fix build_recursive (sorted : list Cell) (x y : Z) (lvl : nat) : M ptr :=
    size ← lift (shl1 lvl);
    has ← lift (has_cell_in ov sorted x y size);
    if negb has then empty_node lvl else
    match lvl with
    | O => leaf (contains sorted x y)
    | S lvl' =>
        let half := Z.shiftr size 1 in
        a ← build_recursive sorted x y lvl';
        xh ← lift (ov (x + half));
        b ← build_recursive sorted xh y lvl';
        yh ← lift (ov (y + half));
        c ← build_recursive sorted x yh lvl';
        xh ← lift (ov (x + half));
        yh ← lift (ov (y + half));
        d ← build_recursive sorted xh yh lvl';
        make a b c d
    end.

(** [HashLifeEngine::flatten] *)
Definition flatten (ov : Z → outcome Z)
  : nat → ptr → Z → Z → CellSet → M CellSet :=
  fix flatten (fuel : nat) (node : ptr) (x y : Z) (cells : CellSet) : M CellSet :=
    match fuel with
    | O => fail OutOfFuel
    | S fuel' =>
        n ← load node;
        if population n =? 0 then mret cells else
        match level n with
        | O => mret (if 0 <? population n then {[Cell.mk x y]} ∪ cells else cells)
        | S l =>
            half ← lift (shl1 l);
            n_nw ← child nw node;
            cells ← flatten fuel' n_nw x y cells;
            n_ne ← child ne node;
            xh ← lift (ov (x + half));
            cells ← flatten fuel' n_ne xh y cells;
            n_sw ← child sw node;
            yh ← lift (ov (y + half));
            cells ← flatten fuel' n_sw x yh cells;
            n_se ← child se node;
            xh ← lift (ov (x + half));
            yh ← lift (ov (y + half));
            flatten fuel' n_se xh yh cells
        end
    end.

(** [while (root->level < 2) root = expand(root, ox, oy);] *)
Definition expand_to_2 (ov : Z → outcome Z) : nat → ptr → Z → Z → M (ptr * Z * Z) :=
  fix expand_to_2 (fuel : nat) (root : ptr) (ox oy : Z) : M (ptr * Z * Z) :=
    match fuel with
    | O => fail OutOfFuel
    | S fuel' =>
        n ← load root;
        if (level n <? 2)%nat then
          '(root, ox, oy) ← expand ov root ox oy;
          expand_to_2 fuel' root ox oy
        else mret (root, ox, oy)
    end.

(** [HashLifeEngine::step_cluster] *)
Definition step_cluster (ov : Z → outcome Z) (cells : CellSet) : M CellSet :=
  if bool_decide (cells = ∅) then mret cells else
  let '(min_x, max_x, min_y, max_y) := bounding_box (elements cells) in
  range_x ← lift (d ← ov (max_x - min_x); ov (d + 1));
  range_y ← lift (d ← ov (max_y - min_y); ov (d + 1));
  let range := Z.max range_x range_y in
  lvl ← lift (grow_level 65 1 range);
  size ← lift (shl1 lvl);
  ox ← lift (d ← ov (size - range_x); q ← ov (Z.quot d 2); ov (min_x - q));
  oy ← lift (d ← ov (size - range_y); q ← ov (Z.quot d 2); ov (min_y - q));
  let sorted_ := build cells in
  root ← build_recursive ov sorted_ ox oy lvl;
  '(root, ox, oy) ← expand_to_2 ov 3 root ox oy;
  '(root, ox, oy) ← expand ov root ox oy;
  '(root, ox, oy) ← expand ov root ox oy;
  n ← load root;
  result ← slow_step (level n) root;
  quarter ← lift (match level n with
                  | S (S l) => shl1 l
                  | _ => Fault BadShift
                  end);
  rx ← lift (ov (ox + quarter));
  ry ← lift (ov (oy + quarter));
  r ← load result;
  flatten ov (S (level r)) result rx ry ∅.

(** [(v >= 0) ? v / CHUNK_SIZE : (v - CHUNK_SIZE + 1) / CHUNK_SIZE] *)
Definition chunk_index (ov : Z → outcome Z) (v : Z) : outcome Z :=
  if 0 <=? v then ov (Z.quot v CHUNK_SIZE)
  else d ← ov (v - CHUNK_SIZE); d ← ov (d + 1); ov (Z.quot d CHUNK_SIZE).

(** [chunks[{cx, cy}].push_back(cell)] *)
Definition bucket (ov : Z → outcome Z) (chunks : gmap ChunkKey (list Cell))
           (cell : Cell) : outcome (gmap ChunkKey (list Cell)) :=
  cx ← chunk_index ov (Cell.x cell);
  cy ← chunk_index ov (Cell.y cell);
  let k := ChunkKey.mk cx cy in
  Done (<[k := default [] (chunks !! k) ++ [cell]]> chunks).

(** Body of the merging loop for one chunk [key]. *)
Definition merge_around (ov : Z → outcome Z) (chunks : gmap ChunkKey (list Cell))
           (fuel : nat) (parent : Parent) (key : ChunkKey) : outcome Parent :=
  foldM (λ parent '(dx, dy),
           if (dx =? 0) && (dy =? 0) then Done parent else
           nx ← ov (ChunkKey.cx key + dx);
           ny ← ov (ChunkKey.cy key + dy);
           let neighbor := ChunkKey.mk nx ny in
           if bool_decide (is_Some (chunks !! neighbor))
           then unite fuel parent key neighbor
           else Done parent)
        parent offsets.

(** The final loop of [tick]. *)
Definition step_all (ov : Z → outcome Z)
  : list (ChunkKey * CellSet) → CellSet → M CellSet :=
  fix step_all (clusters : list (ChunkKey * CellSet)) (cells : CellSet) : M CellSet :=
    match clusters with
    | [] => mret cells
    | (_, cluster_cells) :: rest =>
        cluster_cells ← step_cluster ov cluster_cells;
        step_all rest (cluster_cells ∪ cells)
    end.

(** [HashLifeEngine::tick], from the pool state [clear] it starts with. *)
Definition tick_in_pool (ov : Z → outcome Z) (cells : CellSet) : M CellSet :=
  if bool_decide (cells = ∅) then mret cells else
  chunks ← lift (foldM (bucket ov) ∅ (elements cells));
  let parent : Parent :=
    foldl (λ parent '(key, _), <[key := key]> parent) ∅ (map_to_list chunks) in
  let fuel := S (size chunks) in
  parent ← lift (foldM (λ parent '(key, _), merge_around ov chunks fuel parent key)
                       parent (map_to_list chunks));
  '(_, clusters) ← lift (foldM (gather fuel) (parent, ∅) (map_to_list chunks));
  step_all ov (map_to_list clusters) ∅.

Definition tick (ov : Z → outcome Z) (cells : CellSet) : outcome CellSet :=
  match tick_in_pool ov cells clear with
  | Done (cells', _) => Done cells'
  | Fault e => Fault e
  end.

End HashLifeAs.

(** A vertical blinker two columns from the largest x. *)
Definition boundary_blinker : CellSet :=
  {[ Cell.mk (INT64_MAX - 2) (-1); Cell.mk (INT64_MAX - 2) 0;
     Cell.mk (INT64_MAX - 2) 1 ]}.

(** What the rule makes of it. *)
Definition boundary_blinker_turned : CellSet :=
  {[ Cell.mk (INT64_MAX - 3) 0; Cell.mk (INT64_MAX - 2) 0;
     Cell.mk (INT64_MAX - 1) 0 ]}.

(** * Verification *)

(** ** Checked arithmetic inside the int64 range *)

Section Int64Facts.

Lemma in_int64_spec z : in_int64 z = true ↔ INT64_MIN <= z <= INT64_MAX.
Proof. unfold in_int64. rewrite andb_true_iff, !Z.leb_le. tauto. Qed.

Lemma chk64_in z : INT64_MIN <= z <= INT64_MAX → chk64 z = Done z.
Proof. intros H. unfold chk64. apply in_int64_spec in H. by rewrite H. Qed.

Lemma would_overflow_false x y :
  would_overflow x y = false ↔
  x ≠ INT64_MIN ∧ x ≠ INT64_MAX ∧ y ≠ INT64_MIN ∧ y ≠ INT64_MAX.
Proof.
  unfold would_overflow. rewrite !orb_false_iff, !Z.eqb_neq. tauto.
Qed.

Lemma add1_safe z :
  in_int64 z = true → z ≠ INT64_MAX → add64 z 1 = Done (z + 1).
Proof. rewrite in_int64_spec. intros. apply chk64_in. lia. Qed.

Lemma sub1_safe z :
  in_int64 z = true → z ≠ INT64_MIN → sub64 z 1 = Done (z - 1).
Proof. rewrite in_int64_spec. intros. apply chk64_in. lia. Qed.

End Int64Facts.

(** ** Neighbour generation *)

Section Neighbours.

Lemma get_neighbors_safe c :
  cell_in_range c = true → overflow_risk c = false →
  get_neighbors (Cell.x c) (Cell.y c) = Done (neighbors8 c).
Proof.
  unfold cell_in_range, overflow_risk. rewrite andb_true_iff, would_overflow_false.
  intros [Hx Hy] (? & ? & ? & ?). unfold get_neighbors, make_cell.
  rewrite !add1_safe, !sub1_safe by done. reflexivity.
Qed.

Lemma adjacent_spec a b :
  adjacent a b = true ↔
  Z.max (Z.abs (Cell.x a - Cell.x b)) (Z.abs (Cell.y a - Cell.y b)) = 1.
Proof. unfold adjacent. apply Z.eqb_eq. Qed.

Lemma adjacent_sym a b : adjacent a b = adjacent b a.
Proof. unfold adjacent. f_equal. lia. Qed.

Lemma elem_of_neighbors8 s c : c ∈ neighbors8 s ↔ adjacent s c = true.
Proof.
  rewrite adjacent_spec. destruct s as [sx sy], c as [x y].
  unfold neighbors8; simpl. rewrite !elem_of_cons, elem_of_nil. split.
  - intros H. repeat (destruct H as [H|H]; [injection H as -> ->; lia|]). done.
  - intros H.
    assert (x = sx - 1 ∨ x = sx ∨ x = sx + 1) as Hx by lia.
    assert (y = sy - 1 ∨ y = sy ∨ y = sy + 1) as Hy by lia.
    destruct Hx as [-> | [-> | ->]], Hy as [-> | [-> | ->]]; try lia; tauto.
Qed.

Lemma NoDup_neighbors8 s : NoDup (neighbors8 s).
Proof.
  destruct s as [sx sy]. unfold neighbors8; simpl.
  repeat (apply NoDup_cons; split;
          [rewrite ?elem_of_cons, elem_of_nil;
           intros H; repeat (destruct H as [H|H]; [injection H; lia|]); done|]).
  apply NoDup_nil_2.
Qed.

Lemma occ_nil k : occ k [] = 0%nat.
Proof. reflexivity. Qed.

Lemma occ_cons k c l :
  occ k (c :: l) = ((if decide (c = k) then 1 else 0) + occ k l)%nat.
Proof. unfold occ. rewrite filter_cons. by destruct (decide (c = k)). Qed.

Lemma occ_app k l1 l2 : occ k (l1 ++ l2) = (occ k l1 + occ k l2)%nat.
Proof. unfold occ. by rewrite filter_app, length_app. Qed.

Lemma occ_NoDup k l :
  NoDup l → occ k l = if bool_decide (k ∈ l) then 1%nat else 0%nat.
Proof.
  induction 1 as [|c l Hc Hl IH]; [done|].
  rewrite occ_cons, IH. destruct (decide (c = k)) as [->|Hne].
  - rewrite (bool_decide_eq_false_2 _ Hc).
    by rewrite bool_decide_eq_true_2 by (apply elem_of_cons; by left).
  - simpl. rewrite (bool_decide_ext (k ∈ c :: l) (k ∈ l)); [done|].
    rewrite elem_of_cons. naive_solver.
Qed.

Lemma occ_Permutation k l1 l2 : l1 ≡ₚ l2 → occ k l1 = occ k l2.
Proof. unfold occ. by intros ->. Qed.

Lemma occ_pos k l : (0 < occ k l)%nat ↔ k ∈ l.
Proof.
  induction l as [|c l IH]; [rewrite occ_nil, elem_of_nil; lia|].
  rewrite occ_cons, elem_of_cons. destruct (decide (c = k)); naive_solver lia.
Qed.

Lemma occ_neighbors8 s c :
  occ c (neighbors8 s) = if adjacent s c then 1%nat else 0%nat.
Proof.
  rewrite occ_NoDup by apply NoDup_neighbors8.
  destruct (adjacent s c) eqn:E.
  - by rewrite bool_decide_eq_true_2 by by apply elem_of_neighbors8.
  - rewrite bool_decide_eq_false_2; [done|].
    rewrite elem_of_neighbors8. congruence.
Qed.

(** Occurrences among the candidates count the generating cells. *)
Lemma occ_candidates c l :
  occ c (candidates l) =
  length (filter (λ s, adjacent s c = true)
                 (filter (λ s, overflow_risk s = false) l)).
Proof.
  unfold candidates. induction l as [|s l IH]; [done|].
  simpl. rewrite occ_app, IH, filter_cons.
  destruct (overflow_risk s) eqn:E.
  - by rewrite decide_False by done.
  - rewrite decide_True by done. rewrite filter_cons, occ_neighbors8.
    destruct (adjacent s c); [by rewrite decide_True|by rewrite decide_False].
Qed.

Lemma live_neighbors_occ S c :
  live_neighbors S c = occ c (candidates (elements S)).
Proof.
  rewrite occ_candidates. unfold live_neighbors, counted, size, set_size. simpl.
  apply Permutation_length.
  apply NoDup_Permutation.
  - apply NoDup_elements.
  - apply NoDup_filter, NoDup_filter, NoDup_elements.
  - intros s. rewrite elem_of_elements, !elem_of_filter.
    rewrite list_elem_of_filter, list_elem_of_filter, elem_of_elements. tauto.
Qed.

End Neighbours.

(** ** The counting engine *)

Section Hashtable.
Import HashtableEngine.

Lemma cells_in_range_elem S c :
  cells_in_range S → c ∈ S → cell_in_range c = true.
Proof.
  unfold cells_in_range. rewrite forallb_forall. intros H Hc.
  apply H, list_elem_of_In, elem_of_elements, Hc.
Qed.

Lemma cells_in_range_Forall S :
  cells_in_range S → Forall (λ c, cell_in_range c = true) (elements S).
Proof.
  intros H. apply Forall_forall. intros c Hc.
  eapply cells_in_range_elem; [done|]. by apply elem_of_elements.
Qed.

Lemma count_cell_safe m c :
  cell_in_range c = true →
  count_cell m c =
  Done (foldl bump m (if overflow_risk c then [] else neighbors8 c)).
Proof.
  intros Hr. unfold count_cell, overflow_risk.
  destruct (would_overflow (Cell.x c) (Cell.y c)) eqn:E; [done|].
  apply would_overflow_false in E as (? & ? & ? & ?).
  unfold cell_in_range in Hr. apply andb_true_iff in Hr as [Hx Hy].
  unfold bump_at, make_cell. rewrite !add1_safe, !sub1_safe by done.
  reflexivity.
Qed.

Lemma foldM_count_cell m l :
  Forall (λ c, cell_in_range c = true) l →
  foldM count_cell m l = Done (foldl bump m (candidates l)).
Proof.
  intros Hl. revert m. induction Hl as [|c l Hc Hl IH]; intros m; [done|].
  simpl. rewrite count_cell_safe by done. simpl.
  rewrite IH. unfold candidates. simpl. by rewrite foldl_app.
Qed.

Lemma lookup_bump m k c :
  bump m k !! c = if decide (k = c) then Some (default 0 (m !! c) + 1) else m !! c.
Proof.
  unfold bump. destruct (decide (k = c)) as [->|].
  - by rewrite lookup_insert_eq.
  - by rewrite lookup_insert_ne.
Qed.

(** After the first loop the buffer holds, for every generated
    coordinate, how often it was generated, and nothing else. *)
Lemma lookup_foldl_bump (m : CellCountMap) l c :
  foldl bump m l !! c =
  if decide (occ c l = 0%nat) then m !! c
  else Some (default 0 (m !! c) + Z.of_nat (occ c l)).
Proof.
  revert m. induction l as [|k l IH]; intros m; [done|].
  simpl. rewrite IH, occ_cons, lookup_bump.
  repeat case_decide; simplify_eq/=; try lia; try done; f_equal; lia.
Qed.

Lemma elem_of_select_fold S (m : CellCountMap) c :
  c ∈ map_fold (select S) ∅ m ↔
  ∃ n, m !! c = Some n ∧ (n = 3 ∨ (n = 2 ∧ c ∈ S)).
Proof.
  revert m. apply (map_fold_weak_ind (λ r m,
    c ∈ r ↔ ∃ n, m !! c = Some n ∧ (n = 3 ∨ (n = 2 ∧ c ∈ S)))).
  - rewrite elem_of_empty. split; [done|]. intros (n & Hn & _).
    by rewrite lookup_empty in Hn.
  - intros k n m r Hk IH. unfold select.
    assert ((n =? 3) || (n =? 2) && bool_decide (k ∈ S) = true
            ↔ (n = 3 ∨ (n = 2 ∧ k ∈ S))) as Hsel.
    { rewrite orb_true_iff, andb_true_iff, !Z.eqb_eq, bool_decide_eq_true.
      tauto. }
    destruct (decide (k = c)) as [->|Hne].
    + rewrite lookup_insert_eq.
      destruct ((n =? 3) || (n =? 2) && bool_decide (c ∈ S)) eqn:E.
      * split; [|set_solver]. intros _. exists n. split; [done|]. by apply Hsel.
      * rewrite IH, Hk. split; [by intros (? & ? & ?)|].
        intros (n' & [= <-] & Hn'). apply Hsel in Hn'. congruence.
    + rewrite lookup_insert_ne by done.
      destruct ((n =? 3) || (n =? 2) && bool_decide (k ∈ S)); [|done].
      rewrite elem_of_union, elem_of_singleton, IH. naive_solver.
Qed.

(** The whole tick on the level of sets. *)
Lemma tick_spec S :
  cells_in_range S →
  ∃ S', tick S = Done S' ∧
        ∀ c, c ∈ S' ↔ rule (occ c (candidates (elements S))) (c ∈ S).
Proof.
  intros HS. unfold tick.
  rewrite foldM_count_cell by by apply cells_in_range_Forall.
  eexists. split; [reflexivity|]. intros c.
  rewrite elem_of_select_fold. unfold rule.
  rewrite lookup_foldl_bump, lookup_empty. simpl.
  destruct (decide (occ c (candidates (elements S)) = 0%nat)) as [E|E].
  - rewrite E. split; [by intros (? & ? & ?)|]. intros [?|[? _]]; lia.
  - split.
    + intros (n & [= <-] & [Hn|[Hn ?]]); [left; lia|right; split; [lia|done]].
    + intros [Hn|[Hn ?]]; eexists; (split; [done|]);
        [left; lia|right; split; [lia|done]].
Qed.

End Hashtable.

(** ** The sorting engine *)

Section SortedVector.
Import SortedVectorEngine.

Lemma cell_less_spec a b :
  cell_less a b = true ↔
  Cell.x a < Cell.x b ∨ (Cell.x a = Cell.x b ∧ Cell.y a < Cell.y b).
Proof.
  unfold cell_less. destruct (Cell.x a =? Cell.x b) eqn:E; simpl.
  - apply Z.eqb_eq in E. rewrite Z.ltb_lt. lia.
  - apply Z.eqb_neq in E. rewrite Z.ltb_lt. lia.
Qed.

Lemma not_after_spec a b :
  not_after a b ↔
  Cell.x a < Cell.x b ∨ (Cell.x a = Cell.x b ∧ Cell.y a <= Cell.y b).
Proof.
  unfold not_after. rewrite <-not_true_iff_false, cell_less_spec. lia.
Qed.

Global Instance not_after_total : Total not_after.
Proof. intros a b. rewrite !not_after_spec. lia. Qed.

Global Instance not_after_trans : Transitive not_after.
Proof. intros a b c. rewrite !not_after_spec. lia. Qed.

Lemma not_after_antisym a b : not_after a b → not_after b a → a = b.
Proof.
  rewrite !not_after_spec. destruct a, b; simpl. intros ? ?.
  f_equal; lia.
Qed.

Lemma cell_eq_test c k :
  (Cell.x c =? Cell.x k) && (Cell.y c =? Cell.y k) = bool_decide (c = k).
Proof.
  destruct c as [x y], k as [x' y']; simpl. case_bool_decide as E.
  - injection E as -> ->. by rewrite !Z.eqb_refl.
  - apply andb_false_iff. rewrite !Z.eqb_neq.
    destruct (decide (x = x')); [right|left]; congruence.
Qed.

Lemma binary_search_spec l v : binary_search l v = true ↔ v ∈ l.
Proof.
  unfold binary_search. rewrite existsb_exists. split.
  - intros (e & He & Hlt). apply list_elem_of_In in He.
    apply andb_true_iff in Hlt as [H1 H2].
    apply negb_true_iff in H1, H2.
    by rewrite <-(not_after_antisym e v).
  - intros Hv. exists v. split; [by apply list_elem_of_In|].
    assert (cell_less v v = false) as ->; [|done].
    apply not_true_iff_false. rewrite cell_less_spec. lia.
Qed.

Lemma sort_cells_Permutation l : sort_cells l ≡ₚ l.
Proof. apply merge_sort_Permutation. Qed.

Lemma sort_cells_sorted l : StronglySorted not_after (sort_cells l).
Proof. apply StronglySorted_merge_sort; apply _. Qed.

Lemma emit_safe cands c :
  cell_in_range c = true →
  emit cands c = Done (cands ++ (if overflow_risk c then [] else neighbors8 c)).
Proof.
  intros Hr. unfold emit, overflow_risk.
  destruct (would_overflow (Cell.x c) (Cell.y c)) eqn:E;
    [by rewrite app_nil_r|].
  apply would_overflow_false in E as (? & ? & ? & ?).
  unfold cell_in_range in Hr. apply andb_true_iff in Hr as [Hx Hy].
  unfold make_cell. rewrite !add1_safe, !sub1_safe by done.
  reflexivity.
Qed.

Lemma foldM_emit cands l :
  Forall (λ c, cell_in_range c = true) l →
  foldM emit cands l = Done (cands ++ candidates l).
Proof.
  intros Hl. revert cands.
  induction Hl as [|c l Hc Hl IH]; intros cands; [by rewrite app_nil_r|].
  simpl. rewrite emit_safe by done. simpl.
  rewrite IH. unfold candidates. simpl. by rewrite <-app_assoc.
Qed.

Lemma candidates_Permutation l1 l2 :
  l1 ≡ₚ l2 → candidates l1 ≡ₚ candidates l2.
Proof. intros H. unfold candidates. by apply Permutation_flat_map. Qed.

(** The inner loop stops at the end of the run of [current]. *)
Lemma run_length_take current rest :
  take (run_length current rest) rest = replicate (run_length current rest) current.
Proof.
  induction rest as [|c rest IH]; [done|]. simpl.
  rewrite cell_eq_test. case_bool_decide as E; [|done].
  simpl. by rewrite IH, E.
Qed.

Lemma run_length_le current rest : (run_length current rest <= length rest)%nat.
Proof.
  induction rest as [|c rest IH]; simpl; [lia|].
  destruct (_ && _); simpl; lia.
Qed.

Lemma occ_replicate c k n :
  occ c (replicate n k) = if decide (k = c) then n else 0%nat.
Proof.
  induction n as [|n IH]; simpl; [by destruct (decide _)|].
  rewrite occ_cons, IH. by destruct (decide (k = c)).
Qed.

Lemma occ_zero c l : c ∉ l → occ c l = 0%nat.
Proof. intros H. pose proof (occ_pos c l). destruct (occ c l); [done|]. exfalso. apply H, H0. lia. Qed.

(** In a sorted range the run of [current] holds all its occurrences. *)
Lemma run_length_sorted current rest :
  StronglySorted not_after (current :: rest) →
  current ∉ drop (run_length current rest) rest.
Proof.
  induction rest as [|c rest IH]; intros Hs; [simpl; apply not_elem_of_nil|].
  simpl. rewrite cell_eq_test. case_bool_decide as E.
  - subst c. simpl. apply IH.
    apply StronglySorted_inv in Hs as [Hs Hall].
    apply StronglySorted_inv in Hs as [Hs _].
    apply Forall_cons in Hall as [_ Hall]. by apply SSorted_cons.
  - simpl. apply StronglySorted_inv in Hs as [Hs Hall].
    apply Forall_cons in Hall as [Hc Hall].
    apply StronglySorted_inv in Hs as [Hs Hall'].
    rewrite elem_of_cons. intros [->|Hin]; [done|].
    rewrite Forall_forall in Hall'. specialize (Hall' _ Hin).
    apply E. by apply not_after_antisym.
Qed.

Lemma StronglySorted_drop {A} (R : relation A) n (l : list A) :
  StronglySorted R l → StronglySorted R (drop n l).
Proof.
  intros H. revert n. induction H as [|x l Hl IH Hx]; intros [|n]; simpl;
    auto using SSorted_nil, SSorted_cons.
Qed.

Lemma walk_cons fuel alive current rest acc :
  walk (S fuel) alive (current :: rest) acc =
  let count := Z.of_nat (S (run_length current rest)) in
  walk fuel alive (drop (run_length current rest) rest)
    (if count =? 3 then {[current]} ∪ acc
     else if count =? 2 then
       if binary_search alive current then {[current]} ∪ acc else acc
     else acc).
Proof. reflexivity. Qed.

(** The run-length walk keeps exactly the coordinates that occur three
    times, or twice while alive. *)
Lemma walk_spec alive fuel cands acc :
  StronglySorted not_after cands → (length cands <= fuel)%nat →
  ∃ R, walk fuel alive cands acc = Done R ∧
       ∀ c, c ∈ R ↔ c ∈ acc ∨ rule (occ c cands) (c ∈ alive).
Proof.
  revert cands acc. induction fuel as [|fuel IH]; intros cands acc Hs Hlen.
  { destruct cands; simpl in *; [|lia]. eexists. split; [done|].
    intros c. unfold rule. rewrite occ_nil. intuition lia. }
  destruct cands as [|current rest].
  { eexists. split; [done|]. intros c. unfold rule. rewrite occ_nil. intuition lia. }
  rewrite walk_cons. cbv zeta. set (n := run_length current rest).
  pose proof (run_length_le current rest) as Hn. fold n in Hn.
  pose proof (run_length_sorted current rest Hs) as Hnot. fold n in Hnot.
  pose proof (run_length_take current rest) as Htake. fold n in Htake.
  assert (StronglySorted not_after (drop n rest)) as Hs'.
  { apply StronglySorted_drop. by apply StronglySorted_inv in Hs as [? _]. }
  match goal with |- context [walk fuel alive (drop n rest) ?a] =>
    destruct (IH (drop n rest) a Hs') as (R & -> & HR) end.
  { rewrite length_drop. simpl in Hlen. lia. }
  exists R. split; [done|]. intros c. rewrite HR. clear HR IH.
  assert (occ c (current :: rest) =
          ((if decide (current = c) then S n else 0) + occ c (drop n rest))%nat) as ->.
  { rewrite occ_cons. rewrite <-(take_drop n rest) at 1.
    rewrite occ_app, Htake, occ_replicate. destruct (decide (current = c)); lia. }
  unfold rule. destruct (decide (current = c)) as [->|Hne].
  - rewrite (occ_zero c _ Hnot).
    destruct (Z.of_nat (S n) =? 3) eqn:E3.
    { apply Z.eqb_eq in E3. rewrite elem_of_union, elem_of_singleton. intuition lia. }
    apply Z.eqb_neq in E3.
    destruct (Z.of_nat (S n) =? 2) eqn:E2.
    + apply Z.eqb_eq in E2. destruct (binary_search alive c) eqn:Eb.
      * apply binary_search_spec in Eb.
        rewrite elem_of_union, elem_of_singleton. intuition lia.
      * apply not_true_iff_false in Eb. rewrite binary_search_spec in Eb.
        intuition lia.
    + apply Z.eqb_neq in E2. intuition lia.
  - assert (∀ X : CellSet, c ∈ {[current]} ∪ X ↔ c ∈ X) as Hskip.
    { intros X. rewrite elem_of_union, elem_of_singleton. naive_solver. }
    repeat (match goal with |- context [if ?b then _ else _] => destruct b end);
      rewrite ?Hskip; done.
Qed.

Lemma sorted_tick_spec S :
  cells_in_range S →
  ∃ S', tick S = Done S' ∧
        ∀ c, c ∈ S' ↔ rule (occ c (candidates (elements S))) (c ∈ S).
Proof.
  intros HS. unfold tick.
  rewrite foldM_emit.
  2:{ rewrite sort_cells_Permutation. by apply cells_in_range_Forall. }
  simpl.
  destruct (walk_spec (sort_cells (elements S))
              (length (sort_cells (candidates (sort_cells (elements S)))))
              (sort_cells (candidates (sort_cells (elements S)))) ∅)
    as (R & -> & HR); [apply sort_cells_sorted|done|].
  exists R. split; [done|]. intros c. rewrite HR, elem_of_empty.
  rewrite (occ_Permutation c _ (candidates (elements S))).
  2:{ rewrite sort_cells_Permutation. apply candidates_Permutation,
        sort_cells_Permutation. }
  unfold rule. rewrite sort_cells_Permutation, elem_of_elements. tauto.
Qed.

End SortedVector.

(** ** The two counting engines against the rule *)

Section CountingEngines.

Lemma engine_tick_spec e S :
  counting_engine e → cells_in_range S →
  ∃ S', engine_tick e S = Done S' ∧
        ∀ c, c ∈ S' ↔ rule (live_neighbors S c) (c ∈ S).
Proof.
  intros [-> | ->] HS; simpl.
  - destruct (tick_spec S HS) as (S' & ? & H). exists S'. split; [done|].
    intros c. by rewrite live_neighbors_occ.
  - destruct (sorted_tick_spec S HS) as (S' & ? & H). exists S'. split; [done|].
    intros c. by rewrite live_neighbors_occ.
Qed.

Lemma elem_of_candidates c l :
  c ∈ candidates l ↔ ∃ s, s ∈ l ∧ overflow_risk s = false ∧ adjacent s c = true.
Proof.
  unfold candidates. rewrite list_elem_of_In, in_flat_map.
  setoid_rewrite <-list_elem_of_In. split.
  - intros (s & Hs & Hc). exists s. destruct (overflow_risk s); [by apply elem_of_nil in Hc|].
    by rewrite <-elem_of_neighbors8.
  - intros (s & Hs & Hr & Hc). exists s. rewrite Hr. by rewrite elem_of_neighbors8.
Qed.

Lemma neighbor_in_range s c :
  cell_in_range s = true → overflow_risk s = false → adjacent s c = true →
  cell_in_range c = true.
Proof.
  unfold cell_in_range, overflow_risk.
  rewrite !andb_true_iff, !in_int64_spec, would_overflow_false, adjacent_spec.
  lia.
Qed.

Lemma live_neighbors_pos S c :
  (0 < live_neighbors S c)%nat →
  ∃ s, s ∈ S ∧ overflow_risk s = false ∧ adjacent s c = true.
Proof.
  rewrite live_neighbors_occ, occ_pos, elem_of_candidates.
  by setoid_rewrite elem_of_elements.
Qed.

(** The next generation again consists of int64 coordinates. *)
Lemma engine_tick_in_range e S S' :
  counting_engine e → cells_in_range S → engine_tick e S = Done S' →
  cells_in_range S'.
Proof.
  intros He HS Ht. destruct (engine_tick_spec e S He HS) as (S'' & Ht' & H).
  rewrite Ht in Ht'. injection Ht' as <-.
  unfold cells_in_range. apply forallb_forall. intros c Hc.
  apply list_elem_of_In, elem_of_elements, H in Hc.
  destruct (live_neighbors_pos S c) as (s & Hs & Hr & Ha).
  { destruct Hc as [->|[-> _]]; lia. }
  eapply neighbor_in_range; [|done..]. by eapply cells_in_range_elem.
Qed.

Lemma counting_engines_agree S :
  cells_in_range S → engine_tick Sorted S = engine_tick Hashtable S.
Proof.
  intros HS.
  destruct (engine_tick_spec Sorted S (or_intror eq_refl) HS) as (S1 & -> & H1).
  destruct (engine_tick_spec Hashtable S (or_introl eq_refl) HS) as (S2 & -> & H2).
  f_equal. apply set_eq. intros c. by rewrite H1, H2.
Qed.

(** The sorting engine matches the reference engine over any number of
    generations. *)
Lemma counting_engines_agree_n n S :
  cells_in_range S → advance_n Sorted n S = advance_n Hashtable n S.
Proof.
  revert S. induction n as [|n IH]; intros S HS; [done|].
  simpl. rewrite counting_engines_agree by done.
  change (HashtableEngine.tick S) with (engine_tick Hashtable S).
  destruct (engine_tick Hashtable S) as [S'|] eqn:E; [|done].
  simpl. apply IH. by apply (engine_tick_in_range Hashtable S S' (or_introl eq_refl)).
Qed.

Lemma size_two_distinct (X : CellSet) :
  (2 <= size X)%nat → ∃ a b, a ≠ b ∧ a ∈ X ∧ b ∈ X.
Proof.
  unfold size, set_size. simpl. intros Hlen.
  pose proof (NoDup_elements X) as Hnd.
  destruct (elements X) as [|a [|b l]] eqn:E; simpl in Hlen; [lia..|].
  exists a, b. apply NoDup_cons in Hnd as [Ha _].
  split; [|split].
  - intros ->. apply Ha. apply elem_of_cons. by left.
  - apply elem_of_elements. rewrite E. apply elem_of_cons. by left.
  - apply elem_of_elements. rewrite E. apply elem_of_cons. right.
    apply elem_of_cons. by left.
Qed.

End CountingEngines.

(** ** Engine names *)

Section EngineNames.

Lemma nat_of_ascii_inj a b : nat_of_ascii a = nat_of_ascii b → a = b.
Proof.
  intros H. rewrite <-(ascii_nat_embedding a), <-(ascii_nat_embedding b).
  by rewrite H.
Qed.

Lemma nat_of_tolower b :
  nat_of_ascii (tolower b) =
  if ((65 <=? nat_of_ascii b) && (nat_of_ascii b <=? 90))%nat
  then (nat_of_ascii b + 32)%nat else nat_of_ascii b.
Proof.
  unfold tolower.
  destruct ((65 <=? nat_of_ascii b)%nat && (nat_of_ascii b <=? 90)%nat) eqn:E; [|done].
  apply andb_true_iff in E as [E1 E2].
  apply Nat.leb_le in E1, E2. apply nat_ascii_embedding. lia.
Qed.

Lemma tolower_same_letter a b :
  (97 <= nat_of_ascii a <= 122)%nat → tolower b = a ↔ same_letter a b.
Proof.
  intros Ha. unfold same_letter. split.
  - intros <-. pose proof (nat_of_tolower b) as Hb.
    destruct ((65 <=? nat_of_ascii b)%nat && (nat_of_ascii b <=? 90)%nat) eqn:E.
    + apply andb_true_iff in E as [E1 E2]. apply Nat.leb_le in E1, E2.
      right; right. split; [lia|done].
    + left. by apply nat_of_ascii_inj.
  - intros H. apply nat_of_ascii_inj. rewrite nat_of_tolower.
    destruct ((65 <=? nat_of_ascii b)%nat && (nat_of_ascii b <=? 90)%nat) eqn:E.
    + apply andb_true_iff in E as [E1 E2]. apply Nat.leb_le in E1, E2.
      destruct H as [->|[[? ?]|[? ?]]]; lia.
    + apply andb_false_iff in E. rewrite !Nat.leb_gt in E.
      destruct H as [->|[[? ?]|[? ?]]]; lia.
Qed.

Lemma lowercase_spells name s :
  lower_name name → lowercase s = name ↔ spells name s.
Proof.
  revert s. induction name as [|a name IH]; intros [|b s] Hn; simpl; try done.
  destruct Hn as [Ha Hn]. rewrite <-(IH s Hn), <-(tolower_same_letter a b Ha).
  split; [by intros [= -> ->]|by intros [-> ->]].
Qed.

Lemma engine_name_lower e : lower_name (engine_name e).
Proof. destruct e; simpl; repeat split; vm_compute; lia. Qed.

Lemma engine_name_inj e1 e2 : engine_name e1 = engine_name e2 → e1 = e2.
Proof. by destruct e1, e2. Qed.

Lemma parse_engine_type_Returned s e :
  parse_engine_type s = Returned e ↔ lowercase s = engine_name e.
Proof.
  unfold parse_engine_type.
  destruct (String.eqb_spec (lowercase s) "hashtable") as [->|H1].
  { destruct e; simpl; split; intros; congruence. }
  destruct (String.eqb_spec (lowercase s) "sorted") as [->|H2].
  { destruct e; simpl; split; intros; congruence. }
  destruct (String.eqb_spec (lowercase s) "hashlife") as [->|H3].
  { destruct e; simpl; split; intros; congruence. }
  split; [done|]. destruct e; simpl; congruence.
Qed.

End EngineNames.

(** ** The generation loop *)

Section Run.
Import GameOfLife.

Lemma ticks_front n g : ticks (S n) g = g' ← GameOfLife.tick g; ticks n g'.
Proof.
  induction n as [|n IH].
  - simpl. by destruct (GameOfLife.tick g).
  - change (ticks (S (S n)) g) with (g' ← ticks (S n) g; GameOfLife.tick g').
    rewrite IH. destruct (GameOfLife.tick g) as [g1|]; [|done]. reflexivity.
Qed.

Lemma run_loop_ticks k i iterations g :
  iterations - i = Z.of_nat k → run_loop k i iterations g = ticks k g.
Proof.
  revert i g. induction k as [|k IH]; intros i g Hk.
  - simpl. by rewrite (proj2 (Z.ltb_ge _ _)) by lia.
  - rewrite ticks_front. simpl. rewrite (proj2 (Z.ltb_lt _ _)) by lia.
    destruct (GameOfLife.tick g) as [g1|]; [|done]. simpl. apply IH. lia.
Qed.

End Run.

(** ** The node pool *)

Section Pool.
Import HashLife Quad.

Lemma pool_ok_clear : pool_ok clear.
Proof.
split.
- split; [done|]. eexists. split; [done|]. by repeat split.
- split; [done|]. eexists. split; [done|]. by repeat split.
- intros [|[|i]] n H Hi; [lia..|]. done.
- intros a b c d i H. simpl in H. by rewrite lookup_empty in H.
- intros [|[|i]] n r H Hr; simpl in H; [injection H as <-; done..|done].
- intros l p H. simpl in H. by rewrite lookup_nil in H.
Qed.

Lemma extends_refl P : extends P P.
Proof. split; [done..| |done|done]. intros i n H. exists n. by repeat split. Qed.

Lemma extends_trans P1 P2 P3 : extends P1 P2 → extends P2 P3 → extends P1 P3.
Proof.
intros [d1 a1 n1 c1 l1] [d2 a2 n2 c2 l2]. split.
- congruence.
- congruence.
- intros i n H. destruct (n1 i n H) as (n' & H' & ? & ? & ? & ? & ? & ? & Hr).
  destruct (n2 i n' H') as (n'' & H'' & ? & ? & ? & ? & ? & ? & Hr').
  exists n''. repeat split; try congruence. intros r ?. by apply Hr', Hr.
- intros k i H. by apply c2, c1.
- lia.
Qed.

(** What a pointer stands for does not change when the pool grows. *)
Lemma repr_mono P P' p t : extends P P' → repr P p t → repr P' p t.
Proof.
intros Hext. revert p. induction t as [b|ta IHa tb IHb tc IHc td IHd]; intros p; simpl.
- destruct Hext as [-> -> _ _ _]. done.
- intros (Hp & n & a & b & c & d & Hn & Ha & Hb & Hc & Hd & Ra & Rb & Rc & Rd).
  split; [done|].
  destruct (ext_arena _ _ Hext p n Hn) as (n' & Hn' & _ & _ & ? & ? & ? & ? & _).
  exists n', a, b, c, d. repeat split; try congruence; auto.
Qed.

Lemma pop_nonneg t : 0 <= pop t.
Proof. induction t as [[]|]; simpl; lia. Qed.

Lemma full_depth k t : full k t → depth t = k.
Proof.
revert t. induction k as [|k IH]; intros [b|a b c d]; simpl; try done.
intros (Ha & _). f_equal. by apply IH.
Qed.

Lemma pop_bound k t : full k t → pop t <= 4 ^ Z.of_nat k.
Proof.
revert t. induction k as [|k IH]; intros [b|a b c d]; try done.
- intros _. destruct b; simpl; lia.
- intros (Ha & Hb & Hc & Hd). apply IH in Ha, Hb, Hc, Hd.
  rewrite Nat2Z.inj_succ, Z.pow_succ_r by lia. cbn [pop]. lia.
Qed.

(** A pointer that stands for a square is a node of the arena whose level
    and population are those of the square, and the square is complete. *)
Lemma repr_lookup P p t :
  pool_ok P → repr P p t →
  ∃ n, arena P !! p = Some n ∧ level n = depth t ∧ population n = pop t ∧
       full (depth t) t.
Proof.
intros Hok. revert p. induction t as [b|ta IHa tb IHb tc IHc td IHd]; intros p; simpl.
- intros ->. destruct Hok as [(-> & n0 & H0 & L0) (-> & n1 & H1 & L1) _ _ _ _].
  destruct b; [exists n1|exists n0]; (split; [done|]);
    destruct L0 as (? & ? & _), L1 as (? & ? & _); done.
- intros (Hp & n & a & b & c & d & Hn & Ha & Hb & Hc & Hd & Ra & Rb & Rc & Rd).
  exists n. split; [done|].
  destruct (ok_made _ Hok p n Hn Hp)
    as (a' & b' & c' & d' & na & nb & nc & nd & Ha' & Hb' & Hc' & Hd' &
        _ & _ & _ & _ & Hna & Hnb & Hnc & Hnd & Hl & Hlb & Hlc & Hld & Hpop & _).
  assert (a' = a) as -> by congruence. assert (b' = b) as -> by congruence.
  assert (c' = c) as -> by congruence. assert (d' = d) as -> by congruence.
  destruct (IHa _ Ra) as (na' & ? & La & Pa & Fa).
  destruct (IHb _ Rb) as (nb' & ? & Lb & Pb & Fb).
  destruct (IHc _ Rc) as (nc' & ? & Lc & Pc & Fc).
  destruct (IHd _ Rd) as (nd' & ? & Ld & Pd & Fd).
  assert (na' = na) as -> by congruence. assert (nb' = nb) as -> by congruence.
  assert (nc' = nc) as -> by congruence. assert (nd' = nd) as -> by congruence.
  split; [congruence|]. split; [congruence|].
  assert (depth tb = depth ta) as Eb by congruence.
  assert (depth tc = depth ta) as Ec by congruence.
  assert (depth td = depth ta) as Ed by congruence.
  rewrite Eb in Fb. rewrite Ec in Fc. rewrite Ed in Fd. done.
Qed.

Lemma repr_full P p t : pool_ok P → repr P p t → full (depth t) t.
Proof. intros Hok H. by destruct (repr_lookup P p t Hok H) as (? & ? & ? & ? & ?). Qed.

(** Canonical nodes: a square has at most one pointer. *)
Lemma repr_inj P p q t : pool_ok P → repr P p t → repr P q t → p = q.
Proof.
intros Hok. revert p q. induction t as [b|ta IHa tb IHb tc IHc td IHd]; intros p q; simpl.
- congruence.
- intros (Hp & n & a & b & c & d & Hn & Ha & Hb & Hc & Hd & Ra & Rb & Rc & Rd)
         (Hq & m & a' & b' & c' & d' & Hm & Ha' & Hb' & Hc' & Hd' & Ra' & Rb' & Rc' & Rd').
  assert (a' = a) as -> by eauto. assert (b' = b) as -> by eauto.
  assert (c' = c) as -> by eauto. assert (d' = d) as -> by eauto.
  destruct (ok_made _ Hok p n Hn Hp)
    as (a1 & b1 & c1 & d1 & _ & _ & _ & _ & ? & ? & ? & ? &
        _ & _ & _ & _ & _ & _ & _ & _ & _ & _ & _ & _ & _ & Hcp).
  destruct (ok_made _ Hok q m Hm Hq)
    as (a2 & b2 & c2 & d2 & _ & _ & _ & _ & ? & ? & ? & ? &
        _ & _ & _ & _ & _ & _ & _ & _ & _ & _ & _ & _ & _ & Hcq).
  assert (a1 = a) as -> by congruence. assert (b1 = b) as -> by congruence.
  assert (c1 = c) as -> by congruence. assert (d1 = d) as -> by congruence.
  assert (a2 = a) as -> by congruence. assert (b2 = b) as -> by congruence.
  assert (c2 = c) as -> by congruence. assert (d2 = d) as -> by congruence.
  congruence.
Qed.

(** A pointer stands for at most one square. *)
Lemma repr_fun P p t t' : pool_ok P → repr P p t → repr P p t' → t = t'.
Proof.
intros Hok. revert p t'.
induction t as [b|ta IHa tb IHb tc IHc td IHd]; intros p [b'|ta' tb' tc' td']; simpl.
- destruct Hok as [(-> & _) (-> & _) _ _ _ _]. intros -> H.
  destruct b, b'; done.
- destruct Hok as [(-> & _) (-> & _) _ _ _ _]. intros -> (H & _). destruct b; lia.
- destruct Hok as [(-> & _) (-> & _) _ _ _ _]. intros (H & _) ->. destruct b'; lia.
- intros (Hp & n & a & b & c & d & Hn & Ha & Hb & Hc & Hd & Ra & Rb & Rc & Rd)
         (_ & m & a' & b' & c' & d' & Hm & Ha' & Hb' & Hc' & Hd' & Ra' & Rb' & Rc' & Rd').
  assert (m = n) as -> by congruence.
  assert (a' = a) as -> by congruence. assert (b' = b) as -> by congruence.
  assert (c' = c) as -> by congruence. assert (d' = d) as -> by congruence.
  f_equal; eauto.
Qed.

(** *** Running pool computations *)

Lemma returns_bind {A B} (m : M A) (f : A → M B) P Q R :
  returns m P Q →
  (∀ a P', pool_ok P' → extends P P' → Q a P' → returns (f a) P' R) →
  returns (m ≫= f) P R.
Proof.
intros (a & P' & Hm & Hok & Hext & HQ) Hf.
destruct (Hf a P' Hok Hext HQ) as (b & P'' & Hfa & Hok' & Hext' & HR).
exists b, P''. split; [|split; [done|split; [by eapply extends_trans|done]]].
unfold mbind, M_bind. by rewrite Hm.
Qed.

(** A step that only reads the pool. *)
Lemma returns_read {A B} (m : M A) (f : A → M B) P a R :
  m P = Done (a, P) → returns (f a) P R → returns (m ≫= f) P R.
Proof.
intros Hm (b & P' & Hfa & ?). exists b, P'. split; [|done].
unfold mbind, M_bind. by rewrite Hm.
Qed.

Lemma returns_ret {A} (a : A) P (Q : A → NodePool → Prop) :
  pool_ok P → Q a P → returns (mret a) P Q.
Proof. intros Hok HQ. exists a, P. split; [done|]. split; [done|]. split; [apply extends_refl|done]. Qed.

Lemma returns_weaken {A} (m : M A) P (Q R : A → NodePool → Prop) :
  returns m P Q → (∀ a P', pool_ok P' → extends P P' → Q a P' → R a P') →
  returns m P R.
Proof.
intros (a & P' & Hm & Hok & Hext & HQ) H. exists a, P'. eauto 10.
Qed.

Lemma returns_runs {A} b (m : M A) P Q : returns m P Q → runs b m P Q.
Proof.
intros (a & P' & Hm & Hok & Hext & HQ). split; [eauto|].
intros a' P'' Hm'. rewrite Hm in Hm'. injection Hm' as <- <-. done.
Qed.

Lemma runs_returns {A} (m : M A) P Q : runs true m P Q → returns m P Q.
Proof.
intros [Ht Hp]. destruct (Ht eq_refl) as (a & P' & Hm).
exists a, P'. split; [done|]. by apply Hp.
Qed.

Lemma runs_bind {A B} b (m : M A) (f : A → M B) P Q R :
  runs b m P Q →
  (∀ a P', pool_ok P' → extends P P' → Q a P' → runs b (f a) P' R) →
  runs b (m ≫= f) P R.
Proof.
intros [Ht Hp] Hf. split.
- intros Hb. destruct (Ht Hb) as (a & P' & Hm).
  destruct (Hp a P' Hm) as (Hok & Hext & HQ).
  destruct (Hf a P' Hok Hext HQ) as [Ht' _].
  destruct (Ht' Hb) as (b' & P'' & Hfa). exists b', P''.
  unfold mbind, M_bind. by rewrite Hm.
- intros b' P'' Hrun. unfold mbind, M_bind in Hrun.
  destruct (m P) as [[a P']|] eqn:Hm; [|done].
  destruct (Hp a P' eq_refl) as (Hok & Hext & HQ).
  destruct (Hf a P' Hok Hext HQ) as [_ Hp'].
  destruct (Hp' b' P'' Hrun) as (? & ? & ?).
  split; [done|]. split; [by eapply extends_trans|done].
Qed.

Lemma runs_read {A B} b (m : M A) (f : A → M B) P a R :
  m P = Done (a, P) → runs b (f a) P R → runs b (m ≫= f) P R.
Proof.
intros Hm [Ht Hp]. unfold runs, mbind, M_bind. rewrite Hm. split; [exact Ht|exact Hp].
Qed.

Lemma runs_ret {A} b (a : A) P (Q : A → NodePool → Prop) :
  pool_ok P → Q a P → runs b (mret a) P Q.
Proof. intros. by apply returns_runs, returns_ret. Qed.

Lemma runs_weaken {A} b (m : M A) P (Q R : A → NodePool → Prop) :
  runs b m P Q → (∀ a P', pool_ok P' → extends P P' → Q a P' → R a P') →
  runs b m P R.
Proof.
intros [Ht Hp] H. split; [done|]. intros a P' Hm.
destruct (Hp a P' Hm) as (? & ? & ?). eauto.
Qed.

(** A computation that faults satisfies every specification that does not
    ask it to return. *)
Lemma runs_fault {A} (m : M A) P e Q : m P = Fault e → runs false m P Q.
Proof. intros Hm. split; [done|]. intros a P' Hm'. congruence. Qed.

Lemma load_repr P p t :
  pool_ok P → repr P p t →
  ∃ n, load p P = Done (n, P) ∧ level n = depth t ∧ population n = pop t.
Proof.
intros Hok Hr. destruct (repr_lookup P p t Hok Hr) as (n & Hn & ? & ? & _).
exists n. unfold load. by rewrite Hn.
Qed.

(** Reading the four child pointers of a composite node. *)
Lemma child_repr P p t :
  pool_ok P → repr P p t → (1 <= depth t)%nat →
  ∃ a b c d,
    child nw p P = Done (a, P) ∧ child ne p P = Done (b, P) ∧
    child sw p P = Done (c, P) ∧ child se p P = Done (d, P) ∧
    repr P a (nw_t t) ∧ repr P b (ne_t t) ∧ repr P c (sw_t t) ∧ repr P d (se_t t).
Proof.
intros Hok Hr Hd. destruct t as [|ta tb tc td]; simpl in Hd; [lia|].
destruct Hr as (Hp & n & a & b & c & d & Hn & Ha & Hb & Hc & Hd' & Ra & Rb & Rc & Rd).
exists a, b, c, d. unfold child, load, mbind, M_bind. rewrite Hn, Ha, Hb, Hc, Hd'.
by repeat split.
Qed.

End Pool.

(** ** [make], [empty_node] and the memo field *)

Section PoolOps.
Import HashLife Quad.

Lemma pow4_le_int64 k : (k <= 31)%nat → 4 ^ Z.of_nat k <= INT64_MAX.
Proof.
intros Hk. transitivity (4 ^ 31); [|by vm_compute].
apply Z.pow_le_mono_r; lia.
Qed.

Lemma extends_pushed P n key :
  canon_ P !! key = None → extends P (pushed P n key).
Proof.
intros Hkey. split; simpl; [done|done| | |done].
- intros i m Hm. exists m. rewrite lookup_app_l by by eapply lookup_lt_Some.
  by repeat split.
- intros k i Hk. rewrite lookup_insert_ne; [done|]. congruence.
Qed.

Lemma pool_ok_pushed P a b c d na nb nc nd pop :
  pool_ok P → canon_ P !! (a, b, c, d) = None →
  arena P !! a = Some na → arena P !! b = Some nb →
  arena P !! c = Some nc → arena P !! d = Some nd →
  level nb = level na → level nc = level na → level nd = level na →
  pop = population na + population nb + population nc + population nd →
  pool_ok (pushed P (mkNode (level na + 1) pop (Some a) (Some b) (Some c) (Some d) None)
                  (a, b, c, d)).
Proof.
intros Hok Hkey Ha Hb Hc Hd Lb Lc Ld Hpop.
set (n := mkNode _ _ _ _ _ _ _). set (P' := pushed P n (a, b, c, d)).
assert (extends P P') as Hext by by apply extends_pushed.
assert (2 <= length (arena P))%nat as Hlen.
{ destruct (ok_alive _ Hok) as (_ & n1 & H1 & _). apply lookup_lt_Some in H1. lia. }
assert (∀ i m, arena P !! i = Some m → arena P' !! i = Some m) as Hold.
{ intros i m Hm. simpl. rewrite lookup_app_l by by eapply lookup_lt_Some. done. }
assert (arena P' !! length (arena P) = Some n) as Hnew.
{ simpl. by rewrite list_lookup_middle. }
split.
- destruct (ok_dead _ Hok) as (? & n0 & ? & ?). split; [done|]. exists n0. auto.
- destruct (ok_alive _ Hok) as (? & n1 & ? & ?). split; [done|]. exists n1. auto.
- intros i m Hm Hi. destruct (decide (i < length (arena P))%nat) as [Hlt|Hge].
  + simpl in Hm. rewrite lookup_app_l in Hm by done.
    destruct (ok_made _ Hok i m Hm Hi)
      as (a' & b' & c' & d' & na' & nb' & nc' & nd' & ? & ? & ? & ? & ? & ? & ? & ? &
          ? & ? & ? & ? & ? & ? & ? & ? & ? & Hc').
    exists a', b', c', d', na', nb', nc', nd'.
    repeat split; auto. by apply (ext_canon _ _ Hext).
  + assert (i = length (arena P)) as ->.
    { apply lookup_lt_Some in Hm. simpl in Hm. rewrite length_app in Hm. simpl in Hm. lia. }
    assert (m = n) as -> by congruence.
    exists a, b, c, d, na, nb, nc, nd. simpl.
    apply lookup_lt_Some in Ha as Ha', Hb as Hb', Hc as Hc', Hd as Hd'.
    repeat split; auto; try lia. by rewrite lookup_insert_eq.
- intros a' b' c' d' i Hi. simpl in Hi.
  destruct (decide ((a, b, c, d) = (a', b', c', d'))) as [[= <- <- <- <-]|Hne].
  + rewrite lookup_insert_eq in Hi. injection Hi as <-. split; [done|].
    exists n. by repeat split.
  + rewrite lookup_insert_ne in Hi by done.
    destruct (ok_canon _ Hok _ _ _ _ _ Hi) as (? & m & ? & ?).
    split; [done|]. exists m. split; [auto|done].
- intros i m r Hm Hr. destruct (decide (i < length (arena P))%nat) as [Hlt|Hge].
  + simpl in Hm. rewrite lookup_app_l in Hm by done.
    destruct (ok_memo _ Hok i m r Hm Hr) as (t & ? & ? & ?).
    exists t. eauto using repr_mono.
  + assert (i = length (arena P)) as ->.
    { apply lookup_lt_Some in Hm. simpl in Hm. rewrite length_app in Hm. simpl in Hm. lia. }
    assert (m = n) as -> by congruence. done.
- intros l p Hp. eapply repr_mono; [done|]. by apply (ok_cache _ Hok).
Qed.

(** [make] returns the canonical node of the square made of the four
    squares of its arguments: the node the table already holds, or a new
    one. *)
Lemma make_spec P a b c d ta tb tc td :
  pool_ok P →
  repr P a ta → repr P b tb → repr P c tc → repr P d td →
  depth tb = depth ta → depth tc = depth ta → depth td = depth ta →
  (depth ta < 31)%nat →
  returns (make a b c d) P (λ p P', repr P' p (QNode ta tb tc td)).
Proof.
intros Hok Ra Rb Rc Rd Eb Ec Ed Hlt.
destruct (repr_lookup P a ta Hok Ra) as (na & Ha & La & Pa & Fa).
destruct (repr_lookup P b tb Hok Rb) as (nb & Hb & Lb & Pb & Fb).
destruct (repr_lookup P c tc Hok Rc) as (nc & Hc & Lc & Pc & Fc).
destruct (repr_lookup P d td Hok Rd) as (nd & Hd & Ld & Pd & Fd).
unfold returns, make, load, mbind, M_bind. rewrite Ha, Hb, Hc, Hd.
assert (level nb = level na) as Lb' by congruence.
assert (level nc = level na) as Lc' by congruence.
assert (level nd = level na) as Ld' by congruence.
rewrite Lb', Lc', Ld', !Nat.eqb_refl. simpl.
destruct (canon_ P !! (a, b, c, d)) as [node|] eqn:Hkey.
- exists node, P. split; [done|]. split; [done|]. split; [apply extends_refl|].
  destruct (ok_canon _ Hok _ _ _ _ _ Hkey) as (? & n & ? & ? & ? & ? & ?).
  simpl. split; [done|]. exists n, a, b, c, d. by repeat split.
- pose proof (pop_bound _ _ Fa). pose proof (pop_bound _ _ Fb).
  pose proof (pop_bound _ _ Fc). pose proof (pop_bound _ _ Fd).
  pose proof (pop_nonneg ta). pose proof (pop_nonneg tb).
  pose proof (pop_nonneg tc). pose proof (pop_nonneg td).
  rewrite Eb in *. rewrite Ec in *. rewrite Ed in *.
  assert (4 * 4 ^ Z.of_nat (depth ta) <= INT64_MAX) as Hmax.
  { rewrite <-Z.pow_succ_r, <-Nat2Z.inj_succ by lia. apply pow4_le_int64. lia. }
  assert (INT64_MIN <= 0) by by vm_compute.
  unfold lift, add64. rewrite Pa, Pb, Pc, Pd.
  rewrite (chk64_in (pop ta + pop tb)) by lia.
  rewrite (chk64_in (pop ta + pop tb + pop tc)) by lia.
  rewrite (chk64_in (pop ta + pop tb + pop tc + pop td)) by lia.
  simpl.
  set (n := mkNode _ _ _ _ _ _ _).
  exists (length (arena P)), (pushed P n (a, b, c, d)).
  split; [done|].
  assert (pool_ok (pushed P n (a, b, c, d))) as Hok'.
  { apply (pool_ok_pushed P a b c d na nb nc nd _ Hok Hkey Ha Hb Hc Hd Lb' Lc' Ld').
    congruence. }
  assert (extends P (pushed P n (a, b, c, d))) as Hext by by apply extends_pushed.
  split; [done|]. split; [done|].
  simpl. split.
  { destruct (ok_alive _ Hok) as (_ & n1 & Hn1 & _). apply lookup_lt_Some in Hn1. lia. }
  exists n, a, b, c, d. rewrite list_lookup_middle by done.
  repeat split; auto; eapply repr_mono; eauto.
Qed.

(** Whenever [make] returns, the pool is well formed again, the table maps
    the four children to the returned node, and the node has these
    children, the next level and the sum of their populations. *)
Lemma make_inv P a b c d p P' :
  pool_ok P → make a b c d P = Done (p, P') →
  pool_ok P' ∧ extends P P' ∧ canon_ P' !! (a, b, c, d) = Some p ∧
  ∃ n na nb nc nd,
    arena P' !! p = Some n ∧
    nw n = Some a ∧ ne n = Some b ∧ sw n = Some c ∧ se n = Some d ∧
    arena P' !! a = Some na ∧ arena P' !! b = Some nb ∧
    arena P' !! c = Some nc ∧ arena P' !! d = Some nd ∧
    level n = S (level na) ∧
    population n = population na + population nb + population nc + population nd.
Proof.
intros Hok. unfold make, load, mbind, M_bind.
destruct (arena P !! a) as [na|] eqn:Ha; [|done].
destruct (arena P !! b) as [nb|] eqn:Hb; [|done].
destruct (arena P !! c) as [nc|] eqn:Hc; [|done].
destruct (arena P !! d) as [nd|] eqn:Hd; [|done].
destruct ((level na =? level nb)%nat && (level nb =? level nc)%nat
          && (level nc =? level nd)%nat) eqn:Hl; [|done].
apply andb_true_iff in Hl as [Hl Hl3]. apply andb_true_iff in Hl as [Hl1 Hl2].
apply Nat.eqb_eq in Hl1, Hl2, Hl3. simpl.
destruct (canon_ P !! (a, b, c, d)) as [node|] eqn:Hkey.
- intros [= <- <-]. split; [done|]. split; [apply extends_refl|]. split; [done|].
  destruct (ok_canon _ Hok _ _ _ _ _ Hkey) as (Hnode & n & Hn & Hna & Hnb & Hnc & Hnd).
  destruct (ok_made _ Hok _ _ Hn Hnode)
    as (a' & b' & c' & d' & na' & nb' & nc' & nd' & ? & ? & ? & ? & _ & _ & _ & _ &
        ? & ? & ? & ? & ? & _ & _ & _ & ? & _).
  assert (a' = a) as -> by congruence. assert (b' = b) as -> by congruence.
  assert (c' = c) as -> by congruence. assert (d' = d) as -> by congruence.
  exists n, na, nb, nc, nd. repeat split; congruence.
- unfold lift, add64, chk64.
  destruct (in_int64 (population na + population nb)); [|done].
  destruct (in_int64 (population na + population nb + population nc)); [|done].
  destruct (in_int64 (population na + population nb + population nc + population nd));
    [|done].
  simpl. intros [= <- <-].
  set (n := mkNode _ _ _ _ _ _ _).
  change (mkPool _ _ _ _ _) with (pushed P n (a, b, c, d)).
  assert (pool_ok (pushed P n (a, b, c, d))) as Hok'.
  { apply (pool_ok_pushed P a b c d na nb nc nd _ Hok Hkey Ha Hb Hc Hd); congruence. }
  assert (extends P (pushed P n (a, b, c, d))) as Hext by by apply extends_pushed.
  split; [done|]. split; [done|]. split; [simpl; by rewrite lookup_insert_eq|].
  exists n, na, nb, nc, nd. simpl. rewrite list_lookup_middle by done.
  rewrite !lookup_app_l by by eapply lookup_lt_Some.
  repeat split; try done. lia.
Qed.

(** Once the table holds a key, [make] returns its node in every later
    state of the pool and allocates nothing. *)
Lemma make_again P a b c d p :
  pool_ok P → canon_ P !! (a, b, c, d) = Some p →
  make a b c d P = Done (p, P).
Proof.
intros Hok Hkey.
destruct (ok_canon _ Hok _ _ _ _ _ Hkey) as (Hp & n & Hn & Hna & Hnb & Hnc & Hnd).
destruct (ok_made _ Hok _ _ Hn Hp)
  as (a' & b' & c' & d' & na & nb & nc & nd & ? & ? & ? & ? & _ & _ & _ & _ &
      Ha & Hb & Hc & Hd & _ & Lb & Lc & Ld & _ & _).
assert (a' = a) as -> by congruence. assert (b' = b) as -> by congruence.
assert (c' = c) as -> by congruence. assert (d' = d) as -> by congruence.
unfold make, load, mbind, M_bind. rewrite Ha, Hb, Hc, Hd, Lb, Lc, Ld.
rewrite !Nat.eqb_refl. simpl. by rewrite Hkey.
Qed.

(** [make] in both modes: the bound on the level is only needed for the
    population sums to stay inside int64. *)
Lemma make_runs tot P a b c d ta tb tc td :
  pool_ok P →
  repr P a ta → repr P b tb → repr P c tc → repr P d td →
  depth tb = depth ta → depth tc = depth ta → depth td = depth ta →
  (tot = true → (depth ta < 31)%nat) →
  runs tot (make a b c d) P (λ p P', repr P' p (QNode ta tb tc td)).
Proof.
intros Hok Ra Rb Rc Rd Eb Ec Ed Hlt. split.
- intros Htot.
  destruct (make_spec P a b c d ta tb tc td Hok Ra Rb Rc Rd Eb Ec Ed (Hlt Htot))
    as (p & P' & Hrun & _). eauto.
- intros p P' Hrun.
  destruct (make_inv P a b c d p P' Hok Hrun) as (Hok' & Hext & Hkey & n & _ & _ & _ & _ & Hn & ? & ? & ? & ? & _).
  split; [done|]. split; [done|]. simpl.
  destruct (ok_canon _ Hok' _ _ _ _ _ Hkey) as (Hp & _).
  split; [done|]. exists n, a, b, c, d. repeat split; eauto using repr_mono.
Qed.

Lemma depth_empty_t k : depth (empty_t k) = k.
Proof. induction k; simpl; congruence. Qed.

Lemma pop_empty_t k : pop (empty_t k) = 0.
Proof. induction k; simpl; lia. Qed.

Lemma full_empty_t k : full k (empty_t k).
Proof. induction k; simpl; auto. Qed.

Lemma repr_with_cache P cache p t : repr (with_cache P cache) p t ↔ repr P p t.
Proof.
revert p. induction t as [b|ta IHa tb IHb tc IHc td IHd]; intros p; simpl; [done|].
by setoid_rewrite IHa; setoid_rewrite IHb; setoid_rewrite IHc; setoid_rewrite IHd.
Qed.

Lemma pool_ok_with_cache P cache :
  pool_ok P →
  (∀ l p, cache !! l = Some (Some p) → repr P p (empty_t l)) →
  pool_ok (with_cache P cache).
Proof.
intros [H1 H2 H3 H4 H5 H6] Hc. split; simpl; auto.
- intros i n r Hn Hr. destruct (H5 i n r Hn Hr) as (t & ? & ? & ?).
  exists t. by rewrite !repr_with_cache.
- intros l p Hp. apply repr_with_cache. auto.
Qed.

Lemma extends_with_cache P cache :
  (length (empty_cache_ P) <= length cache)%nat → extends P (with_cache P cache).
Proof.
intros Hlen. split; simpl; auto. intros i n Hn. exists n. by repeat split.
Qed.

Lemma empty_node_runs tot l P :
  pool_ok P → (tot = true → (l <= 31)%nat) →
  runs tot (empty_node l) P (λ p P', repr P' p (empty_t l)).
Proof.
revert P. induction l as [|l IH]; intros P Hok Hl.
{ apply returns_runs. exists (dead_cell_ P), P. split; [done|]. split; [done|].
  split; [apply extends_refl|done]. }
cbn [empty_node].
apply (runs_read tot get_pool _ P P); [done|].
assert (runs tot
  ((if (length (empty_cache_ P) <=? S l)%nat
    then put_pool (with_cache P (resize_cache (S l + 1) (empty_cache_ P)))
    else mret tt) ≫= λ _,
   sub ← empty_node l; node ← make sub sub sub sub;
   set_cache (S l) node ≫= λ _, mret node) P
  (λ p P', repr P' p (empty_t (S l)))) as Hmiss.
{ eapply (runs_bind tot _ _ _ (λ _ P', (S l < length (empty_cache_ P'))%nat)).
  { apply returns_runs.
    destruct (Nat.leb_spec (length (empty_cache_ P)) (S l)) as [Hle|Hgt].
    - eexists tt, _. split; [reflexivity|].
      assert (length (resize_cache (S l + 1) (empty_cache_ P)) = (S l + 1)%nat) as Hlen.
      { unfold resize_cache. rewrite length_app, length_replicate. lia. }
      split; [|split].
      + apply pool_ok_with_cache; [done|]. intros k p Hk.
        unfold resize_cache in Hk. apply lookup_app_Some in Hk as [Hk|[_ Hk]].
        * by apply (ok_cache _ Hok).
        * apply lookup_replicate in Hk as [? _]. done.
      + apply extends_with_cache. lia.
      + unfold with_cache. cbn [empty_cache_]. rewrite Hlen. lia.
    - apply returns_ret; [done|lia]. }
  intros _ P1 Hok1 Hext1 Hlen1.
  eapply runs_bind; [apply IH; [done|intros Ht; specialize (Hl Ht); lia]|].
  intros sub P2 Hok2 Hext2 Rsub. cbv beta in Rsub.
  eapply runs_bind.
  { apply (make_runs tot P2 sub sub sub sub _ _ _ _ Hok2 Rsub Rsub Rsub Rsub);
      rewrite ?depth_empty_t; first [done | intros Ht; specialize (Hl Ht); lia]. }
  intros node P3 Hok3 Hext3 Rnode. cbv beta in Rnode.
  assert (S l < length (empty_cache_ P3))%nat as Hlen3.
  { pose proof (ext_cache _ _ Hext2). pose proof (ext_cache _ _ Hext3). lia. }
  apply returns_runs.
  unfold returns, set_cache, mbind, M_bind.
  rewrite (proj2 (Nat.ltb_lt _ _) Hlen3).
  eexists node, _. split; [reflexivity|].
  change (mkPool (arena P3) (canon_ P3) (<[S l:=Some node]> (empty_cache_ P3))
                 (dead_cell_ P3) (alive_cell_ P3))
    with (with_cache P3 (<[S l:=Some node]> (empty_cache_ P3))).
  split; [|split].
  - apply pool_ok_with_cache; [done|]. intros k p Hk.
    destruct (decide (k = S l)) as [->|Hne].
    + rewrite list_lookup_insert_eq in Hk by done. by injection Hk as <-.
    + rewrite list_lookup_insert_ne in Hk by done. by apply (ok_cache _ Hok3).
  - apply extends_with_cache. by rewrite length_insert.
  - by apply repr_with_cache. }
destruct (empty_cache_ P !! S l) as [[node|]|] eqn:Hc; [|exact Hmiss..].
apply runs_ret; [done|]. by apply (ok_cache _ Hok).
Qed.

(** [leaf] *)
Lemma leaf_spec P b : leaf b P = Done ((if b then alive_cell_ P else dead_cell_ P), P).
Proof. by destruct b. Qed.

(** Writing the memo field of a node that has none yet, with the node of
    the stepped square. *)
Lemma set_step1_spec P p r t :
  pool_ok P → repr P p t → (2 <= depth t)%nat → repr P r (step_t t) →
  returns (set_step1 p r) P (λ _ P', memo_is P' p r).
Proof.
intros Hok Rp Hd Rr.
destruct (repr_lookup P p t Hok Rp) as (n & Hn & _).
assert (∀ r0, step1_result n = Some r0 → r0 = r) as Hsame0.
{ intros r0 Hr0. destruct (ok_memo _ Hok p n r0 Hn Hr0) as (t0 & Rp0 & _ & Rr0).
  assert (t0 = t) as -> by by eapply repr_fun. by eapply repr_inj. }
unfold returns, set_step1. rewrite Hn.
set (n' := mkNode _ _ _ _ _ _ _).
set (P' := mkPool _ _ _ _ _).
assert (p < length (arena P))%nat as Hp by by eapply lookup_lt_Some.
assert (∀ i m, arena P !! i = Some m →
          ∃ m', arena P' !! i = Some m' ∧
                level m' = level m ∧ population m' = population m ∧
                nw m' = nw m ∧ ne m' = ne m ∧ sw m' = sw m ∧ se m' = se m ∧
                (∀ r0, step1_result m = Some r0 → step1_result m' = Some r0)) as Hstay.
{ intros i m Hm. simpl. destruct (decide (i = p)) as [->|Hne].
  - rewrite list_lookup_insert_eq by done. exists n'.
    assert (m = n) as -> by congruence. repeat split; try done.
    intros r0 Hr0. simpl. f_equal. symmetry. by apply Hsame0.
  - rewrite list_lookup_insert_ne by done. exists m. by repeat split. }
assert (extends P P') as Hext by (split; simpl; auto).
assert (∀ i m', arena P' !! i = Some m' →
          ∃ m, arena P !! i = Some m ∧
               level m' = level m ∧ population m' = population m ∧
               nw m' = nw m ∧ ne m' = ne m ∧ sw m' = sw m ∧ se m' = se m ∧
               (i ≠ p → m' = m)) as Hback.
{ intros i m' Hm'. simpl in Hm'. destruct (decide (i = p)) as [->|Hne].
  - rewrite list_lookup_insert_eq in Hm' by done. injection Hm' as <-.
    exists n. by repeat split.
  - rewrite list_lookup_insert_ne in Hm' by done. exists m'. by repeat split. }
exists tt, P'. split; [done|]. split.
2:{ split; [done|]. exists n'. split; [|done]. simpl.
    by rewrite list_lookup_insert_eq. }
split.
- destruct (ok_dead _ Hok) as (? & n0 & H0 & L0). split; [done|].
  destruct (Hback 0%nat) with (m' := default n0 (arena P' !! 0%nat)) as (m & Hm & _ & _ & _ & _ & _ & _ & Hsame).
  { destruct (Hstay _ _ H0) as (m' & -> & _). done. }
  assert (p ≠ 0)%nat.
  { intros ->. destruct t; simpl in Hd; [lia|]. destruct Rp as [? _]. lia. }
  destruct (Hstay _ _ H0) as (m' & Hm' & _). rewrite Hm' in *. simpl in *.
  exists m'. split; [done|]. rewrite Hsame by done. congruence.
- destruct (ok_alive _ Hok) as (? & n1 & H1 & L1). split; [done|].
  destruct (Hback 1%nat) with (m' := default n1 (arena P' !! 1%nat)) as (m & Hm & _ & _ & _ & _ & _ & _ & Hsame).
  { destruct (Hstay _ _ H1) as (m' & -> & _). done. }
  assert (p ≠ 1)%nat.
  { intros ->. destruct t; simpl in Hd; [lia|]. destruct Rp as [? _]. lia. }
  destruct (Hstay _ _ H1) as (m' & Hm' & _). rewrite Hm' in *. simpl in *.
  exists m'. split; [done|]. rewrite Hsame by done. congruence.
- intros i m' Hm' Hi.
  destruct (Hback _ _ Hm') as (m & Hm & El & Ep & Ea & Eb & Ec & Ed & _).
  destruct (ok_made _ Hok i m Hm Hi)
    as (a & b & c & d & na & nb & nc & nd & ? & ? & ? & ? & ? & ? & ? & ? &
        Ha & Hb & Hc & Hd' & ? & ? & ? & ? & ? & Hcan).
  destruct (Hstay _ _ Ha) as (na' & ? & ? & ? & _).
  destruct (Hstay _ _ Hb) as (nb' & ? & ? & ? & _).
  destruct (Hstay _ _ Hc) as (nc' & ? & ? & ? & _).
  destruct (Hstay _ _ Hd') as (nd' & ? & ? & ? & _).
  exists a, b, c, d, na', nb', nc', nd'.
  repeat split; auto; congruence.
- intros a b c d i Hi. simpl in Hi.
  destruct (ok_canon _ Hok _ _ _ _ _ Hi) as (? & m & Hm & ? & ? & ? & ?).
  split; [done|]. destruct (Hstay _ _ Hm) as (m' & ? & _ & _ & ? & ? & ? & ? & _).
  exists m'. repeat split; auto; congruence.
- intros i m' r0 Hm' Hr0. destruct (decide (i = p)) as [->|Hne].
  + simpl in Hm'. rewrite list_lookup_insert_eq in Hm' by done.
    injection Hm' as <-. simpl in Hr0. injection Hr0 as <-.
    exists t. eauto using repr_mono.
  + destruct (Hback _ _ Hm') as (m & Hm & _ & _ & _ & _ & _ & _ & Hsame).
    rewrite Hsame in Hr0 by done.
    destruct (ok_memo _ Hok i m r0 Hm Hr0) as (t0 & ? & ? & ?).
    exists t0. eauto using repr_mono.
- intros l q Hq. eapply repr_mono; [done|]. by apply (ok_cache _ Hok).
Qed.

End PoolOps.

(** ** Recombining quadrants *)

Section Recombine.
Import HashLife Quad.

Lemma full_sel f ft k t : sel f ft → full (S k) t → full k (ft t).
Proof. intros [] H; destruct t; simpl in *; tauto. Qed.

Lemma full_QNode k a b c d :
  full k a → full k b → full k c → full k d → full (S k) (QNode a b c d).
Proof. simpl. tauto. Qed.

Lemma full_center_t k t : full (S (S k)) t → full (S k) (center_t t).
Proof.
intros H. unfold center_t.
apply full_QNode; eapply full_sel; try (eapply full_sel; [|exact H]); constructor.
Qed.

Lemma child_sel f ft P p t :
  sel f ft → pool_ok P → repr P p t → (1 <= depth t)%nat →
  ∃ a, child f p P = Done (a, P) ∧ repr P a (ft t).
Proof.
intros Hsel Hok Hr Hd.
destruct (child_repr P p t Hok Hr Hd) as (a & b & c & d & ? & ? & ? & ? & ? & ? & ? & ?).
destruct Hsel; eauto.
Qed.

Lemma child2_sel f ft g gt P p t :
  sel f ft → sel g gt → pool_ok P → repr P p t → (2 <= depth t)%nat →
  ∃ a, child2 f g p P = Done (a, P) ∧ repr P a (gt (ft t)).
Proof.
intros Hf Hg Hok Hr Hd.
pose proof (repr_full P p t Hok Hr) as Hfull.
destruct (depth t) as [|[|k]] eqn:E; [lia..|].
destruct (child_sel f ft P p t Hf Hok Hr) as (q & Hq & Rq); [lia|].
pose proof (full_sel f ft _ _ Hf Hfull) as Hfq.
destruct (child_sel g gt P q (ft t) Hg Hok Rq) as (a & Ha & Ra).
{ rewrite (full_depth _ _ Hfq). lia. }
exists a. split; [|done]. unfold child2, mbind, M_bind. by rewrite Hq.
Qed.

(** Four pointers read from the pool, then [make]. *)
Lemma make_read tot P (m1 m2 m3 m4 : M ptr) a b c d ta tb tc td k :
  pool_ok P →
  m1 P = Done (a, P) → m2 P = Done (b, P) → m3 P = Done (c, P) → m4 P = Done (d, P) →
  repr P a ta → repr P b tb → repr P c tc → repr P d td →
  full k ta → full k tb → full k tc → full k td →
  (tot = true → (k < 31)%nat) →
  runs tot (a ← m1; b ← m2; c ← m3; d ← m4; make a b c d) P
       (λ r P', repr P' r (QNode ta tb tc td)).
Proof.
intros Hok H1 H2 H3 H4 Ra Rb Rc Rd Fa Fb Fc Fd Hk.
apply (runs_read tot m1 _ P a); [done|].
apply (runs_read tot m2 _ P b); [done|].
apply (runs_read tot m3 _ P c); [done|].
apply (runs_read tot m4 _ P d); [done|].
apply make_runs; auto; rewrite !(full_depth k) by done; auto.
Qed.

(** The overlapping squares of [slow_step]: one quadrant from each of four
    nodes. *)
Lemma quad_spec tot P f1 ft1 f2 ft2 f3 ft3 f4 ft4 p1 p2 p3 p4 t1 t2 t3 t4 k :
  sel f1 ft1 → sel f2 ft2 → sel f3 ft3 → sel f4 ft4 →
  pool_ok P →
  repr P p1 t1 → repr P p2 t2 → repr P p3 t3 → repr P p4 t4 →
  full (S k) t1 → full (S k) t2 → full (S k) t3 → full (S k) t4 →
  (tot = true → (k < 31)%nat) →
  runs tot (a ← child f1 p1; b ← child f2 p2; c ← child f3 p3; d ← child f4 p4;
            make a b c d) P
       (λ r P', repr P' r (QNode (ft1 t1) (ft2 t2) (ft3 t3) (ft4 t4))).
Proof.
intros S1 S2 S3 S4 Hok R1 R2 R3 R4 F1 F2 F3 F4 Hk.
destruct (child_sel f1 ft1 P p1 t1 S1 Hok R1) as (a & Ha & Ra);
  [rewrite (full_depth _ _ F1); lia|].
destruct (child_sel f2 ft2 P p2 t2 S2 Hok R2) as (b & Hb & Rb);
  [rewrite (full_depth _ _ F2); lia|].
destruct (child_sel f3 ft3 P p3 t3 S3 Hok R3) as (c & Hc & Rc);
  [rewrite (full_depth _ _ F3); lia|].
destruct (child_sel f4 ft4 P p4 t4 S4 Hok R4) as (d & Hd & Rd);
  [rewrite (full_depth _ _ F4); lia|].
eapply (make_read tot P _ _ _ _ a b c d _ _ _ _ k); eauto using full_sel.
Qed.

(** [center] *)
Lemma center_spec tot P p t k :
  pool_ok P → repr P p t → full (S (S k)) t → (tot = true → (k < 31)%nat) →
  runs tot (center p) P (λ r P', repr P' r (center_t t)).
Proof.
intros Hok Hr Hfull Hk.
assert (2 <= depth t)%nat as Hd by (rewrite (full_depth _ _ Hfull); lia).
destruct (child2_sel nw nw_t se se_t P p t sel_nw sel_se Hok Hr Hd) as (a & Ha & Ra).
destruct (child2_sel ne ne_t sw sw_t P p t sel_ne sel_sw Hok Hr Hd) as (b & Hb & Rb).
destruct (child2_sel sw sw_t ne ne_t P p t sel_sw sel_ne Hok Hr Hd) as (c & Hc & Rc).
destruct (child2_sel se se_t nw nw_t P p t sel_se sel_nw Hok Hr Hd) as (d & Hd' & Rd).
unfold center, center_t.
eapply (make_read tot P _ _ _ _ a b c d _ _ _ _ k); eauto;
  eapply full_sel; try (eapply full_sel; [|exact Hfull]); constructor.
Qed.

Lemma grand_pop_sel f ft g gt P p t :
  sel f ft → sel g gt → pool_ok P → repr P p t → (2 <= depth t)%nat →
  grand_pop f g p P = Done (to_int (pop (gt (ft t))), P).
Proof.
intros Hf Hg Hok Hr Hd.
destruct (child2_sel f ft g gt P p t Hf Hg Hok Hr Hd) as (q & Hq & Rq).
destruct (load_repr P q _ Hok Rq) as (n & Hn & _ & Hpop).
unfold grand_pop, mbind, M_bind. rewrite Hq, Hn. unfold mret, M_ret.
by rewrite Hpop.
Qed.

(** [step_4x4] *)
Lemma step_4x4_spec tot P p t :
  pool_ok P → repr P p t → depth t = 2%nat →
  runs tot (step_4x4 p) P (λ r P', repr P' r (step_4x4_t t)).
Proof.
intros Hok Hr Hd. assert (2 <= depth t)%nat as Hd2 by lia.
unfold step_4x4.
do 16 (eapply runs_read;
       [eapply grand_pop_sel; [constructor|constructor|done..]|]).
do 4 (eapply runs_read; [apply leaf_spec|]).
unfold step_4x4_t, grid_t.
apply make_runs; simpl; auto; lia.
Qed.

Lemma full_step_4x4_t t : full 1 (step_4x4_t t).
Proof. by simpl. Qed.

Lemma step_at_unfold k t :
  step_at (S k) t =
  if pop t =? 0 then empty_t (depth t - 1) else
  let n00 := nw_t t in
  let n01 := ne_t t in
  let n10 := sw_t t in
  let n11 := se_t t in
  let c01 := QNode (ne_t n00) (nw_t n01) (se_t n00) (sw_t n01) in
  let c10 := QNode (sw_t n00) (se_t n00) (nw_t n10) (ne_t n10) in
  let c11 := QNode (se_t n00) (sw_t n01) (ne_t n10) (nw_t n11) in
  let c12 := QNode (sw_t n01) (se_t n01) (nw_t n11) (ne_t n11) in
  let c21 := QNode (ne_t n10) (nw_t n11) (se_t n10) (sw_t n11) in
  QNode (step_at k (QNode (center_t n00) (center_t c01) (center_t c10) (center_t c11)))
        (step_at k (QNode (center_t c01) (center_t n01) (center_t c11) (center_t c12)))
        (step_at k (QNode (center_t c10) (center_t c11) (center_t n10) (center_t c21)))
        (step_at k (QNode (center_t c11) (center_t c12) (center_t c21) (center_t n11))).
Proof. reflexivity. Qed.

Lemma full_step_at k t : full (k + 2) t → full (k + 1) (step_at k t).
Proof.
revert t. induction k as [|k IH]; intros t Hfull.
- simpl. destruct (pop t =? 0); [|done].
  rewrite (full_depth _ _ Hfull). apply (full_empty_t 1).
- rewrite step_at_unfold. destruct (pop t =? 0).
  { rewrite (full_depth _ _ Hfull).
    replace (S k + 2 - 1)%nat with (S k + 1)%nat by lia. apply full_empty_t. }
  cbv zeta. replace (S k + 2)%nat with (S (S (S k))) in Hfull by lia.
  assert (∀ f ft, sel f ft → full (S (S k)) (ft t)) as H1.
  { intros f ft Hs. eapply full_sel; [done|]. exact Hfull. }
  assert (∀ f ft g gt, sel f ft → sel g gt → full (S k) (gt (ft t))) as H2.
  { intros f ft g gt Hs Hs'. eapply full_sel; [done|]. eapply H1. done. }
  replace (S k + 1)%nat with (S (k + 1)) by lia.
  apply full_QNode; apply IH; replace (k + 2)%nat with (S (S k)) by lia;
    apply full_QNode; apply full_center_t;
    try (apply full_QNode); eauto using sel.
Qed.

End Recombine.

(** ** [slow_step] computes [step_at] *)

Section SlowStep.
Import HashLife Quad.

Lemma step_at_empty k t : pop t = 0 → step_at k t = empty_t (depth t - 1).
Proof. intros H. destruct k; simpl; by rewrite H. Qed.

(** After a step of a pool computation: name its result, and carry what is
    known about pointers over to the new pool. *)
Ltac next x R :=
  let P' := fresh "P" in
  let Hok' := fresh "Hok" in
  let Hext' := fresh "Hext" in
  intros x P' Hok' Hext' R; cbv beta in R;
  match type of Hext' with
  | extends ?P _ =>
      repeat match goal with
             | H : repr P _ _ |- _ => apply (repr_mono P P' _ _ Hext') in H
             end;
      repeat match goal with H : pool_ok P |- _ => clear H end
  end;
  clear Hext'.

Lemma slow_step_body tot k :
  (∀ j, (j < k)%nat → slow_step_ok tot j) → slow_step_ok tot k.
Proof.
intros IHk fuel P p t Hok Hr Hfull Hk.
destruct fuel as [|fuel].
{ split; [intros Ht; specialize (Hk Ht); lia|done]. }
cbn [slow_step].
pose proof (full_depth _ _ Hfull) as Hdepth.
destruct (repr_lookup P p t Hok Hr) as (n & Hn & Hlevel & Hpop & _).
apply (runs_read tot (load p) _ P n); [unfold load; by rewrite Hn|].
destruct (step1_result n) as [r|] eqn:Hmemo.
{ destruct (ok_memo _ Hok p n r Hn Hmemo) as (t0 & R0 & _ & Rr).
  assert (t0 = t) as -> by (by eapply repr_fun).
  apply runs_ret; [done|]. split; [|by exists n].
  unfold step_t in Rr. rewrite Hdepth in Rr.
  by replace (k + 2 - 2)%nat with k in Rr by lia. }
rewrite Hpop.
destruct (Z.eqb_spec (pop t) 0) as [Hz|Hz].
{ rewrite Hlevel, Hdepth. replace (k + 2)%nat with (S (k + 1)) by lia.
  cbn [empty_below].
  eapply runs_bind; [apply empty_node_runs; [done|intros Ht; specialize (Hk Ht); lia]|].
  next e Re.
  assert (step_at k t = empty_t (k + 1)) as Est.
  { rewrite (step_at_empty _ _ Hz), Hdepth. f_equal. lia. }
  eapply runs_bind.
  { apply returns_runs. eapply (set_step1_spec _ p e t); [done|done|lia|].
    unfold step_t. rewrite Hdepth.
    replace (k + 2 - 2)%nat with k by lia. by rewrite Est. }
  intros u P' Hok' Hext' Hmemo'. cbv beta in Hmemo'.
  apply runs_ret; [done|]. split; [|done].
  rewrite Est. by eapply repr_mono. }
rewrite Hlevel, Hdepth.
destruct k as [|k].
- (* level 2 *)
  simpl.
  eapply runs_bind; [apply step_4x4_spec; [done|done|lia]|].
  next r Rr.
  assert (step_at 0 t = step_4x4_t t) as Est.
  { simpl. by destruct (Z.eqb_spec (pop t) 0). }
  eapply runs_bind.
  { apply returns_runs. eapply (set_step1_spec _ p r t); [done|done|lia|].
    unfold step_t. rewrite Hdepth. simpl Nat.sub. by rewrite Est. }
  intros u P' Hok' Hext' Hmemo'. cbv beta in Hmemo'.
  apply runs_ret; [done|]. split; [|done].
  change (repr P' r (step_at 0 t)). rewrite Est. by eapply repr_mono.
- (* level above 2 *)
  replace (S k + 2 =? 2)%nat with false by (symmetry; apply Nat.eqb_neq; lia).
  replace (S k + 2)%nat with (S (S (S k))) in Hfull by lia.
  assert (∀ f ft, sel f ft → full (S (S k)) (ft t)) as F1.
  { intros f ft Hs. eapply full_sel; [done|]. exact Hfull. }
  assert (∀ f ft g gt, sel f ft → sel g gt → full (S k) (gt (ft t))) as F2.
  { intros f ft g gt Hs Hs'. eapply full_sel; [done|]. eapply F1. done. }
  destruct (child_repr P p t Hok Hr) as (n00 & n01 & n10 & n11 &
    E00 & E01 & E10 & E11 & R00 & R01 & R10 & R11); [lia|].
  apply (runs_read tot _ _ P n00 _ E00). apply (runs_read tot _ _ P n01 _ E01).
  apply (runs_read tot _ _ P n10 _ E10). apply (runs_read tot _ _ P n11 _ E11).
  clear E00 E01 E10 E11.
  eapply runs_bind.
  { eapply (quad_spec tot _ ne ne_t nw nw_t se se_t sw sw_t n00 n01 n00 n01 _ _ _ _ (S k));
      eauto using sel; intros Ht; specialize (Hk Ht); lia. }
  next c01 Rc01.
  eapply runs_bind.
  { eapply (quad_spec tot _ sw sw_t se se_t nw nw_t ne ne_t n00 n00 n10 n10 _ _ _ _ (S k));
      eauto using sel; intros Ht; specialize (Hk Ht); lia. }
  next c10 Rc10.
  eapply runs_bind.
  { eapply (quad_spec tot _ se se_t sw sw_t ne ne_t nw nw_t n00 n01 n10 n11 _ _ _ _ (S k));
      eauto using sel; intros Ht; specialize (Hk Ht); lia. }
  next c11 Rc11.
  eapply runs_bind.
  { eapply (quad_spec tot _ sw sw_t se se_t nw nw_t ne ne_t n01 n01 n11 n11 _ _ _ _ (S k));
      eauto using sel; intros Ht; specialize (Hk Ht); lia. }
  next c12 Rc12.
  eapply runs_bind.
  { eapply (quad_spec tot _ ne ne_t nw nw_t se se_t sw sw_t n10 n11 n10 n11 _ _ _ _ (S k));
      eauto using sel; intros Ht; specialize (Hk Ht); lia. }
  next c21 Rc21.
  assert (∀ f1 ft1 g1 gt1 f2 ft2 g2 gt2 f3 ft3 g3 gt3 f4 ft4 g4 gt4,
            sel f1 ft1 → sel g1 gt1 → sel f2 ft2 → sel g2 gt2 →
            sel f3 ft3 → sel g3 gt3 → sel f4 ft4 → sel g4 gt4 →
            full (S (S k)) (QNode (gt1 (ft1 t)) (gt2 (ft2 t)) (gt3 (ft3 t)) (gt4 (ft4 t))))
    as FQ.
  { intros. apply full_QNode; eauto. }
  eapply runs_bind; [eapply (center_spec tot _ n00 _ k); eauto using sel; intros Ht; specialize (Hk Ht); lia|].
  next r00 Rr00.
  eapply runs_bind; [eapply (center_spec tot _ c01 _ k); eauto using sel; intros Ht; specialize (Hk Ht); lia|].
  next r01 Rr01.
  eapply runs_bind; [eapply (center_spec tot _ n01 _ k); eauto using sel; intros Ht; specialize (Hk Ht); lia|].
  next r02 Rr02.
  eapply runs_bind; [eapply (center_spec tot _ c10 _ k); eauto using sel; intros Ht; specialize (Hk Ht); lia|].
  next r10 Rr10.
  eapply runs_bind; [eapply (center_spec tot _ c11 _ k); eauto using sel; intros Ht; specialize (Hk Ht); lia|].
  next r11 Rr11.
  eapply runs_bind; [eapply (center_spec tot _ c12 _ k); eauto using sel; intros Ht; specialize (Hk Ht); lia|].
  next r12 Rr12.
  eapply runs_bind; [eapply (center_spec tot _ n10 _ k); eauto using sel; intros Ht; specialize (Hk Ht); lia|].
  next r20 Rr20.
  eapply runs_bind; [eapply (center_spec tot _ c21 _ k); eauto using sel; intros Ht; specialize (Hk Ht); lia|].
  next r21 Rr21.
  eapply runs_bind; [eapply (center_spec tot _ n11 _ k); eauto using sel; intros Ht; specialize (Hk Ht); lia|].
  next r22 Rr22.
  assert (∀ X, full (S (S k)) X → full (S k) (center_t X)) as FC
    by (intros; by apply full_center_t).
  assert (∀ X, full (S (S k)) X → depth (center_t X) = S k) as DC
    by (intros; by apply full_depth, FC).
  assert (∀ X Y Z W, full (S (S k)) X → full (S (S k)) Y → full (S (S k)) Z →
                     full (S (S k)) W →
                     full (k + 2) (QNode (center_t X) (center_t Y) (center_t Z) (center_t W)))
    as FA.
  { intros. replace (k + 2)%nat with (S (S k)) by lia. apply full_QNode; auto. }
  eapply runs_bind.
  { eapply runs_bind.
    - eapply (make_runs tot _ r00 r01 r10 r11); [eassumption|exact Rr00|exact Rr01|exact Rr10|exact Rr11|..];
        rewrite !DC by eauto using sel; first [lia | intros Ht; specialize (Hk Ht); lia].
    - next a Ra. eapply runs_weaken.
      + eapply (IHk k (Nat.lt_succ_diag_r k) fuel _ a); [done|done| |].
        * apply FA; eauto using sel.
        * intros Ht; specialize (Hk Ht); lia.
      + intros r' P'' _ _ [Hr' _]. exact Hr'. }
  next q0 Rq0.
  eapply runs_bind.
  { eapply runs_bind.
    - eapply (make_runs tot _ r01 r02 r11 r12); [eassumption|exact Rr01|exact Rr02|exact Rr11|exact Rr12|..];
        rewrite !DC by eauto using sel; first [lia | intros Ht; specialize (Hk Ht); lia].
    - next a Ra. eapply runs_weaken.
      + eapply (IHk k (Nat.lt_succ_diag_r k) fuel _ a); [done|done| |].
        * apply FA; eauto using sel.
        * intros Ht; specialize (Hk Ht); lia.
      + intros r' P'' _ _ [Hr' _]. exact Hr'. }
  next q1 Rq1.
  eapply runs_bind.
  { eapply runs_bind.
    - eapply (make_runs tot _ r10 r11 r20 r21); [eassumption|exact Rr10|exact Rr11|exact Rr20|exact Rr21|..];
        rewrite !DC by eauto using sel; first [lia | intros Ht; specialize (Hk Ht); lia].
    - next a Ra. eapply runs_weaken.
      + eapply (IHk k (Nat.lt_succ_diag_r k) fuel _ a); [done|done| |].
        * apply FA; eauto using sel.
        * intros Ht; specialize (Hk Ht); lia.
      + intros r' P'' _ _ [Hr' _]. exact Hr'. }
  next q2 Rq2.
  eapply runs_bind.
  { eapply runs_bind.
    - eapply (make_runs tot _ r11 r12 r21 r22); [eassumption|exact Rr11|exact Rr12|exact Rr21|exact Rr22|..];
        rewrite !DC by eauto using sel; first [lia | intros Ht; specialize (Hk Ht); lia].
    - next a Ra. eapply runs_weaken.
      + eapply (IHk k (Nat.lt_succ_diag_r k) fuel _ a); [done|done| |].
        * apply FA; eauto using sel.
        * intros Ht; specialize (Hk Ht); lia.
      + intros r' P'' _ _ [Hr' _]. exact Hr'. }
  next q3 Rq3.
  assert (∀ X, full (k + 2) X → depth (step_at k X) = (k + 1)%nat) as DS
    by (intros; by apply full_depth, full_step_at).
  eapply runs_bind.
  { eapply (make_runs tot _ q0 q1 q2 q3); [eassumption|exact Rq0|exact Rq1|exact Rq2|exact Rq3|..];
      rewrite !DS by (apply FA; eauto using sel);
      first [lia | intros Ht; specialize (Hk Ht); lia]. }
  next r Rr.
  pose proof (step_at_unfold k t) as Est.
  destruct (Z.eqb_spec (pop t) 0) in Est; [done|]. cbv zeta in Est.
  eapply runs_bind.
  { apply returns_runs. eapply (set_step1_spec _ p r t); [done|done|lia|].
    unfold step_t. rewrite Hdepth.
    replace (S k + 2 - 2)%nat with (S k) by lia. rewrite Est. exact Rr. }
  intros u P' Hok' Hext' Hmemo'. cbv beta in Hmemo'.
  apply runs_ret; [done|]. split; [|done].
  rewrite Est. by eapply repr_mono.
Qed.

Lemma slow_step_runs tot k : slow_step_ok tot k.
Proof. induction k as [k IH] using lt_wf_ind. by apply slow_step_body. Qed.

(** With enough fuel and below level 32, [slow_step] returns. *)
Lemma slow_step_spec k fuel P p t :
  pool_ok P → repr P p t → full (k + 2) t → (k + 2 <= 31)%nat → (k < fuel)%nat →
  returns (slow_step fuel p) P (λ r P', repr P' r (step_at k t) ∧ memo_is P' p r).
Proof. intros. by apply runs_returns, slow_step_runs. Qed.

End SlowStep.

(** ** Squares as grids of cells *)

Section Grid.
Import HashLife Quad.

Lemma pos_sel ft dx dy : pos ft dx dy → ∃ f, sel f ft.
Proof. intros []; eauto using sel. Qed.

Lemma pos_range ft dx dy : pos ft dx dy → 0 <= dx <= 1 ∧ 0 <= dy <= 1.
Proof. intros []; lia. Qed.

Lemma pow2_pos (k : nat) : 0 < 2 ^ Z.of_nat k.
Proof. apply Z.pow_pos_nonneg; lia. Qed.

Lemma pow2_S (k : nat) : 2 ^ Z.of_nat (S k) = 2 * 2 ^ Z.of_nat k.
Proof. rewrite Nat2Z.inj_succ, Z.pow_succ_r by lia. done. Qed.

Lemma window_refl t : window t t 0 0.
Proof. intros x y _ _. done. Qed.

Lemma window_eq t u x0 y0 x1 y1 :
  window t u x0 y0 → x0 = x1 → y0 = y1 → window t u x1 y1.
Proof. by intros H <- <-. Qed.

Lemma window_pos ft dx dy k t :
  pos ft dx dy → full (S k) t →
  window t (ft t) (dx * 2 ^ Z.of_nat k) (dy * 2 ^ Z.of_nat k).
Proof.
intros Hp Hfull. destruct t as [|a b c d]; [done|].
destruct Hfull as (Fa & Fb & Fc & Fd).
pose proof (pow2_pos k).
intros x y. destruct Hp; cbn [nw_t ne_t sw_t se_t alive_at];
  rewrite ?(full_depth _ _ Fa), ?(full_depth _ _ Fb),
          ?(full_depth _ _ Fc), ?(full_depth _ _ Fd); intros Hx Hy.
- rewrite !Z.mul_0_l, !Z.add_0_l.
  by rewrite (proj2 (Z.ltb_lt _ _)), (proj2 (Z.ltb_lt _ _)) by lia.
- rewrite !Z.mul_0_l, !Z.mul_1_l, !Z.add_0_l.
  rewrite (proj2 (Z.ltb_lt y _)), (proj2 (Z.ltb_ge _ _)) by lia.
  f_equal. lia.
- rewrite !Z.mul_0_l, !Z.mul_1_l, !Z.add_0_l.
  rewrite (proj2 (Z.ltb_ge _ _)), (proj2 (Z.ltb_lt x _)) by lia.
  f_equal. lia.
- rewrite !Z.mul_1_l.
  rewrite (proj2 (Z.ltb_ge _ _)), (proj2 (Z.ltb_ge _ _)) by lia.
  f_equal; lia.
Qed.

Lemma window_trans t u v a b c d :
  window t u a b → window u v c d →
  0 <= c → 0 <= d →
  c + 2 ^ Z.of_nat (depth v) <= 2 ^ Z.of_nat (depth u) →
  d + 2 ^ Z.of_nat (depth v) <= 2 ^ Z.of_nat (depth u) →
  window t v (a + c) (b + d).
Proof.
intros Hu Hv Hc Hd Hcw Hdw x y Hx Hy.
rewrite Hv by done. rewrite Hu by lia. f_equal; lia.
Qed.

(** Four windows side by side make a window. *)
Lemma window_QNode t u1 u2 u3 u4 k x0 y0 :
  full k u1 → full k u2 → full k u3 → full k u4 →
  window t u1 x0 y0 →
  window t u2 (x0 + 2 ^ Z.of_nat k) y0 →
  window t u3 x0 (y0 + 2 ^ Z.of_nat k) →
  window t u4 (x0 + 2 ^ Z.of_nat k) (y0 + 2 ^ Z.of_nat k) →
  window t (QNode u1 u2 u3 u4) x0 y0.
Proof.
intros F1 F2 F3 F4 W1 W2 W3 W4 x y. cbn [depth alive_at].
rewrite (full_depth _ _ F1), pow2_S. intros Hx Hy.
pose proof (full_depth _ _ F1) as D1. pose proof (full_depth _ _ F2) as D2.
pose proof (full_depth _ _ F3) as D3. pose proof (full_depth _ _ F4) as D4.
unfold window in *. rewrite D1 in W1. rewrite D2 in W2. rewrite D3 in W3. rewrite D4 in W4.
destruct (Z.ltb_spec y (2 ^ Z.of_nat k)), (Z.ltb_spec x (2 ^ Z.of_nat k)).
- by rewrite W1 by lia.
- rewrite W2 by lia. f_equal; lia.
- rewrite W3 by lia. f_equal; lia.
- rewrite W4 by lia. f_equal; lia.
Qed.

(** The squares two and three levels below. *)
Lemma window_pos2 f fx fy g gx gy k t :
  pos f fx fy → pos g gx gy → full (S (S k)) t →
  window t (g (f t)) ((2 * fx + gx) * 2 ^ Z.of_nat k) ((2 * fy + gy) * 2 ^ Z.of_nat k).
Proof.
intros Hf Hg Hfull.
destruct (pos_sel _ _ _ Hf) as (f' & Sf). destruct (pos_sel _ _ _ Hg) as (g' & Sg).
pose proof (full_sel _ _ _ _ Sf Hfull) as Ff.
pose proof (full_sel _ _ _ _ Sg Ff) as Fg.
pose proof (pos_range _ _ _ Hf). pose proof (pos_range _ _ _ Hg).
pose proof (pow2_pos k).
eapply window_eq.
- eapply window_trans; [by apply (window_pos f fx fy (S k))|by apply (window_pos g gx gy k)|..];
    rewrite ?(full_depth _ _ Ff), ?(full_depth _ _ Fg), ?pow2_S; nia.
- rewrite pow2_S. lia.
- rewrite pow2_S. lia.
Qed.

Lemma window_pos3 f fx fy g gx gy h hx hy k t :
  pos f fx fy → pos g gx gy → pos h hx hy → full (S (S (S k))) t →
  window t (h (g (f t)))
         ((4 * fx + 2 * gx + hx) * 2 ^ Z.of_nat k)
         ((4 * fy + 2 * gy + hy) * 2 ^ Z.of_nat k).
Proof.
intros Hf Hg Hh Hfull.
destruct (pos_sel _ _ _ Hf) as (f' & Sf). destruct (pos_sel _ _ _ Hg) as (g' & Sg).
destruct (pos_sel _ _ _ Hh) as (h' & Sh).
pose proof (full_sel _ _ _ _ Sf Hfull) as Ff.
pose proof (full_sel _ _ _ _ Sg Ff) as Fg.
pose proof (full_sel _ _ _ _ Sh Fg) as Fh.
pose proof (pos_range _ _ _ Hf). pose proof (pos_range _ _ _ Hg).
pose proof (pos_range _ _ _ Hh).
pose proof (pow2_pos k).
eapply window_eq.
- eapply window_trans;
    [by apply (window_pos2 f fx fy g gx gy (S k))|by apply (window_pos h hx hy k)|..];
    rewrite ?(full_depth _ _ Fg), ?(full_depth _ _ Fh), ?pow2_S; nia.
- rewrite pow2_S. lia.
- rewrite pow2_S. lia.
Qed.

(** A square without alive cells. *)
Lemma alive_at_pop_0 t x y : pop t = 0 → alive_at t x y = false.
Proof.
revert x y. induction t as [[]|a IHa b IHb c IHc d IHd]; intros x y; simpl; try done.
pose proof (pop_nonneg a). pose proof (pop_nonneg b).
pose proof (pop_nonneg c). pose proof (pop_nonneg d). intros Hz.
repeat case_match; [apply IHa|apply IHb|apply IHc|apply IHd]; lia.
Qed.

Lemma alive_at_empty_t k x y : alive_at (empty_t k) x y = false.
Proof. apply alive_at_pop_0, pop_empty_t. Qed.

(** The rule looks at the cell and the eight cells around it. *)
Lemma next_alive_ext g g' x y :
  (∀ dx dy, -1 <= dx <= 1 → -1 <= dy <= 1 → g (x + dx) (y + dy) = g' (x + dx) (y + dy)) →
  next_alive g x y = next_alive g' x y.
Proof.
intros H. unfold next_alive, around.
pose proof (H (-1) (-1)) as H1. pose proof (H 0 (-1)) as H2. pose proof (H 1 (-1)) as H3.
pose proof (H (-1) 0) as H4. pose proof (H 0 0) as H5. pose proof (H 1 0) as H6.
pose proof (H (-1) 1) as H7. pose proof (H 0 1) as H8. pose proof (H 1 1) as H9.
rewrite !Z.add_0_r in *.
replace (x + -1) with (x - 1) in * by lia. replace (y + -1) with (y - 1) in * by lia.
rewrite H1, H2, H3, H4, H5, H6, H7, H8, H9 by lia. done.
Qed.

Lemma next_alive_window t u x0 y0 x y :
  window t u x0 y0 →
  1 <= x → x + 1 < 2 ^ Z.of_nat (depth u) →
  1 <= y → y + 1 < 2 ^ Z.of_nat (depth u) →
  next_alive (alive_at u) x y = next_alive (alive_at t) (x0 + x) (y0 + y).
Proof.
intros W Hx Hx' Hy Hy'.
unfold next_alive, around. rewrite !W by lia.
replace (x0 + (x - 1)) with (x0 + x - 1) by lia.
replace (x0 + (x + 1)) with (x0 + x + 1) by lia.
replace (y0 + (y - 1)) with (y0 + y - 1) by lia.
replace (y0 + (y + 1)) with (y0 + y + 1) by lia.
done.
Qed.

End Grid.

(** ** [step_at] is one generation of the centre *)

Section StepCorrect.
Import HashLife Quad.

Lemma full_1_inv t : full 1 t → ∃ a b c d, t = QNode (QLeaf a) (QLeaf b) (QLeaf c) (QLeaf d).
Proof.
destruct t as [|[a|] [b|] [c|] [d|]]; simpl; try tauto. intros _. eauto.
Qed.

Lemma to_int_leaf b : to_int (pop (QLeaf b)) = Z.b2z b.
Proof. by destruct b. Qed.

(** The double loop of [life_rule], written out. *)
Lemma life_rule_unfold g cx cy :
  life_rule g cx cy =
  let count :=
    0 + grid_at g (cx + -1) (cy + -1) + grid_at g (cx + 0) (cy + -1) +
    grid_at g (cx + 1) (cy + -1) + grid_at g (cx + -1) (cy + 0) +
    grid_at g (cx + 1) (cy + 0) + grid_at g (cx + -1) (cy + 1) +
    grid_at g (cx + 0) (cy + 1) + grid_at g (cx + 1) (cy + 1) in
  (count =? 3) || ((count =? 2) && negb (grid_at g cx cy =? 0)).
Proof. reflexivity. Qed.

Lemma alive_at_leaves a b c d x y :
  alive_at (QNode (QLeaf a) (QLeaf b) (QLeaf c) (QLeaf d)) x y =
  if y <? 1 then (if x <? 1 then a else b) else (if x <? 1 then c else d).
Proof. reflexivity. Qed.

Lemma rule_b2z s c : (s =? 3) || ((s =? 2) && negb (Z.b2z c =? 0)) = (s =? 3) || ((s =? 2) && c).
Proof. by destruct c. Qed.

(** The base case: the inner 2x2 of a 4x4 square, read off the 16 leaves. *)
Lemma step_4x4_t_correct t x y :
  full 2 t → 0 <= x < 2 → 0 <= y < 2 →
  alive_at (step_4x4_t t) x y = next_alive (alive_at t) (x + 1) (y + 1).
Proof.
intros Hfull Hx Hy. destruct t as [|a b c d]; [done|].
destruct Hfull as (Fa & Fb & Fc & Fd).
destruct (full_1_inv _ Fa) as (a1 & a2 & a3 & a4 & ->).
destruct (full_1_inv _ Fb) as (b1 & b2 & b3 & b4 & ->).
destruct (full_1_inv _ Fc) as (c1 & c2 & c3 & c4 & ->).
destruct (full_1_inv _ Fd) as (d1 & d2 & d3 & d4 & ->).
clear Fa Fb Fc Fd.
unfold step_4x4_t. rewrite alive_at_leaves.
unfold grid_t. cbn [nw_t ne_t sw_t se_t].
rewrite !to_int_leaf, !life_rule_unfold.
unfold next_alive, around. cbv zeta.
repeat match goal with
       | |- context [grid_at ?g ?i ?j] =>
           let v := eval cbv -[Z.b2z] in (grid_at g i j) in
           change (grid_at g i j) with v
       end.
rewrite !rule_b2z.
assert (x = 0 ∨ x = 1) as [-> | ->] by lia;
assert (y = 0 ∨ y = 1) as [-> | ->] by lia; clear Hx Hy;
  repeat match goal with
         | |- context [alive_at ?u ?i ?j] =>
             let v := eval cbv in (alive_at u i j) in change (alive_at u i j) with v
         end;
  change (1 <? 1) with false; change (0 <? 1) with true; cbv iota;
  match goal with
  | |- (?s1 =? 3) || _ = (?s2 =? 3) || _ => by replace s1 with s2 by lia
  end.
Qed.

Lemma step_at_dead k t x y :
  pop t = 0 → alive_at (step_at k t) x y = false.
Proof. intros Hz. rewrite (step_at_empty _ _ Hz). apply alive_at_empty_t. Qed.

Lemma next_alive_dead g x y :
  (∀ dx dy, g dx dy = false) → next_alive g x y = false.
Proof. intros H. unfold next_alive, around. by rewrite !H. Qed.

(** [center] cuts out the middle of a window. *)
Lemma window_center t X x0 y0 k :
  full (S (S k)) X → window t X x0 y0 →
  window t (center_t X) (x0 + 2 ^ Z.of_nat k) (y0 + 2 ^ Z.of_nat k).
Proof.
intros FX WX. pose proof (pow2_pos k).
eapply window_trans; [exact WX| |lia|lia|..].
- unfold center_t.
  apply (window_QNode X _ _ _ _ k);
    try (eapply full_sel; [|eapply full_sel; [|exact FX]]; constructor).
  + eapply window_eq; [apply (window_pos2 nw_t 0 0 se_t 1 1 k); [constructor..|done]|lia|lia].
  + eapply window_eq; [apply (window_pos2 ne_t 1 0 sw_t 0 1 k); [constructor..|done]|lia|lia].
  + eapply window_eq; [apply (window_pos2 sw_t 0 1 ne_t 1 0 k); [constructor..|done]|lia|lia].
  + eapply window_eq; [apply (window_pos2 se_t 1 1 nw_t 0 0 k); [constructor..|done]|lia|lia].
- rewrite (full_depth _ _ (full_center_t _ _ FX)), (full_depth _ _ FX), !pow2_S. lia.
- rewrite (full_depth _ _ (full_center_t _ _ FX)), (full_depth _ _ FX), !pow2_S. lia.
Qed.

(** A square put together from four squares two levels below [t]. *)
Lemma window_quad t f1 fx1 fy1 g1 gx1 gy1 f2 fx2 fy2 g2 gx2 gy2
      f3 fx3 fy3 g3 gx3 gy3 f4 fx4 fy4 g4 gx4 gy4 k x0 y0 :
  pos f1 fx1 fy1 → pos g1 gx1 gy1 → pos f2 fx2 fy2 → pos g2 gx2 gy2 →
  pos f3 fx3 fy3 → pos g3 gx3 gy3 → pos f4 fx4 fy4 → pos g4 gx4 gy4 →
  full (S (S k)) t →
  2 * fx1 + gx1 = x0 → 2 * fy1 + gy1 = y0 →
  2 * fx2 + gx2 = x0 + 1 → 2 * fy2 + gy2 = y0 →
  2 * fx3 + gx3 = x0 → 2 * fy3 + gy3 = y0 + 1 →
  2 * fx4 + gx4 = x0 + 1 → 2 * fy4 + gy4 = y0 + 1 →
  window t (QNode (g1 (f1 t)) (g2 (f2 t)) (g3 (f3 t)) (g4 (f4 t)))
         (x0 * 2 ^ Z.of_nat k) (y0 * 2 ^ Z.of_nat k).
Proof.
intros P1 Q1 P2 Q2 P3 Q3 P4 Q4 Ft E1 E1' E2 E2' E3 E3' E4 E4'.
assert (∀ f fx fy g gx gy, pos f fx fy → pos g gx gy → full k (g (f t))) as FF.
{ intros f fx fy g gx gy Hf Hg.
  destruct (pos_sel _ _ _ Hf) as (f' & Sf). destruct (pos_sel _ _ _ Hg) as (g' & Sg).
  eapply full_sel; [exact Sg|]. eapply full_sel; [exact Sf|]. exact Ft. }
apply (window_QNode t _ _ _ _ k); eauto.
- eapply window_eq; [by apply (window_pos2 f1 fx1 fy1 g1 gx1 gy1 k)|..]; f_equal; lia.
- eapply window_eq; [by apply (window_pos2 f2 fx2 fy2 g2 gx2 gy2 k)|..]; lia.
- eapply window_eq; [by apply (window_pos2 f3 fx3 fy3 g3 gx3 gy3 k)|..]; lia.
- eapply window_eq; [by apply (window_pos2 f4 fx4 fy4 g4 gx4 gy4 k)|..]; lia.
Qed.

(** [slow_step] builds the square that shows the centre of its argument one
    generation later. *)
Lemma step_at_correct k : ∀ t x y,
  full (k + 2) t →
  0 <= x < 2 ^ Z.of_nat (k + 1) → 0 <= y < 2 ^ Z.of_nat (k + 1) →
  alive_at (step_at k t) x y =
  next_alive (alive_at t) (x + 2 ^ Z.of_nat k) (y + 2 ^ Z.of_nat k).
Proof.
induction k as [|k IH]; intros t x y Hfull Hx Hy.
- destruct (Z.eqb_spec (pop t) 0) as [Hz|Hz].
  { rewrite step_at_dead by done. symmetry. apply next_alive_dead.
    intros. by apply alive_at_pop_0. }
  assert (step_at 0 t = step_4x4_t t) as ->.
  { simpl. by destruct (Z.eqb_spec (pop t) 0). }
  by apply step_4x4_t_correct.
- destruct (Z.eqb_spec (pop t) 0) as [Hz|Hz].
  { rewrite step_at_dead by done. symmetry. apply next_alive_dead.
    intros. by apply alive_at_pop_0. }
  pose proof (step_at_unfold k t) as Est.
  destruct (Z.eqb_spec (pop t) 0) in Est; [done|]. cbv zeta in Est.
  rewrite Est. clear Est.
  replace (S k + 2)%nat with (S (S (S k))) in Hfull by lia.
  replace (S k + 1)%nat with (S (S k)) in Hx, Hy by lia.
  rewrite !pow2_S in Hx, Hy. rewrite pow2_S.
  pose proof (pow2_pos k) as HE. set (E := 2 ^ Z.of_nat k) in *.
  assert (∀ f ft, sel f ft → full (S (S k)) (ft t)) as F1.
  { intros f ft Hs. eapply full_sel; [done|]. exact Hfull. }
  assert (∀ f ft g gt, sel f ft → sel g gt → full (S k) (gt (ft t))) as F2.
  { intros f ft g gt Hs Hs'. eapply full_sel; [done|]. eapply F1. done. }
  assert (∀ f1 ft1 g1 gt1 f2 ft2 g2 gt2 f3 ft3 g3 gt3 f4 ft4 g4 gt4,
            sel f1 ft1 → sel g1 gt1 → sel f2 ft2 → sel g2 gt2 →
            sel f3 ft3 → sel g3 gt3 → sel f4 ft4 → sel g4 gt4 →
            full (S (S k)) (QNode (gt1 (ft1 t)) (gt2 (ft2 t)) (gt3 (ft3 t)) (gt4 (ft4 t))))
    as FQ.
  { intros. apply full_QNode; eauto. }
  (* the nine overlapping squares *)
  set (n00 := nw_t t). set (n01 := ne_t t). set (n10 := sw_t t). set (n11 := se_t t).
  set (c01 := QNode (ne_t n00) (nw_t n01) (se_t n00) (sw_t n01)).
  set (c10 := QNode (sw_t n00) (se_t n00) (nw_t n10) (ne_t n10)).
  set (c11 := QNode (se_t n00) (sw_t n01) (ne_t n10) (nw_t n11)).
  set (c12 := QNode (sw_t n01) (se_t n01) (nw_t n11) (ne_t n11)).
  set (c21 := QNode (ne_t n10) (nw_t n11) (se_t n10) (sw_t n11)).
  assert (full (S (S k)) n00 ∧ full (S (S k)) n01 ∧ full (S (S k)) n10 ∧
          full (S (S k)) n11 ∧ full (S (S k)) c01 ∧ full (S (S k)) c10 ∧
          full (S (S k)) c11 ∧ full (S (S k)) c12 ∧ full (S (S k)) c21)
    as (F00 & F01 & F10 & F11 & Fc01 & Fc10 & Fc11 & Fc12 & Fc21).
  { unfold n00, n01, n10, n11, c01, c10, c11, c12, c21.
    repeat split; eauto using sel. }
  assert (2 ^ Z.of_nat (S k) = 2 * E) as E2 by apply pow2_S.
  assert (window t n00 (0 * (2 * E)) (0 * (2 * E))) as W00.
  { rewrite <-E2. apply (window_pos nw_t 0 0 (S (S k))); [constructor|done]. }
  assert (window t n01 (2 * (2 * E)) (0 * (2 * E))) as W02.
  { eapply window_eq; [apply (window_pos ne_t 1 0 (S (S k))); [constructor|done]|..];
      rewrite ?pow2_S; fold E; lia. }
  assert (window t n10 (0 * (2 * E)) (2 * (2 * E))) as W20.
  { eapply window_eq; [apply (window_pos sw_t 0 1 (S (S k))); [constructor|done]|..];
      rewrite ?pow2_S; fold E; lia. }
  assert (window t n11 (2 * (2 * E)) (2 * (2 * E))) as W22.
  { eapply window_eq; [apply (window_pos se_t 1 1 (S (S k))); [constructor|done]|..];
      rewrite ?pow2_S; fold E; lia. }
  assert (window t c01 (1 * (2 * E)) (0 * (2 * E))) as W01.
  { rewrite <-E2. unfold c01, n00, n01.
    apply (window_quad t nw_t 0 0 ne_t 1 0 ne_t 1 0 nw_t 0 0
                         nw_t 0 0 se_t 1 1 ne_t 1 0 sw_t 0 1 (S k) 1 0);
      first [constructor|done|lia]. }
  assert (window t c10 (0 * (2 * E)) (1 * (2 * E))) as W10.
  { rewrite <-E2. unfold c10, n00, n10.
    apply (window_quad t nw_t 0 0 sw_t 0 1 nw_t 0 0 se_t 1 1
                         sw_t 0 1 nw_t 0 0 sw_t 0 1 ne_t 1 0 (S k) 0 1);
      first [constructor|done|lia]. }
  assert (window t c11 (1 * (2 * E)) (1 * (2 * E))) as W11.
  { rewrite <-E2. unfold c11, n00, n01, n10, n11.
    apply (window_quad t nw_t 0 0 se_t 1 1 ne_t 1 0 sw_t 0 1
                         sw_t 0 1 ne_t 1 0 se_t 1 1 nw_t 0 0 (S k) 1 1);
      first [constructor|done|lia]. }
  assert (window t c12 (2 * (2 * E)) (1 * (2 * E))) as W12.
  { rewrite <-E2. unfold c12, n01, n11.
    apply (window_quad t ne_t 1 0 sw_t 0 1 ne_t 1 0 se_t 1 1
                         se_t 1 1 nw_t 0 0 se_t 1 1 ne_t 1 0 (S k) 2 1);
      first [constructor|done|lia]. }
  assert (window t c21 (1 * (2 * E)) (2 * (2 * E))) as W21.
  { rewrite <-E2. unfold c21, n10, n11.
    apply (window_quad t sw_t 0 1 ne_t 1 0 se_t 1 1 nw_t 0 0
                         sw_t 0 1 se_t 1 1 se_t 1 1 sw_t 0 1 (S k) 1 2);
      first [constructor|done|lia]. }
  clearbody n00 n01 n10 n11 c01 c10 c11 c12 c21.
  (* their centres, and the four squares that are stepped *)
  assert (∀ X a b, full (S (S k)) X → window t X (a * (2 * E)) (b * (2 * E)) →
            window t (center_t X) ((2 * a + 1) * E) ((2 * b + 1) * E)) as WC.
  { intros X a b FX WX. eapply window_eq; [apply (window_center t X _ _ k FX WX)|..];
      fold E; lia. }
  assert (∀ X Y Z W a b,
            full (S (S k)) X → full (S (S k)) Y → full (S (S k)) Z → full (S (S k)) W →
            window t X (a * (2 * E)) (b * (2 * E)) →
            window t Y ((a + 1) * (2 * E)) (b * (2 * E)) →
            window t Z (a * (2 * E)) ((b + 1) * (2 * E)) →
            window t W ((a + 1) * (2 * E)) ((b + 1) * (2 * E)) →
            full (k + 2) (QNode (center_t X) (center_t Y) (center_t Z) (center_t W)) ∧
            window t (QNode (center_t X) (center_t Y) (center_t Z) (center_t W))
                   ((2 * a + 1) * E) ((2 * b + 1) * E)) as WA.
  { intros X Y Z W a b FX FY FZ FW WX WY WZ WW. split.
    { replace (k + 2)%nat with (S (S k)) by lia.
      apply full_QNode; by apply full_center_t. }
    apply (window_QNode t _ _ _ _ (S k)); try by apply full_center_t.
    - by apply WC.
    - eapply window_eq; [apply (WC Y (a + 1) b FY WY)|..]; rewrite ?E2; lia.
    - eapply window_eq; [apply (WC Z a (b + 1) FZ WZ)|..]; rewrite ?E2; lia.
    - eapply window_eq; [apply (WC W (a + 1) (b + 1) FW WW)|..]; rewrite ?E2; lia. }
  destruct (WA n00 c01 c10 c11 0 0) as (FA & WA0); auto.
  destruct (WA c01 n01 c11 c12 1 0) as (FB & WB0); auto.
  destruct (WA c10 c11 n10 c21 0 1) as (FC & WC0); auto.
  destruct (WA c11 c12 c21 n11 1 1) as (FD & WD0); auto.
  clear WA WC.
  set (A := QNode (center_t n00) (center_t c01) (center_t c10) (center_t c11)) in *.
  set (B := QNode (center_t c01) (center_t n01) (center_t c11) (center_t c12)) in *.
  set (C := QNode (center_t c10) (center_t c11) (center_t n10) (center_t c21)) in *.
  set (D := QNode (center_t c11) (center_t c12) (center_t c21) (center_t n11)) in *.
  clearbody A B C D.
  assert (∀ X a b u v,
            full (k + 2) X → window t X ((2 * a + 1) * E) ((2 * b + 1) * E) →
            0 <= u < 2 * E → 0 <= v < 2 * E →
            alive_at (step_at k X) u v =
            next_alive (alive_at t) (a * (2 * E) + u + 2 * E) (b * (2 * E) + v + 2 * E))
    as Hstep.
  { intros X a b u v FX WX Hu Hv.
    rewrite IH; [|done|replace (k + 1)%nat with (S k) by lia; rewrite E2; lia..].
    fold E. rewrite (next_alive_window t X _ _ _ _ WX).
    - f_equal; lia.
    - lia.
    - rewrite (full_depth _ _ FX). replace (k + 2)%nat with (S (S k)) by lia.
      rewrite !pow2_S. fold E. lia.
    - lia.
    - rewrite (full_depth _ _ FX). replace (k + 2)%nat with (S (S k)) by lia.
      rewrite !pow2_S. fold E. lia. }
  cbn [alive_at].
  rewrite (full_depth _ _ (full_step_at k A FA)).
  replace (k + 1)%nat with (S k) by lia. rewrite E2.
  destruct (Z.ltb_spec y (2 * E)), (Z.ltb_spec x (2 * E)).
  + rewrite (Hstep A 0 0) by (done || lia). f_equal; lia.
  + rewrite (Hstep B 1 0) by (done || lia). f_equal; lia.
  + rewrite (Hstep C 0 1) by (done || lia). f_equal; lia.
  + rewrite (Hstep D 1 1) by (done || lia). f_equal; lia.
Qed.

End StepCorrect.

(** ** The pool over a whole tick *)

Section WholeTick.
Import HashLife Quad.

(** An arithmetic step: it faults or goes on with its value, the pool is
    not involved. *)
Lemma runs_lift {A B} (o : outcome A) (f : A → M B) P R :
  (∀ a, o = Done a → runs false (f a) P R) → runs false (lift o ≫= f) P R.
Proof.
intros H. destruct o as [a|e].
- apply (runs_read false (lift (Done a)) f P a); [done|]. by apply H.
- by apply (runs_fault _ P e).
Qed.

Lemma full_depth_eq k a b : full k a → full k b → depth b = depth a.
Proof. intros Ha Hb. by rewrite (full_depth _ _ Ha), (full_depth _ _ Hb). Qed.

Lemma holds_mono k p P P' : extends P P' → holds k p P → holds k p P'.
Proof. intros Hext (t & ? & ?). exists t. eauto using repr_mono. Qed.

Lemma make_holds P a b c d k :
  pool_ok P → holds k a P → holds k b P → holds k c P → holds k d P →
  runs false (make a b c d) P (holds (S k)).
Proof.
intros Hok (ta & Ra & Fa) (tb & Rb & Fb) (tc & Rc & Fc) (td & Rd & Fd).
eapply runs_weaken.
- apply (make_runs false P a b c d ta tb tc td); eauto using full_depth_eq. done.
- intros p P' _ _ Hp. exists (QNode ta tb tc td). split; [done|]. by apply full_QNode.
Qed.

Lemma empty_node_holds P k : pool_ok P → runs false (empty_node k) P (holds k).
Proof.
intros Hok. eapply runs_weaken; [by apply empty_node_runs|].
intros p P' _ _ Hp. exists (empty_t k). split; [done|apply full_empty_t].
Qed.

Lemma build_recursive_holds sorted lvl : ∀ x y P,
  pool_ok P → runs false (build_recursive sorted x y lvl) P (holds lvl).
Proof.
induction lvl as [|lvl IH]; intros x y P Hok.
- cbn [build_recursive]. apply runs_lift. intros size _. apply runs_lift. intros has _.
  destruct has; cbn [negb].
  + apply returns_runs.
    eexists _, P. split; [apply leaf_spec|]. split; [done|]. split; [apply extends_refl|].
    eexists (QLeaf _). by split.
  + by apply (empty_node_holds P 0).
- cbn [build_recursive]. apply runs_lift. intros size _. apply runs_lift. intros has _.
  destruct has; cbn [negb]; [|by apply empty_node_holds].
  eapply runs_bind; [by apply IH|]. intros a P1 Hok1 _ Ha.
  apply runs_lift. intros xh _.
  eapply runs_bind; [by apply IH|]. intros b P2 Hok2 Hext2 Hb.
  apply (holds_mono _ _ _ _ Hext2) in Ha.
  apply runs_lift. intros yh _.
  eapply runs_bind; [by apply IH|]. intros c P3 Hok3 Hext3 Hc.
  apply (holds_mono _ _ _ _ Hext3) in Ha, Hb.
  apply runs_lift. intros xh' _. apply runs_lift. intros yh' _.
  eapply runs_bind; [by apply IH|]. intros d P4 Hok4 Hext4 Hd.
  apply (holds_mono _ _ _ _ Hext4) in Ha, Hb, Hc.
  by apply make_holds.
Qed.

Lemma expand_holds P node ox oy l :
  pool_ok P → holds (S l) node P →
  runs false (expand node ox oy) P (λ r P', holds (S (S l)) r.1.1 P').
Proof.
intros Hok (t & Rt & Ft). unfold expand.
destruct (repr_lookup P node t Hok Rt) as (n & Hn & Hlevel & _).
apply (runs_read false (load node) _ P n); [unfold load; by rewrite Hn|].
rewrite Hlevel, (full_depth _ _ Ft). cbn [empty_below].
apply runs_lift. intros half _.
eapply runs_bind; [by apply empty_node_holds|]. intros e P1 Hok1 Hext1 He.
apply (repr_mono _ _ _ _ Hext1) in Rt.
apply runs_lift. intros ox' _. apply runs_lift. intros oy' _.
assert (∀ f ft Q, sel f ft → pool_ok Q → repr Q node t →
          ∃ q, child f node Q = Done (q, Q) ∧ holds l q Q) as Hchild.
{ intros f ft Q Hs HokQ RQ.
  destruct (child_sel f ft Q node t Hs HokQ RQ) as (q & Hq & Rq).
  { rewrite (full_depth _ _ Ft). lia. }
  exists q. split; [done|]. exists (ft t). split; [done|]. by eapply full_sel. }
destruct (Hchild nw nw_t P1 sel_nw Hok1 Rt) as (q1 & E1 & H1).
apply (runs_read false _ _ P1 q1 _ E1).
eapply runs_bind; [by apply (make_holds P1 e e e q1 l)|]. intros a P2 Hok2 Hext2 Ha.
apply (repr_mono _ _ _ _ Hext2) in Rt. apply (holds_mono _ _ _ _ Hext2) in He.
destruct (Hchild ne ne_t P2 sel_ne Hok2 Rt) as (q2 & E2 & H2).
apply (runs_read false _ _ P2 q2 _ E2).
eapply runs_bind; [by apply (make_holds P2 e e q2 e l)|]. intros b P3 Hok3 Hext3 Hb.
apply (repr_mono _ _ _ _ Hext3) in Rt. apply (holds_mono _ _ _ _ Hext3) in He, Ha.
destruct (Hchild sw sw_t P3 sel_sw Hok3 Rt) as (q3 & E3 & H3).
apply (runs_read false _ _ P3 q3 _ E3).
eapply runs_bind; [by apply (make_holds P3 e q3 e e l)|]. intros c P4 Hok4 Hext4 Hc.
apply (repr_mono _ _ _ _ Hext4) in Rt. apply (holds_mono _ _ _ _ Hext4) in He, Ha, Hb.
destruct (Hchild se se_t P4 sel_se Hok4 Rt) as (q4 & E4 & H4).
apply (runs_read false _ _ P4 q4 _ E4).
eapply runs_bind; [by apply (make_holds P4 q4 e e e l)|]. intros d P5 Hok5 Hext5 Hd.
apply (holds_mono _ _ _ _ Hext5) in Ha, Hb, Hc.
eapply runs_bind; [by apply (make_holds P5 a b c d (S l))|]. intros r P6 Hok6 Hext6 Hr.
by apply runs_ret.
Qed.

Lemma expand_to_2_holds fuel : ∀ P root ox oy l,
  pool_ok P → holds (S l) root P →
  runs false (expand_to_2 fuel root ox oy) P (λ r P', ∃ l', holds (S l') r.1.1 P').
Proof.
induction fuel as [|fuel IH]; intros P root ox oy l Hok Hroot.
{ by apply (runs_fault _ P OutOfFuel). }
cbn [expand_to_2]. destruct Hroot as (t & Rt & Ft).
destruct (repr_lookup P root t Hok Rt) as (n & Hn & _).
apply (runs_read false (load root) _ P n); [unfold load; by rewrite Hn|].
destruct (level n <? 2)%nat.
- eapply runs_bind; [apply (expand_holds P root ox oy l); [done|by exists t]|].
  intros [[r ox'] oy'] P1 Hok1 _ Hr. simpl in Hr. by apply (IH P1 r ox' oy' (S l)).
- apply runs_ret; [done|]. exists l, t. by split.
Qed.

Lemma reads_bind {A B} (m : M A) (f : A → M B) :
  reads m → (∀ a, reads (f a)) → reads (m ≫= f).
Proof.
intros Hm Hf P b P'' H. unfold mbind, M_bind in H.
destruct (m P) as [[a P']|] eqn:E; [|done].
apply Hm in E as ->. by apply Hf in H.
Qed.

Lemma reads_ret {A} (a : A) : reads (mret a).
Proof. intros P a' P' [= _ <-]. done. Qed.

Lemma reads_lift {A} (o : outcome A) : reads (lift o).
Proof. intros P a P' H. destruct o; [by injection H as _ <-|done]. Qed.

Lemma reads_load p : reads (load p).
Proof. intros P a P' H. unfold load in H. destruct (arena P !! p); [by injection H as _ <-|done]. Qed.

Lemma reads_child f p : reads (child f p).
Proof.
apply reads_bind; [apply reads_load|]. intros n.
destruct (f n); [apply reads_ret|done].
Qed.

Lemma reads_flatten fuel : ∀ node x y cells, reads (flatten fuel node x y cells).
Proof.
induction fuel as [|fuel IH]; intros node x y cells; [done|].
cbn [flatten]. apply reads_bind; [apply reads_load|]. intros n.
destruct (population n =? 0); [apply reads_ret|].
destruct (level n) as [|l]; [apply reads_ret|].
repeat (apply reads_bind;
        [first [apply reads_lift | apply reads_child | apply IH]|intros ?]).
apply IH.
Qed.

Lemma grow_level_ge fuel : ∀ lvl range r,
  grow_level fuel lvl range = Done r → (lvl <= r)%nat.
Proof.
induction fuel as [|fuel IH]; intros lvl range r; [done|].
cbn [grow_level]. destruct (shl1 lvl) as [s|]; [|done]. simpl.
destruct (s <? range); [|by intros [= ->]].
intros H. apply IH in H. lia.
Qed.

(** [step_cluster] keeps the pool well formed. *)
Lemma step_cluster_ok cells P :
  pool_ok P → runs false (step_cluster cells) P (λ _ _, True).
Proof.
intros Hok. unfold step_cluster.
destruct (bool_decide (cells = ∅)); [by apply runs_ret|].
destruct (bounding_box (elements cells)) as [[[min_x max_x] min_y] max_y].
apply runs_lift. intros range_x _. apply runs_lift. intros range_y _.
apply runs_lift. intros lvl Hlvl. apply grow_level_ge in Hlvl.
apply runs_lift. intros size _. apply runs_lift. intros ox _. apply runs_lift. intros oy _.
eapply runs_bind; [by apply build_recursive_holds|]. intros root P1 Hok1 _ Hroot.
destruct lvl as [|l]; [lia|].
eapply runs_bind; [by apply (expand_to_2_holds 3 P1 root ox oy l)|].
intros [[r1 ox1] oy1] P2 Hok2 _ (l1 & Hr1). simpl in Hr1.
eapply runs_bind; [by apply (expand_holds P2 r1 ox1 oy1 l1)|].
intros [[r2 ox2] oy2] P3 Hok3 _ Hr2. simpl in Hr2.
eapply runs_bind; [by apply (expand_holds P3 r2 ox2 oy2 (S l1))|].
intros [[r3 ox3] oy3] P4 Hok4 _ (t & Rt & Ft). simpl in Rt.
destruct (repr_lookup P4 r3 t Hok4 Rt) as (n & Hn & Hlevel & _).
apply (runs_read false (load r3) _ P4 n); [unfold load; by rewrite Hn|].
eapply runs_bind.
{ apply (slow_step_runs false (S l1) (level n) P4 r3 t); [done|done| |done].
  by replace (S l1 + 2)%nat with (S (S (S l1))) by lia. }
intros result P5 Hok5 _ _.
apply runs_lift. intros quarter _. apply runs_lift. intros rx _.
apply runs_lift. intros ry _.
split; [done|]. intros c P6 Hrun. unfold mbind, M_bind in Hrun.
destruct (load result P5) as [[nr P5']|] eqn:E; [|done].
apply reads_load in E as ->. apply reads_flatten in Hrun as ->.
split; [done|]. split; [apply extends_refl|done].
Qed.

Lemma step_all_ok clusters : ∀ cells P,
  pool_ok P → runs false (step_all clusters cells) P (λ _ _, True).
Proof.
induction clusters as [|[key cluster_cells] rest IH]; intros cells P Hok.
- by apply runs_ret.
- cbn [step_all]. eapply runs_bind; [by apply step_cluster_ok|].
  intros c P1 Hok1 _ _. by apply IH.
Qed.

(** Whenever a tick of the quadtree engine returns, the pool it leaves is
    well formed. *)
Lemma tick_pool_ok cells cells' P :
  tick_in_pool cells clear = Done (cells', P) → pool_ok P.
Proof.
assert (runs false (tick_in_pool cells) clear (λ _ _, True)) as [_ H].
{ unfold tick_in_pool. pose proof pool_ok_clear.
  destruct (bool_decide (cells = ∅)); [by apply runs_ret|].
  apply runs_lift. intros chunks _. apply runs_lift. intros parent _.
  apply runs_lift. intros [parent' clusters] _. by apply step_all_ok. }
intros Hrun. by destruct (H _ _ Hrun).
Qed.

End WholeTick.

(** ** Sample pools *)

Section Samples.
Import HashLife Quad.

(** A memoised result is returned as it is. *)
Lemma slow_step_memo P p n r fuel :
  arena P !! p = Some n → step1_result n = Some r →
  slow_step (S fuel) p P = Done (r, P).
Proof.
intros Hn Hr. cbn [slow_step]. unfold load, mbind, M_bind. by rewrite Hn, Hr.
Qed.

Lemma Done_pair_inj {A B} (a c : A) (b d : B) :
  Done (a, b) = Done (c, d) → a = c ∧ b = d.
Proof. by intros [= -> ->]. Qed.

Lemma blinker_square_run :
  blinker_square clear = Done (blinker_root, blinker_pool).
Proof. vm_compute. reflexivity. Qed.

Lemma blinker_pool_ok : pool_ok blinker_pool ∧ repr blinker_pool blinker_root blinker_tree.
Proof.
assert (returns blinker_square clear (λ p P, repr P p blinker_tree)) as H.
{ pose proof pool_ok_clear as Hok0.
  assert (repr clear 0%nat (QLeaf false)) as R0 by done.
  assert (repr clear 1%nat (QLeaf true)) as R1 by done.
  unfold blinker_square.
  eapply returns_bind; [apply (make_spec clear 0 0 1 1 _ _ _ _ Hok0 R0 R0 R1 R1); simpl; (done || lia)|].
  intros a P1 Hok1 Hext1 Ra. cbv beta in Ra.
  apply (repr_mono _ _ _ _ Hext1) in R0, R1.
  eapply returns_bind; [apply (make_spec P1 0 0 1 0 _ _ _ _ Hok1 R0 R0 R1 R0); simpl; (done || lia)|].
  intros b P2 Hok2 Hext2 Rb. cbv beta in Rb.
  apply (repr_mono _ _ _ _ Hext2) in R0, R1, Ra.
  eapply returns_bind; [apply (make_spec P2 0 0 0 0 _ _ _ _ Hok2 R0 R0 R0 R0); simpl; (done || lia)|].
  intros c P3 Hok3 Hext3 Rc. cbv beta in Rc.
  apply (repr_mono _ _ _ _ Hext3) in Ra, Rb.
  apply (make_spec P3 a b c c _ _ _ _ Hok3 Ra Rb Rc Rc); simpl; (done || lia). }
destruct H as (p & P & Hrun & Hok & _ & Hr).
rewrite blinker_square_run in Hrun.
destruct (Done_pair_inj _ _ _ _ Hrun) as [Hp HP].
rewrite Hp, HP. split; assumption.
Qed.

Lemma blinker_tick_pool_ok : pool_ok blinker_tick_pool.
Proof.
unfold blinker_tick_pool.
destruct (tick_in_pool blinker clear) as [[c P]|] eqn:E.
- by eapply tick_pool_ok.
- apply pool_ok_clear.
Qed.

End Samples.

(** ** Cell hashing *)

Section Hashing.

Lemma testbit_above h n k :
  0 <= h < 2 ^ k → k <= n → Z.testbit h n = false.
Proof.
intros [H0 H1] Hn.
destruct (Z.eq_dec h 0) as [->|Hne]; [apply Z.bits_0|].
apply Z.bits_above_log2; [done|].
assert (Z.log2 h < k); [|lia].
apply Z.log2_lt_pow2; lia.
Qed.

Lemma lxor_range a b k :
  0 <= k → 0 <= a < 2 ^ k → 0 <= b < 2 ^ k → 0 <= Z.lxor a b < 2 ^ k.
Proof.
intros Hk Ha Hb.
assert (0 <= Z.lxor a b) as H0 by (apply Z.lxor_nonneg; lia).
split; [done|].
destruct (Z.eq_dec (Z.lxor a b) 0) as [->|Hne]; [apply Z.pow_pos_nonneg; lia|].
apply Z.log2_lt_pow2; [lia|].
pose proof (Z.log2_lxor a b ltac:(lia) ltac:(lia)) as Hl.
assert (Z.log2 a < k ∨ a = 0) as Ha'.
{ destruct (Z.eq_dec a 0); [by right|left; apply Z.log2_lt_pow2; lia]. }
assert (Z.log2 b < k ∨ b = 0) as Hb'.
{ destruct (Z.eq_dec b 0); [by right|left; apply Z.log2_lt_pow2; lia]. }
assert (0 < k).
{ destruct (Z.eq_dec k 0) as [->|]; [|lia]. simpl in *.
  assert (a = 0) by lia. assert (b = 0) by lia. subst. by simpl in Hne. }
destruct Ha' as [?| ->], Hb' as [?| ->]; rewrite ?Z.lxor_0_l, ?Z.lxor_0_r in *; simpl in Hl; lia.
Qed.

Lemma shiftr_range h k n :
  0 <= n → 0 <= h < 2 ^ k → 0 <= Z.shiftr h n < 2 ^ k.
Proof.
intros Hn [H0 H1]. rewrite Z.shiftr_div_pow2 by done.
assert (0 < 2 ^ n) by (apply Z.pow_pos_nonneg; lia).
split; [apply Z.div_pos; lia|].
apply Z.le_lt_trans with h; [|done].
apply Z.div_le_upper_bound; [done|]. nia.
Qed.

(** [h ^= h >> 33] on a 64-bit value undoes itself. *)
Lemma xorshift_involutive h :
  0 <= h < 2 ^ 64 →
  let f v := Z.lxor v (Z.shiftr v 33) in f (f h) = h.
Proof.
intros Hh f. unfold f. apply Z.bits_inj'. intros n Hn.
rewrite !Z.lxor_spec, !Z.shiftr_spec, !Z.lxor_spec, !Z.shiftr_spec by lia.
rewrite (testbit_above h (n + 33 + 33) 64) by lia.
by destruct (Z.testbit h n), (Z.testbit h (n + 33)).
Qed.

Lemma xorshift_inj a b :
  0 <= a < 2 ^ 64 → 0 <= b < 2 ^ 64 →
  Z.lxor a (Z.shiftr a 33) = Z.lxor b (Z.shiftr b 33) → a = b.
Proof.
intros Ha Hb E.
rewrite <- (xorshift_involutive a Ha), <- (xorshift_involutive b Hb).
cbv zeta. by rewrite E.
Qed.

Lemma xorshift_range a :
  0 <= a < 2 ^ 64 → 0 <= Z.lxor a (Z.shiftr a 33) < 2 ^ 64.
Proof.
intros Ha. apply lxor_range; [lia|done|]. apply shiftr_range; [lia|done].
Qed.

(** Multiplication by an odd constant is one-to-one modulo 2^64. *)
Lemma mul_mod_inj c c' a b :
  (c * c') `mod` 2 ^ 64 = 1 →
  0 <= a < 2 ^ 64 → 0 <= b < 2 ^ 64 →
  to_uint64 (a * c) = to_uint64 (b * c) → a = b.
Proof.
unfold to_uint64. intros Hc Ha Hb E.
assert (∀ v, 0 <= v < 2 ^ 64 → v = ((v * c) `mod` 2 ^ 64 * c') `mod` 2 ^ 64) as H.
{ intros v Hv. rewrite Z.mul_mod_idemp_l by lia.
  rewrite <- Z.mul_assoc, <- Z.mul_mod_idemp_r, Hc by lia.
  rewrite Z.mul_1_r, Z.mod_small; lia. }
rewrite (H a Ha), (H b Hb). by rewrite E.
Qed.

Lemma to_uint64_range v : 0 <= to_uint64 v < 2 ^ 64.
Proof. unfold to_uint64. apply Z.mod_pos_bound. lia. Qed.

Lemma to_uint64_inj a b :
  in_int64 a = true → in_int64 b = true → to_uint64 a = to_uint64 b → a = b.
Proof.
rewrite !in_int64_spec. unfold INT64_MIN, INT64_MAX, to_uint64. intros Ha Hb E.
assert (∀ v, -9223372036854775808 <= v <= 9223372036854775807 →
             v = (v `mod` 2 ^ 64 + 2 ^ 63) `mod` 2 ^ 64 - 2 ^ 63) as H.
{ intros v Hv. rewrite Zplus_mod_idemp_l.
  rewrite Z.mod_small; lia. }
rewrite (H a Ha), (H b Hb). by rewrite E.
Qed.

Lemma lxor_cancel_l a b c : Z.lxor a b = Z.lxor a c → b = c.
Proof.
intros E. rewrite <- (Z.lxor_0_l b), <- (Z.lxor_0_l c), <- (Z.lxor_nilpotent a).
by rewrite !Z.lxor_assoc, E.
Qed.

Lemma lxor_cancel_r a b c : Z.lxor b a = Z.lxor c a → b = c.
Proof. rewrite !(Z.lxor_comm _ a). apply lxor_cancel_l. Qed.

Lemma CellHash_inj a b :
  cell_in_range a = true → cell_in_range b = true →
  Cell.x a = Cell.x b ∨ Cell.y a = Cell.y b →
  CellHash a = CellHash b → a = b.
Proof.
unfold cell_in_range. rewrite !andb_true_iff. intros [Hax Hay] [Hbx Hby] Hline.
unfold CellHash. cbv zeta.
set (ha := Z.lxor (to_uint64 (Cell.x a)) (to_uint64 (to_uint64 (Cell.y a) * kHashMultiplier))).
set (hb := Z.lxor (to_uint64 (Cell.x b)) (to_uint64 (to_uint64 (Cell.y b) * kHashMultiplier))).
intros E.
assert (0 <= ha < 2 ^ 64) as Ra by (apply lxor_range; [lia|apply to_uint64_range..]).
assert (0 <= hb < 2 ^ 64) as Rb by (apply lxor_range; [lia|apply to_uint64_range..]).
apply xorshift_inj in E; [|apply to_uint64_range..].
apply (mul_mod_inj _ 0x9cb4b2f8129337db) in E;
  [|done|apply xorshift_range, to_uint64_range..].
apply xorshift_inj in E; [|apply to_uint64_range..].
apply (mul_mod_inj _ 0x4f74430c22a54005) in E;
  [|done|by apply xorshift_range..].
apply xorshift_inj in E; [|done..].
subst ha hb.
assert (Cell.x a = Cell.x b ∧ Cell.y a = Cell.y b) as [Ex Ey].
{ destruct Hline as [Ex|Ey].
  - split; [done|]. rewrite Ex in E. apply lxor_cancel_l in E.
    apply (mul_mod_inj _ 0xf1de83e19937733d) in E; [|done|apply to_uint64_range..].
    by apply to_uint64_inj.
  - split; [|done]. rewrite Ey in E. apply lxor_cancel_r in E.
    by apply to_uint64_inj. }
destruct a, b; simpl in *; congruence.
Qed.

End Hashing.

(** ** File names *)

Section FileNames.

Lemma append_nil_l s : ("" ++ s)%string = s.
Proof. reflexivity. Qed.

Lemma append_cons a s1 s2 : (String a s1 ++ s2)%string = String a (s1 ++ s2).
Proof. reflexivity. Qed.

Lemma rfind_app c s1 s2 :
  rfind c (s1 ++ s2) =
  match rfind c s2 with
  | Some i => Some (String.length s1 + i)%nat
  | None => rfind c s1
  end.
Proof.
induction s1 as [|a s1 IH].
- rewrite append_nil_l. by destruct (rfind c s2).
- rewrite append_cons. simpl. rewrite IH. by destruct (rfind c s2).
Qed.

Lemma substr_app s1 s2 : substr (String.length s1 + 0) (s1 ++ s2) = s2.
Proof.
induction s1 as [|a s1 IH]; [by destruct s2|].
rewrite append_cons. exact IH.
Qed.

Lemma rfind_split c s i :
  rfind c s = Some i →
  ∃ stem, s = (stem ++ substr i s)%string ∧ String.length stem = i.
Proof.
revert i. induction s as [|a s IH]; intros i; simpl; [done|].
destruct (rfind c s) as [j|] eqn:E.
- intros [= <-]. destruct (IH j eq_refl) as (stem & Hs & Hl).
  exists (String a stem). rewrite append_cons. simpl.
  split; [by rewrite <- Hs|by rewrite Hl].
- destruct (Ascii.eqb a c); [|done]. intros [= <-]. by exists EmptyString.
Qed.

Lemma rfind_dotless s : dotless s = true → rfind "." s = None.
Proof.
induction s as [|a s IH]; simpl; [done|].
rewrite andb_true_iff, negb_true_iff. intros [Ha Hs]. by rewrite IH, Ha.
Qed.

Lemma lowercase_app s1 s2 : lowercase (s1 ++ s2) = (lowercase s1 ++ lowercase s2)%string.
Proof.
induction s1 as [|a s1 IH]; [done|].
rewrite append_cons. simpl. rewrite append_cons. by f_equal.
Qed.

End FileNames.

(** ** Bounding boxes *)

Section BoundingBox.

Lemma bounding_box_snoc l c :
  HashLife.bounding_box (l ++ [c]) =
  let '(min_x, max_x, min_y, max_y) := HashLife.bounding_box l in
  (Z.min min_x (Cell.x c), Z.max max_x (Cell.x c),
   Z.min min_y (Cell.y c), Z.max max_y (Cell.y c)).
Proof.
unfold HashLife.bounding_box. rewrite foldl_app.
by destruct (foldl _ _ l) as [[[??]?]?].
Qed.

(** The box found by the loop contains every cell, and on a sequence that
    is not empty each of its four bounds is the coordinate of a cell. *)
Lemma bounding_box_spec l min_x max_x min_y max_y :
  Forall (λ c, cell_in_range c = true) l →
  HashLife.bounding_box l = (min_x, max_x, min_y, max_y) →
  (∀ c, c ∈ l → min_x <= Cell.x c <= max_x ∧ min_y <= Cell.y c <= max_y) ∧
  (l ≠ [] →
   (∃ c, c ∈ l ∧ Cell.x c = min_x) ∧ (∃ c, c ∈ l ∧ Cell.x c = max_x) ∧
   (∃ c, c ∈ l ∧ Cell.y c = min_y) ∧ (∃ c, c ∈ l ∧ Cell.y c = max_y)).
Proof.
revert min_x max_x min_y max_y.
induction l as [|c l IH] using rev_ind; intros min_x max_x min_y max_y Hr Hb.
{ split; [by intros c Hc; apply elem_of_nil in Hc|done]. }
apply Forall_app in Hr as [Hr Hc]. rewrite Forall_singleton in Hc.
rewrite bounding_box_snoc in Hb.
destruct (HashLife.bounding_box l) as [[[x0 x1] y0] y1] eqn:E.
injection Hb as <- <- <- <-.
destruct (IH _ _ _ _ Hr eq_refl) as [Hin Hatt].
unfold cell_in_range in Hc. rewrite andb_true_iff, !in_int64_spec in Hc.
split.
- intros d Hd. apply elem_of_app in Hd as [Hd|Hd].
  + specialize (Hin d Hd). lia.
  + apply list_elem_of_singleton in Hd as ->.
    destruct l as [|e l'].
    * unfold HashLife.bounding_box in E. simpl in E. injection E as <- <- <- <-. lia.
    * destruct Hatt as ((a1 & Ha1 & E1) & (a2 & Ha2 & E2) & (a3 & Ha3 & E3) & (a4 & Ha4 & E4));
        [done|].
      pose proof (Hin a1 Ha1). pose proof (Hin a2 Ha2).
      pose proof (Hin a3 Ha3). pose proof (Hin a4 Ha4). lia.
- intros _.
  assert (∀ (f : Cell → Z) v, (∃ a, a ∈ l ∧ f a = v) ∨ f c = v →
                              ∃ a, a ∈ l ++ [c] ∧ f a = v) as Hex.
  { intros f v [(a & Ha & Ea)| Ec].
    - exists a. split; [|done]. apply elem_of_app. by left.
    - exists c. split; [|done]. apply elem_of_app. right. by apply list_elem_of_singleton. }
  destruct l as [|e l'].
  + unfold HashLife.bounding_box in E. simpl in E. injection E as <- <- <- <-.
    repeat split; apply Hex; right; lia.
  + destruct Hatt as (H1 & H2 & H3 & H4); [done|].
    repeat split; apply Hex.
    * destruct (Z.min_spec x0 (Cell.x c)) as [[_ ->]|[_ ->]]; [by left|by right].
    * destruct (Z.max_spec x1 (Cell.x c)) as [[_ ->]|[_ ->]]; [by right|by left].
    * destruct (Z.min_spec y0 (Cell.y c)) as [[_ ->]|[_ ->]]; [by left|by right].
    * destruct (Z.max_spec y1 (Cell.y c)) as [[_ ->]|[_ ->]]; [by right|by left].
Qed.

End BoundingBox.

(** ** Bucket indices *)

Section ChunkIndex.

Lemma chunk_index_floor v :
  INT64_MIN + 64 <= v <= INT64_MAX →
  HashLife.chunk_index v = Done (v `div` 64).
Proof.
intros Hv. unfold HashLife.chunk_index, HashLife.CHUNK_SIZE, div64, sub64, add64.
unfold INT64_MIN, INT64_MAX in Hv.
destruct (Z.leb_spec 0 v).
- rewrite Z.quot_div_nonneg by lia. apply chk64_in.
  unfold INT64_MIN, INT64_MAX.
  pose proof (Z.div_pos v 64). pose proof (Z.div_le_upper_bound v 64 v). lia.
- rewrite (chk64_in (v - 64)) by (unfold INT64_MIN, INT64_MAX; lia). simpl.
  rewrite (chk64_in (v - 64 + 1)) by (unfold INT64_MIN, INT64_MAX; lia). simpl.
  assert ((v - 64 + 1) ÷ 64 = v `div` 64) as ->.
  { replace (v - 64 + 1) with (- (63 - v)) by lia.
    rewrite Z.quot_opp_l by lia. rewrite Z.quot_div_nonneg by lia.
    Z.to_euclidean_division_equations. lia. }
  apply chk64_in. unfold INT64_MIN, INT64_MAX.
  pose proof (Z.div_mod v 64). pose proof (Z.mod_pos_bound v 64). lia.
Qed.

Lemma chunk_index_fault v :
  INT64_MIN <= v < INT64_MIN + 64 →
  HashLife.chunk_index v = Fault SignedOverflow.
Proof.
intros Hv. unfold HashLife.chunk_index, HashLife.CHUNK_SIZE, sub64, chk64, in_int64.
unfold INT64_MIN, INT64_MAX in *.
destruct (Z.leb_spec 0 v); [lia|].
destruct (Z.leb_spec (-9223372036854775808) (v - 64)); [lia|]. done.
Qed.

End ChunkIndex.

(** ** Neighbour generation at the boundary *)

Section NeighboursFault.

Lemma get_neighbors_Done x y l :
  get_neighbors x y = Done l →
  in_int64 (x - 1) = true ∧ in_int64 (x + 1) = true ∧
  in_int64 (y - 1) = true ∧ in_int64 (y + 1) = true.
Proof.
unfold get_neighbors, make_cell, add64, sub64, chk64.
destruct (in_int64 (x - 1)), (in_int64 (x + 1)),
         (in_int64 (y - 1)), (in_int64 (y + 1)); simpl; done.
Qed.

Lemma get_neighbors_outcome x y :
  (∃ l, get_neighbors x y = Done l) ∨ get_neighbors x y = Fault SignedOverflow.
Proof.
unfold get_neighbors, make_cell, add64, sub64, chk64.
destruct (in_int64 (x - 1)), (in_int64 (x + 1)),
         (in_int64 (y - 1)), (in_int64 (y + 1)); simpl; eauto.
Qed.

End NeighboursFault.

(** ** Successive advances of the counting engines *)

Section Advances.

Lemma advance_n_counting e n : ∀ S,
  counting_engine e → cells_in_range S →
  ∃ S', advance_n e n S = Done S' ∧ cells_in_range S'.
Proof.
induction n as [|n IH]; intros S He HS; simpl.
- by exists S.
- destruct (engine_tick_spec e S He HS) as (S1 & Ht & _).
  rewrite Ht. simpl. apply IH; [done|].
  by apply (engine_tick_in_range e S).
Qed.

End Advances.

(** ** Clamped arithmetic *)

Section Clamping.

Lemma safe_ops_clamp (a b : Z) :
  in_int64 a = true → in_int64 b = true →
  safe_add a b = Done (clamp64 (a + b)) ∧
  safe_sub a b = Done (clamp64 (a - b)).
Proof.
rewrite !in_int64_spec. intros Ha Hb.
assert (INT64_MIN = -9223372036854775808) as Hmin by reflexivity.
assert (INT64_MAX = 9223372036854775807) as Hmax by reflexivity.
unfold safe_add, safe_sub, clamp64, add64, sub64. split.
- destruct (Z.ltb_spec 0 b).
  + rewrite (chk64_in (INT64_MAX - b)) by lia. cbn [mbind outcome_bind].
    destruct (Z.ltb_spec (INT64_MAX - b) a); [f_equal; lia|].
    destruct (Z.ltb_spec b 0); [lia|]. cbn [mbind outcome_bind].
    rewrite chk64_in by lia. f_equal. lia.
  + cbn [mbind outcome_bind]. destruct (Z.ltb_spec b 0).
    * rewrite (chk64_in (INT64_MIN - b)) by lia. cbn [mbind outcome_bind].
      destruct (Z.ltb_spec a (INT64_MIN - b)); [f_equal; lia|].
      rewrite chk64_in by lia. f_equal. lia.
    * cbn [mbind outcome_bind]. rewrite chk64_in by lia. f_equal. lia.
- destruct (Z.ltb_spec 0 b).
  + rewrite (chk64_in (INT64_MIN + b)) by lia. cbn [mbind outcome_bind].
    destruct (Z.ltb_spec a (INT64_MIN + b)); [f_equal; lia|].
    destruct (Z.ltb_spec b 0); [lia|]. cbn [mbind outcome_bind].
    rewrite chk64_in by lia. f_equal. lia.
  + cbn [mbind outcome_bind]. destruct (Z.ltb_spec b 0).
    * rewrite (chk64_in (INT64_MAX + b)) by lia. cbn [mbind outcome_bind].
      destruct (Z.ltb_spec (INT64_MAX + b) a); [f_equal; lia|].
      rewrite chk64_in by lia. f_equal. lia.
    * cbn [mbind outcome_bind]. rewrite chk64_in by lia. f_equal. lia.
Qed.

End Clamping.

(** ** The sorted cell list of the quadtree engine *)

Section SortedCells.
Import HashLife Quad Region.

Lemma lex_less_spec a b :
  lex_less a b = true ↔
  Cell.x a < Cell.x b ∨ (Cell.x a = Cell.x b ∧ Cell.y a < Cell.y b).
Proof.
unfold lex_less.
rewrite orb_true_iff, andb_true_iff, !Z.ltb_lt, Z.eqb_eq. tauto.
Qed.

Lemma lex_not_after_spec a b :
  lex_not_after a b ↔
  Cell.x a < Cell.x b ∨ (Cell.x a = Cell.x b ∧ Cell.y a <= Cell.y b).
Proof.
unfold lex_not_after. rewrite <- not_true_iff_false, lex_less_spec. lia.
Qed.

Global Instance lex_not_after_total : Total lex_not_after.
Proof. intros a b. rewrite !lex_not_after_spec. lia. Qed.

Global Instance lex_not_after_trans : Transitive lex_not_after.
Proof. intros a b c. rewrite !lex_not_after_spec. lia. Qed.

Lemma build_sorted S : StronglySorted lex_not_after (build S).
Proof. apply StronglySorted_merge_sort; apply _. Qed.

Lemma elem_of_build S c : c ∈ build S ↔ c ∈ S.
Proof. unfold build. by rewrite merge_sort_Permutation, elem_of_elements. Qed.

Lemma lower_bound_x l x :
  StronglySorted lex_not_after l →
  StronglySorted lex_not_after
    (lower_bound (λ a b, Cell.x a <? Cell.x b) l (Cell.mk x 0)) ∧
  ∀ c, c ∈ lower_bound (λ a b, Cell.x a <? Cell.x b) l (Cell.mk x 0) ↔
       c ∈ l ∧ x <= Cell.x c.
Proof.
induction l as [|a l IH]; intros Hs; simpl.
{ split; [constructor|]. intros c. rewrite elem_of_nil. tauto. }
apply StronglySorted_inv in Hs as [Hl Ha].
destruct (Z.ltb_spec (Cell.x a) x) as [Hlt|Hge].
- destruct (IH Hl) as [Hs' Hin]. split; [done|].
  intros c. rewrite Hin, elem_of_cons. split; [tauto|].
  intros [[->|Hc] Hx]; [lia|done].
- split; [by constructor|].
  intros c. split; [|tauto]. intros Hc. split; [done|].
  apply elem_of_cons in Hc as [->|Hc]; [done|].
  rewrite Forall_forall in Ha. specialize (Ha c Hc).
  apply lex_not_after_spec in Ha. lia.
Qed.

Lemma scan_strip_spec it x_end y y_end :
  StronglySorted lex_not_after it →
  scan_strip it x_end y y_end = true ↔
  ∃ c, c ∈ it ∧ Cell.x c < x_end ∧ y <= Cell.y c < y_end.
Proof.
induction it as [|a it IH]; intros Hs; simpl.
{ split; [done|]. intros (c & Hc & _). by apply elem_of_nil in Hc. }
apply StronglySorted_inv in Hs as [Hl Ha].
destruct (Z.ltb_spec (Cell.x a) x_end) as [Hlt|Hge].
- destruct (Z.leb_spec y (Cell.y a)) as [Hy|Hy];
    [destruct (Z.ltb_spec (Cell.y a) y_end) as [Hy'|Hy']|]; simpl.
  + split; [|done]. intros _. exists a. split; [apply elem_of_cons; by left|lia].
  + rewrite (IH Hl). split.
    * intros (c & Hc & H). exists c. split; [apply elem_of_cons; by right|done].
    * intros (c & Hc & H). apply elem_of_cons in Hc as [->|Hc]; [lia|eauto].
  + rewrite (IH Hl). split.
    * intros (c & Hc & H). exists c. split; [apply elem_of_cons; by right|done].
    * intros (c & Hc & H). apply elem_of_cons in Hc as [->|Hc]; [lia|eauto].
- split; [done|]. intros (c & Hc & Hx & _).
  apply elem_of_cons in Hc as [->|Hc]; [lia|].
  rewrite Forall_forall in Ha. specialize (Ha c Hc).
  apply lex_not_after_spec in Ha. lia.
Qed.

(** [has_cell_in] on a sorted list: is some cell in the square. *)
Lemma has_cell_in_spec l x y size :
  StronglySorted lex_not_after l →
  in_int64 (x + size) = true → in_int64 (y + size) = true →
  ∃ b, has_cell_in l x y size = Done b ∧
       (b = true ↔ ∃ c, c ∈ l ∧ in_box x y size c).
Proof.
intros Hs Hx Hy. unfold has_cell_in, add64, chk64. rewrite Hx, Hy. simpl.
eexists. split; [reflexivity|].
destruct (lower_bound_x l x Hs) as [Hs' Hin].
rewrite (scan_strip_spec _ _ _ _ Hs'). unfold in_box. split.
- intros (c & Hc & H). apply Hin in Hc. exists c. split; [tauto|lia].
- intros (c & Hc & H). exists c. rewrite Hin. split; [split; [done|lia]|lia].
Qed.

(** [contains] on a sorted list: membership. *)
Lemma contains_spec l x y :
  StronglySorted lex_not_after l →
  contains l x y = true ↔ Cell.mk x y ∈ l.
Proof.
unfold contains. induction l as [|a l IH]; intros Hs; simpl.
{ rewrite elem_of_nil. split; [done|tauto]. }
apply StronglySorted_inv in Hs as [Hl Ha].
destruct (lex_less a (Cell.mk x y)) eqn:E.
- rewrite (IH Hl), elem_of_cons. split; [tauto|].
  intros [Heq|H]; [|done]. rewrite <- Heq in E.
  apply lex_less_spec in E. lia.
- rewrite andb_true_iff, !Z.eqb_eq, elem_of_cons. split.
  + intros [<- <-]. left. by destruct a.
  + intros [Heq|Hc]; [by rewrite <- Heq|].
    rewrite Forall_forall in Ha. specialize (Ha _ Hc).
    apply lex_not_after_spec in Ha. simpl in Ha.
    apply not_true_iff_false in E. rewrite lex_less_spec in E. simpl in E. lia.
Qed.

End SortedCells.

(** ** Building the tree of a cluster *)

Section Build.
Import HashLife Quad Region.

Lemma returns_lift {A B} (o : outcome A) a (f : A → M B) P R :
  o = Done a → returns (f a) P R → returns (lift o ≫= f) P R.
Proof.
intros -> (b & P' & Hf & H). exists b, P'. split; [|done].
unfold mbind, M_bind, lift. exact Hf.
Qed.

Lemma leaf_returns (P : NodePool) (b : bool) (Q : ptr → NodePool → Prop) :
  pool_ok P → Q (if b then alive_cell_ P else dead_cell_ P) P →
  returns (leaf b) P Q.
Proof.
intros Hok HQ. eexists _, P. split; [apply leaf_spec|].
split; [done|]. split; [apply extends_refl|done].
Qed.

Lemma shl1_small n : (n < 63)%nat → shl1 n = Done (2 ^ Z.of_nat n).
Proof. intros Hn. unfold shl1. by rewrite (proj2 (Nat.ltb_lt _ _) Hn). Qed.

Lemma pow2_le (a b : nat) : (a <= b)%nat → 2 ^ Z.of_nat a <= 2 ^ Z.of_nat b.
Proof. intros H. apply Z.pow_le_mono_r; lia. Qed.

Lemma pow2_lt (a b : nat) : (a < b)%nat → 2 ^ Z.of_nat a < 2 ^ Z.of_nat b.
Proof. intros H. apply Z.pow_lt_mono_r; lia. Qed.

Lemma pow2_31 : 2 ^ Z.of_nat 31 = 2147483648.
Proof. reflexivity. Qed.

Lemma shows_empty k ox oy C :
  (∀ c, c ∈ C → ¬ in_box ox oy (2 ^ Z.of_nat k) c) →
  shows (empty_t k) ox oy C.
Proof.
intros Hno i j Hi Hj. rewrite depth_empty_t in Hi, Hj.
rewrite alive_at_empty_t. split; [done|]. intros Hc.
destruct (Hno _ Hc). unfold in_box. simpl. lia.
Qed.

Lemma shows_QNode k a b c d ox oy C :
  full k a → full k b → full k c → full k d →
  shows a ox oy C →
  shows b (ox + 2 ^ Z.of_nat k) oy C →
  shows c ox (oy + 2 ^ Z.of_nat k) C →
  shows d (ox + 2 ^ Z.of_nat k) (oy + 2 ^ Z.of_nat k) C →
  shows (QNode a b c d) ox oy C.
Proof.
intros Fa Fb Fc Fd Ha Hb Hc Hd i j.
pose proof (full_depth _ _ Fa) as Da. pose proof (full_depth _ _ Fb) as Db.
pose proof (full_depth _ _ Fc) as Dc. pose proof (full_depth _ _ Fd) as Dd.
unfold shows in *. rewrite Da in Ha. rewrite Db in Hb. rewrite Dc in Hc. rewrite Dd in Hd.
cbn [alive_at depth]. rewrite Da, pow2_S. set (h := 2 ^ Z.of_nat k) in *.
intros Hi Hj.
destruct (Z.ltb_spec j h), (Z.ltb_spec i h).
- apply Ha; lia.
- rewrite (Hb (i - h) j) by lia. by replace (ox + h + (i - h)) with (ox + i) by lia.
- rewrite (Hc i (j - h)) by lia. by replace (oy + h + (j - h)) with (oy + j) by lia.
- rewrite (Hd (i - h) (j - h)) by lia.
  replace (ox + h + (i - h)) with (ox + i) by lia.
  by replace (oy + h + (j - h)) with (oy + j) by lia.
Qed.

Lemma build_recursive_unfold sorted x y lvl :
  build_recursive sorted x y lvl =
  (size ← lift (shl1 lvl);
   has ← lift (has_cell_in sorted x y size);
   if negb has then empty_node lvl else
   match lvl with
   | O => leaf (contains sorted x y)
   | S lvl' =>
       let half := Z.shiftr size 1 in
       a ← build_recursive sorted x y lvl';
       xh ← lift (add64 x half);
       b ← build_recursive sorted xh y lvl';
       yh ← lift (add64 y half);
       c ← build_recursive sorted x yh lvl';
       xh ← lift (add64 x half);
       yh ← lift (add64 y half);
       d ← build_recursive sorted xh yh lvl';
       make a b c d
   end).
Proof. by destruct lvl. Qed.

(** [build_recursive] returns the tree of the square at (x, y): its cells
    are the cells of the sorted list that lie in the square. *)
Lemma build_recursive_spec sorted C lvl : ∀ x y P,
  pool_ok P → StronglySorted lex_not_after sorted →
  (∀ c, c ∈ sorted ↔ c ∈ C) →
  (lvl <= 31)%nat →
  INT64_MIN <= x → x + 2 ^ Z.of_nat lvl <= INT64_MAX →
  INT64_MIN <= y → y + 2 ^ Z.of_nat lvl <= INT64_MAX →
  returns (build_recursive sorted x y lvl) P
          (λ p P', ∃ t, repr P' p t ∧ full lvl t ∧ shows t x y C).
Proof.
induction lvl as [|lvl IH]; intros x y P Hok Hs HC Hl Hx0 Hx1 Hy0 Hy1;
  rewrite build_recursive_unfold.
- eapply returns_lift; [apply shl1_small; lia|].
  change (2 ^ Z.of_nat 0) with 1 in *.
  destruct (has_cell_in_spec sorted x y 1 Hs) as (b & Hb & Hbox);
    [apply in_int64_spec; lia..|].
  eapply returns_lift; [exact Hb|].
  destruct b; cbn [negb].
  + apply leaf_returns; [done|].
    exists (QLeaf (contains sorted x y)). split; [done|]. split; [done|].
    intros i j Hi Hj.
    change (2 ^ Z.of_nat (depth (QLeaf (contains sorted x y)))) with 1 in Hi, Hj.
    assert (i = 0) as -> by lia. assert (j = 0) as -> by lia.
    rewrite !Z.add_0_r. cbn [alive_at]. by rewrite contains_spec, HC.
  + eapply returns_weaken; [apply runs_returns, empty_node_runs; [done|lia]|].
    intros p P' _ _ Hp. cbv beta in Hp. exists (empty_t 0). split; [done|].
    split; [done|]. apply shows_empty. intros c Hc Hin.
    assert (false = true); [|done]. apply Hbox. exists c. by rewrite HC.
- eapply returns_lift; [apply shl1_small; lia|].
  set (size := 2 ^ Z.of_nat (S lvl)) in *.
  destruct (has_cell_in_spec sorted x y size Hs) as (b & Hb & Hbox);
    [apply in_int64_spec; pose proof (pow2_pos (S lvl)); lia..|].
  eapply returns_lift; [exact Hb|].
  destruct b; cbn [negb].
  + assert (Z.shiftr size 1 = 2 ^ Z.of_nat lvl) as Hhalf.
    { unfold size. rewrite Z.shiftr_div_pow2, pow2_S by lia.
      change (2 ^ 1) with 2. rewrite Z.mul_comm, Z.div_mul; lia. }
    cbv zeta. rewrite Hhalf. set (h := 2 ^ Z.of_nat lvl).
    assert (size = 2 * h) as Hsize by apply pow2_S.
    assert (0 < h) as Hh by apply pow2_pos.
    assert (add64 x h = Done (x + h)) as Hxh by (apply chk64_in; lia).
    assert (add64 y h = Done (y + h)) as Hyh by (apply chk64_in; lia).
    eapply returns_bind; [apply (IH x y P); (done || lia)|].
    intros a P1 Hok1 Hext1 (ta & Ra & Fa & Sa).
    eapply returns_lift; [exact Hxh|].
    eapply returns_bind; [apply (IH (x + h) y P1); (done || fold h; lia)|].
    intros b P2 Hok2 Hext2 (tb & Rb & Fb & Sb).
    eapply returns_lift; [exact Hyh|].
    eapply returns_bind; [apply (IH x (y + h) P2); (done || fold h; lia)|].
    intros c P3 Hok3 Hext3 (tc & Rc & Fc & Sc).
    eapply returns_lift; [exact Hxh|]. eapply returns_lift; [exact Hyh|].
    eapply returns_bind; [apply (IH (x + h) (y + h) P3); (done || fold h; lia)|].
    intros d P4 Hok4 Hext4 (td & Rd & Fd & Sd).
    apply (repr_mono _ _ _ _ Hext2) in Ra.
    apply (repr_mono _ _ _ _ Hext3) in Ra, Rb.
    apply (repr_mono _ _ _ _ Hext4) in Ra, Rb, Rc.
    eapply returns_weaken.
    { apply (make_spec P4 a b c d ta tb tc td Hok4 Ra Rb Rc Rd);
        rewrite ?(full_depth _ _ Fa), ?(full_depth _ _ Fb),
                ?(full_depth _ _ Fc), ?(full_depth _ _ Fd); (done || lia). }
    intros p P5 _ _ Rp. cbv beta in Rp.
    exists (QNode ta tb tc td). split; [done|]. split; [done|].
    by apply (shows_QNode lvl).
  + eapply returns_weaken; [apply runs_returns, empty_node_runs; [done|lia]|].
    intros p P' _ _ Hp. cbv beta in Hp. exists (empty_t (S lvl)). split; [done|].
    split; [apply full_empty_t|]. apply shows_empty. intros c Hc Hin.
    assert (false = true); [|done]. apply Hbox. exists c. by rewrite HC.
Qed.

End Build.

(** ** The rule on sets and on grids *)

Section RuleOnGrids.
Import HashLife Quad Region.

Lemma in_window_spec a b C :
  in_window a b C ↔ ∀ c, c ∈ C → in_box a b (2 ^ 29) c.
Proof.
unfold in_window, in_box. rewrite forallb_forall. split.
- intros H c Hc. specialize (H c).
  rewrite !andb_true_iff, !Z.leb_le, !Z.ltb_lt in H.
  apply elem_of_elements, list_elem_of_In in Hc. specialize (H Hc). lia.
- intros H c Hc. apply list_elem_of_In, elem_of_elements in Hc. specialize (H c Hc).
  rewrite !andb_true_iff, !Z.leb_le, !Z.ltb_lt. lia.
Qed.

Lemma in_window_subseteq a b C D : D ⊆ C → in_window a b C → in_window a b D.
Proof. rewrite !in_window_spec. intros Hs H c Hc. apply H. set_solver. Qed.

(** Inside a window no cell is at overflow risk, and all are int64. *)
Lemma in_window_safe a b C c :
  window_origin a → window_origin b → in_window a b C → c ∈ C →
  overflow_risk c = false ∧ cell_in_range c = true.
Proof.
unfold window_origin. intros Ha Hb HC Hc.
rewrite in_window_spec in HC. specialize (HC c Hc). unfold in_box in HC.
change (2 ^ 29) with 536870912 in HC. change (2 ^ 62) with 4611686018427387904 in Ha, Hb.
split.
- unfold overflow_risk. apply would_overflow_false.
  unfold INT64_MIN, INT64_MAX. lia.
- unfold cell_in_range. rewrite andb_true_iff, !in_int64_spec.
  unfold INT64_MIN, INT64_MAX. lia.
Qed.

Lemma in_window_cells_in_range a b C :
  window_origin a → window_origin b → in_window a b C → cells_in_range C.
Proof.
intros Ha Hb HC. unfold cells_in_range. rewrite forallb_forall. intros c Hc.
apply list_elem_of_In, elem_of_elements in Hc.
by destruct (in_window_safe a b C c Ha Hb HC Hc).
Qed.

Lemma length_filter_b2z {A} (P : A → Prop) `{∀ x, Decision (P x)} (l : list A) :
  Z.of_nat (length (filter P l)) =
  foldr (λ x acc, Z.b2z (bool_decide (P x)) + acc) 0 l.
Proof.
induction l as [|a l IH]; [done|].
rewrite filter_cons. simpl foldr. rewrite <- IH.
case_bool_decide; rewrite ?decide_True, ?decide_False by done; simpl length; simpl Z.b2z; lia.
Qed.

(** The neighbours counted in a set without cells at overflow risk are
    the alive cells among the eight places around the cell. *)
Lemma live_neighbors_around C c :
  (∀ s, s ∈ C → overflow_risk s = false) →
  Z.of_nat (live_neighbors C c) = around (grid_of C) (Cell.x c) (Cell.y c).
Proof.
intros Hsafe. unfold live_neighbors.
assert (filter (λ s, adjacent s c = true) (counted C) =
        list_to_set (filter (λ n, n ∈ C) (neighbors8 c))) as ->.
{ apply set_eq. intros s. unfold counted.
  rewrite !elem_of_filter, elem_of_list_to_set, list_elem_of_filter.
  rewrite elem_of_neighbors8, (adjacent_sym c s). split.
  - tauto.
  - intros [? Hs]. split; [done|]. split; [by apply Hsafe|done]. }
rewrite size_list_to_set by (apply NoDup_filter, NoDup_neighbors8).
rewrite length_filter_b2z. unfold around, grid_of, neighbors8. simpl. lia.
Qed.

Lemma rule_next_alive C c :
  (∀ s, s ∈ C → overflow_risk s = false) →
  rule (live_neighbors C c) (c ∈ C) ↔
  next_alive (grid_of C) (Cell.x c) (Cell.y c) = true.
Proof.
intros Hsafe. unfold next_alive, rule.
rewrite <- (live_neighbors_around C c Hsafe).
rewrite orb_true_iff, andb_true_iff, !Z.eqb_eq.
unfold grid_of. rewrite bool_decide_eq_true.
replace (Cell.mk (Cell.x c) (Cell.y c)) with c by (by destruct c).
rewrite <- (Nat2Z.inj_iff _ 3), <- (Nat2Z.inj_iff _ 2).
change (Z.of_nat 3) with 3. change (Z.of_nat 2) with 2. tauto.
Qed.

Lemma next_alive_shift g g' x y x' y' :
  (∀ dx dy, -1 <= dx <= 1 → -1 <= dy <= 1 →
            g (x + dx) (y + dy) = g' (x' + dx) (y' + dy)) →
  next_alive g x y = next_alive g' x' y'.
Proof.
intros H. unfold next_alive, around.
pose proof (H (-1) (-1)) as H1. pose proof (H 0 (-1)) as H2. pose proof (H 1 (-1)) as H3.
pose proof (H (-1) 0) as H4. pose proof (H 0 0) as H5. pose proof (H 1 0) as H6.
pose proof (H (-1) 1) as H7. pose proof (H 0 1) as H8. pose proof (H 1 1) as H9.
rewrite !Z.add_0_r in *.
replace (x + -1) with (x - 1) in * by lia. replace (y + -1) with (y - 1) in * by lia.
replace (x' + -1) with (x' - 1) in * by lia. replace (y' + -1) with (y' - 1) in * by lia.
rewrite H1, H2, H3, H4, H5, H6, H7, H8, H9 by lia. done.
Qed.

(** A cell next to no cell of the set is dead in the next generation. *)
Lemma rule_far C c :
  (∀ s, s ∈ C → adjacent s c = false) → ¬ rule (live_neighbors C c) (c ∈ C).
Proof.
intros Hfar [H|[H _]];
  destruct (live_neighbors_pos C c) as (s & Hs & _ & Hadj); try lia;
  rewrite (Hfar s Hs) in Hadj; done.
Qed.

End RuleOnGrids.

(** ** Expanding a square *)

Section Expand.
Import HashLife Quad Region.

Lemma depth_expand_t t : depth (expand_t t) = S (S (depth t - 1)).
Proof. unfold expand_t. cbn [depth]. by rewrite depth_empty_t. Qed.

Lemma full_expand_t k t : full (S k) t → full (S (S k)) (expand_t t).
Proof.
intros Ht. destruct t as [|a b c d]; [done|]. destruct Ht as (Fa & Fb & Fc & Fd).
unfold expand_t. replace (depth (QNode a b c d) - 1)%nat with k
  by (cbn [depth]; rewrite (full_depth _ _ Fa); lia).
pose proof (full_empty_t k).
cbn [nw_t ne_t sw_t se_t]. repeat split; assumption.
Qed.

(** The centre of the expanded square is the square itself. *)
Lemma center_expand_t k t : full (S k) t → center_t (expand_t t) = t.
Proof. intros Ht. by destruct t. Qed.

Lemma alive_at_expand_t k t i j :
  full (S k) t →
  0 <= i < 4 * 2 ^ Z.of_nat k → 0 <= j < 4 * 2 ^ Z.of_nat k →
  alive_at (expand_t t) i j =
  if (2 ^ Z.of_nat k <=? i) && (i <? 3 * 2 ^ Z.of_nat k) &&
     (2 ^ Z.of_nat k <=? j) && (j <? 3 * 2 ^ Z.of_nat k)
  then alive_at t (i - 2 ^ Z.of_nat k) (j - 2 ^ Z.of_nat k) else false.
Proof.
intros Ht Hi Hj. destruct t as [|a b c d]; [done|]. destruct Ht as (Fa & Fb & Fc & Fd).
unfold expand_t. replace (depth (QNode a b c d) - 1)%nat with k
  by (cbn [depth]; rewrite (full_depth _ _ Fa); lia).
cbn [nw_t ne_t sw_t se_t alive_at depth].
rewrite !depth_empty_t, (full_depth _ _ Fa), (full_depth _ _ Fd), pow2_S.
pose proof (pow2_pos k) as Hh. set (h := 2 ^ Z.of_nat k) in *.
repeat match goal with
       | |- context [?u <? ?v] => destruct (Z.ltb_spec u v)
       | |- context [?u <=? ?v] => destruct (Z.leb_spec u v)
       end;
  cbn [andb]; rewrite ?alive_at_empty_t; try done; try lia; f_equal; lia.
Qed.

Lemma shows_expand_t k t ox oy C :
  full (S k) t → shows t ox oy C →
  (∀ c, c ∈ C → in_box ox oy (2 ^ Z.of_nat (S k)) c) →
  shows (expand_t t) (ox - 2 ^ Z.of_nat k) (oy - 2 ^ Z.of_nat k) C.
Proof.
intros Ht Hs Hbox i j.
rewrite (full_depth _ _ (full_expand_t k t Ht)), !pow2_S.
pose proof (pow2_pos k) as Hh. intros Hi Hj.
rewrite (alive_at_expand_t k) by (done || lia).
unfold shows in Hs. rewrite (full_depth _ _ Ht), pow2_S in Hs.
rewrite pow2_S in Hbox. set (h := 2 ^ Z.of_nat k) in *.
destruct (Z.leb_spec h i), (Z.ltb_spec i (3 * h)),
         (Z.leb_spec h j), (Z.ltb_spec j (3 * h)); cbn [andb];
  try (split; [done|]; intros Hc; specialize (Hbox _ Hc);
       unfold in_box in Hbox; simpl in Hbox; lia).
rewrite (Hs (i - h) (j - h)) by lia.
replace (ox + (i - h)) with (ox - h + i) by lia.
by replace (oy + (j - h)) with (oy - h + j) by lia.
Qed.

End Expand.

(** ** [expand], [flatten] and the level loop *)

Section ClusterOps.
Import HashLife Quad Region.

Lemma bind_Done {A B} (m : M A) (f : A → M B) P a P' :
  m P = Done (a, P') → (m ≫= f) P = f a P'.
Proof. intros H. unfold mbind, M_bind. by rewrite H. Qed.

Lemma lift_Done {A B} (a : A) (f : A → M B) P : (lift (Done a) ≫= f) P = f a P.
Proof. reflexivity. Qed.

Lemma shows_bool t ox oy C i j :
  shows t ox oy C →
  0 <= i < 2 ^ Z.of_nat (depth t) → 0 <= j < 2 ^ Z.of_nat (depth t) →
  alive_at t i j = grid_of C (ox + i) (oy + j).
Proof.
intros Hs Hi Hj. specialize (Hs i j Hi Hj). unfold grid_of.
destruct (alive_at t i j); symmetry.
- apply bool_decide_eq_true. by apply Hs.
- apply bool_decide_eq_false. intros Hc. apply Hs in Hc. done.
Qed.

(** [expand] puts the square in the middle of a dead border, and moves
    the origin to the corner of the larger square. *)
Lemma expand_spec P node t ox oy k :
  pool_ok P → repr P node t → full (S k) t → (S k < 31)%nat →
  INT64_MIN <= ox - 2 ^ Z.of_nat k → ox <= INT64_MAX →
  INT64_MIN <= oy - 2 ^ Z.of_nat k → oy <= INT64_MAX →
  returns (expand node ox oy) P
          (λ r P', r.1.2 = ox - 2 ^ Z.of_nat k ∧ r.2 = oy - 2 ^ Z.of_nat k ∧
                   repr P' r.1.1 (expand_t t)).
Proof.
intros Hok Hr Ht Hk Hx0 Hx1 Hy0 Hy1. unfold expand.
pose proof (pow2_pos k) as Hh.
destruct (load_repr P node t Hok Hr) as (n & Hload & Hlvl & _).
rewrite (full_depth _ _ Ht) in Hlvl.
apply (returns_read _ _ _ n); [done|]. rewrite Hlvl.
eapply returns_lift; [apply shl1_small; lia|]. cbn [empty_below].
eapply returns_bind; [apply runs_returns, (empty_node_runs true k P Hok); lia|].
intros e P1 Hok1 Hext1 Re. cbv beta in Re.
apply (repr_mono _ _ _ _ Hext1) in Hr.
eapply returns_lift; [apply chk64_in; lia|].
eapply returns_lift; [apply chk64_in; lia|].
destruct t as [|ta tb tc td]; [done|]. destruct Ht as (Fa & Fb & Fc & Fd).
pose proof (full_depth _ _ Fa) as Da. pose proof (full_depth _ _ Fb) as Db.
pose proof (full_depth _ _ Fc) as Dc. pose proof (full_depth _ _ Fd) as Dd.
pose proof (depth_empty_t k) as De.
destruct (child_sel nw nw_t P1 node _ sel_nw Hok1 Hr) as (a & Ca & Ra); [simpl; lia|].
cbn [nw_t] in Ra.
apply (returns_read _ _ _ a); [done|].
eapply returns_bind.
{ apply (make_spec P1 e e e a _ _ _ _ Hok1 Re Re Re Ra); rewrite ?De; (done || lia). }
intros qa P2 Hok2 Hext2 Rqa. cbv beta in Rqa.
apply (repr_mono _ _ _ _ Hext2) in Re, Hr.
destruct (child_sel ne ne_t P2 node _ sel_ne Hok2 Hr) as (b & Cb & Rb); [simpl; lia|].
cbn [ne_t] in Rb.
apply (returns_read _ _ _ b); [done|].
eapply returns_bind.
{ apply (make_spec P2 e e b e _ _ _ _ Hok2 Re Re Rb Re); rewrite ?De; (done || lia). }
intros qb P3 Hok3 Hext3 Rqb. cbv beta in Rqb.
apply (repr_mono _ _ _ _ Hext3) in Re, Hr, Rqa.
destruct (child_sel sw sw_t P3 node _ sel_sw Hok3 Hr) as (c & Cc & Rc); [simpl; lia|].
cbn [sw_t] in Rc.
apply (returns_read _ _ _ c); [done|].
eapply returns_bind.
{ apply (make_spec P3 e c e e _ _ _ _ Hok3 Re Rc Re Re); rewrite ?De; (done || lia). }
intros qc P4 Hok4 Hext4 Rqc. cbv beta in Rqc.
apply (repr_mono _ _ _ _ Hext4) in Re, Hr, Rqa, Rqb.
destruct (child_sel se se_t P4 node _ sel_se Hok4 Hr) as (d & Cd & Rd); [simpl; lia|].
cbn [se_t] in Rd.
apply (returns_read _ _ _ d); [done|].
eapply returns_bind.
{ apply (make_spec P4 d e e e _ _ _ _ Hok4 Rd Re Re Re); rewrite ?De; (done || lia). }
intros qd P5 Hok5 Hext5 Rqd. cbv beta in Rqd.
apply (repr_mono _ _ _ _ Hext5) in Rqa, Rqb, Rqc.
eapply returns_bind.
{ apply (make_spec P5 qa qb qc qd _ _ _ _ Hok5 Rqa Rqb Rqc Rqd);
    cbn [depth]; rewrite ?De; (done || lia). }
intros r P6 Hok6 Hext6 Rr. cbv beta in Rr.
apply returns_ret; [done|]. cbn [fst snd]. split; [done|]. split; [done|].
unfold expand_t. replace (depth (QNode ta tb tc td) - 1)%nat with k
  by (cbn [depth]; lia).
exact Rr.
Qed.

Lemma alive_at_QNode k a b c d i j :
  full k a → full k b → full k c → full k d →
  alive_at (QNode a b c d) i j =
  if j <? 2 ^ Z.of_nat k
  then (if i <? 2 ^ Z.of_nat k then alive_at a i j
        else alive_at b (i - 2 ^ Z.of_nat k) j)
  else (if i <? 2 ^ Z.of_nat k then alive_at c i (j - 2 ^ Z.of_nat k)
        else alive_at d (i - 2 ^ Z.of_nat k) (j - 2 ^ Z.of_nat k)).
Proof. intros Fa _ _ _. cbn [alive_at]. by rewrite (full_depth _ _ Fa). Qed.

(** [flatten] adds one cell for each alive leaf, at its place. *)
Lemma flatten_spec k : ∀ fuel P node t x y cells,
  pool_ok P → repr P node t → full k t → (k < fuel)%nat → (k <= 62)%nat →
  INT64_MIN <= x → x + 2 ^ Z.of_nat k <= INT64_MAX →
  INT64_MIN <= y → y + 2 ^ Z.of_nat k <= INT64_MAX →
  ∃ cells', flatten fuel node x y cells P = Done (cells', P) ∧
    ∀ c, c ∈ cells' ↔
         c ∈ cells ∨
         ∃ i j, 0 <= i < 2 ^ Z.of_nat k ∧ 0 <= j < 2 ^ Z.of_nat k ∧
                alive_at t i j = true ∧ c = Cell.mk (x + i) (y + j).
Proof.
induction k as [|k IH]; intros fuel P node t x y cells Hok Hr Ht Hf Hk Hx0 Hx1 Hy0 Hy1;
  (destruct fuel as [|fuel]; [lia|]); cbn [flatten];
  destruct (load_repr P node t Hok Hr) as (n & Hload & Hlvl & Hpop);
  rewrite (bind_Done _ _ _ _ _ Hload), Hpop, Hlvl, (full_depth _ _ Ht).
- destruct t as [b|]; [|done]. cbn [pop alive_at]. destruct b; simpl.
  + eexists. split; [reflexivity|]. intros c.
    rewrite elem_of_union, elem_of_singleton. split.
    * intros [->|?]; [right; exists 0, 0; rewrite !Z.add_0_r|left]; done.
    * intros [?|(i & j & Hi & Hj & _ & ->)]; [by right|left].
      f_equal; lia.
  + eexists. split; [reflexivity|]. intros c. split; [by left|].
    intros [?|(i & j & _ & _ & ? & _)]; done.
- destruct (Z.eqb_spec (pop t) 0) as [H0|Hne].
  { eexists. split; [reflexivity|]. intros c. split; [by left|].
    intros [?|(i & j & _ & _ & Ha & _)]; [done|].
    by rewrite (alive_at_pop_0 t i j H0) in Ha. }
  rewrite shl1_small, lift_Done by lia.
  pose proof (pow2_pos k) as Hh. rewrite pow2_S in Hx1, Hy1.
  destruct t as [|ta tb tc td]; [done|]. destruct Ht as (Fa & Fb & Fc & Fd).
  destruct (child_repr P node (QNode ta tb tc td) Hok Hr) as
    (a & b & c & d & Ca & Cb & Cc & Cd & Ra & Rb & Rc & Rd); [simpl; lia|].
  cbn [nw_t ne_t sw_t se_t] in Ra, Rb, Rc, Rd.
  set (h := 2 ^ Z.of_nat k) in *.
  assert (add64 x h = Done (x + h)) as Hxh by (apply chk64_in; lia).
  assert (add64 y h = Done (y + h)) as Hyh by (apply chk64_in; lia).
  destruct (IH fuel P a ta x y cells) as (c1 & E1 & H1); try (done || lia).
  destruct (IH fuel P b tb (x + h) y c1) as (c2 & E2 & H2); try (done || fold h; lia).
  destruct (IH fuel P c tc x (y + h) c2) as (c3 & E3 & H3); try (done || fold h; lia).
  destruct (IH fuel P d td (x + h) (y + h) c3) as (c4 & E4 & H4); try (done || fold h; lia).
  rewrite (bind_Done _ _ _ _ _ Ca), (bind_Done _ _ _ _ _ E1).
  rewrite (bind_Done _ _ _ _ _ Cb), Hxh, lift_Done, (bind_Done _ _ _ _ _ E2).
  rewrite (bind_Done _ _ _ _ _ Cc), Hyh, lift_Done, (bind_Done _ _ _ _ _ E3).
  rewrite (bind_Done _ _ _ _ _ Cd), lift_Done, lift_Done.
  exists c4. split; [exact E4|]. intros q. rewrite H4, H3, H2, H1. clear H1 H2 H3 H4.
  rewrite pow2_S. fold h. split.
  + intros [[[[?|(i & j & Hi & Hj & Ha & ->)]|(i & j & Hi & Hj & Ha & ->)]
             |(i & j & Hi & Hj & Ha & ->)]|(i & j & Hi & Hj & Ha & ->)]; [by left|right..].
    * exists i, j. rewrite (alive_at_QNode k) by done. fold h.
      rewrite !(proj2 (Z.ltb_lt _ _)) by lia. repeat split; (done || lia).
    * exists (i + h), j. rewrite (alive_at_QNode k) by done. fold h.
      rewrite (proj2 (Z.ltb_lt j h)), (proj2 (Z.ltb_ge (i + h) h)) by lia.
      replace (i + h - h) with i by lia.
      repeat split; try (done || lia). f_equal; lia.
    * exists i, (j + h). rewrite (alive_at_QNode k) by done. fold h.
      rewrite (proj2 (Z.ltb_lt i h)), (proj2 (Z.ltb_ge (j + h) h)) by lia.
      replace (j + h - h) with j by lia.
      repeat split; try (done || lia). f_equal; lia.
    * exists (i + h), (j + h). rewrite (alive_at_QNode k) by done. fold h.
      rewrite (proj2 (Z.ltb_ge (i + h) h)), (proj2 (Z.ltb_ge (j + h) h)) by lia.
      replace (i + h - h) with i by lia. replace (j + h - h) with j by lia.
      repeat split; try (done || lia). f_equal; lia.
  + intros [?|(i & j & Hi & Hj & Ha & ->)]; [by repeat left|].
    rewrite (alive_at_QNode k) in Ha by done. fold h in Ha.
    destruct (Z.ltb_spec j h), (Z.ltb_spec i h).
    * left. left. left. right. exists i, j. repeat split; (done || lia).
    * left. left. right. exists (i - h), j.
      repeat split; try (done || lia). f_equal; lia.
    * left. right. exists i, (j - h).
      repeat split; try (done || lia). f_equal; lia.
    * right. exists (i - h), (j - h).
      repeat split; try (done || lia). f_equal; lia.
Qed.

(** The level loop stops at a level whose square covers the range. *)
Lemma grow_level_spec fuel : ∀ (lvl bound : nat) range,
  range <= 2 ^ Z.of_nat bound → (lvl <= bound)%nat → (bound < 63)%nat →
  (bound - lvl < fuel)%nat →
  ∃ r, grow_level fuel lvl range = Done r ∧ (lvl <= r <= bound)%nat ∧
       range <= 2 ^ Z.of_nat r.
Proof.
induction fuel as [|fuel IH]; intros lvl bound range Hr Hl Hb Hf; [lia|].
cbn [grow_level]. rewrite shl1_small by lia. simpl.
destruct (Z.ltb_spec (2 ^ Z.of_nat lvl) range) as [Hlt|Hge].
- assert (lvl ≠ bound) as Hne by (intros ->; lia).
  destruct (IH (S lvl) bound range) as (r & -> & ? & ?); try (done || lia).
  exists r. split; [done|]. split; [lia|done].
- exists lvl. split; [done|]. split; [lia|done].
Qed.

End ClusterOps.

(** ** One cluster *)

Section StepCluster.
Import HashLife Quad Region.

Lemma returns_eq {A} (m : M A) P a (Q : A → NodePool → Prop) :
  m P = Done (a, P) → pool_ok P → Q a P → returns m P Q.
Proof.
intros Hm Hok HQ. exists a, P. split; [done|]. split; [done|].
split; [apply extends_refl|done].
Qed.

Lemma in_box_expand ox oy k c :
  in_box ox oy (2 ^ Z.of_nat (S k)) c →
  in_box (ox - 2 ^ Z.of_nat k) (oy - 2 ^ Z.of_nat k) (2 ^ Z.of_nat (S (S k))) c.
Proof.
unfold in_box. rewrite !pow2_S. pose proof (pow2_pos k). lia.
Qed.

(** The loop that expands a root below level 2. *)
Lemma expand_to_2_spec P root t ox oy lvl C :
  pool_ok P → repr P root t → full lvl t → (1 <= lvl <= 29)%nat →
  shows t ox oy C → (∀ c, c ∈ C → in_box ox oy (2 ^ Z.of_nat lvl) c) →
  INT64_MIN < ox <= INT64_MAX → INT64_MIN < oy <= INT64_MAX →
  returns (expand_to_2 3 root ox oy) P
    (λ r P', ∃ L t1, (2 <= L <= 29)%nat ∧ (lvl <= L)%nat ∧
       repr P' r.1.1 t1 ∧ full L t1 ∧ shows t1 r.1.2 r.2 C ∧
       (∀ c, c ∈ C → in_box r.1.2 r.2 (2 ^ Z.of_nat L) c) ∧
       ox - 1 <= r.1.2 <= ox ∧ oy - 1 <= r.2 <= oy).
Proof.
intros Hok Hr Ht Hl Hs Hbox Hx Hy. cbn [expand_to_2].
destruct (load_repr P root t Hok Hr) as (n & Hload & Hlvl & _).
rewrite (full_depth _ _ Ht) in Hlvl.
apply (returns_read _ _ _ n); [done|]. rewrite Hlvl.
destruct (Nat.ltb_spec lvl 2) as [Hlt|Hge].
- assert (lvl = 1%nat) as -> by lia.
  eapply returns_bind.
  { apply (expand_spec P root t ox oy 0 Hok Hr Ht); change (2 ^ Z.of_nat 0) with 1; lia. }
  intros [[r ox'] oy'] P1 Hok1 Hext1 (Ex & Ey & Rr). cbn [fst snd] in Ex, Ey, Rr.
  change (2 ^ Z.of_nat 0) with 1 in Ex, Ey. subst ox' oy'.
  pose proof (full_expand_t 0 t Ht) as Ft.
  destruct (load_repr P1 r _ Hok1 Rr) as (n1 & Hload1 & Hlvl1 & _).
  rewrite (full_depth _ _ Ft) in Hlvl1.
  apply (returns_read _ _ _ n1); [done|]. rewrite Hlvl1. cbn [Nat.ltb Nat.leb].
  apply returns_ret; [done|]. cbn [fst snd].
  exists 2%nat, (expand_t t). split; [lia|]. split; [lia|]. split; [done|].
  split; [done|]. split; [by apply (shows_expand_t 0)|].
  split; [intros c Hc; by apply (in_box_expand ox oy 0), Hbox|lia].
- apply returns_ret; [done|]. cbn [fst snd].
  exists lvl, t. split; [lia|]. split; [lia|]. split; [done|]. split; [done|].
  split; [done|]. split; [done|]. lia.
Qed.

(** [step_cluster] on a set inside a window of side 2^29 returns its next
    generation. *)
Lemma step_cluster_spec C P a b :
  pool_ok P → window_origin a → window_origin b → in_window a b C →
  returns (step_cluster C) P
          (λ C' _, ∀ c, c ∈ C' ↔ rule (live_neighbors C c) (c ∈ C)).
Proof.
intros Hok Ha Hb HC. unfold step_cluster.
case_bool_decide as Hne.
{ subst C. apply returns_ret; [done|]. intros c. split; [set_solver|].
  intros H. destruct (rule_far ∅ c); [set_solver|done]. }
assert (∀ s, s ∈ C → overflow_risk s = false) as Hsafe.
{ intros s Hs. by destruct (in_window_safe a b C s Ha Hb HC Hs). }
pose proof (in_window_cells_in_range a b C Ha Hb HC) as Hrange.
pose proof HC as HW. rewrite in_window_spec in HW. unfold in_box in HW.
unfold window_origin in Ha, Hb.
change (2 ^ 62) with 4611686018427387904 in Ha, Hb.
change (2 ^ 29) with 536870912 in HW.
assert (INT64_MIN = -9223372036854775808) as Hmin by reflexivity.
assert (INT64_MAX = 9223372036854775807) as Hmax by reflexivity.
destruct (bounding_box (elements C)) as [[[min_x max_x] min_y] max_y] eqn:E.
destruct (bounding_box_spec _ _ _ _ _ (cells_in_range_Forall _ Hrange) E) as [Hin Hatt].
destruct Hatt as ((c1 & Hc1 & E1) & (c2 & Hc2 & E2) & (c3 & Hc3 & E3) & (c4 & Hc4 & E4)).
{ intros Hnil. by apply elements_empty_inv, leibniz_equiv in Hnil. }
pose proof (HW c1 ltac:(by apply elem_of_elements)) as W1.
pose proof (HW c2 ltac:(by apply elem_of_elements)) as W2.
pose proof (HW c3 ltac:(by apply elem_of_elements)) as W3.
pose proof (HW c4 ltac:(by apply elem_of_elements)) as W4.
pose proof (Hin c1 Hc1) as I1. pose proof (Hin c3 Hc3) as I3.
assert (∀ c, c ∈ C → min_x <= Cell.x c <= max_x ∧ min_y <= Cell.y c <= max_y) as Hin'.
{ intros c Hc. apply Hin. by apply elem_of_elements. }
clear Hin Hc1 Hc2 Hc3 Hc4.
(* the two ranges *)
eapply returns_lift.
{ unfold sub64, add64. rewrite (chk64_in (max_x - min_x)) by lia.
  cbn [mbind outcome_bind]. apply chk64_in. lia. }
eapply returns_lift.
{ unfold sub64, add64. rewrite (chk64_in (max_y - min_y)) by lia.
  cbn [mbind outcome_bind]. apply chk64_in. lia. }
set (range_x := max_x - min_x + 1). set (range_y := max_y - min_y + 1).
(* the level *)
destruct (grow_level_spec 65 1 29 (Z.max range_x range_y)) as (lvl & Hg & Hlvl & Hcover);
  [change (2 ^ Z.of_nat 29) with 536870912; lia|lia..|].
eapply returns_lift; [exact Hg|].
eapply returns_lift; [apply shl1_small; lia|].
pose proof (pow2_le lvl 29 ltac:(lia)) as Hsize.
change (2 ^ Z.of_nat 29) with 536870912 in Hsize.
set (size := 2 ^ Z.of_nat lvl) in *.
(* the origin *)
assert (∀ r, 1 <= r <= size →
             0 <= (size - r) ÷ 2 <= size - r) as Hq.
{ intros r Hr. rewrite Z.quot_div_nonneg by lia.
  Z.to_euclidean_division_equations. lia. }
pose proof (Hq range_x ltac:(lia)) as Hqx. pose proof (Hq range_y ltac:(lia)) as Hqy.
eapply returns_lift.
{ unfold sub64, div64. rewrite (chk64_in (size - range_x)) by lia.
  cbn [mbind outcome_bind]. rewrite (chk64_in ((size - range_x) ÷ 2)) by lia.
  cbn [mbind outcome_bind]. apply chk64_in. lia. }
eapply returns_lift.
{ unfold sub64, div64. rewrite (chk64_in (size - range_y)) by lia.
  cbn [mbind outcome_bind]. rewrite (chk64_in ((size - range_y) ÷ 2)) by lia.
  cbn [mbind outcome_bind]. apply chk64_in. lia. }
set (ox := min_x - (size - range_x) ÷ 2). set (oy := min_y - (size - range_y) ÷ 2).
assert (∀ c, c ∈ C → in_box ox oy size c) as Hbox.
{ intros c Hc. specialize (Hin' c Hc). unfold in_box. lia. }
(* the tree *)
eapply returns_bind.
{ apply (build_recursive_spec (build C) C lvl ox oy P Hok (build_sorted C));
    [intros c; apply elem_of_build|lia|fold size; lia..]. }
intros root0 P1 Hok1 _ (t0 & R0 & F0 & S0).
eapply returns_bind.
{ apply (expand_to_2_spec P1 root0 t0 ox oy lvl C Hok1 R0 F0); (done || lia). }
intros [[root1 ox1] oy1] P2 Hok2 _ (L & t1 & HL & HlL & R1 & F1 & S1 & B1 & Hox1 & Hoy1).
cbn [fst snd] in R1, S1, B1, Hox1, Hoy1.
destruct L as [|k1]; [lia|].
pose proof (pow2_le k1 28 ltac:(lia)) as Hk1.
change (2 ^ Z.of_nat 28) with 268435456 in Hk1.
pose proof (pow2_pos k1) as Hk1'.
eapply returns_bind.
{ apply (expand_spec P2 root1 t1 ox1 oy1 k1 Hok2 R1 F1); lia. }
intros [[root2 ox2] oy2] P3 Hok3 _ (Ex2 & Ey2 & R2). cbn [fst snd] in Ex2, Ey2, R2.
pose proof (full_expand_t k1 t1 F1) as F2.
pose proof (shows_expand_t k1 t1 ox1 oy1 C F1 S1 B1) as S2.
assert (∀ c, c ∈ C → in_box ox2 oy2 (2 ^ Z.of_nat (S (S k1))) c) as B2.
{ intros c Hc. subst ox2 oy2. by apply in_box_expand, B1. }
rewrite <- Ex2, <- Ey2 in S2.
pose proof (pow2_S k1) as HS1. set (h1 := 2 ^ Z.of_nat k1) in *.
eapply returns_bind.
{ apply (expand_spec P3 root2 _ ox2 oy2 (S k1) Hok3 R2 F2); lia. }
intros [[root3 ox3] oy3] P4 Hok4 _ (Ex3 & Ey3 & R3). cbn [fst snd] in Ex3, Ey3, R3.
set (t2 := expand_t t1) in *. set (t3 := expand_t t2) in *.
pose proof (full_expand_t (S k1) t2 F2) as F3. fold t3 in F3.
pose proof (shows_expand_t (S k1) t2 ox2 oy2 C F2 S2 B2) as S3. fold t3 in S3.
rewrite <- Ex3, <- Ey3 in S3.
set (h2 := 2 ^ Z.of_nat (S k1)) in *.
(* the step *)
destruct (load_repr P4 root3 t3 Hok4 R3) as (n3 & Hload3 & Hlvl3 & _).
rewrite (full_depth _ _ F3) in Hlvl3.
apply (returns_read _ _ _ n3); [done|]. rewrite Hlvl3.
eapply returns_bind.
{ apply (slow_step_spec (S k1) (S (S (S k1))) P4 root3 t3 Hok4 R3);
    [by replace (S k1 + 2)%nat with (S (S (S k1))) by lia|lia..]. }
intros result P5 Hok5 _ [Rres _].
assert (full (S (S k1)) (step_at (S k1) t3)) as Fres.
{ replace (S (S k1)) with (S k1 + 1)%nat by lia. apply full_step_at.
  by replace (S k1 + 2)%nat with (S (S (S k1))) by lia. }
eapply returns_lift; [apply shl1_small; lia|]. fold h2.
eapply returns_lift; [apply chk64_in; lia|].
eapply returns_lift; [apply chk64_in; lia|].
destruct (load_repr P5 result _ Hok5 Rres) as (nr & Hloadr & Hlvlr & _).
rewrite (full_depth _ _ Fres) in Hlvlr.
apply (returns_read _ _ _ nr); [done|]. rewrite Hlvlr.
pose proof (pow2_S (S k1)) as HS2. fold h2 in HS2.
destruct (flatten_spec (S (S k1)) (S (S (S k1))) P5 result _ (ox3 + h2) (oy3 + h2) ∅
            Hok5 Rres Fres) as (C' & Hfl & HC'); [lia..|].
apply (returns_eq _ _ C'); [done..|].
(* the cells *)
intros c. rewrite HC', HS2. clear HC' Hfl. split.
- intros [?|(i & j & Hi & Hj & Halive & ->)]; [set_solver|].
  apply (rule_next_alive C); [done|]. cbn [Cell.x Cell.y].
  rewrite <- Halive. symmetry.
  rewrite (step_at_correct (S k1) t3 i j);
    [|by replace (S k1 + 2)%nat with (S (S (S k1))) by lia
     |replace (S k1 + 1)%nat with (S (S k1)) by lia; lia..].
  fold h2. apply next_alive_shift. intros dx dy Hdx Hdy.
  rewrite (shows_bool t3 ox3 oy3 C) by
    (done || rewrite (full_depth _ _ F3), !pow2_S; fold h1; lia).
  f_equal; lia.
- intros Hrule. right.
  assert (∃ s, s ∈ C ∧ adjacent s c = true) as (s & Hs & Hadj).
  { destruct (live_neighbors_pos C c) as (s & ? & _ & ?); [|by eauto].
    destruct Hrule as [->|[-> _]]; lia. }
  apply adjacent_spec in Hadj. specialize (B1 s Hs). unfold in_box in B1.
  fold h2 in B1.
  exists (Cell.x c - (ox3 + h2)), (Cell.y c - (oy3 + h2)).
  split; [lia|]. split; [lia|]. split.
  + apply (rule_next_alive C) in Hrule; [|done]. rewrite <- Hrule.
    rewrite (step_at_correct (S k1) t3);
      [|by replace (S k1 + 2)%nat with (S (S (S k1))) by lia
       |replace (S k1 + 1)%nat with (S (S k1)) by lia; rewrite HS2; lia..].
    fold h2. apply next_alive_shift. intros dx dy Hdx Hdy.
    rewrite (shows_bool t3 ox3 oy3 C) by
      (done || rewrite (full_depth _ _ F3), !pow2_S; fold h1; lia).
    f_equal; lia.
  + destruct c as [cx cy]. cbn [Cell.x Cell.y]. f_equal; lia.
Qed.

End StepCluster.

(** ** Union-find *)

Section UnionFindFacts.
Import HashLife UnionFind.

Lemma root_of_fun parent k r1 r2 :
  root_of parent k r1 → root_of parent k r2 → r1 = r2.
Proof.
intros H1. revert r2. induction H1 as [k Hk|k p r Hk Hne _ IH]; intros r2 H2.
- inversion H2 as [? Hk'|? p' ? Hk' Hne' _]; subst; [done|]. congruence.
- inversion H2 as [? Hk'|? p' ? Hk' Hne' H2']; subst; [congruence|].
  apply IH. congruence.
Qed.

Lemma root_of_root parent k r : root_of parent k r → parent !! r = Some r.
Proof. induction 1; done. Qed.

Lemma root_of_rank D rank parent k r :
  forest D rank parent → root_of parent k r → (rank k <= rank r)%nat.
Proof.
intros F. induction 1 as [|k p r Hk Hne _ IH]; [done|].
pose proof (f_rank _ _ _ F k p Hk Hne). lia.
Qed.

Lemma above_lt D rank k p :
  (rank k < rank p)%nat → p ∈ D → (above D rank p < above D rank k)%nat.
Proof.
intros Hr Hp. unfold above. apply subset_size. split.
- intros j. rewrite !elem_of_filter. intros [? ?]. split; [lia|done].
- intros Hsub. specialize (Hsub p). rewrite !elem_of_filter in Hsub.
  destruct Hsub; [done|lia].
Qed.

Lemma above_le D rank k : (above D rank k <= size D)%nat.
Proof. unfold above. apply subseteq_size. intros j. rewrite elem_of_filter. tauto. Qed.

Lemma lookup_forest D rank parent k :
  forest D rank parent → k ∈ D → ∃ p, parent !! k = Some p.
Proof.
intros F Hk. rewrite <- (f_dom _ _ _ F) in Hk. by apply elem_of_dom in Hk.
Qed.

Lemma parent_at_Some parent k p :
  parent !! k = Some p → parent_at parent k = (p, parent).
Proof. intros H. unfold parent_at. by rewrite H. Qed.

(** Replacing the parent of [k] by its root keeps every root. *)
Lemma compress_keeps parent k r :
  root_of parent k r → k ≠ r →
  ∀ j r', root_of parent j r' → root_of (<[k := r]> parent) j r'.
Proof.
intros Hkr Hne j r' H. induction H as [j Hj|j p r' Hj Hp Hsub IH].
- destruct (decide (j = k)) as [->|Hjk].
  + destruct Hne. apply (root_of_fun parent k); [by apply root_self|done].
  + apply root_self. by rewrite lookup_insert_ne.
- destruct (decide (j = k)) as [->|Hjk].
  + assert (r' = r) as ->.
    { apply (root_of_fun parent k); [|done]. by eapply root_step. }
    apply root_step with r; [by rewrite lookup_insert_eq|done|].
    apply root_self. rewrite lookup_insert_ne by done. by eapply root_of_root.
  + apply root_step with p; [by rewrite lookup_insert_ne|done|done].
Qed.

(** [find] returns the root of [k], keeps the forest, and keeps the root
    of every key. *)
Lemma find_spec D rank fuel : ∀ parent k,
  forest D rank parent → k ∈ D → (above D rank k < fuel)%nat →
  ∃ r parent',
    find fuel parent k = Done (r, parent') ∧ root_of parent k r ∧
    forest D rank parent' ∧
    ∀ j r', root_of parent j r' → root_of parent' j r'.
Proof.
induction fuel as [|fuel IH]; intros parent k F Hk Hf; [lia|].
destruct (lookup_forest _ _ _ _ F Hk) as [p Hp].
cbn [find]. rewrite (parent_at_Some _ _ _ Hp).
case_bool_decide as Hpk.
- subst p. exists k, parent. rewrite (parent_at_Some _ _ _ Hp).
  split; [done|]. split; [by apply root_self|]. split; [done|]. done.
- pose proof (f_in _ _ _ F k p Hp) as HpD.
  pose proof (f_rank _ _ _ F k p Hp Hpk) as Hrank.
  destruct (IH parent p F HpD) as (r & parent1 & Hfind & Hroot & F1 & Hkeep).
  { pose proof (above_lt D rank k p Hrank HpD). lia. }
  rewrite (parent_at_Some _ _ _ Hp), Hfind. cbn [mbind outcome_bind].
  assert (root_of parent k r) as Hkr by (by eapply root_step).
  pose proof (root_of_rank _ _ _ _ _ F Hroot) as Hrr.
  assert (k ≠ r) as Hne by (intros ->; lia).
  exists r, (<[k := r]> parent1).
  rewrite (parent_at_Some _ k r) by (by rewrite lookup_insert_eq).
  split; [done|]. split; [done|]. split.
  + split.
    * rewrite dom_insert_L, (f_dom _ _ _ F1). set_solver.
    * intros j q Hj. destruct (decide (j = k)) as [->|Hjk].
      -- rewrite lookup_insert_eq in Hj. injection Hj as <-.
         apply (f_in _ _ _ F1 r r). apply (root_of_root parent1 p). by apply Hkeep.
      -- rewrite lookup_insert_ne in Hj by done. by apply (f_in _ _ _ F1 j).
    * intros j q Hj Hq. destruct (decide (j = k)) as [->|Hjk].
      -- rewrite lookup_insert_eq in Hj. injection Hj as <-. lia.
      -- rewrite lookup_insert_ne in Hj by done. by apply (f_rank _ _ _ F1 j).
  + intros j r' Hj. apply compress_keeps; [by apply Hkeep|done|by apply Hkeep].
Qed.

(** Hanging the root [ra] under the root [rb] moves the class of [ra]
    into the class of [rb] and leaves the other classes as they are. *)
Lemma link_roots parent ra rb :
  parent !! ra = Some ra → parent !! rb = Some rb → ra ≠ rb →
  ∀ j r, root_of parent j r →
         root_of (<[ra := rb]> parent) j (if decide (r = ra) then rb else r).
Proof.
intros Ha Hb Hne j r H. induction H as [j Hj|j p r Hj Hp _ IH].
- destruct (decide (j = ra)) as [->|Hja].
  + apply root_step with rb; [by rewrite lookup_insert_eq|done|].
    apply root_self. by rewrite lookup_insert_ne.
  + apply root_self. by rewrite lookup_insert_ne.
- assert (j ≠ ra) as Hja by (intros ->; congruence).
  apply root_step with p; [by rewrite lookup_insert_ne|done|done].
Qed.

(** [unite] joins the classes of [a] and [b] and separates no two keys. *)
Lemma unite_spec D fuel parent a b :
  (∃ rank, forest D rank parent) → a ∈ D → b ∈ D → (size D < fuel)%nat →
  ∃ parent',
    unite fuel parent a b = Done parent' ∧
    (∃ rank, forest D rank parent') ∧
    same parent' a b ∧
    ∀ j1 j2, same parent j1 j2 → same parent' j1 j2.
Proof.
intros [rank F] Ha Hb Hf. unfold unite.
destruct (find_spec D rank fuel parent a F Ha) as (ra & parent1 & -> & Hra & F1 & K1).
{ pose proof (above_le D rank a). lia. }
cbn [mbind outcome_bind].
destruct (find_spec D rank fuel parent1 b F1 Hb) as (rb & parent2 & -> & Hrb & F2 & K2).
{ pose proof (above_le D rank b). lia. }
cbn [mbind outcome_bind].
assert (root_of parent2 a ra) as Hra2 by (by apply K2, K1).
assert (root_of parent2 b rb) as Hrb2 by (by apply K2).
case_bool_decide as Hab.
- subst rb. exists parent2. split; [done|]. split; [by exists rank|].
  split; [by exists ra|].
  intros j1 j2 (r & H1 & H2). exists r. split; by apply K2, K1.
- pose proof (root_of_root _ _ _ Hra2) as Hpa.
  pose proof (root_of_root _ _ _ Hrb2) as Hpb.
  pose proof (link_roots parent2 ra rb Hpa Hpb Hab) as Hlink.
  exists (<[ra := rb]> parent2). split; [done|]. split; [|split].
  + exists (λ j, if decide (j = rb) then Nat.max (rank rb) (S (rank ra)) else rank j).
    split.
    * rewrite dom_insert_L, (f_dom _ _ _ F2).
      assert (ra ∈ D); [|set_solver]. by apply (f_in _ _ _ F2 ra ra).
    * intros j q Hj. destruct (decide (j = ra)) as [->|Hja].
      -- rewrite lookup_insert_eq in Hj. injection Hj as <-. by apply (f_in _ _ _ F2 rb rb).
      -- rewrite lookup_insert_ne in Hj by done. by apply (f_in _ _ _ F2 j).
    * intros j q Hj Hq. destruct (decide (j = ra)) as [->|Hja].
      -- rewrite lookup_insert_eq in Hj. injection Hj as <-.
         rewrite decide_False, decide_True by done. lia.
      -- rewrite lookup_insert_ne in Hj by done.
         assert (j ≠ rb) as Hjb by (intros ->; congruence).
         pose proof (f_rank _ _ _ F2 j q Hj Hq).
         rewrite (decide_False (P := j = rb)) by done.
         destruct (decide (q = rb)) as [->|]; lia.
  + exists rb. split.
    * pose proof (Hlink a ra Hra2) as H. by rewrite decide_True in H.
    * pose proof (Hlink b rb Hrb2) as H. by rewrite decide_False in H.
  + intros j1 j2 (r & H1 & H2).
    exists (if decide (r = ra) then rb else r). split; by apply Hlink, K2, K1.
Qed.

End UnionFindFacts.

(** ** Buckets and clusters *)

Section Clustering.
Import HashLife UnionFind.

Lemma root_exists D parent k :
  is_forest D parent → k ∈ D → ∃ r, root_of parent k r.
Proof.
intros [rank F] Hk.
destruct (find_spec D rank (S (size D)) parent k F Hk) as (r & _ & _ & Hr & _).
{ pose proof (above_le D rank k). lia. }
by exists r.
Qed.

Lemma same_refl D parent k : is_forest D parent → k ∈ D → same parent k k.
Proof. intros F Hk. destruct (root_exists D parent k F Hk) as [r Hr]. by exists r. Qed.

Lemma grows_refl p : grows p p.
Proof. by intros j1 j2. Qed.

Lemma grows_trans p1 p2 p3 : grows p1 p2 → grows p2 p3 → grows p1 p3.
Proof. intros H1 H2 j1 j2 H. by apply H2, H1. Qed.

(** A loop of steps that keep the forest and only join classes. *)
Lemma foldM_grows {B} D (f : Parent → B → outcome Parent)
      (Q : B → Parent → Prop) (l : list B) :
  (∀ b p p', Q b p → grows p p' → Q b p') →
  (∀ p b, b ∈ l → is_forest D p →
          ∃ p', f p b = Done p' ∧ is_forest D p' ∧ grows p p' ∧ Q b p') →
  ∀ p, is_forest D p →
       ∃ p', foldM f p l = Done p' ∧ is_forest D p' ∧ grows p p' ∧
             ∀ b, b ∈ l → Q b p'.
Proof.
intros Hstable. induction l as [|b l IH]; intros Hstep p F.
- exists p. split; [done|]. split; [done|]. split; [apply grows_refl|].
  intros b Hb. by apply elem_of_nil in Hb.
- destruct (Hstep p b) as (p1 & Hf & F1 & G1 & Q1); [apply elem_of_cons; by left|done|].
  destruct IH with (p := p1) as (p2 & Hf2 & F2 & G2 & Q2); [|done|].
  { intros p' b' Hb'. apply Hstep. apply elem_of_cons. by right. }
  exists p2. cbn [foldM]. rewrite Hf. cbn [mbind outcome_bind].
  split; [done|]. split; [done|]. split; [by eapply grows_trans|].
  intros b' Hb'. apply elem_of_cons in Hb' as [->|Hb']; [|by apply Q2].
  by apply (Hstable b p1).
Qed.

Lemma offsets_complete dx dy :
  -1 <= dx <= 1 → -1 <= dy <= 1 → (dx, dy) ∈ offsets.
Proof.
intros Hx Hy.
assert (dx = -1 ∨ dx = 0 ∨ dx = 1) as Hdx by lia.
assert (dy = -1 ∨ dy = 0 ∨ dy = 1) as Hdy by lia.
unfold offsets. rewrite !elem_of_cons.
destruct Hdx as [-> | [-> | ->]], Hdy as [-> | [-> | ->]]; tauto.
Qed.

(** The merging loop for one bucket joins it with every bucket that
    touches it. *)
Lemma merge_around_spec chunks fuel parent key :
  let D := dom chunks in
  is_forest D parent → key ∈ D → (size D < fuel)%nat →
  in_int64 (ChunkKey.cx key - 1) = true → in_int64 (ChunkKey.cx key + 1) = true →
  in_int64 (ChunkKey.cy key - 1) = true → in_int64 (ChunkKey.cy key + 1) = true →
  ∃ parent',
    merge_around chunks fuel parent key = Done parent' ∧
    is_forest D parent' ∧ grows parent parent' ∧
    ∀ k2, k2 ∈ D → touching key k2 → same parent' key k2.
Proof.
intros D F Hkey Hf Hx0 Hx1 Hy0 Hy1. unfold merge_around.
rewrite !in_int64_spec in Hx0, Hx1, Hy0, Hy1.
destruct (foldM_grows D
  (λ parent '(dx, dy),
     if (dx =? 0) && (dy =? 0) then Done parent else
     nx ← add64 (ChunkKey.cx key) dx;
     ny ← add64 (ChunkKey.cy key) dy;
     let neighbor := ChunkKey.mk nx ny in
     if bool_decide (is_Some (chunks !! neighbor))
     then unite fuel parent key neighbor
     else Done parent)
  (λ '(dx, dy) p,
     ChunkKey.mk (ChunkKey.cx key + dx) (ChunkKey.cy key + dy) ∈ D →
     same p key (ChunkKey.mk (ChunkKey.cx key + dx) (ChunkKey.cy key + dy)))
  offsets) with (p := parent) as (p' & Hfold & F' & G' & Q'); [| |done|].
- intros [dx dy] p p' HQ Hg Hin. by apply Hg, HQ.
- intros p [dx dy] Hd Fp.
  assert (-1 <= dx <= 1 ∧ -1 <= dy <= 1) as [Hdx Hdy].
  { unfold offsets in Hd. rewrite !elem_of_cons, elem_of_nil in Hd.
    destruct Hd as [[= -> ->]|[[= -> ->]|[[= -> ->]|[[= -> ->]|[[= -> ->]|
                    [[= -> ->]|[[= -> ->]|[[= -> ->]|[[= -> ->]|[]]]]]]]]]]; lia. }
  destruct ((dx =? 0) && (dy =? 0)) eqn:E0.
  + exists p. split; [done|]. split; [done|]. split; [apply grows_refl|].
    apply andb_true_iff in E0 as [->%Z.eqb_eq ->%Z.eqb_eq].
    intros _. rewrite !Z.add_0_r. destruct key. by apply (same_refl D).
  + unfold add64. rewrite !chk64_in by lia. cbn [mbind outcome_bind]. cbv zeta.
    case_bool_decide as Hn.
    * apply elem_of_dom in Hn.
      destruct (unite_spec D fuel p key _ Fp Hkey Hn Hf) as (p' & -> & F' & S' & G').
      exists p'. by repeat split.
    * exists p. split; [done|]. split; [done|]. split; [apply grows_refl|].
      intros Hin. by apply elem_of_dom in Hin.
- exists p'. split; [done|]. split; [done|]. split; [done|].
  intros k2 Hk2 [Htx Hty].
  specialize (Q' (ChunkKey.cx k2 - ChunkKey.cx key, ChunkKey.cy k2 - ChunkKey.cy key)
                 (offsets_complete _ _ Htx Hty)).
  cbn beta iota in Q'.
  replace (ChunkKey.cx key + (ChunkKey.cx k2 - ChunkKey.cx key)) with (ChunkKey.cx k2) in Q' by lia.
  replace (ChunkKey.cy key + (ChunkKey.cy k2 - ChunkKey.cy key)) with (ChunkKey.cy k2) in Q' by lia.
  destruct k2 as [x2 y2]. cbn [ChunkKey.cx ChunkKey.cy] in Q'. by apply Q'.
Qed.

(** The whole merging loop: buckets that touch end up in one class. *)
Lemma merge_all_spec (chunks : gmap ChunkKey (list Cell)) fuel parent :
  let D := dom chunks in
  is_forest D parent → (size D < fuel)%nat →
  (∀ k, k ∈ D → in_int64 (ChunkKey.cx k - 1) = true ∧ in_int64 (ChunkKey.cx k + 1) = true ∧
                in_int64 (ChunkKey.cy k - 1) = true ∧ in_int64 (ChunkKey.cy k + 1) = true) →
  ∃ parent',
    foldM (λ parent '(key, _), merge_around chunks fuel parent key)
          parent (map_to_list chunks) = Done parent' ∧
    is_forest D parent' ∧
    ∀ k1 k2, k1 ∈ D → k2 ∈ D → touching k1 k2 → same parent' k1 k2.
Proof.
intros D F Hf Hr.
destruct (foldM_grows D
  (λ parent (e : ChunkKey * list Cell), let '(key, _) := e in
     merge_around chunks fuel parent key)
  (λ e p, ∀ k2, k2 ∈ D → touching e.1 k2 → same p e.1 k2)
  (map_to_list chunks)) with (p := parent) as (p' & Hfold & F' & G' & Q'); [| |done|].
- intros e p p' HQ Hg k2 Hk2 Ht. by apply Hg, HQ.
- intros p [key cs] He Fp. apply elem_of_map_to_list in He.
  assert (key ∈ D) as Hkey by (apply elem_of_dom; eauto).
  destruct (Hr key Hkey) as (? & ? & ? & ?).
  destruct (merge_around_spec chunks fuel p key Fp Hkey Hf) as (p' & -> & ? & ? & ?);
    [done..|].
  exists p'. by repeat split.
- exists p'. split; [done|]. split; [done|].
  intros k1 k2 Hk1 Hk2 Ht. pose proof Hk1 as Hk1'.
  apply elem_of_dom in Hk1' as [cs Hcs].
  apply (Q' (k1, cs)); [by apply elem_of_map_to_list|done..].
Qed.

End Clustering.

(** ** The whole tick of the quadtree engine *)

Section WholeTickCorrect.
Import HashLife UnionFind Quad Region.

Lemma default_Some {A} (d a : A) : default d (Some a) = a.
Proof. reflexivity. Qed.

Lemma default_None {A} (d : A) : default d None = d.
Proof. reflexivity. Qed.

Lemma bucket_Done chunks c :
  INT64_MIN + 64 <= Cell.x c <= INT64_MAX →
  INT64_MIN + 64 <= Cell.y c <= INT64_MAX →
  bucket chunks c =
  Done (<[chunk_of c := default [] (chunks !! chunk_of c) ++ [c]]> chunks).
Proof. intros Hx Hy. unfold bucket. by rewrite !chunk_index_floor. Qed.

(** The bucketing loop: every cell goes to the bucket of its quotient by
    64, and only buckets that receive a cell are created. *)
Lemma foldM_bucket l : ∀ chunks,
  (∀ c, c ∈ l → INT64_MIN + 64 <= Cell.x c <= INT64_MAX ∧
                INT64_MIN + 64 <= Cell.y c <= INT64_MAX) →
  ∃ chunks',
    foldM bucket chunks l = Done chunks' ∧
    (∀ k c, c ∈ default [] (chunks' !! k) ↔
            c ∈ default [] (chunks !! k) ∨ (c ∈ l ∧ chunk_of c = k)) ∧
    (∀ k, is_Some (chunks' !! k) ↔
          is_Some (chunks !! k) ∨ ∃ c, c ∈ l ∧ chunk_of c = k).
Proof.
induction l as [|c0 l IH]; intros chunks Hb.
- exists chunks. split; [done|]. split.
  + intros k c. rewrite elem_of_nil. tauto.
  + intros k. split; [tauto|]. intros [?|(c & Hc & _)]; [done|].
    by apply elem_of_nil in Hc.
- destruct (Hb c0) as [Hx Hy]; [apply elem_of_cons; by left|].
  cbn [foldM]. rewrite (bucket_Done _ _ Hx Hy). cbn [mbind outcome_bind].
  destruct (IH (<[chunk_of c0 := default [] (chunks !! chunk_of c0) ++ [c0]]> chunks))
    as (chunks' & -> & Ha & Hs).
  { intros c Hc. apply Hb. apply elem_of_cons. by right. }
  exists chunks'. split; [done|]. split.
  + intros k c. rewrite Ha, elem_of_cons.
    destruct (decide (k = chunk_of c0)) as [->|Hk].
    * rewrite lookup_insert_eq, default_Some, elem_of_app, list_elem_of_singleton.
      split.
      -- intros [[?| ->]|[? ?]]; [by left|right; split; [by left|done]|right; split; [by right|done]].
      -- intros [?|[[-> |?] ?]]; [left; by left|left; by right|right; by split].
    * rewrite lookup_insert_ne by done. split.
      -- intros [?|[? ?]]; [by left|right; split; [by right|done]].
      -- intros [?|[[-> |?] ?]]; [by left|done|right; by split].
  + intros k. rewrite Hs.
    destruct (decide (k = chunk_of c0)) as [->|Hk].
    * rewrite lookup_insert_eq. split.
      -- intros _. right. exists c0. split; [apply elem_of_cons; by left|done].
      -- intros _. left. eauto.
    * rewrite lookup_insert_ne by done. split.
      -- intros [?|(c & Hc & E)]; [by left|right].
         exists c. split; [apply elem_of_cons; by right|done].
      -- intros [?|(c & Hc & E)]; [by left|].
         apply elem_of_cons in Hc as [->|Hc]; [done|]. right. eauto.
Qed.

Lemma init_parent_lookup (l : list (ChunkKey * list Cell)) : ∀ (m : Parent) k,
  foldl (λ parent '(key, _), <[key := key]> parent) m l !! k =
  if decide (k ∈ l.*1) then Some k else m !! k.
Proof.
induction l as [|[key cs] l IH]; intros m k; cbn [foldl fmap list_fmap].
- rewrite decide_False; [done|]. apply not_elem_of_nil.
- rewrite IH. cbn [fst]. destruct (decide (k ∈ l.*1)) as [Hin|Hin].
  + rewrite decide_True; [done|]. apply elem_of_cons. by right.
  + destruct (decide (k = key)) as [->|Hne].
    * rewrite lookup_insert_eq, decide_True; [done|]. apply elem_of_cons. by left.
    * rewrite lookup_insert_ne by done. rewrite decide_False; [done|].
      rewrite elem_of_cons. tauto.
Qed.

(** Before merging, every bucket is its own root. *)
Lemma init_parent_forest (chunks : gmap ChunkKey (list Cell)) :
  is_forest (dom chunks)
    (foldl (λ parent '(key, _), <[key := key]> parent) ∅ (map_to_list chunks)).
Proof.
assert (∀ k p, foldl (λ parent '(key, _), <[key := key]> parent) (∅ : Parent)
                     (map_to_list chunks) !! k = Some p ↔
               p = k ∧ k ∈ dom chunks) as Hl.
{ intros k p. rewrite init_parent_lookup, lookup_empty.
  rewrite elem_of_dom. pose proof (elem_of_map_to_list chunks k) as Hm.
  destruct (decide (k ∈ (map_to_list chunks).*1)) as [Hin|Hin].
  - apply list_elem_of_fmap in Hin as ([k' cs] & -> & Hin). cbn [fst].
    apply elem_of_map_to_list in Hin. split; [intros [= <-]|intros [-> _]]; eauto.
  - split; [done|]. intros [_ [cs Hcs]]. destruct Hin.
    apply list_elem_of_fmap. exists (k, cs). split; [done|]. by apply elem_of_map_to_list. }
exists (λ _, 0%nat). split.
- apply set_eq. intros k. rewrite elem_of_dom. split.
  + intros [p Hp]. apply Hl in Hp. tauto.
  + intros Hk. exists k. by apply Hl.
- intros k p Hp. apply Hl in Hp as [-> ?]. done.
- intros k p Hp Hne. apply Hl in Hp as [-> ?]. done.
Qed.

Lemma foldl_cluster root cs : ∀ (clusters : gmap ChunkKey CellSet) r c,
  c ∈ default ∅
        (foldl (λ clusters cell,
                  <[root := {[cell]} ∪ default ∅ (clusters !! root)]> clusters)
               clusters cs !! r) ↔
  (r = root ∧ c ∈ cs) ∨ c ∈ default ∅ (clusters !! r).
Proof.
induction cs as [|c0 cs IH]; intros clusters r c; cbn [foldl].
- rewrite elem_of_nil. tauto.
- rewrite IH, elem_of_cons. destruct (decide (r = root)) as [->|Hne].
  + rewrite lookup_insert_eq. rewrite ?default_Some, ?default_None. rewrite elem_of_union, elem_of_singleton.
    tauto.
  + rewrite lookup_insert_ne by done. tauto.
Qed.

(** The loop that fills [clusters]: each bucket goes to the cluster of
    its root. *)
Lemma gather_all D fuel parent_m l : ∀ parent clusters,
  is_forest D parent_m → is_forest D parent →
  (∀ j r, root_of parent_m j r → root_of parent j r) →
  (∀ e, e ∈ l → e.1 ∈ D) → (size D < fuel)%nat →
  ∃ parent' clusters',
    foldM (gather fuel) (parent, clusters) l = Done (parent', clusters') ∧
    ∀ r c, c ∈ default ∅ (clusters' !! r) ↔
           c ∈ default ∅ (clusters !! r) ∨
           ∃ k cs, (k, cs) ∈ l ∧ c ∈ cs ∧ root_of parent_m k r.
Proof.
induction l as [|[key cs] l IH]; intros parent clusters Fm F Hkeep HD Hf.
- exists parent, clusters. split; [done|]. intros r c. split; [tauto|].
  intros [?|(k & cs & He & _)]; [done|]. by apply elem_of_nil in He.
- assert (key ∈ D) as Hkey by (apply (HD (key, cs)); apply elem_of_cons; by left).
  destruct F as [rank F].
  destruct (find_spec D rank fuel parent key F Hkey) as (root & parent1 & Hfind & Hroot & F1 & K1).
  { pose proof (above_le D rank key). lia. }
  destruct (root_exists D parent_m key Fm Hkey) as [r0 Hr0].
  assert (root = r0) as -> by (eapply root_of_fun; [done|by apply Hkeep]).
  cbn [foldM gather]. rewrite Hfind. cbn [mbind outcome_bind].
  edestruct IH as (parent' & clusters' & -> & Hcl); [done|by exists rank| | |done|].
  { intros j r Hj. by apply K1, Hkeep. }
  { intros e He. apply HD. apply elem_of_cons. by right. }
  exists parent', clusters'. split; [done|]. intros r c.
  rewrite Hcl, foldl_cluster. split.
  + intros [[[-> Hc]|?]|(k & cs' & He & Hc & Hr)]; [right|by left|right].
    * exists key, cs. split; [apply elem_of_cons; by left|done].
    * exists k, cs'. split; [apply elem_of_cons; by right|done].
  + intros [?|(k & cs' & He & Hc & Hr)]; [left; by right|].
    apply elem_of_cons in He as [[= -> ->]|He].
    * left. left. split; [|done]. by eapply root_of_fun.
    * right. eauto.
Qed.

(** The final loop: the next generations of the clusters are united. *)
Lemma step_all_spec a b l : ∀ cells P,
  pool_ok P → window_origin a → window_origin b →
  (∀ e, e ∈ l → in_window a b e.2) →
  returns (step_all l cells) P
    (λ cells' _, ∀ c, c ∈ cells' ↔
       c ∈ cells ∨ ∃ k C, (k, C) ∈ l ∧ rule (live_neighbors C c) (c ∈ C)).
Proof.
induction l as [|[key C] l IH]; intros cells P Hok Ha Hb Hw; cbn [step_all].
- apply returns_ret; [done|]. intros c. split; [tauto|].
  intros [?|(k & C & He & _)]; [done|]. by apply elem_of_nil in He.
- eapply returns_bind.
  { apply (step_cluster_spec C P a b Hok Ha Hb).
    apply (Hw (key, C)). apply elem_of_cons. by left. }
  intros C' P1 Hok1 _ HC'. cbv beta in HC'.
  eapply returns_weaken.
  { apply IH; [done..|]. intros e He. apply Hw. apply elem_of_cons. by right. }
  intros cells' P2 _ _ Hcells. cbv beta in Hcells. intros c.
  rewrite Hcells, elem_of_union, HC'. split.
  + intros [[?|?]|(k & C0 & He & Hr)]; [right|by left|right].
    * exists key, C. split; [apply elem_of_cons; by left|done].
    * exists k, C0. split; [apply elem_of_cons; by right|done].
  + intros [?|(k & C0 & He & Hr)]; [left; by right|].
    apply elem_of_cons in He as [[= -> ->]|He]; [left; by left|right; eauto].
Qed.

Lemma div64_near u v : -2 <= u - v <= 2 → -1 <= u `div` 64 - v `div` 64 <= 1.
Proof. intros H. Z.to_euclidean_division_equations. lia. Qed.

(** [HashLifeEngine::tick] on a set inside a window of side 2^29 returns
    its next generation. *)
Lemma tick_in_pool_spec S a b P :
  pool_ok P → window_origin a → window_origin b → in_window a b S →
  returns (tick_in_pool S) P
          (λ S' _, ∀ c, c ∈ S' ↔ rule (live_neighbors S c) (c ∈ S)).
Proof.
intros Hok Ha Hb HS. unfold tick_in_pool.
case_bool_decide as Hne.
{ subst S. apply returns_ret; [done|]. intros c. split; [set_solver|].
  intros H. destruct (rule_far ∅ c); [set_solver|done]. }
pose proof HS as HW. rewrite in_window_spec in HW. unfold in_box in HW.
pose proof Ha as Ha'. pose proof Hb as Hb'. unfold window_origin in Ha', Hb'.
change (2 ^ 62) with 4611686018427387904 in Ha', Hb'.
change (2 ^ 29) with 536870912 in HW.
assert (INT64_MIN = -9223372036854775808) as Hmin by reflexivity.
assert (INT64_MAX = 9223372036854775807) as Hmax by reflexivity.
(* the buckets *)
destruct (foldM_bucket (elements S) ∅) as (chunks & Hchunks & Hcells & Hkeys).
{ intros c Hc. apply elem_of_elements in Hc. specialize (HW c Hc). lia. }
eapply returns_lift; [exact Hchunks|].
assert (∀ k c, c ∈ default [] (chunks !! k) ↔ c ∈ S ∧ chunk_of c = k) as Hcells'.
{ intros k c. rewrite Hcells, lookup_empty, elem_of_elements. rewrite ?default_Some, ?default_None.
  rewrite elem_of_nil. tauto. }
assert (∀ k, k ∈ dom chunks ↔ ∃ c, c ∈ S ∧ chunk_of c = k) as Hkeys'.
{ intros k. rewrite elem_of_dom, Hkeys, lookup_empty. split.
  - intros [[? [=]]|(c & Hc & E)]. exists c. by rewrite <- elem_of_elements.
  - intros (c & Hc & E). right. exists c. by rewrite elem_of_elements. }
clear Hcells Hkeys Hchunks.
set (D := dom chunks) in *.
assert (size D = size chunks) as HsD by apply size_dom.
(* the forest *)
cbv zeta.
destruct (merge_all_spec chunks (Datatypes.S (size chunks)) _ (init_parent_forest chunks))
  as (parent_m & Hmerge & Fm & Htouch); [fold D; lia| |].
{ intros k Hk. apply Hkeys' in Hk as (c & Hc & <-). specialize (HW c Hc).
  unfold chunk_of. cbn [ChunkKey.cx ChunkKey.cy]. rewrite !in_int64_spec.
  repeat split; Z.to_euclidean_division_equations; lia. }
eapply returns_lift; [exact Hmerge|].
(* the clusters *)
destruct (gather_all D (Datatypes.S (size chunks)) parent_m (map_to_list chunks) parent_m ∅)
  as (parent_g & clusters & Hgather & Hcl); [done|done|done| |lia|].
{ intros [k cs] He. apply elem_of_map_to_list in He. apply elem_of_dom. eauto. }
eapply returns_lift; [exact Hgather|]. cbv beta iota.
assert (∀ r c, c ∈ default ∅ (clusters !! r) ↔
               c ∈ S ∧ root_of parent_m (chunk_of c) r) as Hcl'.
{ intros r c. rewrite Hcl, lookup_empty. rewrite ?default_Some, ?default_None. split.
  - intros [?|(k & cs & He & Hc & Hr)]; [set_solver|].
    apply elem_of_map_to_list in He.
    assert (c ∈ default [] (chunks !! k)) as Hc' by (by rewrite He).
    apply Hcells' in Hc' as [? <-]. done.
  - intros [Hc Hr]. right.
    assert (c ∈ default [] (chunks !! chunk_of c)) as Hc' by (by apply Hcells').
    destruct (chunks !! chunk_of c) as [cs|] eqn:E; [|by apply elem_of_nil in Hc'].
    exists (chunk_of c), cs. split; [by apply elem_of_map_to_list|done]. }
clear Hcl Hgather Hmerge.
(* cells that are near to each other are in the same cluster *)
assert (∀ r s s', s ∈ default ∅ (clusters !! r) → s' ∈ S →
                  -2 <= Cell.x s - Cell.x s' <= 2 → -2 <= Cell.y s - Cell.y s' <= 2 →
                  s' ∈ default ∅ (clusters !! r)) as Hclosed.
{ intros r s s' Hs Hs' Hx Hy. apply Hcl' in Hs as [Hs Hr]. apply Hcl'. split; [done|].
  destruct (Htouch (chunk_of s) (chunk_of s')) as (r' & H1 & H2).
  - apply Hkeys'. eauto.
  - apply Hkeys'. eauto.
  - unfold touching, chunk_of. cbn [ChunkKey.cx ChunkKey.cy].
    pose proof (div64_near (Cell.x s') (Cell.x s)). pose proof (div64_near (Cell.y s') (Cell.y s)).
    lia.
  - by rewrite (root_of_fun _ _ _ _ Hr H1). }
(* a cluster next to a cell decides the fate of the cell *)
assert (∀ r s c, s ∈ default ∅ (clusters !! r) → adjacent s c = true →
                 (rule (live_neighbors (default ∅ (clusters !! r)) c)
                       (c ∈ default ∅ (clusters !! r)) ↔
                  rule (live_neighbors S c) (c ∈ S))) as Hfate.
{ intros r s c Hs Hadj. apply adjacent_spec in Hadj.
  set (C := default ∅ (clusters !! r)) in *.
  assert (C ⊆ S) as Hsub by (intros x Hx; by apply Hcl' in Hx as [? _]).
  assert (c ∈ C ↔ c ∈ S) as Hmem.
  { split; [apply Hsub|]. intros Hc. apply (Hclosed r s c Hs Hc); lia. }
  assert (live_neighbors C c = live_neighbors S c) as ->;
    [|unfold rule; by rewrite Hmem].
  unfold live_neighbors. f_equal. apply set_eq. intros x. unfold counted.
  rewrite !elem_of_filter. split.
  - intros (? & ? & Hx). repeat split; [done..|by apply Hsub].
  - intros (Hax & ? & Hx). repeat split; [done..|].
    apply adjacent_spec in Hax. apply (Hclosed r s x Hs Hx); lia. }
(* stepping the clusters *)
eapply returns_weaken.
{ apply (step_all_spec a b); [done..|]. intros [r C] He.
  apply elem_of_map_to_list in He. cbn [snd].
  apply (in_window_subseteq a b S); [|done].
  intros x Hx. assert (x ∈ default ∅ (clusters !! r)) as Hx' by (by rewrite He).
  by apply Hcl' in Hx' as [? _]. }
intros S' P' _ _ HS'. cbv beta in HS'. intros c. rewrite HS'. split.
- intros [?|(r & C & He & Hrule)]; [set_solver|].
  apply elem_of_map_to_list in He.
  assert (C = default ∅ (clusters !! r)) as -> by (by rewrite He).
  destruct (live_neighbors_pos (default ∅ (clusters !! r)) c) as (s & Hs & _ & Hadj).
  { destruct Hrule as [->|[-> _]]; lia. }
  by apply (Hfate r s c Hs Hadj).
- intros Hrule. right.
  destruct (live_neighbors_pos S c) as (s & Hs & _ & Hadj).
  { destruct Hrule as [->|[-> _]]; lia. }
  destruct (root_exists D parent_m (chunk_of s) Fm) as [r Hr]; [apply Hkeys'; eauto|].
  assert (s ∈ default ∅ (clusters !! r)) as Hs' by (by apply Hcl').
  destruct (clusters !! r) as [C|] eqn:E; [|set_solver].
  exists r, C. split; [by apply elem_of_map_to_list|].
  rewrite default_Some in Hs'.
  pose proof (Hfate r s c) as Hf. rewrite E, !default_Some in Hf.
  by apply Hf.
Qed.

End WholeTickCorrect.

(** ** The three engines inside a window *)

Section Agreement.
Import HashLife Quad Region.

Lemma within_spec a b w C :
  within a b w C ↔ ∀ c, c ∈ C → in_box a b w c.
Proof.
unfold within, in_box. rewrite forallb_forall. split.
- intros H c Hc. specialize (H c).
  rewrite !andb_true_iff, !Z.leb_le, !Z.ltb_lt in H.
  apply elem_of_elements, list_elem_of_In in Hc. specialize (H Hc). lia.
- intros H c Hc. apply list_elem_of_In, elem_of_elements in Hc. specialize (H c Hc).
  rewrite !andb_true_iff, !Z.leb_le, !Z.ltb_lt. lia.
Qed.

Lemma within_in_window a b w a0 b0 C :
  within a b w C → a0 <= a → a + w <= a0 + 2 ^ 29 → b0 <= b → b + w <= b0 + 2 ^ 29 →
  in_window a0 b0 C.
Proof.
rewrite within_spec, in_window_spec. unfold in_box.
intros H ? ? ? ? c Hc. specialize (H c Hc). lia.
Qed.

Lemma tick_spec_window S a b :
  window_origin a → window_origin b → in_window a b S →
  ∃ S', tick S = Done S' ∧ ∀ c, c ∈ S' ↔ rule (live_neighbors S c) (c ∈ S).
Proof.
intros Ha Hb HS.
destruct (tick_in_pool_spec S a b clear pool_ok_clear Ha Hb HS) as (S' & P' & Hrun & _ & _ & H).
exists S'. unfold tick. by rewrite Hrun.
Qed.

(** In a window the quadtree engine returns what the counting engine
    returns. *)
Lemma engines_agree_once e S a b :
  window_origin a → window_origin b → in_window a b S →
  ∃ S', engine_tick e S = Done S' ∧
        ∀ c, c ∈ S' ↔ rule (live_neighbors S c) (c ∈ S).
Proof.
intros Ha Hb HS. destruct e.
- apply engine_tick_spec; [by left|by apply (in_window_cells_in_range a b)].
- apply engine_tick_spec; [by right|by apply (in_window_cells_in_range a b)].
- by apply (tick_spec_window S a b).
Qed.

(** The next generation reaches one cell beyond the square of the set. *)
Lemma rule_within a b w S S' :
  within a b w S → (∀ c, c ∈ S' ↔ rule (live_neighbors S c) (c ∈ S)) →
  within (a - 1) (b - 1) (w + 2) S'.
Proof.
rewrite !within_spec. unfold in_box. intros HS HS' c Hc.
apply HS' in Hc. destruct (live_neighbors_pos S c) as (s & Hs & _ & Hadj).
{ destruct Hc as [->|[-> _]]; lia. }
apply adjacent_spec in Hadj. specialize (HS s Hs). lia.
Qed.

Lemma engines_agree_n n : ∀ S x0 y0 w,
  window_origin (x0 - Z.of_nat n) → window_origin (y0 - Z.of_nat n) →
  w + 2 * Z.of_nat n <= 2 ^ 29 → within x0 y0 w S →
  ∃ S', advance_n Hashtable n S = Done S' ∧ advance_n Sorted n S = Done S' ∧
        advance_n Hashlife n S = Done S'.
Proof.
induction n as [|n IH]; intros S x0 y0 w Hx Hy Hw HS.
- by exists S.
- assert (in_window (x0 - Z.of_nat (Datatypes.S n)) (y0 - Z.of_nat (Datatypes.S n)) S) as HW.
  { apply (within_in_window x0 y0 w); (done || lia). }
  destruct (engines_agree_once Hashtable S _ _ Hx Hy HW) as (S1 & H1 & R1).
  destruct (engines_agree_once Sorted S _ _ Hx Hy HW) as (S2 & H2 & R2).
  destruct (engines_agree_once Hashlife S _ _ Hx Hy HW) as (S3 & H3 & R3).
  assert (S2 = S1) as -> by (apply set_eq; intros c; by rewrite R1, R2).
  assert (S3 = S1) as -> by (apply set_eq; intros c; by rewrite R1, R3).
  cbn [advance_n]. rewrite H1, H2, H3. cbn [mbind outcome_bind].
  apply (IH S1 (x0 - 1) (y0 - 1) (w + 2)).
  + by replace (x0 - 1 - Z.of_nat n) with (x0 - Z.of_nat (Datatypes.S n)) by lia.
  + by replace (y0 - 1 - Z.of_nat n) with (y0 - Z.of_nat (Datatypes.S n)) by lia.
  + lia.
  + by apply (rule_within x0 y0 w S).
Qed.

End Agreement.

(** ** Pool operations, once more *)

Section PoolOpsMore.
Import HashLife Quad Region UnionFind.

Lemma bind_inv {A B} (m : M A) (f : A → M B) P b P' :
  (m ≫= f) P = Done (b, P') →
  ∃ a P1, m P = Done (a, P1) ∧ f a P1 = Done (b, P').
Proof.
unfold mbind, M_bind. destruct (m P) as [[a P1]|]; [|done]. eauto.
Qed.

(** After [empty_node] has returned for a level above 0, the cache holds
    the node it returned. *)
Lemma empty_node_cache l P p P' :
  empty_node (S l) P = Done (p, P') → empty_cache_ P' !! S l = Some (Some p).
Proof.
cbn [empty_node]. unfold get_pool at 1. unfold mbind at 1, M_bind at 1.
assert (∀ Q,
  ((if (length (empty_cache_ P) <=? S l)%nat
    then put_pool Q else mret tt) ≫= λ _,
   sub ← empty_node l; node ← make sub sub sub sub;
   set_cache (S l) node ≫= λ _, mret node) P = Done (p, P') →
  empty_cache_ P' !! S l = Some (Some p)) as Hmiss.
{ intros Q H.
  apply bind_inv in H as (_ & P1 & _ & H).
  apply bind_inv in H as (sub & P2 & _ & H).
  apply bind_inv in H as (node & P3 & _ & H).
  apply bind_inv in H as ([] & P4 & Hset & H).
  injection H as <- <-. unfold set_cache in Hset.
  destruct (Nat.ltb_spec (S l) (length (empty_cache_ P3))) as [Hlt|]; [|done].
  injection Hset as <-. cbn [empty_cache_]. by apply list_lookup_insert_eq. }
destruct (empty_cache_ P !! S l) as [[node|]|] eqn:E.
- intros [= <- <-]. done.
- apply Hmiss.
- apply Hmiss.
Qed.

Lemma empty_node_twice l P p P' :
  empty_node l P = Done (p, P') → pool_ok P → empty_node l P' = Done (p, P').
Proof.
destruct l as [|l].
- cbn [empty_node]. unfold dead_cell. by intros [= <- <-].
- intros H _. pose proof (empty_node_cache l P p P' H) as Hc.
  cbn [empty_node]. unfold get_pool at 1. unfold mbind at 1, M_bind at 1.
  by rewrite Hc.
Qed.

(** The centre of the node that [expand] returns is the node that was
    expanded, found again in the table of canonical nodes. *)
Lemma center_expand P node t k r :
  pool_ok P → repr P node t → full (S k) t → repr P r (expand_t t) →
  center r P = Done (node, P).
Proof.
intros Hok Hr Ht Rr. destruct t as [|ta tb tc td]; [done|].
pose proof (full_expand_t k _ Ht) as Fe.
assert (2 <= depth (expand_t (QNode ta tb tc td)))%nat as Hd
  by (rewrite (full_depth _ _ Fe); lia).
destruct (child2_sel nw nw_t se se_t P r _ sel_nw sel_se Hok Rr Hd) as (a & Ca & Ra).
destruct (child2_sel ne ne_t sw sw_t P r _ sel_ne sel_sw Hok Rr Hd) as (b & Cb & Rb).
destruct (child2_sel sw sw_t ne ne_t P r _ sel_sw sel_ne Hok Rr Hd) as (c & Cc & Rc).
destruct (child2_sel se se_t nw nw_t P r _ sel_se sel_nw Hok Rr Hd) as (d & Cd & Rd).
cbn [expand_t nw_t ne_t sw_t se_t] in Ra, Rb, Rc, Rd.
unfold center.
rewrite (bind_Done _ _ _ _ _ Ca), (bind_Done _ _ _ _ _ Cb),
        (bind_Done _ _ _ _ _ Cc), (bind_Done _ _ _ _ _ Cd).
apply make_again; [done|].
destruct Hr as (Hp & n & a' & b' & c' & d' & Hn & Ha & Hb & Hc & Hd' & Ra' & Rb' & Rc' & Rd').
rewrite (repr_inj P a a' ta Hok Ra Ra'), (repr_inj P b b' tb Hok Rb Rb'),
        (repr_inj P c c' tc Hok Rc Rc'), (repr_inj P d d' td Hok Rd Rd').
destruct (ok_made _ Hok node n Hn Hp)
  as (a1 & b1 & c1 & d1 & _ & _ & _ & _ & ? & ? & ? & ? &
      _ & _ & _ & _ & _ & _ & _ & _ & _ & _ & _ & _ & _ & Hcanon).
congruence.
Qed.

Lemma two_buckets_forest : forest two_keys two_ranks two_buckets.
Proof.
assert (∀ k p, two_buckets !! k = Some p →
               p = ChunkKey.mk 1 0 ∧ (k = ChunkKey.mk 0 0 ∨ k = ChunkKey.mk 1 0)) as Hl.
{ intros k p. unfold two_buckets.
  destruct (decide (k = ChunkKey.mk 0 0)) as [->|H0].
  - rewrite lookup_insert_eq. intros [= <-]. split; [done|by left].
  - rewrite lookup_insert_ne by done.
    destruct (decide (k = ChunkKey.mk 1 0)) as [->|H1].
    + rewrite lookup_singleton_eq. intros [= <-]. split; [done|by right].
    + by rewrite lookup_singleton_ne. }
split.
- unfold two_buckets, two_keys. rewrite dom_insert_L, dom_singleton_L. done.
- intros k p Hp. apply Hl in Hp as [-> _]. unfold two_keys. set_solver.
- intros k p Hp Hne. apply Hl in Hp as [-> [->| ->]]; [|done].
  unfold two_ranks. simpl. lia.
Qed.

End PoolOpsMore.

(** ** Strings *)

Section StringFacts.
Import LifeText.

Lemma append_assoc (a b c : string) : (a +:+ b) +:+ c = a +:+ (b +:+ c).
Proof.
induction a as [|x a IH]; [done|]. rewrite !append_cons. by f_equal.
Qed.

Lemma append_nil_r (a : string) : a +:+ EmptyString = a.
Proof.
induction a as [|x a IH]; [done|]. rewrite append_cons. by f_equal.
Qed.

Lemma length_append (a b : string) :
  String.length (a +:+ b) = (String.length a + String.length b)%nat.
Proof.
induction a as [|x a IH]; [done|]. rewrite append_cons. simpl. by f_equal.
Qed.

Lemma all_chars_app p (a b : string) :
  all_chars p (a +:+ b) = all_chars p a && all_chars p b.
Proof.
induction a as [|x a IH]; [done|]. rewrite append_cons. simpl.
by rewrite IH, andb_assoc.
Qed.

Lemma all_chars_impl (p q : ascii → bool) s :
  (∀ c, p c = true → q c = true) → all_chars p s = true → all_chars q s = true.
Proof.
intros Hpq. induction s as [|x s IH]; [done|]. simpl.
rewrite !andb_true_iff. intros [? ?]. split; [by apply Hpq|by apply IH].
Qed.

Lemma append_inj_nil (a b : string) : a +:+ b = EmptyString → a = EmptyString.
Proof. destruct a; [done|]. by rewrite append_cons. Qed.

End StringFacts.

(** ** Decimal numbers *)

Section Decimal.
Import LifeText.

Lemma is_digit_range c :
  is_digit c = true ↔ (48 <= nat_of_ascii c <= 57)%nat.
Proof.
unfold is_digit. cbv zeta. rewrite andb_true_iff, !Nat.leb_le. tauto.
Qed.

Lemma digit_char_spec d :
  0 <= d < 10 → is_digit (digit_char d) = true ∧ digit_val (digit_char d) = d.
Proof.
intros H.
assert (d = 0 ∨ d = 1 ∨ d = 2 ∨ d = 3 ∨ d = 4 ∨ d = 5 ∨ d = 6 ∨ d = 7 ∨ d = 8 ∨ d = 9)
  as Hd by lia.
repeat (destruct Hd as [->|Hd]; [by vm_compute|]). subst d. by vm_compute.
Qed.

Lemma digit_not_minus c : is_digit c = true → Ascii.eqb c "-" = false.
Proof.
intros H. destruct (Ascii.eqb_spec c "-") as [->|]; [|done]. by vm_compute in H.
Qed.

Lemma digit_not_plus c : is_digit c = true → Ascii.eqb c "+" = false.
Proof.
intros H. destruct (Ascii.eqb_spec c "+") as [->|]; [|done]. by vm_compute in H.
Qed.

Lemma digit_not_space c : is_digit c = true → is_space c = false.
Proof.
intros H. unfold is_space, is_blank.
destruct (Ascii.eqb_spec c " ") as [->|]; [by vm_compute in H|].
destruct (Ascii.eqb_spec c tab) as [->|]; [by vm_compute in H|].
destruct (Ascii.eqb_spec c cr) as [->|]; [by vm_compute in H|].
destruct (Ascii.eqb_spec c nl) as [->|]; [by vm_compute in H|]. done.
Qed.

Lemma digit_not_isspace c : is_digit c = true → isspace c = false.
Proof.
rewrite is_digit_range. intros H. unfold isspace. cbv zeta.
rewrite orb_false_iff, andb_false_iff, Nat.eqb_neq, !Nat.leb_gt. lia.
Qed.

(** The digits [digits] puts in front of [acc] are read back by
    [scan_digits] as [n]. *)
Lemma digits_shape fuel : ∀ n acc,
  (1 <= fuel)%nat → 0 <= n < 10 ^ Z.of_nat fuel →
  ∃ pre, digits fuel n acc = pre +:+ acc ∧
         all_chars is_digit pre = true ∧
         (1 <= String.length pre <= fuel)%nat ∧
         ∀ rest a cnt,
           scan_digits (pre +:+ rest) a cnt =
           scan_digits rest (a * 10 ^ Z.of_nat (String.length pre) + n)
                       (cnt + String.length pre).
Proof.
induction fuel as [|fuel IH]; intros n acc Hf Hn; [lia|].
assert (0 <= n `mod` 10 < 10) as Hd by (apply Z.mod_pos_bound; lia).
destruct (digit_char_spec _ Hd) as [Hdig Hval].
cbn [digits]. cbv zeta. destruct (Z.ltb_spec n 10) as [Hlt|Hge].
- exists (String (digit_char (n `mod` 10)) EmptyString).
  split; [done|]. split; [by simpl; rewrite Hdig|]. split; [simpl; lia|].
  intros rest a cnt. rewrite append_cons, append_nil_l. cbn [scan_digits].
  rewrite Hdig, Hval. rewrite Z.mod_small by lia. simpl String.length.
  change (Z.of_nat 1) with 1. rewrite Z.pow_1_r. f_equal; lia.
- assert (1 <= fuel)%nat as Hf'.
  { destruct fuel; [|lia]. simpl in Hn. lia. }
  destruct (IH (n `div` 10) (String (digit_char (n `mod` 10)) acc) Hf')
    as (pre & Hpre & Hall & Hlen & Hscan).
  { rewrite Nat2Z.inj_succ, Z.pow_succ_r in Hn by lia.
    split; [apply Z.div_pos; lia|]. apply Z.div_lt_upper_bound; lia. }
  exists (pre +:+ String (digit_char (n `mod` 10)) EmptyString).
  split; [by rewrite Hpre, append_assoc|].
  split; [rewrite all_chars_app, Hall; simpl; by rewrite Hdig|].
  split; [rewrite length_append; simpl; lia|].
  intros rest a cnt. rewrite append_assoc, Hscan, append_cons, append_nil_l.
  cbn [scan_digits]. rewrite Hdig, Hval, length_append. simpl String.length.
  rewrite Nat2Z.inj_add, Z.pow_add_r by lia. change (Z.of_nat 1) with 1.
  rewrite Z.pow_1_r. pose proof (Z.div_mod n 10).
  f_equal; lia.
Qed.

Lemma int64_19_digits v :
  in_int64 v = true → 0 <= Z.abs v < 10 ^ Z.of_nat 19.
Proof.
rewrite in_int64_spec. unfold INT64_MIN, INT64_MAX.
change (10 ^ Z.of_nat 19) with 10000000000000000000. lia.
Qed.

(** [decimal v] is an optional minus sign and between 1 and 19 digits. *)
Lemma decimal_shape v :
  in_int64 v = true →
  ∃ pre, decimal v = (if v <? 0 then String "-" pre else pre) ∧
         all_chars is_digit pre = true ∧
         (1 <= String.length pre <= 19)%nat ∧
         ∀ rest a cnt,
           scan_digits (pre +:+ rest) a cnt =
           scan_digits rest (a * 10 ^ Z.of_nat (String.length pre) + Z.abs v)
                       (cnt + String.length pre).
Proof.
intros Hv. pose proof (int64_19_digits v Hv) as Habs.
unfold decimal. destruct (Z.ltb_spec v 0) as [Hneg|Hpos].
- destruct (digits_shape 19 (- v) EmptyString) as (pre & Hpre & Hall & Hlen & Hscan);
    [lia|lia|].
  exists pre. rewrite Hpre, append_nil_r. split; [done|]. split; [done|].
  split; [done|]. intros rest a cnt. rewrite Hscan. f_equal; lia.
- destruct (digits_shape 19 v EmptyString) as (pre & Hpre & Hall & Hlen & Hscan);
    [lia|lia|].
  exists pre. rewrite Hpre, append_nil_r. split; [done|]. split; [done|].
  split; [done|]. intros rest a cnt. rewrite Hscan. f_equal; lia.
Qed.

Lemma scan_digits_end rest a cnt :
  digits_end rest → scan_digits rest a cnt = (a, cnt, rest).
Proof. destruct rest as [|c rest]; [done|]. simpl. by intros ->. Qed.

Lemma from_chars_decimal v rest :
  in_int64 v = true → digits_end rest →
  from_chars (decimal v +:+ rest) = (rest, errc_ok, v).
Proof.
intros Hv Hrest. destruct (decimal_shape v Hv) as (pre & -> & Hall & Hlen & Hscan).
unfold from_chars. destruct (Z.ltb_spec v 0) as [Hneg|Hpos].
- rewrite append_cons. change (Ascii.eqb "-" "-") with true. cbv iota.
  rewrite Hscan, (scan_digits_end _ _ _ Hrest).
  destruct (Nat.eqb_spec (0 + String.length pre) 0) as [|_]; [lia|].
  replace (- (0 * 10 ^ Z.of_nat (String.length pre) + Z.abs v)) with v by lia.
  by rewrite Hv.
- destruct pre as [|c pre]; [simpl in Hlen; lia|].
  rewrite append_cons. simpl in Hall. apply andb_true_iff in Hall as [Hc Hall].
  rewrite (digit_not_minus c Hc). rewrite <- append_cons.
  rewrite Hscan, (scan_digits_end _ _ _ Hrest).
  destruct (Nat.eqb_spec (0 + String.length (String c pre)) 0) as [E|_];
    [simpl in E; lia|].
  replace (0 * 10 ^ Z.of_nat (String.length (String c pre)) + Z.abs v) with v by lia.
  by rewrite Hv.
Qed.

Lemma length_decimal v :
  in_int64 v = true → (1 <= String.length (decimal v) <= 20)%nat.
Proof.
intros Hv. destruct (decimal_shape v Hv) as (pre & -> & _ & Hlen & _).
destruct (v <? 0); simpl; lia.
Qed.

(** No byte of [decimal v] is a blank, a carriage return or a newline. *)
Lemma decimal_solid v :
  in_int64 v = true → all_chars (λ c, negb (is_space c)) (decimal v) = true.
Proof.
intros Hv. destruct (decimal_shape v Hv) as (pre & -> & Hall & _ & _).
assert (all_chars (λ c, negb (is_space c)) pre = true) as H.
{ revert Hall. apply all_chars_impl. intros c Hc. by rewrite (digit_not_space c Hc). }
destruct (v <? 0); [|done]. simpl. by rewrite H.
Qed.

End Decimal.

(** ** Lines *)

Section Lines.
Import LifeText.

Lemma getline_chars_line line rest :
  all_chars (λ c, negb (Ascii.eqb c nl)) line = true →
  getline_chars (line +:+ String nl rest) = (line, rest).
Proof.
induction line as [|x line IH]; intros Hall.
- rewrite append_nil_l. cbn [getline_chars]. by rewrite Ascii.eqb_refl.
- simpl in Hall. apply andb_true_iff in Hall as [Hx Hall].
  apply negb_true_iff in Hx.
  rewrite append_cons. cbn [getline_chars]. by rewrite Hx, (IH Hall).
Qed.

Lemma getline_line line rest :
  all_chars (λ c, negb (Ascii.eqb c nl)) line = true →
  getline (line +:+ String nl rest) = Some (line, rest).
Proof.
intros Hall. unfold getline.
destruct (line +:+ String nl rest) eqn:E.
- destruct line; [by rewrite append_nil_l in E|by rewrite append_cons in E].
- rewrite <- E. f_equal. by apply getline_chars_line.
Qed.

Lemma getline_chars_shorter input :
  (String.length (getline_chars input).2 <= pred (String.length input))%nat.
Proof.
induction input as [|c input IH]; [done|]. cbn [getline_chars].
destruct (Ascii.eqb c nl); [done|].
destruct (getline_chars input) as [line rest]. simpl in *. lia.
Qed.

Lemma getline_shorter input line rest :
  getline input = Some (line, rest) →
  (String.length rest < String.length input)%nat.
Proof.
destruct input as [|c input]; [done|]. unfold getline. intros H.
assert (getline_chars (String c input) = (line, rest)) as H' by congruence.
pose proof (getline_chars_shorter (String c input)) as Hs.
rewrite H' in Hs. simpl in Hs. simpl. lia.
Qed.

Lemma getline_chars_all p input :
  all_chars p input = true →
  all_chars p (getline_chars input).1 = true ∧
  all_chars p (getline_chars input).2 = true.
Proof.
induction input as [|c input IH]; [done|]. simpl.
rewrite andb_true_iff. intros [Hc Hall].
destruct (Ascii.eqb c nl); [done|].
destruct (getline_chars input) as [line rest]. simpl in *.
destruct (IH Hall) as [H1 H2]. by rewrite Hc, H1, H2.
Qed.

Lemma find_last_not_of_app s t :
  find_last_not_of (s +:+ t) =
  match find_last_not_of t with
  | Some i => Some (String.length s + i)%nat
  | None => find_last_not_of s
  end.
Proof.
induction s as [|x s IH].
- rewrite append_nil_l. by destruct (find_last_not_of t).
- rewrite append_cons. cbn [find_last_not_of]. rewrite IH.
  by destruct (find_last_not_of t).
Qed.

Lemma find_last_not_of_space t :
  all_chars is_space t = true → find_last_not_of t = None.
Proof.
induction t as [|x t IH]; [done|]. simpl. rewrite andb_true_iff.
intros [Hx Ht]. by rewrite (IH Ht), Hx.
Qed.

Lemma find_last_not_of_solid s :
  all_chars (λ c, negb (is_space c)) s = true → s ≠ EmptyString →
  find_last_not_of s = Some (String.length s - 1)%nat.
Proof.
induction s as [|x s IH]; [done|]. simpl. rewrite andb_true_iff, negb_true_iff.
intros [Hx Hs] _. destruct s as [|y s].
- simpl. by rewrite Hx.
- rewrite (IH Hs) by done. simpl. f_equal. lia.
Qed.

Lemma resize_app s t : resize (String.length s) (s +:+ t) = s.
Proof.
induction s as [|x s IH]; [done|]. rewrite append_cons. simpl. by f_equal.
Qed.

(** Trimming gives back a line that ends in a byte that is no space,
    whatever spaces follow it. *)
Lemma trim_line core pad :
  all_chars is_space pad = true →
  find_last_not_of core = Some (String.length core - 1)%nat →
  ∃ e, find_last_not_of (core +:+ pad) = Some e ∧
       resize (e + 1) (core +:+ pad) = core.
Proof.
intros Hpad Hcore. exists (String.length core - 1)%nat.
rewrite find_last_not_of_app, (find_last_not_of_space _ Hpad). split; [done|].
destruct core as [|c core]; [done|].
replace (String.length (String c core) - 1 + 1)%nat
  with (String.length (String c core)) by (simpl; lia).
apply resize_app.
Qed.

Lemma inline_space_is_space c : inline_space c = true → is_space c = true.
Proof. unfold inline_space, is_space. intros ->. done. Qed.

Lemma inline_space_not_nl c :
  inline_space c = true → negb (Ascii.eqb c nl) = true.
Proof.
intros H. destruct (Ascii.eqb_spec c nl) as [->|]; [|done]. by vm_compute in H.
Qed.

Lemma is_blank_inline c : is_blank c = true → inline_space c = true.
Proof. unfold inline_space. by intros ->. Qed.

Lemma solid_not_nl c :
  negb (is_space c) = true → negb (Ascii.eqb c nl) = true.
Proof.
unfold is_space. rewrite !negb_true_iff, !orb_false_iff. tauto.
Qed.

Lemma blank_not_digit c : is_blank c = true → is_digit c = false.
Proof.
intros H. destruct (is_digit c) eqn:E; [|done].
apply digit_not_space in E. unfold is_space in E. by rewrite H in E.
Qed.

Lemma skip_blanks_app ws rest :
  all_chars is_blank ws = true → skip_blanks (ws +:+ rest) = skip_blanks rest.
Proof.
induction ws as [|x ws IH]; [done|]. simpl. rewrite andb_true_iff.
intros [Hx Hws]. by rewrite Hx, IH.
Qed.

Lemma skip_blanks_decimal v rest :
  in_int64 v = true → skip_blanks (decimal v +:+ rest) = decimal v +:+ rest.
Proof.
intros Hv. pose proof (decimal_solid v Hv) as Hs.
pose proof (length_decimal v Hv) as Hl.
destruct (decimal v) as [|c s]; [simpl in Hl; lia|].
simpl in Hs. apply andb_true_iff in Hs as [Hc _]. apply negb_true_iff in Hc.
unfold is_space in Hc. rewrite !orb_false_iff in Hc. destruct Hc as [[Hc _] _].
rewrite append_cons. cbn [skip_blanks]. by rewrite Hc.
Qed.

Lemma digits_end_blank sep rest :
  all_chars is_blank sep = true → sep ≠ EmptyString → digits_end (sep +:+ rest).
Proof.
destruct sep as [|c sep]; [done|]. simpl. rewrite andb_true_iff.
intros [Hc _] _. rewrite ?append_cons. simpl. by apply blank_not_digit.
Qed.

Lemma parse_line_entry lead x y sep :
  all_chars is_blank lead = true → all_chars is_blank sep = true →
  sep ≠ EmptyString → in_int64 x = true → in_int64 y = true →
  parse_line (lead +:+ decimal x +:+ sep +:+ decimal y) = Returned (Cell.mk x y).
Proof.
intros Hlead Hsep Hne Hx Hy. unfold parse_line. cbv zeta.
rewrite (skip_blanks_app _ _ Hlead), (skip_blanks_decimal _ _ Hx).
rewrite (from_chars_decimal x _ Hx (digits_end_blank sep _ Hsep Hne)).
cbv beta iota.
rewrite (skip_blanks_app _ _ Hsep).
assert (skip_blanks (decimal y) = decimal y) as ->.
{ pose proof (skip_blanks_decimal y EmptyString Hy) as H.
  by rewrite append_nil_r in H. }
assert (from_chars (decimal y) = (EmptyString, errc_ok, y)) as ->.
{ pose proof (from_chars_decimal y EmptyString Hy I) as H.
  by rewrite append_nil_r in H. }
assert (same_pos (decimal y) (sep +:+ decimal y) = false) as ->.
{ unfold same_pos. rewrite !length_append. apply Nat.eqb_neq.
  destruct sep; [done|]. simpl. lia. }
done.
Qed.

(** One pass of the loop over a blank line. *)
Lemma parse_loop_blank fuel ws rest h cells :
  all_chars inline_space ws = true →
  parse_loop (S fuel) (item_text (Blank ws) +:+ rest) h cells =
  parse_loop fuel rest h cells.
Proof.
intros Hws. cbn [parse_loop item_text]. rewrite append_assoc, append_cons, append_nil_l.
rewrite getline_line
  by (revert Hws; apply all_chars_impl; exact inline_space_not_nl).
rewrite find_last_not_of_space
  by (revert Hws; apply all_chars_impl; exact inline_space_is_space).
done.
Qed.

(** One pass of the loop over the header line. *)
Lemma parse_loop_header fuel pad rest cells :
  all_chars inline_space pad = true →
  parse_loop (S fuel) ("#Life 1.06" +:+ pad +:+ String nl rest) false cells =
  parse_loop fuel rest true cells.
Proof.
intros Hpad. cbn [parse_loop]. rewrite <- append_assoc.
rewrite getline_line.
2:{ rewrite all_chars_app. apply andb_true_iff. split; [by vm_compute|].
    revert Hpad. apply all_chars_impl. exact inline_space_not_nl. }
destruct (trim_line "#Life 1.06" pad) as (e & -> & ->); [|done|].
{ revert Hpad. apply all_chars_impl. exact inline_space_is_space. }
done.
Qed.

(** One pass of the loop over a coordinate line. *)
Lemma parse_loop_entry fuel lead c sep pad rest cells :
  item_ok (Entry lead c sep pad) = true →
  parse_loop (S fuel) (item_text (Entry lead c sep pad) +:+ rest) true cells =
  parse_loop fuel rest true ({[ c ]} ∪ cells).
Proof.
unfold item_ok. rewrite !andb_true_iff, negb_true_iff.
intros [[[[[Hlead Hx] Hy] Hsep] Hne] Hpad]. apply String.eqb_neq in Hne.
cbn [parse_loop item_text].
set (core := lead +:+ decimal (Cell.x c) +:+ sep +:+ decimal (Cell.y c)).
assert ((lead +:+ decimal (Cell.x c) +:+ sep +:+ decimal (Cell.y c) +:+ pad
              +:+ String nl EmptyString) +:+ rest
        = (core +:+ pad) +:+ String nl rest) as ->.
{ unfold core. by rewrite !append_assoc, append_cons, append_nil_l. }
pose proof (decimal_solid _ Hx) as Sx. pose proof (decimal_solid _ Hy) as Sy.
pose proof (length_decimal _ Hy) as Ly.
rewrite getline_line.
2:{ unfold core. rewrite !all_chars_app, !andb_true_iff. repeat split.
    - revert Hlead. apply all_chars_impl. intros a Ha.
      by apply inline_space_not_nl, is_blank_inline.
    - revert Sx. apply all_chars_impl. exact solid_not_nl.
    - revert Hsep. apply all_chars_impl. intros a Ha.
      by apply inline_space_not_nl, is_blank_inline.
    - revert Sy. apply all_chars_impl. exact solid_not_nl.
    - revert Hpad. apply all_chars_impl. exact inline_space_not_nl. }
destruct (trim_line core pad) as (e & -> & ->).
{ revert Hpad. apply all_chars_impl. exact inline_space_is_space. }
{ unfold core. rewrite <- !append_assoc.
  rewrite find_last_not_of_app, (find_last_not_of_solid _ Sy).
  - rewrite !length_append. f_equal. lia.
  - intros E. rewrite E in Ly. simpl in Ly. lia. }
cbn [negb]. unfold core. rewrite (parse_line_entry lead _ _ sep) by done.
by destruct c.
Qed.

Lemma length_item_text i : (1 <= String.length (item_text i))%nat.
Proof. destruct i; simpl; rewrite !length_append; simpl; lia. Qed.

(** The loop over accepted lines, after the header. *)
Lemma parse_loop_items items : ∀ fuel rest cells,
  forallb item_ok items = true →
  (String.length (concat_lines (map item_text items) +:+ rest) < fuel)%nat →
  ∃ fuel', (String.length rest < fuel')%nat ∧
    parse_loop fuel (concat_lines (map item_text items) +:+ rest) true cells =
    parse_loop fuel' rest true (list_to_set (items ≫= item_cells) ∪ cells).
Proof.
induction items as [|i items IH]; intros fuel rest cells Hok Hfuel.
- exists fuel. split; [done|]. simpl. rewrite append_nil_l.
  by rewrite (left_id_L ∅ (∪)).
- simpl in Hok. apply andb_true_iff in Hok as [Hi Hok].
  cbn [map concat_lines] in *. rewrite append_assoc in *.
  pose proof (length_item_text i) as Li.
  rewrite length_append in Hfuel.
  destruct fuel as [|fuel]; [lia|].
  destruct i as [ws|lead c sep pad].
  + rewrite (parse_loop_blank _ _ _ _ _ Hi).
    destruct (IH fuel rest cells Hok) as (fuel' & Hf' & ->); [lia|].
    by exists fuel'.
  + rewrite (parse_loop_entry _ _ _ _ _ _ _ Hi).
    destruct (IH fuel rest ({[ c ]} ∪ cells) Hok) as (fuel' & Hf' & ->); [lia|].
    exists fuel'. split; [done|]. f_equal. cbn. set_solver.
Qed.

Lemma parse_loop_blanks blanks : ∀ fuel rest h cells,
  forallb (all_chars inline_space) blanks = true →
  (String.length (concat_lines (map (λ ws, item_text (Blank ws)) blanks) +:+ rest)
     < fuel)%nat →
  ∃ fuel', (String.length rest < fuel')%nat ∧
    parse_loop fuel (concat_lines (map (λ ws, item_text (Blank ws)) blanks) +:+ rest)
               h cells =
    parse_loop fuel' rest h cells.
Proof.
induction blanks as [|ws blanks IH]; intros fuel rest h cells Hok Hfuel.
- exists fuel. split; [done|]. simpl. by rewrite append_nil_l.
- simpl in Hok. apply andb_true_iff in Hok as [Hi Hok].
  cbn [map concat_lines] in *. rewrite append_assoc in *.
  pose proof (length_item_text (Blank ws)) as Li.
  rewrite length_append in Hfuel.
  destruct fuel as [|fuel]; [lia|].
  rewrite (parse_loop_blank _ _ _ _ _ Hi).
  destruct (IH fuel rest h cells Hok) as (fuel' & Hf' & ->); [lia|].
  by exists fuel'.
Qed.

(** Blank lines, the header, and accepted lines: the cells of the
    lines. *)
Lemma parse_cells_text blanks pad items :
  forallb (all_chars inline_space) blanks = true →
  all_chars inline_space pad = true →
  forallb item_ok items = true →
  parse_cells (concat_lines (map (λ ws, item_text (Blank ws)) blanks) +:+
               "#Life 1.06" +:+ pad +:+
               String nl (concat_lines (map item_text items))) =
  Returned (list_to_set (items ≫= item_cells)).
Proof.
intros Hb Hpad Hitems. unfold parse_cells.
destruct (parse_loop_blanks blanks
            (S (String.length
                  (concat_lines (map (λ ws, item_text (Blank ws)) blanks) +:+
                   "#Life 1.06" +:+ pad +:+
                   String nl (concat_lines (map item_text items)))))
            ("#Life 1.06" +:+ pad +:+ String nl (concat_lines (map item_text items)))
            false ∅ Hb) as (f1 & Hf1 & ->); [lia|].
destruct f1 as [|f1]; [lia|].
rewrite (parse_loop_header _ _ _ _ Hpad).
rewrite !length_append in Hf1. simpl in Hf1.
rewrite <- (append_nil_r (concat_lines (map item_text items))).
destruct (parse_loop_items items f1 EmptyString ∅ Hitems) as (f2 & Hf2 & ->).
{ rewrite append_nil_r. lia. }
destruct f2 as [|f2]; [simpl in Hf2; lia|].
cbn [parse_loop getline]. by rewrite (right_id_L ∅ (∪)).
Qed.

End Lines.

(** ** Writing through the buffer *)

Section Writing.
Import LifeText.

Lemma cells_int64_spec l :
  cells_int64 l ↔
  ∀ c, c ∈ l → in_int64 (Cell.x c) = true ∧ in_int64 (Cell.y c) = true.
Proof.
unfold cells_int64. rewrite forallb_forall. split.
- intros H c Hc. apply andb_true_iff, H. by apply list_elem_of_In.
- intros H c Hc. apply andb_true_iff, H. by apply list_elem_of_In.
Qed.

Lemma cells_int64_sort l :
  cells_int64 l → cells_int64 (SortedVectorEngine.sort_cells l).
Proof.
rewrite !cells_int64_spec. intros H c Hc. apply H.
by rewrite <- (sort_cells_Permutation l).
Qed.

Lemma store_room c w :
  0 < room w →
  store c w = Done (mkWriter (out w) (buf w +:+ String c EmptyString)).
Proof. intros H. unfold store. by destruct (Z.ltb_spec 0 (room w)); [|lia]. Qed.

Lemma put_number_room v w :
  in_int64 v = true → 20 <= room w →
  put_number v w = Done (mkWriter (out w) (buf w +:+ decimal v)).
Proof.
intros Hv H. pose proof (length_decimal v Hv) as Hl.
unfold put_number, to_chars. cbv zeta.
by destruct (Z.leb_spec (Z.of_nat (String.length (decimal v))) (room w)); [|lia].
Qed.

(** A line is stored whole, after a flush if fewer than 44 bytes are
    free, and never past the end of the buffer. *)
Lemma write_cell_spec w c :
  0 <= room w → in_int64 (Cell.x c) = true → in_int64 (Cell.y c) = true →
  ∃ w', write_cell w c = Done w' ∧ 0 <= room w' ∧
        out w' +:+ buf w' = (out w +:+ buf w) +:+ cell_line c.
Proof.
intros Hroom Hx Hy. unfold write_cell. cbv zeta.
set (w0 := if room w <? kMaxLineLen then flush w else w).
assert (kMaxLineLen <= room w0 ∧ out w0 +:+ buf w0 = out w +:+ buf w) as [H0 E0].
{ unfold w0. destruct (Z.ltb_spec (room w) kMaxLineLen) as [Hlt|Hge]; [|done].
  unfold flush, room, kBufSize, kMaxLineLen. simpl. by rewrite append_nil_r. }
unfold kMaxLineLen in H0.
pose proof (length_decimal _ Hx) as Lx. pose proof (length_decimal _ Hy) as Ly.
rewrite (put_number_room _ _ Hx) by lia. cbn [mbind outcome_bind].
rewrite store_room by (unfold room in *; cbn [buf]; rewrite length_append; lia).
cbn [mbind outcome_bind out buf].
rewrite put_number_room;
  [|done|unfold room in *; cbn [buf]; rewrite !length_append; simpl; lia].
cbn [mbind outcome_bind out buf].
rewrite store_room
  by (unfold room in *; cbn [buf]; rewrite !length_append; simpl; lia).
eexists. split; [done|]. cbn [out buf]. split.
- unfold room in *. cbn [buf]. rewrite !length_append. simpl. lia.
- rewrite <- E0. unfold cell_line.
  by rewrite !append_assoc, !append_cons, !append_nil_l.
Qed.

Lemma foldM_write_cell l : ∀ w,
  0 <= room w → cells_int64 l →
  ∃ w', foldM write_cell w l = Done w' ∧ 0 <= room w' ∧
        out w' +:+ buf w' = (out w +:+ buf w) +:+ concat_lines (map cell_line l).
Proof.
induction l as [|c l IH]; intros w Hroom Hl.
- exists w. split; [done|]. split; [done|]. simpl. by rewrite append_nil_r.
- unfold cells_int64 in Hl. simpl in Hl.
  apply andb_true_iff in Hl as [Hc Hl]. apply andb_true_iff in Hc as [Hx Hy].
  destruct (write_cell_spec w c Hroom Hx Hy) as (w1 & Hw1 & Hroom1 & E1).
  destruct (IH w1 Hroom1 Hl) as (w2 & Hw2 & Hroom2 & E2).
  exists w2. cbn [foldM]. rewrite Hw1. cbn [mbind outcome_bind].
  split; [done|]. split; [done|].
  rewrite E2, E1. cbn [map concat_lines]. by rewrite !append_assoc.
Qed.

Lemma write_text cells sorted :
  cells_int64 (elements cells) →
  write cells sorted =
  Done (kHeader +:+
        concat_lines (map cell_line
          (if sorted then SortedVectorEngine.sort_cells (elements cells)
           else elements cells))).
Proof.
intros Hc. unfold write. cbv zeta.
destruct (foldM_write_cell
            (if sorted then SortedVectorEngine.sort_cells (elements cells)
             else elements cells) (mkWriter EmptyString kHeader))
  as (w & -> & _ & E).
{ by vm_compute. }
{ destruct sorted; [by apply cells_int64_sort|done]. }
cbn [mbind outcome_bind]. f_equal. cbn [out buf] in E.
rewrite append_nil_l in E. rewrite <- E.
destruct (Nat.ltb_spec 0 (String.length (buf w))) as [Hlt|Hge]; [done|].
destruct (buf w); [|simpl in Hge; lia]. by rewrite append_nil_r.
Qed.

(** What [write] emits is read back by [parse_cells]. *)
Lemma parse_cells_lines l :
  cells_int64 l →
  parse_cells (kHeader +:+ concat_lines (map cell_line l)) =
  Returned (list_to_set l).
Proof.
intros Hl.
pose proof (parse_cells_text [] EmptyString
              (map (λ c, Entry EmptyString c " " EmptyString) l)) as H.
assert (map item_text (map (λ c, Entry EmptyString c " " EmptyString) l)
        = map cell_line l) as E1.
{ rewrite map_map. apply map_ext. intros c. reflexivity. }
assert (map (λ c, Entry EmptyString c " " EmptyString) l ≫= item_cells = l) as E2.
{ clear. induction l as [|c l IH]; [done|]. cbn. by f_equal. }
rewrite E1, E2 in H. apply H; [done|done|].
clear H E1 E2. induction l as [|c l IH]; [done|].
unfold cells_int64 in Hl. simpl in Hl. apply andb_true_iff in Hl as [Hc Hl].
cbn [map forallb]. rewrite (IH Hl), andb_true_r.
apply andb_true_iff in Hc as [Hx Hy].
unfold item_ok. cbn [all_chars]. by rewrite Hx, Hy.
Qed.

End Writing.

(** ** What the parser returns and throws *)

Section ParserOutcomes.
Import LifeText.

Lemma from_chars_ok s p v :
  from_chars s = (p, errc_ok, v) → in_int64 v = true.
Proof.
unfold from_chars.
destruct (match s with
          | String c s' => if Ascii.eqb c "-" then (true, s') else (false, s)
          | EmptyString => (false, s)
          end) as [neg body].
destruct (scan_digits body 0 0) as [[v0 n] rest].
destruct (n =? 0)%nat; [done|]. cbv zeta.
destruct (in_int64 (if neg then - v0 else v0)) eqn:E; [|done].
by intros [= _ <-].
Qed.

Lemma parse_line_outcome line :
  match parse_line line with
  | Returned c => in_int64 (Cell.x c) = true ∧ in_int64 (Cell.y c) = true
  | Threw what _ => String.prefix "Invalid Life 1.06 file: " what = true
  | Faulted _ => False
  end.
Proof.
unfold parse_line. cbv zeta.
destruct (from_chars (skip_blanks line)) as [[p1 ec1] x] eqn:E1.
destruct ec1; [|reflexivity..].
destruct (same_pos (skip_blanks p1) p1); [reflexivity|].
destruct (from_chars (skip_blanks p1)) as [[p2 ec2] y] eqn:E2.
destruct ec2; [|reflexivity..].
destruct (negb (same_pos (skip_blanks p2) EmptyString)); [reflexivity|].
split; [exact (from_chars_ok _ _ _ E1)|exact (from_chars_ok _ _ _ E2)].
Qed.

Lemma parse_loop_outcome fuel : ∀ input h cells,
  (String.length input < fuel)%nat →
  (∀ c, c ∈ cells → in_int64 (Cell.x c) = true ∧ in_int64 (Cell.y c) = true) →
  match parse_loop fuel input h cells with
  | Returned cells' =>
      ∀ c, c ∈ cells' → in_int64 (Cell.x c) = true ∧ in_int64 (Cell.y c) = true
  | Threw what _ => String.prefix "Invalid Life 1.06 file: " what = true
  | Faulted _ => False
  end.
Proof.
induction fuel as [|fuel IH]; intros input h cells Hfuel Hcells; [lia|].
cbn [parse_loop]. destruct (getline input) as [[line rest]|] eqn:G.
- apply getline_shorter in G.
  destruct (find_last_not_of line) as [e|]; [|apply IH; [lia|done]].
  cbv zeta. destruct h; cbn [negb].
  + pose proof (parse_line_outcome (resize (e + 1) line)) as Hl.
    destruct (parse_line (resize (e + 1) line)) as [c|what st|f]; [|done|done].
    apply IH; [lia|]. intros c' [->%elem_of_singleton|Hc']%elem_of_union; [done|].
    by apply Hcells.
  + destruct (negb (String.eqb (resize (e + 1) line) "#Life 1.06"));
      [reflexivity|]. apply IH; [lia|done].
- destruct h; [done|reflexivity].
Qed.

(** A text of spaces only holds no header. *)
Lemma parse_loop_spaces fuel : ∀ input cells,
  all_chars is_space input = true →
  (String.length input < fuel)%nat →
  parse_loop fuel input false cells = Threw no_header tt.
Proof.
induction fuel as [|fuel IH]; intros input cells Hall Hfuel; [lia|].
cbn [parse_loop]. destruct (getline input) as [[line rest]|] eqn:G; [|done].
pose proof (getline_shorter _ _ _ G) as Hs.
destruct input as [|c input]; [done|]. unfold getline in G.
destruct (getline_chars_all is_space _ Hall) as [H1 H2].
assert (getline_chars (String c input) = (line, rest)) as G' by congruence.
rewrite G' in H1, H2. cbn [fst snd] in H1, H2.
rewrite (find_last_not_of_space _ H1). apply IH; [done|lia].
Qed.

End ParserOutcomes.

(** ** Numbers on the command line *)

Section CommandLine.
Import LifeText.

Lemma skip_spaces_split s :
  ∃ ws, s = ws +:+ skip_spaces s ∧ all_chars isspace ws = true.
Proof.
induction s as [|c s (ws & E & Hws)]; [by exists EmptyString|].
cbn [skip_spaces]. destruct (isspace c) eqn:Hc.
- exists (String c ws). rewrite append_cons, <- E. split; [done|].
  simpl. by rewrite Hc, Hws.
- by exists EmptyString.
Qed.

Lemma scan_digits_split s : ∀ a n v n' rest,
  scan_digits s a n = (v, n', rest) →
  ∃ ds, s = ds +:+ rest ∧ all_chars is_digit ds = true.
Proof.
induction s as [|c s IH]; intros a n v n' rest.
- simpl. intros [= _ _ <-]. by exists EmptyString.
- cbn [scan_digits]. destruct (is_digit c) eqn:Hc.
  + intros H. destruct (IH _ _ _ _ _ H) as (ds & -> & Hds).
    exists (String c ds). rewrite append_cons. split; [done|].
    simpl. by rewrite Hc, Hds.
  + intros [= _ _ <-]. by exists EmptyString.
Qed.

Lemma strtol_all s val erange :
  strtol s = (val, EmptyString, erange) → s ≠ EmptyString →
  all_chars number_char s = true.
Proof.
unfold strtol. cbv zeta. intros H Hs.
destruct (skip_spaces_split s) as (ws & E & Hws).
assert (all_chars number_char ws = true) as Hws'.
{ revert Hws. apply all_chars_impl. intros c Hc. unfold number_char. by rewrite Hc. }
assert (∀ body v n rest, scan_digits body 0 0 = (v, n, rest) →
          (if (n =? 0)%nat then s else rest) = EmptyString →
          all_chars number_char body = true) as Hbody.
{ intros body v n rest Hscan Hend.
  destruct (n =? 0)%nat; [done|]. subst rest.
  destruct (scan_digits_split _ _ _ _ _ _ Hscan) as (ds & -> & Hds).
  rewrite append_nil_r. revert Hds. apply all_chars_impl.
  intros c Hc. unfold number_char. by rewrite Hc, orb_true_r. }
rewrite E, all_chars_app, Hws'. cbn [andb].
destruct (skip_spaces s) as [|c s'] eqn:Es; [done|].
destruct (Ascii.eqb_spec c "-") as [->|Hm];
  [|destruct (Ascii.eqb_spec c "+") as [->|Hp]].
- destruct (scan_digits s' 0 0) as [[v n] rest] eqn:Hscan.
  cbn [all_chars]. rewrite (Hbody s' v n rest Hscan); [done|].
  destruct (n =? 0)%nat; [by injection H|].
  destruct (- v <? INT64_MIN); [by injection H|].
  destruct (INT64_MAX <? - v); by injection H.
- destruct (scan_digits s' 0 0) as [[v n] rest] eqn:Hscan.
  cbn [all_chars]. rewrite (Hbody s' v n rest Hscan); [done|].
  destruct (n =? 0)%nat; [by injection H|].
  destruct (v <? INT64_MIN); [by injection H|].
  destruct (INT64_MAX <? v); by injection H.
- destruct (scan_digits (String c s') 0 0) as [[v n] rest] eqn:Hscan.
  apply (Hbody (String c s') v n rest Hscan).
  destruct (n =? 0)%nat; [by injection H|].
  destruct (v <? INT64_MIN); [by injection H|].
  destruct (INT64_MAX <? v); by injection H.
Qed.

Lemma strtol_decimal v :
  in_int64 v = true → strtol (decimal v) = (v, EmptyString, false).
Proof.
intros Hv. destruct (decimal_shape v Hv) as (pre & E & Hall & Hlen & Hscan).
pose proof (Hscan EmptyString 0 0%nat) as Hs. rewrite append_nil_r in Hs.
cbn [scan_digits] in Hs.
apply in_int64_spec in Hv.
unfold strtol. cbv zeta. rewrite E. destruct (Z.ltb_spec v 0) as [Hneg|Hpos].
- cbn [skip_spaces]. change (isspace "-") with false. cbv iota.
  change (Ascii.eqb "-" "-") with true. cbv iota. rewrite Hs.
  destruct (Nat.eqb_spec (0 + String.length pre) 0) as [|_]; [lia|].
  replace (- (0 * 10 ^ Z.of_nat (String.length pre) + Z.abs v)) with v by lia.
  destruct (Z.ltb_spec v INT64_MIN); [lia|].
  by destruct (Z.ltb_spec INT64_MAX v); [lia|].
- destruct pre as [|c pre]; [simpl in Hlen; lia|].
  simpl in Hall. apply andb_true_iff in Hall as [Hc Hall].
  cbn [skip_spaces]. rewrite (digit_not_isspace c Hc).
  rewrite (digit_not_minus c Hc), (digit_not_plus c Hc), Hs.
  destruct (Nat.eqb_spec (0 + String.length (String c pre)) 0) as [E0|_];
    [simpl in E0; lia|].
  replace (0 * 10 ^ Z.of_nat (String.length (String c pre)) + Z.abs v) with v by lia.
  destruct (Z.ltb_spec v INT64_MIN); [lia|].
  by destruct (Z.ltb_spec INT64_MAX v); [lia|].
Qed.

End CommandLine.

(** ** Round trip *)

Section RoundTrip.
Import LifeText.

Lemma sorted_lookup {A} (R : relation A) (l : list A) : ∀ i j a b,
  StronglySorted R l → l !! i = Some a → l !! j = Some b → (i < j)%nat → R a b.
Proof.
induction l as [|x l IH]; intros i j a b Hs Hi Hj Hlt; [done|].
apply StronglySorted_inv in Hs as [Hs Hall].
destruct j as [|j]; [lia|]. destruct i as [|i].
- simpl in Hi, Hj. injection Hi as <-.
  rewrite Forall_forall in Hall. apply Hall. by eapply list_elem_of_lookup_2.
- simpl in Hi, Hj. apply (IH i j); (done || lia).
Qed.

Lemma parse_cells_round cells order :
  order ≡ₚ elements cells → cells_int64 (elements cells) →
  parse_cells (kHeader +:+ concat_lines (map cell_line order)) = Returned cells.
Proof.
intros Hp Hc. rewrite parse_cells_lines.
- f_equal. apply set_eq. intros c.
  by rewrite elem_of_list_to_set, Hp, elem_of_elements.
- apply cells_int64_spec. intros c Hin. rewrite Hp in Hin.
  by apply (proj1 (cells_int64_spec _) Hc).
Qed.

Lemma parse_loop_bad_header fuel line rest cells e :
  all_chars (λ c, negb (Ascii.eqb c nl)) line = true →
  find_last_not_of line = Some e →
  resize (e + 1) line ≠ "#Life 1.06" →
  parse_loop (S fuel) (line +:+ String nl rest) false cells = Threw bad_header tt.
Proof.
intros Hnl He Hne. cbn [parse_loop]. rewrite (getline_line _ _ Hnl), He.
cbv zeta. cbn [negb]. apply String.eqb_neq in Hne. by rewrite Hne.
Qed.

End RoundTrip.

(** ** Classes stay inside the groups *)

Section ClassesStayInside.
Import HashLife UnionFind.

Lemma root_of_dom D rank parent j r :
  forest D rank parent → root_of parent j r → j ∈ D.
Proof.
intros F H. rewrite <- (f_dom _ _ _ F). apply elem_of_dom.
inversion H; subst; eauto.
Qed.

(** Roots that a step keeps are the only roots afterwards. *)
Lemma roots_back D parent parent' :
  is_forest D parent → is_forest D parent' →
  (∀ j r, root_of parent j r → root_of parent' j r) →
  ∀ j r, root_of parent' j r → root_of parent j r.
Proof.
intros F [rank' F'] K j r Hr.
destruct (root_exists D parent j F) as [r0 Hr0]; [by eapply root_of_dom|].
by rewrite (root_of_fun _ _ _ _ Hr (K _ _ Hr0)).
Qed.

(** [unite] joins the classes of [a] and [b] and no others: a labelling
    that is constant on the classes and gives [a] and [b] one label is
    constant on the classes afterwards. *)
Lemma unite_respects {L} (lab : ChunkKey → L) D fuel parent a b parent' :
  is_forest D parent → a ∈ D → b ∈ D → (size D < fuel)%nat →
  lab a = lab b →
  (∀ j1 j2, same parent j1 j2 → lab j1 = lab j2) →
  unite fuel parent a b = Done parent' →
  ∀ j1 j2, same parent' j1 j2 → lab j1 = lab j2.
Proof.
intros [rank F] Ha Hb Hf Hab HI. unfold unite.
destruct (find_spec D rank fuel parent a F Ha) as (ra & parent1 & -> & Hra & F1 & K1).
{ pose proof (above_le D rank a). lia. }
cbn [mbind outcome_bind].
destruct (find_spec D rank fuel parent1 b F1 Hb) as (rb & parent2 & -> & Hrb & F2 & K2).
{ pose proof (above_le D rank b). lia. }
cbn [mbind outcome_bind].
assert (is_forest D parent) as IF by (by exists rank).
assert (is_forest D parent1) as IF1 by (by exists rank).
assert (is_forest D parent2) as IF2 by (by exists rank).
assert (∀ j r, root_of parent j r → root_of parent2 j r) as K by (intros; by apply K2, K1).
pose proof (roots_back D parent parent2 IF IF2 K) as Kb.
assert (root_of parent b rb) as Hrb0 by (by apply (roots_back D parent parent1 IF IF1 K1)).
case_bool_decide as Hne.
- intros [= <-] j1 j2 (r & H1 & H2). apply HI. exists r. split; by apply Kb.
- intros [= <-] j1 j2 (r & H1 & H2).
  pose proof (root_of_root _ _ _ (K _ _ Hra)) as Hpa.
  pose proof (root_of_root _ _ _ (K _ _ Hrb0)) as Hpb.
  pose proof (link_roots parent2 ra rb Hpa Hpb Hne) as Hlink.
  assert (∀ j, root_of (<[ra:=rb]> parent2) j r →
               ∃ r0, root_of parent j r0 ∧ r = if decide (r0 = ra) then rb else r0)
    as Hold.
  { intros j Hj.
    assert (j ∈ D) as HjD.
    { assert (j ∈ dom (<[ra:=rb]> parent2)) as Hd
        by (apply elem_of_dom; inversion Hj; subst; eauto).
      rewrite dom_insert_L, (f_dom _ _ _ F2) in Hd.
      assert (ra ∈ D) by (by apply (f_in _ _ _ F2 ra ra)). set_solver. }
    destruct (root_exists D parent j IF HjD) as [r0 Hr0]. exists r0. split; [done|].
    exact (root_of_fun _ _ _ _ Hj (Hlink _ _ (K _ _ Hr0))). }
  destruct (Hold j1 H1) as (r1 & R1 & E1). destruct (Hold j2 H2) as (r2 & R2 & E2).
  destruct (decide (r1 = ra)) as [->|N1], (decide (r2 = ra)) as [->|N2].
  + apply HI. by exists ra.
  + subst r. subst r2. transitivity (lab a); [apply HI; by exists ra|].
    rewrite Hab. apply HI. by exists rb.
  + subst r. subst r1. transitivity (lab b); [apply HI; by exists rb|].
    rewrite <- Hab. apply HI. by exists ra.
  + subst r. subst r2. apply HI. by exists r1.
Qed.

(** A loop of steps that keep the forest keeps what each step keeps. *)
Lemma foldM_keeps {B} D (f : Parent → B → outcome Parent) (I : Parent → Prop)
      (l : list B) :
  (∀ p b, b ∈ l → is_forest D p →
          ∃ p', f p b = Done p' ∧ is_forest D p' ∧ (I p → I p')) →
  ∀ p p', is_forest D p → I p → foldM f p l = Done p' → I p'.
Proof.
induction l as [|b l IH]; intros Hstep p p' F HIp.
- by intros [= <-].
- destruct (Hstep p b) as (p1 & Hf & F1 & HI1); [apply elem_of_cons; by left|done|].
  cbn [foldM]. rewrite Hf. cbn [mbind outcome_bind].
  apply IH; [|done|by apply HI1].
  intros p0 b0 Hb0. apply Hstep. apply elem_of_cons. by right.
Qed.

Lemma merge_around_respects {L} (lab : ChunkKey → L) chunks fuel parent key parent' :
  let D := dom chunks in
  is_forest D parent → key ∈ D → (size D < fuel)%nat →
  in_int64 (ChunkKey.cx key - 1) = true → in_int64 (ChunkKey.cx key + 1) = true →
  in_int64 (ChunkKey.cy key - 1) = true → in_int64 (ChunkKey.cy key + 1) = true →
  (∀ k2, k2 ∈ D → touching key k2 → lab key = lab k2) →
  (∀ j1 j2, same parent j1 j2 → lab j1 = lab j2) →
  merge_around chunks fuel parent key = Done parent' →
  ∀ j1 j2, same parent' j1 j2 → lab j1 = lab j2.
Proof.
intros D F Hkey Hf Hx0 Hx1 Hy0 Hy1 Hlab HI. unfold merge_around.
rewrite !in_int64_spec in Hx0, Hx1, Hy0, Hy1.
apply (foldM_keeps D
  (λ parent '(dx, dy),
     if (dx =? 0) && (dy =? 0) then Done parent else
     nx ← add64 (ChunkKey.cx key) dx;
     ny ← add64 (ChunkKey.cy key) dy;
     let neighbor := ChunkKey.mk nx ny in
     if bool_decide (is_Some (chunks !! neighbor))
     then unite fuel parent key neighbor
     else Done parent)
  (λ p, ∀ j1 j2, same p j1 j2 → lab j1 = lab j2) offsets); [|done|done].
intros p [dx dy] Hd Fp.
assert (-1 <= dx <= 1 ∧ -1 <= dy <= 1) as [Hdx Hdy].
{ unfold offsets in Hd. rewrite !elem_of_cons, elem_of_nil in Hd.
  destruct Hd as [[= -> ->]|[[= -> ->]|[[= -> ->]|[[= -> ->]|[[= -> ->]|
                  [[= -> ->]|[[= -> ->]|[[= -> ->]|[[= -> ->]|[]]]]]]]]]]; lia. }
destruct ((dx =? 0) && (dy =? 0)) eqn:E0.
- exists p. by repeat split.
- unfold add64. rewrite !chk64_in by lia. cbn [mbind outcome_bind]. cbv zeta.
  case_bool_decide as Hn.
  + apply elem_of_dom in Hn.
    destruct (unite_spec D fuel p key _ Fp Hkey Hn Hf) as (p' & Hu & F' & _ & _).
    exists p'. split; [done|]. split; [done|]. intros HIp.
    apply (unite_respects lab D fuel p key _ p' Fp Hkey Hn Hf); [|done|done].
    apply Hlab; [done|]. unfold touching. cbn [ChunkKey.cx ChunkKey.cy]. lia.
  + exists p. by repeat split.
Qed.

Lemma merge_all_respects {L} (lab : ChunkKey → L)
      (chunks : gmap ChunkKey (list Cell)) fuel parent parent' :
  let D := dom chunks in
  is_forest D parent → (size D < fuel)%nat →
  (∀ k, k ∈ D → in_int64 (ChunkKey.cx k - 1) = true ∧ in_int64 (ChunkKey.cx k + 1) = true ∧
                in_int64 (ChunkKey.cy k - 1) = true ∧ in_int64 (ChunkKey.cy k + 1) = true) →
  (∀ k1 k2, k1 ∈ D → k2 ∈ D → touching k1 k2 → lab k1 = lab k2) →
  (∀ j1 j2, same parent j1 j2 → lab j1 = lab j2) →
  foldM (λ parent '(key, _), merge_around chunks fuel parent key)
        parent (map_to_list chunks) = Done parent' →
  ∀ j1 j2, same parent' j1 j2 → lab j1 = lab j2.
Proof.
intros D F Hf Hr Hlab HI.
apply (foldM_keeps D
  (λ parent (e : ChunkKey * list Cell), let '(key, _) := e in
     merge_around chunks fuel parent key)
  (λ p, ∀ j1 j2, same p j1 j2 → lab j1 = lab j2) (map_to_list chunks)); [|done|done].
intros p [key cs] He Fp. apply elem_of_map_to_list in He.
assert (key ∈ D) as Hkey by (apply elem_of_dom; eauto).
destruct (Hr key Hkey) as (? & ? & ? & ?).
destruct (merge_around_spec chunks fuel p key Fp Hkey Hf) as (p' & Hm & F' & _ & _);
  [done..|].
exists p'. split; [done|]. split; [done|]. intros HIp.
apply (merge_around_respects lab chunks fuel p key p'); try done.
intros k2 Hk2. by apply Hlab.
Qed.

(** Before merging, every class is one bucket. *)
Lemma init_parent_same (chunks : gmap ChunkKey (list Cell)) j1 j2 :
  same (foldl (λ parent '(key, _), <[key := key]> parent) ∅ (map_to_list chunks))
       j1 j2 → j1 = j2.
Proof.
assert (∀ j r, root_of (foldl (λ parent '(key, _), <[key := key]> parent) (∅ : Parent)
                               (map_to_list chunks)) j r → r = j) as H.
{ intros j r Hr. inversion Hr as [? Hj|? p ? Hj Hne _]; subst; [done|].
  rewrite init_parent_lookup, lookup_empty in Hj.
  destruct (decide (j ∈ (map_to_list chunks).*1)); [|done]. congruence. }
intros (r & H1 & H2). apply H in H1, H2. congruence.
Qed.

End ClassesStayInside.

(** ** The whole tick on groups that lie far apart *)

Section FarApart.
Import HashLife Quad Region UnionFind.

Lemma inside_spec n w c :
  inside n w c = true ↔
  w.1 + n <= Cell.x c < w.1 + 2 ^ 29 - n ∧ w.2 + n <= Cell.y c < w.2 + 2 ^ 29 - n.
Proof.
unfold inside. rewrite !andb_true_iff, !Z.leb_le, !Z.ltb_lt. lia.
Qed.

Lemma well_inside_spec n ws C :
  well_inside n ws C ↔
  (∀ w, w ∈ ws → window_origin w.1 ∧ window_origin w.2) ∧
  (∀ w1 w2, w1 ∈ ws → w2 ∈ ws → w1 = w2 ∨ windows_apart w1 w2 = true) ∧
  (∀ c, c ∈ C → ∃ w, w ∈ ws ∧
                     w.1 + n <= Cell.x c < w.1 + 2 ^ 29 - n ∧
                     w.2 + n <= Cell.y c < w.2 + 2 ^ 29 - n).
Proof.
unfold well_inside. split.
- intros (H1 & H2 & H3). rewrite forallb_forall in H1, H2, H3. split; [|split].
  + intros w Hw. apply list_elem_of_In in Hw. specialize (H1 w Hw).
    unfold window_ok in H1. rewrite !andb_true_iff, !Z.leb_le in H1.
    unfold window_origin. lia.
  + intros w1 w2 Hw1 Hw2. apply list_elem_of_In in Hw1, Hw2.
    specialize (H2 w1 Hw1). rewrite forallb_forall in H2. specialize (H2 w2 Hw2).
    apply orb_true_iff in H2 as [H2|H2]; [left; by apply bool_decide_eq_true in H2|by right].
  + intros c Hc. apply elem_of_elements, list_elem_of_In in Hc. specialize (H3 c Hc).
    apply existsb_exists in H3 as (w & Hw & Hb). exists w.
    split; [by apply list_elem_of_In|by apply inside_spec].
- intros (H1 & H2 & H3). split; [|split]; apply forallb_forall.
  + intros w Hw. apply list_elem_of_In in Hw. destruct (H1 w Hw) as [Ho1 Ho2].
    unfold window_origin in Ho1, Ho2. unfold window_ok.
    rewrite !andb_true_iff, !Z.leb_le. lia.
  + intros w1 Hw1. apply forallb_forall. intros w2 Hw2.
    apply list_elem_of_In in Hw1, Hw2. apply orb_true_iff.
    destruct (H2 w1 w2 Hw1 Hw2) as [->|?]; [left; by apply bool_decide_eq_true|by right].
  + intros c Hc. apply list_elem_of_In, elem_of_elements in Hc.
    destruct (H3 c Hc) as (w & Hw & Hb). apply existsb_exists. exists w.
    split; [by apply list_elem_of_In|by apply inside_spec].
Qed.

Lemma in_windows_spec ws C :
  in_windows ws C ↔
  (∀ w, w ∈ ws → window_origin w.1 ∧ window_origin w.2) ∧
  (∀ w1 w2, w1 ∈ ws → w2 ∈ ws → w1 = w2 ∨ windows_apart w1 w2 = true) ∧
  (∀ c, c ∈ C → ∃ w, w ∈ ws ∧ in_box w.1 w.2 (2 ^ 29) c).
Proof.
unfold in_windows. rewrite well_inside_spec. unfold in_box.
split; intros (H1 & H2 & H3); (split; [done|split; [done|]]);
  intros c Hc; destruct (H3 c Hc) as (w & Hw & Hb); exists w; (split; [done|lia]).
Qed.

Lemma filter_iff_in {A} (P Q : A → Prop) `{!∀ x, Decision (P x), !∀ x, Decision (Q x)}
      (l : list A) :
  (∀ x, x ∈ l → P x ↔ Q x) → filter P l = filter Q l.
Proof.
induction l as [|x l IH]; intros Hiff; [done|].
assert (filter P l = filter Q l) as E.
{ apply IH. intros y Hy. apply Hiff. apply elem_of_cons. by right. }
assert (P x ↔ Q x) as Hx by (apply Hiff; apply elem_of_cons; by left).
destruct (decide (P x)) as [HP|HP].
- rewrite (filter_cons_True P) by done. rewrite (filter_cons_True Q) by tauto.
  by rewrite E.
- rewrite (filter_cons_False P) by done. rewrite (filter_cons_False Q) by tauto.
  done.
Qed.

Lemma windows_apart_spec w1 w2 :
  windows_apart w1 w2 = true ↔
  w1.1 + 2 ^ 29 + 128 <= w2.1 ∨ w2.1 + 2 ^ 29 + 128 <= w1.1 ∨
  w1.2 + 2 ^ 29 + 128 <= w2.2 ∨ w2.2 + 2 ^ 29 + 128 <= w1.2.
Proof.
unfold windows_apart. rewrite !orb_true_iff, !Z.leb_le. tauto.
Qed.

Lemma chunk_of_bounds c :
  64 * ChunkKey.cx (chunk_of c) <= Cell.x c < 64 * (ChunkKey.cx (chunk_of c) + 1) ∧
  64 * ChunkKey.cy (chunk_of c) <= Cell.y c < 64 * (ChunkKey.cy (chunk_of c) + 1).
Proof.
unfold chunk_of. cbn [ChunkKey.cx ChunkKey.cy].
split; Z.to_euclidean_division_equations; lia.
Qed.

(** The final loop, each cluster in a window of its own. *)
Lemma step_all_windows l : ∀ cells P,
  pool_ok P →
  (∀ e, e ∈ l → ∃ a b, window_origin a ∧ window_origin b ∧ in_window a b e.2) →
  returns (step_all l cells) P
    (λ cells' _, ∀ c, c ∈ cells' ↔
       c ∈ cells ∨ ∃ k C, (k, C) ∈ l ∧ rule (live_neighbors C c) (c ∈ C)).
Proof.
induction l as [|[key C] l IH]; intros cells P Hok Hw; cbn [step_all].
- apply returns_ret; [done|]. intros c. split; [tauto|].
  intros [?|(k & C & He & _)]; [done|]. by apply elem_of_nil in He.
- destruct (Hw (key, C)) as (a & b & Ha & Hb & HC); [apply elem_of_cons; by left|].
  eapply returns_bind.
  { apply (step_cluster_spec C P a b Hok Ha Hb HC). }
  intros C' P1 Hok1 _ HC'. cbv beta in HC'.
  eapply returns_weaken.
  { apply IH; [done|]. intros e He. apply Hw. apply elem_of_cons. by right. }
  intros cells' P2 _ _ Hcells. cbv beta in Hcells. intros c.
  rewrite Hcells, elem_of_union, HC'. split.
  + intros [[?|?]|(k & C0 & He & Hr)]; [right|by left|right].
    * exists key, C. split; [apply elem_of_cons; by left|done].
    * exists k, C0. split; [apply elem_of_cons; by right|done].
  + intros [?|(k & C0 & He & Hr)]; [left; by right|].
    apply elem_of_cons in He as [[= -> ->]|He]; [left; by left|right; eauto].
Qed.

(** [HashLifeEngine::tick] on groups of cells that lie far apart, each
    inside a window of side 2^29, returns the next generation. *)
Lemma tick_in_pool_windows S ws P :
  pool_ok P → in_windows ws S →
  returns (tick_in_pool S) P
          (λ S' _, ∀ c, c ∈ S' ↔ rule (live_neighbors S c) (c ∈ S)).
Proof.
intros Hok HS. unfold tick_in_pool.
case_bool_decide as Hne.
{ subst S. apply returns_ret; [done|]. intros c. split; [set_solver|].
  intros H. destruct (rule_far ∅ c); [set_solver|done]. }
apply in_windows_spec in HS as (Horig & Hapart & Hcover).
assert (INT64_MIN = -9223372036854775808) as Hmin by reflexivity.
assert (INT64_MAX = 9223372036854775807) as Hmax by reflexivity.
assert (∀ c, c ∈ S → - 2 ^ 62 <= Cell.x c < 2 ^ 62 + 2 ^ 29 ∧
                     - 2 ^ 62 <= Cell.y c < 2 ^ 62 + 2 ^ 29) as HW.
{ intros c Hc. destruct (Hcover c Hc) as (w & Hw & Hb).
  destruct (Horig w Hw) as [H1 H2]. unfold window_origin in H1, H2.
  unfold in_box in Hb. lia. }
change (2 ^ 62) with 4611686018427387904 in HW.
change (2 ^ 29) with 536870912 in HW.
(* a bucket meets one window, and buckets that touch meet the same one *)
assert (∀ c w, c ∈ S → w ∈ ws → in_box w.1 w.2 (2 ^ 29) c → meets (chunk_of c) w)
  as Hmeets.
{ intros c w Hc Hw Hb. pose proof (chunk_of_bounds c). unfold in_box in Hb.
  unfold meets. lia. }
assert (∀ c c' w w', c ∈ S → c' ∈ S → w ∈ ws → w' ∈ ws →
          in_box w.1 w.2 (2 ^ 29) c → meets (chunk_of c') w' →
          touching (chunk_of c) (chunk_of c') → w = w') as Hone.
{ intros c c' w w' Hc Hc' Hw Hw' Hb Hm [Ht1 Ht2].
  destruct (Hapart w w' Hw Hw') as [|Ha]; [done|].
  apply windows_apart_spec in Ha.
  pose proof (chunk_of_bounds c). pose proof (chunk_of_bounds c').
  unfold in_box in Hb. unfold meets in Hm. lia. }
assert (∀ k, touching k k) as Htrefl by (intros k; unfold touching; lia).
assert (∀ c c', c ∈ S → c' ∈ S → touching (chunk_of c) (chunk_of c') →
          windows_of ws (chunk_of c) = windows_of ws (chunk_of c')) as Hlab.
{ intros c c' Hc Hc' Ht. unfold windows_of.
  destruct (Hcover c Hc) as (w & Hw & Hb).
  destruct (Hcover c' Hc') as (w' & Hw' & Hb').
  assert (w = w') as <-.
  { apply (Hone c c' w w'); try done. by apply Hmeets. }
  apply filter_iff_in. intros v Hv. split; intros Hm.
  - assert (w = v) as <- by (apply (Hone c c w v); done). by apply Hmeets.
  - assert (w = v) as <- by (apply (Hone c' c' w v); done). by apply Hmeets. }
(* the buckets *)
destruct (foldM_bucket (elements S) ∅) as (chunks & Hchunks & Hcells & Hkeys).
{ intros c Hc. apply elem_of_elements in Hc. specialize (HW c Hc). lia. }
eapply returns_lift; [exact Hchunks|].
assert (∀ k c, c ∈ default [] (chunks !! k) ↔ c ∈ S ∧ chunk_of c = k) as Hcells'.
{ intros k c. rewrite Hcells, lookup_empty, elem_of_elements. rewrite ?default_Some, ?default_None.
  rewrite elem_of_nil. tauto. }
assert (∀ k, k ∈ dom chunks ↔ ∃ c, c ∈ S ∧ chunk_of c = k) as Hkeys'.
{ intros k. rewrite elem_of_dom, Hkeys, lookup_empty. split.
  - intros [[? [=]]|(c & Hc & E)]. exists c. by rewrite <- elem_of_elements.
  - intros (c & Hc & E). right. exists c. by rewrite elem_of_elements. }
clear Hcells Hkeys Hchunks.
set (D := dom chunks) in *.
assert (size D = size chunks) as HsD by apply size_dom.
assert (∀ k, k ∈ D → in_int64 (ChunkKey.cx k - 1) = true ∧
                     in_int64 (ChunkKey.cx k + 1) = true ∧
                     in_int64 (ChunkKey.cy k - 1) = true ∧
                     in_int64 (ChunkKey.cy k + 1) = true) as Hrange.
{ intros k Hk. apply Hkeys' in Hk as (c & Hc & <-). specialize (HW c Hc).
  unfold chunk_of. cbn [ChunkKey.cx ChunkKey.cy]. rewrite !in_int64_spec.
  repeat split; Z.to_euclidean_division_equations; lia. }
(* the forest *)
cbv zeta.
destruct (merge_all_spec chunks (Datatypes.S (size chunks)) _ (init_parent_forest chunks))
  as (parent_m & Hmerge & Fm & Htouch); [fold D; lia|done|].
assert (∀ j1 j2, same parent_m j1 j2 → windows_of ws j1 = windows_of ws j2) as Hresp.
{ apply (merge_all_respects (windows_of ws) chunks (Datatypes.S (size chunks)) _ parent_m
           (init_parent_forest chunks)); [fold D; lia|done| | |done].
  - intros k1 k2 Hk1 Hk2 Ht. apply Hkeys' in Hk1 as (c1 & Hc1 & <-).
    apply Hkeys' in Hk2 as (c2 & Hc2 & <-). by apply Hlab.
  - intros j1 j2 Hj. by rewrite (init_parent_same chunks j1 j2 Hj). }
eapply returns_lift; [exact Hmerge|].
(* the clusters *)
destruct (gather_all D (Datatypes.S (size chunks)) parent_m (map_to_list chunks) parent_m ∅)
  as (parent_g & clusters & Hgather & Hcl); [done|done|done| |lia|].
{ intros [k cs] He. apply elem_of_map_to_list in He. apply elem_of_dom. eauto. }
eapply returns_lift; [exact Hgather|]. cbv beta iota.
assert (∀ r c, c ∈ default ∅ (clusters !! r) ↔
               c ∈ S ∧ root_of parent_m (chunk_of c) r) as Hcl'.
{ intros r c. rewrite Hcl, lookup_empty. rewrite ?default_Some, ?default_None. split.
  - intros [?|(k & cs & He & Hc & Hr)]; [set_solver|].
    apply elem_of_map_to_list in He.
    assert (c ∈ default [] (chunks !! k)) as Hc' by (by rewrite He).
    apply Hcells' in Hc' as [? <-]. done.
  - intros [Hc Hr]. right.
    assert (c ∈ default [] (chunks !! chunk_of c)) as Hc' by (by apply Hcells').
    destruct (chunks !! chunk_of c) as [cs|] eqn:E; [|by apply elem_of_nil in Hc'].
    exists (chunk_of c), cs. split; [by apply elem_of_map_to_list|done]. }
clear Hcl Hgather Hmerge.
(* cells that are near to each other are in the same cluster *)
assert (∀ r s s', s ∈ default ∅ (clusters !! r) → s' ∈ S →
                  -2 <= Cell.x s - Cell.x s' <= 2 → -2 <= Cell.y s - Cell.y s' <= 2 →
                  s' ∈ default ∅ (clusters !! r)) as Hclosed.
{ intros r s s' Hs Hs' Hx Hy. apply Hcl' in Hs as [Hs Hr]. apply Hcl'. split; [done|].
  destruct (Htouch (chunk_of s) (chunk_of s')) as (r' & H1 & H2).
  - apply Hkeys'. eauto.
  - apply Hkeys'. eauto.
  - unfold touching, chunk_of. cbn [ChunkKey.cx ChunkKey.cy].
    pose proof (div64_near (Cell.x s') (Cell.x s)). pose proof (div64_near (Cell.y s') (Cell.y s)).
    lia.
  - by rewrite (root_of_fun _ _ _ _ Hr H1). }
(* a cluster next to a cell decides the fate of the cell *)
assert (∀ r s c, s ∈ default ∅ (clusters !! r) → adjacent s c = true →
                 (rule (live_neighbors (default ∅ (clusters !! r)) c)
                       (c ∈ default ∅ (clusters !! r)) ↔
                  rule (live_neighbors S c) (c ∈ S))) as Hfate.
{ intros r s c Hs Hadj. apply adjacent_spec in Hadj.
  set (C := default ∅ (clusters !! r)) in *.
  assert (C ⊆ S) as Hsub by (intros x Hx; by apply Hcl' in Hx as [? _]).
  assert (c ∈ C ↔ c ∈ S) as Hmem.
  { split; [apply Hsub|]. intros Hc. apply (Hclosed r s c Hs Hc); lia. }
  assert (live_neighbors C c = live_neighbors S c) as ->;
    [|unfold rule; by rewrite Hmem].
  unfold live_neighbors. f_equal. apply set_eq. intros x. unfold counted.
  rewrite !elem_of_filter. split.
  - intros (? & ? & Hx). repeat split; [done..|by apply Hsub].
  - intros (Hax & ? & Hx). repeat split; [done..|].
    apply adjacent_spec in Hax. apply (Hclosed r s x Hs Hx); lia. }
(* a cluster lies in one window *)
assert (∀ r C, clusters !! r = Some C →
          ∃ a b, window_origin a ∧ window_origin b ∧ in_window a b C) as Hwin.
{ intros r C He.
  destruct (decide (C = ∅)) as [->|HCne].
  { exists 0, 0. unfold window_origin. split; [lia|]. split; [lia|].
    apply in_window_spec. set_solver. }
  apply set_choose_L in HCne as [c0 Hc0].
  assert (c0 ∈ default ∅ (clusters !! r)) as Hc0' by (by rewrite He).
  apply Hcl' in Hc0' as [Hc0S Hr0].
  destruct (Hcover c0 Hc0S) as (w & Hw & Hb).
  destruct (Horig w Hw) as [Ho1 Ho2].
  exists w.1, w.2. split; [done|]. split; [done|].
  apply in_window_spec. intros c Hc.
  assert (c ∈ default ∅ (clusters !! r)) as Hc' by (by rewrite He).
  apply Hcl' in Hc' as [HcS Hr].
  assert (windows_of ws (chunk_of c0) = windows_of ws (chunk_of c)) as Hsame.
  { apply Hresp. by exists r. }
  assert (meets (chunk_of c) w) as Hm.
  { assert (w ∈ windows_of ws (chunk_of c0)) as Hin.
    { unfold windows_of. apply list_elem_of_filter. split; [by apply Hmeets|done]. }
    rewrite Hsame in Hin. unfold windows_of in Hin.
    by apply list_elem_of_filter in Hin as [? _]. }
  destruct (Hcover c HcS) as (w' & Hw' & Hb').
  assert (w' = w) as -> by (apply (Hone c c w' w); done).
  done. }
(* stepping the clusters *)
eapply returns_weaken.
{ apply step_all_windows; [done|]. intros [r C] He.
  apply elem_of_map_to_list in He. cbn [snd]. by apply (Hwin r). }
intros S' P' _ _ HS'. cbv beta in HS'. intros c. rewrite HS'. split.
- intros [?|(r & C & He & Hrule)]; [set_solver|].
  apply elem_of_map_to_list in He.
  assert (C = default ∅ (clusters !! r)) as -> by (by rewrite He).
  destruct (live_neighbors_pos (default ∅ (clusters !! r)) c) as (s & Hs & _ & Hadj).
  { destruct Hrule as [->|[-> _]]; lia. }
  by apply (Hfate r s c Hs Hadj).
- intros Hrule. right.
  destruct (live_neighbors_pos S c) as (s & Hs & _ & Hadj).
  { destruct Hrule as [->|[-> _]]; lia. }
  destruct (root_exists D parent_m (chunk_of s) Fm) as [r Hr]; [apply Hkeys'; eauto|].
  assert (s ∈ default ∅ (clusters !! r)) as Hs' by (by apply Hcl').
  destruct (clusters !! r) as [C|] eqn:E; [|set_solver].
  exists r, C. split; [by apply elem_of_map_to_list|].
  rewrite default_Some in Hs'.
  pose proof (Hfate r s c) as Hf. rewrite E, !default_Some in Hf.
  by apply Hf.
Qed.

Lemma well_inside_in_windows n ws C :
  0 <= n → well_inside n ws C → in_windows ws C.
Proof.
intros Hn. unfold in_windows. rewrite !well_inside_spec.
intros (H1 & H2 & H3). split; [done|]. split; [done|].
intros c Hc. destruct (H3 c Hc) as (w & Hw & Hb). exists w. split; [done|lia].
Qed.

Lemma in_windows_cells_in_range ws C : in_windows ws C → cells_in_range C.
Proof.
rewrite in_windows_spec. intros (H1 & _ & H3).
unfold cells_in_range. rewrite forallb_forall. intros c Hc.
apply list_elem_of_In, elem_of_elements in Hc.
destruct (H3 c Hc) as (w & Hw & Hb). destruct (H1 w Hw) as [Ho1 Ho2].
unfold window_origin in Ho1, Ho2. unfold in_box in Hb.
change (2 ^ 62) with 4611686018427387904 in Ho1, Ho2.
change (2 ^ 29) with 536870912 in Hb.
unfold cell_in_range. rewrite andb_true_iff, !in_int64_spec.
unfold INT64_MIN, INT64_MAX. lia.
Qed.

(** The next generation reaches one cell further towards the border of
    each window. *)
Lemma well_inside_step n ws S S' :
  0 <= n → well_inside (n + 1) ws S →
  (∀ c, c ∈ S' ↔ rule (live_neighbors S c) (c ∈ S)) →
  well_inside n ws S'.
Proof.
intros Hn. rewrite !well_inside_spec. intros (H1 & H2 & H3) HS'.
split; [done|]. split; [done|]. intros c Hc.
apply HS' in Hc. destruct (live_neighbors_pos S c) as (s & Hs & _ & Hadj).
{ destruct Hc as [->|[-> _]]; lia. }
apply adjacent_spec in Hadj. destruct (H3 s Hs) as (w & Hw & Hb).
exists w. split; [done|lia].
Qed.

Lemma engines_agree_far n : ∀ S ws,
  well_inside (Z.of_nat n) ws S →
  ∃ S', advance_n Hashtable n S = Done S' ∧ advance_n Sorted n S = Done S' ∧
        advance_n Hashlife n S = Done S'.
Proof.
induction n as [|n IH]; intros S ws HS.
- by exists S.
- assert (in_windows ws S) as HW
    by (apply (well_inside_in_windows (Z.of_nat (Datatypes.S n))); [lia|done]).
  pose proof (in_windows_cells_in_range ws S HW) as Hr.
  destruct (engine_tick_spec Hashtable S) as (S1 & H1 & R1); [by left|done|].
  destruct (engine_tick_spec Sorted S) as (S2 & H2 & R2); [by right|done|].
  destruct (tick_in_pool_windows S ws clear pool_ok_clear HW)
    as (S3 & P' & Hrun & _ & _ & R3).
  assert (engine_tick Hashlife S = Done S3) as H3.
  { cbn [engine_tick]. unfold tick. by rewrite Hrun. }
  assert (S2 = S1) as -> by (apply set_eq; intros c; by rewrite R1, R2).
  assert (S3 = S1) as -> by (apply set_eq; intros c; by rewrite R1, R3).
  cbn [advance_n]. rewrite H1, H2, H3. cbn [mbind outcome_bind].
  apply (IH S1 ws). apply (well_inside_step _ ws S); [lia| |done].
  by replace (Z.of_nat n + 1) with (Z.of_nat (Datatypes.S n)) by lia.
Qed.

End FarApart.

(** ** The viewport *)

Section Viewport.

Lemma span_guard_spec min_v max_v :
  in_int64 min_v = true → in_int64 max_v = true →
  span_guard min_v max_v =
  Done ((0 <? max_v) && (INT64_MAX <? max_v - min_v)).
Proof.
rewrite !in_int64_spec. unfold INT64_MIN, INT64_MAX. intros Hmin Hmax.
unfold span_guard, add64.
destruct (Z.ltb_spec 0 max_v) as [H0|H0]; [|done]. cbn [andb].
destruct (Z.ltb_spec min_v 0) as [H1|H1].
- rewrite chk64_in by (unfold INT64_MIN, INT64_MAX; lia). cbn [mbind outcome_bind].
  f_equal. unfold INT64_MAX.
  destruct (Z.ltb_spec (9223372036854775807 + min_v) max_v),
           (Z.ltb_spec 9223372036854775807 (max_v - min_v)); (done || lia).
- unfold INT64_MAX. f_equal.
  by destruct (Z.ltb_spec 9223372036854775807 (max_v - min_v)); [lia|].
Qed.

Lemma span_width min_v max_v :
  in_int64 min_v = true → in_int64 max_v = true → min_v <= max_v →
  max_v - min_v < INT64_MAX →
  (d ← sub64 max_v min_v; add64 d 1) = Done (max_v - min_v + 1).
Proof.
rewrite !in_int64_spec. unfold INT64_MIN, INT64_MAX. intros Hmin Hmax Hle Hs.
unfold sub64, add64.
rewrite chk64_in by (unfold INT64_MIN, INT64_MAX; lia). cbn [mbind outcome_bind].
by rewrite chk64_in by (unfold INT64_MIN, INT64_MAX; lia).
Qed.

Lemma span_overflow min_v max_v :
  in_int64 min_v = true → in_int64 max_v = true →
  INT64_MAX <= max_v - min_v →
  (d ← sub64 max_v min_v; add64 d 1) = Fault SignedOverflow.
Proof.
rewrite !in_int64_spec. unfold INT64_MIN, INT64_MAX. intros Hmin Hmax Hs.
unfold sub64, add64, chk64, in_int64, INT64_MIN, INT64_MAX.
destruct (Z.leb_spec (-9223372036854775808) (max_v - min_v)); [|lia]. cbn [andb].
destruct (Z.leb_spec (max_v - min_v) 9223372036854775807) as [Hle|]; [|done].
cbn [mbind outcome_bind].
destruct (Z.leb_spec (-9223372036854775808) (max_v - min_v + 1)); [|lia]. cbn [andb].
by destruct (Z.leb_spec (max_v - min_v + 1) 9223372036854775807); [lia|].
Qed.

Lemma bind_assoc_eq {A B} (m : outcome A) (f : A → outcome A) (k : A → outcome B) r :
  (d ← m; f d) = r → (d ← m; w ← f d; k w) = (w ← r; k w).
Proof. intros <-. by destruct m. Qed.

(** The dimensions of a viewport that spans less than 2^63 - 1 cells. *)
Lemma viewport_cells_safe m min_x max_x min_y max_y :
  in_int64 min_x = true → in_int64 max_x = true →
  in_int64 min_y = true → in_int64 max_y = true →
  min_x <= max_x → min_y <= max_y →
  max_x - min_x < INT64_MAX → max_y - min_y < INT64_MAX →
  viewport_cells m min_x max_x min_y max_y =
  Done (if (m <? max_x - min_x + 1) || (m <? max_y - min_y + 1)
        then None else Some (max_x - min_x + 1, max_y - min_y + 1)).
Proof.
intros Hx0 Hx1 Hy0 Hy1 Hx Hy Hsx Hsy. unfold viewport_cells.
rewrite (span_guard_spec _ _ Hx0 Hx1), (span_guard_spec _ _ Hy0 Hy1).
cbn [mbind outcome_bind].
destruct (Z.ltb_spec INT64_MAX (max_x - min_x)); [lia|]. rewrite andb_false_r.
destruct (Z.ltb_spec INT64_MAX (max_y - min_y)); [lia|]. rewrite andb_false_r.
rewrite (bind_assoc_eq _ _ _ _ (span_width _ _ Hx0 Hx1 Hx Hsx)).
cbn [mbind outcome_bind].
rewrite (bind_assoc_eq _ _ _ _ (span_width _ _ Hy0 Hy1 Hy Hsy)).
cbn [mbind outcome_bind].
destruct (Z.leb_spec (max_x - min_x + 1) 0); [lia|].
destruct (Z.leb_spec (max_y - min_y + 1) 0); [lia|].
rewrite !orb_false_r.
by destruct ((m <? max_x - min_x + 1) || (m <? max_y - min_y + 1)).
Qed.

Lemma clamp64_in z : in_int64 (clamp64 z) = true.
Proof. apply in_int64_spec. unfold clamp64, INT64_MIN, INT64_MAX. lia. Qed.

End Viewport.

(** ** The two readings of overflow *)

Section Readings.

(** With checked arithmetic, [HashLifeAs] is [HashLife]. *)
Lemma checked_reading cells : HashLifeAs.tick chk64 cells = HashLife.tick cells.
Proof. reflexivity. Qed.

Lemma wrap64_in z : INT64_MIN <= z <= INT64_MAX → wrap64 z = z.
Proof.
unfold wrap64, INT64_MIN, INT64_MAX. intros H.
rewrite Z.mod_small; lia.
Qed.

Lemma wrap64_range z : INT64_MIN <= wrap64 z <= INT64_MAX.
Proof.
unfold wrap64, INT64_MIN, INT64_MAX.
pose proof (Z.mod_pos_bound (z + 2 ^ 63) (2 ^ 64) ltac:(lia)). lia.
Qed.

(** Where nothing overflows the two readings give the same value. *)
Lemma readings_agree_in_range z : in_int64 z = true → wrapped z = chk64 z.
Proof.
intros H. unfold wrapped, chk64. rewrite H. f_equal.
apply wrap64_in. by apply in_int64_spec.
Qed.

End Readings.

(** * The claims *)

(** ** Counting engine *)

(** C1. For every alive-set [S] of int64 cells, one tick of the
    HashtableEngine returns normally, and the set it returns holds exactly
    the cells with 3 alive neighbours in [S], or with 2 alive neighbours
    while being in [S] themselves, where only the cells of [S] that are not
    at overflow risk are counted as neighbours. *)
Theorem hashtable_tick_is_rule (S : CellSet) :
  cells_in_range S →
  ∃ S', HashtableEngine.tick S = Done S' ∧
        ∀ c, c ∈ S' ↔ live_neighbors S c = 3%nat ∨
                       (live_neighbors S c = 2%nat ∧ c ∈ S).
Proof.
  intros HS. exact (engine_tick_spec Hashtable S (or_introl eq_refl) HS).
Qed.

Lemma hashtable_tick_is_rule_witness :
  cells_in_range blinker ∧
  ∃ S', HashtableEngine.tick blinker = Done S' ∧
        ∀ c, c ∈ S' ↔ live_neighbors blinker c = 3%nat ∨
                       (live_neighbors blinker c = 2%nat ∧ c ∈ blinker).
Proof.
  split; [reflexivity|]. apply (hashtable_tick_is_rule blinker). reflexivity.
Defined.

(** ** Boundary cells *)




(** ** Locality *)

(** C9. For the counting and the sorting engine and every alive-set [S] of
    int64 cells: each cell of the next generation is at Chebyshev distance
    exactly 1 from two distinct cells of [S] that are not at overflow risk;
    it therefore lies in the 8-neighbourhood of such a cell; and the empty
    set advances to the empty set. *)
Theorem advance_is_local (e : EngineType) (S : CellSet) :
  counting_engine e → cells_in_range S →
  ∃ S', engine_tick e S = Done S' ∧
        (∀ c, c ∈ S' →
              ∃ a b, a ≠ b ∧ a ∈ S ∧ b ∈ S ∧
                     overflow_risk a = false ∧ overflow_risk b = false ∧
                     adjacent a c = true ∧ adjacent b c = true) ∧
        (∀ c, c ∈ S' → ∃ a, a ∈ S ∧ overflow_risk a = false ∧ c ∈ neighbors8 a) ∧
        (S = ∅ → S' = ∅).
Proof.
  intros He HS. destruct (engine_tick_spec e S He HS) as (S' & Ht & H).
  exists S'. split; [done|].
  assert (∀ c, c ∈ S' →
               ∃ a b, a ≠ b ∧ a ∈ S ∧ b ∈ S ∧
                      overflow_risk a = false ∧ overflow_risk b = false ∧
                      adjacent a c = true ∧ adjacent b c = true) as Htwo.
  { intros c Hc. apply H in Hc.
    destruct (size_two_distinct (filter (λ s, adjacent s c = true) (counted S)))
      as (a & b & Hab & Ha & Hb).
    { fold (live_neighbors S c). destruct Hc as [->|[-> _]]; lia. }
    unfold counted in Ha, Hb. rewrite !elem_of_filter in Ha, Hb.
    exists a, b. tauto. }
  split; [done|]. split.
  - intros c Hc. destruct (Htwo c Hc) as (a & _ & _ & Ha & _ & Hr & _ & Hadj & _).
    exists a. by rewrite elem_of_neighbors8.
  - intros ->. apply set_eq. intros c. rewrite elem_of_empty. split; [|done].
    intros Hc. destruct (Htwo c Hc) as (a & _ & _ & Ha & _). set_solver.
Qed.

Lemma advance_is_local_witness :
  counting_engine Hashtable ∧ cells_in_range blinker ∧
  ∃ S', engine_tick Hashtable blinker = Done S' ∧
        (∀ c, c ∈ S' →
              ∃ a b, a ≠ b ∧ a ∈ blinker ∧ b ∈ blinker ∧
                     overflow_risk a = false ∧ overflow_risk b = false ∧
                     adjacent a c = true ∧ adjacent b c = true) ∧
        (∀ c, c ∈ S' → ∃ a, a ∈ blinker ∧ overflow_risk a = false ∧ c ∈ neighbors8 a) ∧
        (blinker = ∅ → S' = ∅).
Proof.
  split; [left; reflexivity|]. split; [reflexivity|].
  apply (advance_is_local Hashtable blinker); [left|]; reflexivity.
Defined.

(** ** Blinker *)

(** C8. In each of the three engines the blinker {(0,0),(1,0),(2,0)}
    advances to {(1,-1),(1,0),(1,1)}, and that set advances back to the
    blinker. *)
Theorem blinker_period_2 (e : EngineType) :
  engine_tick e blinker = Done blinker_turned ∧
  engine_tick e blinker_turned = Done blinker ∧
  advance_n e 2 blinker = Done blinker.
Proof.
  destruct e; repeat split; vm_compute; reflexivity.
Qed.

(** ** Engine selection *)

(** C7, as stated with the names of the specification, fails: "counting"
    is rejected, while "hashlife" is accepted. *)
Lemma spec_engine_names_rejected :
  parse_engine_type "counting" =
    Threw "Unknown engine type 'counting'. Valid options: hashtable, sorted, hashlife" tt ∧
  parse_engine_type "sorting" =
    Threw "Unknown engine type 'sorting'. Valid options: hashtable, sorted, hashlife" tt ∧
  parse_engine_type "quadtree" =
    Threw "Unknown engine type 'quadtree'. Valid options: hashtable, sorted, hashlife" tt ∧
  parse_engine_type "HashLife" = Returned Hashlife.
Proof. repeat split. Qed.

(** C7, amended. [parse_engine_type] returns an engine exactly for the
    spellings, up to case, of its name, the names being hashtable, sorted
    and hashlife; for every other string it throws the invalid-argument
    exception that reports the unknown engine type. *)
Theorem parse_engine_type_names (s : string) :
  (∀ e, parse_engine_type s = Returned e ↔ spells (engine_name e) s) ∧
  ((∀ e, ¬ spells (engine_name e) s) ↔
   parse_engine_type s =
     Threw ("Unknown engine type '" ++ s ++
            "'. Valid options: hashtable, sorted, hashlife")%string tt).
Proof.
  assert (∀ e, parse_engine_type s = Returned e ↔ spells (engine_name e) s) as H.
  { intros e. rewrite parse_engine_type_Returned.
    apply lowercase_spells, engine_name_lower. }
  split; [done|]. split.
  - intros Hno. unfold parse_engine_type.
    destruct (String.eqb_spec (lowercase s) "hashtable") as [E|_].
    { destruct (Hno Hashtable). apply lowercase_spells; [apply engine_name_lower|done]. }
    destruct (String.eqb_spec (lowercase s) "sorted") as [E|_].
    { destruct (Hno Sorted). apply lowercase_spells; [apply engine_name_lower|done]. }
    destruct (String.eqb_spec (lowercase s) "hashlife") as [E|_].
    { destruct (Hno Hashlife). apply lowercase_spells; [apply engine_name_lower|done]. }
    done.
  - intros Ht e He. apply H in He. congruence.
Qed.

(** ** The generation loop *)

(** C10. [GameOfLife::run(n)] throws for negative [n] and leaves the
    object, in particular its alive-set, as it was; for [n >= 0] it is [n]
    successive ticks, so [run(0)] changes nothing. *)
Theorem run_is_n_ticks (n : Z) (g : GameOfLife.t) :
  GameOfLife.run n g =
    (if n <? 0 then Threw "Iterations must be non-negative" g
     else match ticks (Z.to_nat n) g with
          | Done g' => Returned g'
          | Fault f => Faulted f
          end) ∧
  GameOfLife.run 0 g = Returned g.
Proof.
  split; [|done]. unfold GameOfLife.run.
  destruct (n <? 0) eqn:E; [done|]. apply Z.ltb_ge in E.
  rewrite run_loop_ticks by lia. done.
Qed.

(** ** The quadtree engine at the coordinate boundary *)

(** C5. A single alive cell at x = INT64_MIN: the computation of
    its bucket index, [cell.x - CHUNK_SIZE + 1], leaves the int64 range in
    the quadtree engine, while the other two engines return the empty
    set. *)
Theorem hashlife_bucket_overflow :
  HashLife.chunk_index INT64_MIN = Fault SignedOverflow ∧
  HashLife.tick {[ Cell.mk INT64_MIN 0 ]} = Fault SignedOverflow ∧
  HashtableEngine.tick {[ Cell.mk INT64_MIN 0 ]} = Done ∅ ∧
  SortedVectorEngine.tick {[ Cell.mk INT64_MIN 0 ]} = Done ∅.
Proof. repeat split; vm_compute; reflexivity. Qed.

(** ** The quadtree step *)



(** ** Canonical nodes and memoised results *)

(** C6. In a well-formed pool, as [clear] sets it up at the start of a tick
    and as every tick that returns leaves it: (1) two pointers that stand
    for the same square are equal, and two composite nodes with the same
    four children are the same node; (2) whenever [make] returns, the pool
    is well formed again, the returned node is the one the table of
    canonical nodes holds for the four children, and [make] returns it
    again, without allocating, in every later well-formed state of the
    pool; (3) the population of a composite node is the sum of the
    populations of its four children; (4) whenever [slow_step] returns for
    the node of a square of level 2 or more, the pool is well formed again
    and the result is in the memo field of the node; (5) [slow_step] on a
    node with a memoised result returns that result and leaves the pool as
    it is, the result stands for the stepped square, and it stays memoised
    in every later state of the pool. *)
Theorem pool_is_canonical (P : HashLife.NodePool) :
  Quad.pool_ok P →
  (∀ p q t, Quad.repr P p t → Quad.repr P q t → p = q) ∧
  (∀ i j ni nj,
     HashLife.arena P !! i = Some ni → HashLife.arena P !! j = Some nj →
     (2 <= i)%nat → (2 <= j)%nat →
     HashLife.nw ni = HashLife.nw nj → HashLife.ne ni = HashLife.ne nj →
     HashLife.sw ni = HashLife.sw nj → HashLife.se ni = HashLife.se nj →
     i = j) ∧
  (∀ a b c d p P',
     HashLife.make a b c d P = Done (p, P') →
     Quad.pool_ok P' ∧ Quad.extends P P' ∧
     HashLife.canon_ P' !! (a, b, c, d) = Some p ∧
     ∀ P'', Quad.pool_ok P'' → Quad.extends P' P'' →
            HashLife.make a b c d P'' = Done (p, P'')) ∧
  (∀ i n,
     HashLife.arena P !! i = Some n → (2 <= i)%nat →
     ∃ a b c d na nb nc nd,
       HashLife.nw n = Some a ∧ HashLife.ne n = Some b ∧
       HashLife.sw n = Some c ∧ HashLife.se n = Some d ∧
       HashLife.arena P !! a = Some na ∧ HashLife.arena P !! b = Some nb ∧
       HashLife.arena P !! c = Some nc ∧ HashLife.arena P !! d = Some nd ∧
       HashLife.population n =
         HashLife.population na + HashLife.population nb +
         HashLife.population nc + HashLife.population nd) ∧
  (∀ p t fuel r P',
     Quad.repr P p t → (2 <= Quad.depth t)%nat →
     HashLife.slow_step fuel p P = Done (r, P') →
     Quad.pool_ok P' ∧ Quad.extends P P' ∧ Quad.memo_is P' p r) ∧
  (∀ p n r,
     HashLife.arena P !! p = Some n → HashLife.step1_result n = Some r →
     (∀ fuel, HashLife.slow_step (S fuel) p P = Done (r, P)) ∧
     (∃ t, Quad.repr P p t ∧ Quad.repr P r (Quad.step_t t)) ∧
     (∀ P', Quad.extends P P' → Quad.memo_is P' p r)).
Proof.
intros Hok. split; [|split; [|split; [|split; [|split]]]].
- intros p q t. by apply repr_inj.
- intros i j ni nj Hi Hj Hi2 Hj2 E1 E2 E3 E4.
  destruct (Quad.ok_made _ Hok i ni Hi Hi2)
    as (a & b & c & d & _ & _ & _ & _ & ? & ? & ? & ? &
        _ & _ & _ & _ & _ & _ & _ & _ & _ & _ & _ & _ & _ & Hci).
  destruct (Quad.ok_made _ Hok j nj Hj Hj2)
    as (a' & b' & c' & d' & _ & _ & _ & _ & ? & ? & ? & ? &
        _ & _ & _ & _ & _ & _ & _ & _ & _ & _ & _ & _ & _ & Hcj).
  assert (a' = a) as -> by congruence. assert (b' = b) as -> by congruence.
  assert (c' = c) as -> by congruence. assert (d' = d) as -> by congruence.
  congruence.
- intros a b c d p P' Hrun.
  destruct (make_inv P a b c d p P' Hok Hrun) as (Hok' & Hext & Hkey & _).
  split; [done|]. split; [done|]. split; [done|].
  intros P'' Hok'' Hext'. apply make_again; [done|].
  by apply (Quad.ext_canon _ _ Hext').
- intros i n Hn Hi.
  destruct (Quad.ok_made _ Hok i n Hn Hi)
    as (a & b & c & d & na & nb & nc & nd & ? & ? & ? & ? & _ & _ & _ & _ &
        ? & ? & ? & ? & _ & _ & _ & _ & ? & _).
  exists a, b, c, d, na, nb, nc, nd. by repeat split.
- intros p t fuel r P' Hr Hd Hrun.
  pose proof (repr_full P p t Hok Hr) as Hfull.
  destruct (Quad.depth t) as [|[|k]] eqn:E; [lia..|].
  replace (S (S k)) with (k + 2)%nat in Hfull by lia.
  destruct (slow_step_runs false k fuel P p t Hok Hr Hfull) as [_ Hpart]; [done|].
  destruct (Hpart r P' Hrun) as (? & ? & _ & ?). done.
- intros p n r Hn Hr. split; [|split].
  + intros fuel. by eapply slow_step_memo.
  + destruct (Quad.ok_memo _ Hok p n r Hn Hr) as (t & ? & _ & ?). eauto.
  + intros P' Hext. destruct (Quad.ext_arena _ _ Hext p n Hn)
      as (n' & ? & _ & _ & _ & _ & _ & _ & Hkeep). exists n'. eauto.
Qed.

Lemma pool_is_canonical_witness :
  Quad.pool_ok blinker_tick_pool ∧
  ((∀ p q t, Quad.repr blinker_tick_pool p t → Quad.repr blinker_tick_pool q t → p = q) ∧
  (∀ i j ni nj,
     HashLife.arena blinker_tick_pool !! i = Some ni → HashLife.arena blinker_tick_pool !! j = Some nj →
     (2 <= i)%nat → (2 <= j)%nat →
     HashLife.nw ni = HashLife.nw nj → HashLife.ne ni = HashLife.ne nj →
     HashLife.sw ni = HashLife.sw nj → HashLife.se ni = HashLife.se nj →
     i = j) ∧
  (∀ a b c d p P',
     HashLife.make a b c d blinker_tick_pool = Done (p, P') →
     Quad.pool_ok P' ∧ Quad.extends blinker_tick_pool P' ∧
     HashLife.canon_ P' !! (a, b, c, d) = Some p ∧
     ∀ P'', Quad.pool_ok P'' → Quad.extends P' P'' →
            HashLife.make a b c d P'' = Done (p, P'')) ∧
  (∀ i n,
     HashLife.arena blinker_tick_pool !! i = Some n → (2 <= i)%nat →
     ∃ a b c d na nb nc nd,
       HashLife.nw n = Some a ∧ HashLife.ne n = Some b ∧
       HashLife.sw n = Some c ∧ HashLife.se n = Some d ∧
       HashLife.arena blinker_tick_pool !! a = Some na ∧ HashLife.arena blinker_tick_pool !! b = Some nb ∧
       HashLife.arena blinker_tick_pool !! c = Some nc ∧ HashLife.arena blinker_tick_pool !! d = Some nd ∧
       HashLife.population n =
         HashLife.population na + HashLife.population nb +
         HashLife.population nc + HashLife.population nd) ∧
  (∀ p t fuel r P',
     Quad.repr blinker_tick_pool p t → (2 <= Quad.depth t)%nat →
     HashLife.slow_step fuel p blinker_tick_pool = Done (r, P') →
     Quad.pool_ok P' ∧ Quad.extends blinker_tick_pool P' ∧ Quad.memo_is P' p r) ∧
  (∀ p n r,
     HashLife.arena blinker_tick_pool !! p = Some n → HashLife.step1_result n = Some r →
     (∀ fuel, HashLife.slow_step (S fuel) p blinker_tick_pool = Done (r, blinker_tick_pool)) ∧
     (∃ t, Quad.repr blinker_tick_pool p t ∧ Quad.repr blinker_tick_pool r (Quad.step_t t)) ∧
     (∀ P', Quad.extends blinker_tick_pool P' → Quad.memo_is P' p r))).
Proof.
split; [apply blinker_tick_pool_ok|].
apply (pool_is_canonical blinker_tick_pool), blinker_tick_pool_ok.
Defined.

(** ** The three engines near the largest coordinate *)

(** C2. After one advance from the vertical blinker at x = INT64_MAX - 2
    the engines do not agree.  The counting and the sorting engine return
    the horizontal blinker.  In the quadtree engine the root square
    starts at x = INT64_MAX - 3 and has side 4, so [x + size] in
    [has_cell_in] leaves the int64 range: read as a fault, the engine
    returns nothing; read with wrap-around, [x_end] is INT64_MIN, no
    cell is found in the square and the engine returns the empty set.
    No cell of the blinker is at overflow risk. *)
Theorem engines_disagree_at_boundary_blinker :
  advance_n Hashtable 1 boundary_blinker = Done boundary_blinker_turned ∧
  advance_n Sorted 1 boundary_blinker = Done boundary_blinker_turned ∧
  advance_n Hashlife 1 boundary_blinker = Fault SignedOverflow ∧
  HashLife.has_cell_in (HashLife.build boundary_blinker)
                       (INT64_MAX - 3) (-1) 4 = Fault SignedOverflow ∧
  HashLifeAs.tick wrapped boundary_blinker = Done ∅ ∧
  HashLifeAs.has_cell_in wrapped (HashLife.build boundary_blinker)
                         (INT64_MAX - 3) (-1) 4 = Done false ∧
  boundary_blinker_turned ≠ ∅ ∧
  (∀ c, c ∈ boundary_blinker → overflow_risk c = false).
Proof.
split; [vm_compute; reflexivity|]. split; [vm_compute; reflexivity|].
split; [vm_compute; reflexivity|]. split; [vm_compute; reflexivity|].
split; [vm_compute; reflexivity|]. split; [vm_compute; reflexivity|]. split.
- intros E. assert (Cell.mk (INT64_MAX - 2) 0 ∈ boundary_blinker_turned) as H
    by (unfold boundary_blinker_turned; set_solver).
  rewrite E in H. set_solver.
- intros c Hc. unfold boundary_blinker in Hc.
  apply elem_of_union in Hc as [Hc|Hc];
    [apply elem_of_union in Hc as [Hc|Hc]|];
    apply elem_of_singleton in Hc; subst c; reflexivity.
Qed.

(** * Further properties of the code *)

(** ** The sorting engine *)

(** X1. For every alive-set [S] of int64 cells, one tick of the
    SortedVectorEngine returns normally, and the set it returns holds
    exactly the cells with 3 counted neighbours in [S], or with 2 while
    being in [S] themselves. *)
Theorem sorted_tick_is_rule (S : CellSet) :
  cells_in_range S →
  ∃ S', SortedVectorEngine.tick S = Done S' ∧
        ∀ c, c ∈ S' ↔ live_neighbors S c = 3%nat ∨
                       (live_neighbors S c = 2%nat ∧ c ∈ S).
Proof.
intros HS. exact (engine_tick_spec Sorted S (or_intror eq_refl) HS).
Qed.

Lemma sorted_tick_is_rule_witness :
  cells_in_range boundary_trap ∧
  ∃ S', SortedVectorEngine.tick boundary_trap = Done S' ∧
        ∀ c, c ∈ S' ↔ live_neighbors boundary_trap c = 3%nat ∨
                       (live_neighbors boundary_trap c = 2%nat ∧ c ∈ boundary_trap).
Proof.
split; [reflexivity|]. apply (sorted_tick_is_rule boundary_trap). reflexivity.
Defined.

(** X2. On every alive-set of int64 cells, boundary cells included, the
    SortedVectorEngine and the HashtableEngine return the same set after
    any number of successive advances, and neither of them faults. *)
Theorem sorted_and_hashtable_agree (n : nat) (S : CellSet) :
  cells_in_range S →
  advance_n Sorted n S = advance_n Hashtable n S ∧
  ∃ S', advance_n Hashtable n S = Done S' ∧ cells_in_range S'.
Proof.
intros HS. split.
- by apply counting_engines_agree_n.
- apply advance_n_counting; [by left|done].
Qed.

Lemma sorted_and_hashtable_agree_witness :
  cells_in_range boundary_trap ∧
  advance_n Sorted 3 boundary_trap = advance_n Hashtable 3 boundary_trap ∧
  ∃ S', advance_n Hashtable 3 boundary_trap = Done S' ∧ cells_in_range S'.
Proof.
split; [reflexivity|].
apply (sorted_and_hashtable_agree 3 boundary_trap). reflexivity.
Defined.

(** ** Neighbour generation *)

(** X3. For int64 coordinates, [would_overflow] is exactly the condition
    under which the arithmetic of [get_neighbors] leaves the int64 range:
    when it is false the eight neighbours are returned, when it is true
    the computation overflows. *)
Theorem get_neighbors_overflows_iff (x y : Z) :
  in_int64 x = true → in_int64 y = true →
  (would_overflow x y = false →
   get_neighbors x y = Done (neighbors8 (Cell.mk x y))) ∧
  (would_overflow x y = true →
   get_neighbors x y = Fault SignedOverflow).
Proof.
intros Hx Hy. split.
- intros Hw. apply (get_neighbors_safe (Cell.mk x y)); [|done].
  unfold cell_in_range. simpl. by rewrite Hx, Hy.
- intros Hw. destruct (get_neighbors_outcome x y) as [[l Hl]|]; [|done].
  apply get_neighbors_Done in Hl. exfalso.
  rewrite !in_int64_spec in Hl. rewrite in_int64_spec in Hx, Hy.
  unfold would_overflow in Hw. rewrite !orb_true_iff, !Z.eqb_eq in Hw. lia.
Qed.

Lemma get_neighbors_overflows_iff_witness :
  in_int64 INT64_MAX = true ∧ in_int64 5 = true ∧
  (would_overflow INT64_MAX 5 = false →
   get_neighbors INT64_MAX 5 = Done (neighbors8 (Cell.mk INT64_MAX 5))) ∧
  (would_overflow INT64_MAX 5 = true →
   get_neighbors INT64_MAX 5 = Fault SignedOverflow).
Proof.
split; [reflexivity|]. split; [reflexivity|].
apply (get_neighbors_overflows_iff INT64_MAX 5); reflexivity.
Defined.

(** ** Cell hashing *)

(** X4. [CellHash] never maps two different cells of one column, or of
    one row, to the same hash value. *)
Theorem CellHash_separates_lines (a b : Cell) :
  cell_in_range a = true → cell_in_range b = true →
  Cell.x a = Cell.x b ∨ Cell.y a = Cell.y b →
  a ≠ b → CellHash a ≠ CellHash b.
Proof.
intros Ha Hb Hline Hne E. apply Hne. by apply CellHash_inj.
Qed.

Lemma CellHash_separates_lines_witness :
  cell_in_range (Cell.mk (-3) 5) = true ∧ cell_in_range (Cell.mk (-3) 6) = true ∧
  (Cell.x (Cell.mk (-3) 5) = Cell.x (Cell.mk (-3) 6) ∨
   Cell.y (Cell.mk (-3) 5) = Cell.y (Cell.mk (-3) 6)) ∧
  Cell.mk (-3) 5 ≠ Cell.mk (-3) 6 ∧
  CellHash (Cell.mk (-3) 5) ≠ CellHash (Cell.mk (-3) 6).
Proof.
split; [reflexivity|]. split; [reflexivity|]. split; [left; reflexivity|].
split; [discriminate|].
apply (CellHash_separates_lines (Cell.mk (-3) 5) (Cell.mk (-3) 6));
  [reflexivity|reflexivity|left; reflexivity|discriminate].
Defined.

(** ** File names *)

(** X5. [has_valid_life_extension] accepts exactly the names that end in
    ".life" or in ".lif", in this spelling. *)
Theorem has_valid_life_extension_iff (filename : string) :
  has_valid_life_extension filename = true ↔
  ∃ stem, filename = (stem ++ ".life")%string ∨ filename = (stem ++ ".lif")%string.
Proof.
unfold has_valid_life_extension. split.
- destruct (rfind "." filename) as [i|] eqn:E; [|done].
  destruct (rfind_split _ _ _ E) as (stem & Hs & _).
  rewrite orb_true_iff, !String.eqb_eq. intros [H|H]; rewrite H in Hs; eauto.
- intros (stem & [-> | ->]); rewrite rfind_app; simpl; by rewrite substr_app.
Qed.

(** X6. [get_file_extension] returns the part of the path from its last
    dot on, in lower case, and the empty string for a path without a
    dot. *)
Theorem get_file_extension_spec (stem ext : string) :
  dotless ext = true →
  get_file_extension (stem ++ String "." ext) = String "." (lowercase ext) ∧
  get_file_extension ext = EmptyString.
Proof.
intros Hd. unfold get_file_extension. split.
- rewrite rfind_app. simpl. rewrite (rfind_dotless _ Hd). simpl.
  by rewrite substr_app.
- by rewrite (rfind_dotless _ Hd).
Qed.

Lemma get_file_extension_spec_witness :
  dotless "MP4" = true ∧
  get_file_extension ("out.v1" ++ String "." "MP4") = String "." (lowercase "MP4") ∧
  get_file_extension "MP4" = EmptyString.
Proof.
split; [reflexivity|].
apply (get_file_extension_spec "out.v1" "MP4"). reflexivity.
Defined.

(** ** Clamped arithmetic *)

(** X7. For int64 arguments, [safe_add] and [safe_sub] never overflow:
    they return the sum, respectively the difference, clamped to the
    int64 range. *)
Theorem safe_add_sub_clamp (a b : Z) :
  in_int64 a = true → in_int64 b = true →
  safe_add a b = Done (clamp64 (a + b)) ∧
  safe_sub a b = Done (clamp64 (a - b)).
Proof. intros Ha Hb. by apply safe_ops_clamp. Qed.

Lemma safe_add_sub_clamp_witness :
  in_int64 (INT64_MAX - 3) = true ∧ in_int64 10 = true ∧
  safe_add (INT64_MAX - 3) 10 = Done (clamp64 (INT64_MAX - 3 + 10)) ∧
  safe_sub (INT64_MAX - 3) 10 = Done (clamp64 (INT64_MAX - 3 - 10)).
Proof.
split; [reflexivity|]. split; [reflexivity|].
apply (safe_add_sub_clamp (INT64_MAX - 3) 10); reflexivity.
Defined.

(** ** Bounding box *)

(** X8. [get_bounding_box] returns false, with all four outputs 0, exactly
    for a game without alive cells; otherwise it returns true and the
    tight box: every alive cell lies inside, and each of the four bounds
    is the coordinate of some alive cell. *)
Theorem get_bounding_box_tight (game : GameOfLife.t) :
  cells_in_range (GameOfLife.live_cells_ game) →
  ∃ found min_x max_x min_y max_y,
    get_bounding_box game = (found, (min_x, max_x, min_y, max_y)) ∧
    (found = false ↔ GameOfLife.live_cells_ game = ∅) ∧
    (found = false → min_x = 0 ∧ max_x = 0 ∧ min_y = 0 ∧ max_y = 0) ∧
    (found = true →
     (∀ c, c ∈ GameOfLife.live_cells_ game →
           min_x <= Cell.x c <= max_x ∧ min_y <= Cell.y c <= max_y) ∧
     (∃ c, c ∈ GameOfLife.live_cells_ game ∧ Cell.x c = min_x) ∧
     (∃ c, c ∈ GameOfLife.live_cells_ game ∧ Cell.x c = max_x) ∧
     (∃ c, c ∈ GameOfLife.live_cells_ game ∧ Cell.y c = min_y) ∧
     (∃ c, c ∈ GameOfLife.live_cells_ game ∧ Cell.y c = max_y)).
Proof.
intros HS. unfold get_bounding_box.
set (cells := GameOfLife.live_cells_ game) in *.
case_bool_decide as Hempty.
- exists false, 0, 0, 0, 0. by repeat split.
- destruct (HashLife.bounding_box (elements cells)) as [[[x0 x1] y0] y1] eqn:E.
  exists true, x0, x1, y0, y1.
  destruct (bounding_box_spec _ _ _ _ _ (cells_in_range_Forall _ HS) E) as [Hin Hatt].
  split; [done|]. split; [done|]. split; [done|]. intros _.
  destruct Hatt as ((a1 & Ha1 & E1) & (a2 & Ha2 & E2) & (a3 & Ha3 & E3) & (a4 & Ha4 & E4)).
  { intros Hnil. by apply elements_empty_inv, leibniz_equiv in Hnil. }
  split; [intros c Hc; apply Hin; by apply elem_of_elements|].
  repeat split; [exists a1|exists a2|exists a3|exists a4];
    (split; [by apply elem_of_elements|done]).
Qed.

Lemma get_bounding_box_tight_witness :
  cells_in_range (GameOfLife.live_cells_ (GameOfLife.mk blinker_turned Sorted)) ∧
  ∃ found min_x max_x min_y max_y,
    get_bounding_box (GameOfLife.mk blinker_turned Sorted) =
      (found, (min_x, max_x, min_y, max_y)) ∧
    (found = false ↔ GameOfLife.live_cells_ (GameOfLife.mk blinker_turned Sorted) = ∅) ∧
    (found = false → min_x = 0 ∧ max_x = 0 ∧ min_y = 0 ∧ max_y = 0) ∧
    (found = true →
     (∀ c, c ∈ GameOfLife.live_cells_ (GameOfLife.mk blinker_turned Sorted) →
           min_x <= Cell.x c <= max_x ∧ min_y <= Cell.y c <= max_y) ∧
     (∃ c, c ∈ GameOfLife.live_cells_ (GameOfLife.mk blinker_turned Sorted) ∧ Cell.x c = min_x) ∧
     (∃ c, c ∈ GameOfLife.live_cells_ (GameOfLife.mk blinker_turned Sorted) ∧ Cell.x c = max_x) ∧
     (∃ c, c ∈ GameOfLife.live_cells_ (GameOfLife.mk blinker_turned Sorted) ∧ Cell.y c = min_y) ∧
     (∃ c, c ∈ GameOfLife.live_cells_ (GameOfLife.mk blinker_turned Sorted) ∧ Cell.y c = max_y)).
Proof.
split; [reflexivity|].
apply (get_bounding_box_tight (GameOfLife.mk blinker_turned Sorted)). reflexivity.
Defined.

(** ** Bucket indices of the quadtree engine *)

(** X9. The bucket index that [HashLifeEngine::tick] computes for an
    int64 coordinate [v] is the quotient of [v] by 64 rounded down if
    [v >= INT64_MIN + 64]; for the 64 smallest int64 values the
    subtraction [v - CHUNK_SIZE] leaves the int64 range. *)
Theorem chunk_index_spec (v : Z) :
  in_int64 v = true →
  HashLife.chunk_index v =
    if INT64_MIN + 64 <=? v then Done (v `div` 64) else Fault SignedOverflow.
Proof.
rewrite in_int64_spec. intros Hv.
destruct (Z.leb_spec (INT64_MIN + 64) v).
- apply chunk_index_floor. lia.
- apply chunk_index_fault. lia.
Qed.

Lemma chunk_index_spec_witness :
  in_int64 (-65) = true ∧
  HashLife.chunk_index (-65) =
    if INT64_MIN + 64 <=? -65 then Done ((-65) `div` 64) else Fault SignedOverflow.
Proof.
split; [reflexivity|]. apply (chunk_index_spec (-65)). reflexivity.
Defined.

(** ** The quadtree engine inside a window *)

(** X10. For every alive-set [S] that fits in a square window of side
    2^29 whose corner coordinates lie between -2^62 and 2^62, one tick of
    the HashLifeEngine returns normally, and the set it returns holds
    exactly the cells with 3 alive neighbours in [S], or with 2 alive
    neighbours while being in [S] themselves. *)
Theorem hashlife_tick_is_rule (S : CellSet) (a b : Z) :
  window_origin a → window_origin b → in_window a b S →
  ∃ S', HashLife.tick S = Done S' ∧
        ∀ c, c ∈ S' ↔ live_neighbors S c = 3%nat ∨
                       (live_neighbors S c = 2%nat ∧ c ∈ S).
Proof.
intros Ha Hb HS. exact (tick_spec_window S a b Ha Hb HS).
Qed.

Lemma hashlife_tick_is_rule_witness :
  window_origin (-5) ∧ window_origin (-5) ∧ in_window (-5) (-5) far_gliders ∧
  ∃ S', HashLife.tick far_gliders = Done S' ∧
        ∀ c, c ∈ S' ↔ live_neighbors far_gliders c = 3%nat ∨
                       (live_neighbors far_gliders c = 2%nat ∧ c ∈ far_gliders).
Proof.
split; [unfold window_origin; lia|]. split; [unfold window_origin; lia|].
split; [vm_compute; reflexivity|].
apply (hashlife_tick_is_rule far_gliders (-5) (-5));
  [unfold window_origin; lia|unfold window_origin; lia|vm_compute; reflexivity].
Defined.

(** X11. For every alive-set inside a square of side [w] and every [n]
    with [w + 2n <= 2^29] (the square, grown by [n] cells on each side,
    stays in a window of side 2^29 between -2^62 and 2^62), the three
    engines return the same alive-set after [n] successive advances, and
    none of them faults. *)
Theorem engines_agree_in_window (n : nat) (S : CellSet) (x0 y0 w : Z) :
  window_origin (x0 - Z.of_nat n) → window_origin (y0 - Z.of_nat n) →
  w + 2 * Z.of_nat n <= 2 ^ 29 → within x0 y0 w S →
  ∃ S', advance_n Hashtable n S = Done S' ∧ advance_n Sorted n S = Done S' ∧
        advance_n Hashlife n S = Done S'.
Proof. apply engines_agree_n. Qed.

Lemma engines_agree_in_window_witness :
  window_origin (0 - Z.of_nat 4) ∧ window_origin (0 - Z.of_nat 4) ∧
  3 + 2 * Z.of_nat 4 <= 2 ^ 29 ∧ within 0 0 3 glider ∧
  ∃ S', advance_n Hashtable 4 glider = Done S' ∧ advance_n Sorted 4 glider = Done S' ∧
        advance_n Hashlife 4 glider = Done S'.
Proof.
split; [unfold window_origin; lia|]. split; [unfold window_origin; lia|].
split; [lia|]. split; [vm_compute; reflexivity|].
apply (engines_agree_in_window 4 glider 0 0 3);
  [unfold window_origin; lia|unfold window_origin; lia|lia|vm_compute; reflexivity].
Defined.

(** ** The parts of the quadtree engine *)

(** X12. [SortedCells::build] orders the cells by (x, y) and keeps exactly
    the cells of the set; on the list it builds, [has_cell_in] answers
    whether some cell of the set lies in the square
    [x, x+size) x [y, y+size), provided [x + size] and [y + size] are
    int64 values, and [contains] answers whether (x, y) is in the set. *)
Theorem sorted_cells_queries (S : CellSet) (x y size : Z) :
  in_int64 (x + size) = true → in_int64 (y + size) = true →
  StronglySorted HashLife.lex_not_after (HashLife.build S) ∧
  (∀ c, c ∈ HashLife.build S ↔ c ∈ S) ∧
  (∃ b, HashLife.has_cell_in (HashLife.build S) x y size = Done b ∧
        (b = true ↔ ∃ c, c ∈ S ∧ Region.in_box x y size c)) ∧
  (HashLife.contains (HashLife.build S) x y = true ↔ Cell.mk x y ∈ S).
Proof.
intros Hx Hy. split; [apply build_sorted|]. split; [apply elem_of_build|]. split.
- destruct (has_cell_in_spec (HashLife.build S) x y size (build_sorted S) Hx Hy)
    as (b & Hb & H).
  exists b. split; [done|]. rewrite H. by setoid_rewrite elem_of_build.
- by rewrite contains_spec, elem_of_build by apply build_sorted.
Qed.

Lemma sorted_cells_queries_witness :
  in_int64 (1 + 2) = true ∧ in_int64 (-1 + 2) = true ∧
  StronglySorted HashLife.lex_not_after (HashLife.build blinker) ∧
  (∀ c, c ∈ HashLife.build blinker ↔ c ∈ blinker) ∧
  (∃ b, HashLife.has_cell_in (HashLife.build blinker) 1 (-1) 2 = Done b ∧
        (b = true ↔ ∃ c, c ∈ blinker ∧ Region.in_box 1 (-1) 2 c)) ∧
  (HashLife.contains (HashLife.build blinker) 1 (-1) = true ↔ Cell.mk 1 (-1) ∈ blinker).
Proof.
split; [reflexivity|]. split; [reflexivity|].
apply (sorted_cells_queries blinker 1 (-1) 2); reflexivity.
Defined.

(** X13. In a well-formed pool, [build_recursive] on the sorted cells of
    [S], for a square of level at most 31 that lies in the int64 range,
    returns the node of a complete quadtree of that level whose alive
    leaves are exactly the cells of [S] in the square; the pool is well
    formed again. *)
Theorem build_recursive_shows (S : CellSet) (lvl : nat) (x y : Z)
        (P : HashLife.NodePool) :
  Quad.pool_ok P → (lvl <= 31)%nat →
  INT64_MIN <= x → x + 2 ^ Z.of_nat lvl <= INT64_MAX →
  INT64_MIN <= y → y + 2 ^ Z.of_nat lvl <= INT64_MAX →
  ∃ p P' t,
    HashLife.build_recursive (HashLife.build S) x y lvl P = Done (p, P') ∧
    Quad.pool_ok P' ∧ Quad.extends P P' ∧
    Quad.repr P' p t ∧ Quad.full lvl t ∧ Region.shows t x y S.
Proof.
intros Hok Hl Hx0 Hx1 Hy0 Hy1.
destruct (build_recursive_spec (HashLife.build S) S lvl x y P Hok (build_sorted S))
  as (p & P' & Hrun & Hok' & Hext & t & Hr & Hf & Hs); [apply elem_of_build|done..|].
by exists p, P', t.
Qed.

Lemma build_recursive_shows_witness :
  Quad.pool_ok HashLife.clear ∧ (2 <= 31)%nat ∧
  INT64_MIN <= 0 ∧ 0 + 2 ^ Z.of_nat 2 <= INT64_MAX ∧
  INT64_MIN <= -1 ∧ -1 + 2 ^ Z.of_nat 2 <= INT64_MAX ∧
  ∃ p P' t,
    HashLife.build_recursive (HashLife.build blinker) 0 (-1) 2 HashLife.clear = Done (p, P') ∧
    Quad.pool_ok P' ∧ Quad.extends HashLife.clear P' ∧
    Quad.repr P' p t ∧ Quad.full 2 t ∧ Region.shows t 0 (-1) blinker.
Proof.
split; [apply pool_ok_clear|]. split; [lia|].
split; [done|]. split; [done|]. split; [done|]. split; [done|].
apply (build_recursive_shows blinker 2 0 (-1) HashLife.clear);
  [apply pool_ok_clear|lia|done..].
Defined.

(** X14. In a well-formed pool, [expand] on the node of a square [t] of
    level k + 1 < 31 returns the node of the square of level k + 2 that
    has [t] in its middle and dead cells around it, and moves the origin
    by 2^k to the north-west: whatever alive-set [t] showed at the old
    origin, the new square shows at the new origin, if the set lies in
    the old square.  [center] on the returned node gives back the node
    that was expanded. *)
Theorem expand_centres (P : HashLife.NodePool) (node : HashLife.ptr)
        (t : Quad.qt) (ox oy : Z) (k : nat) :
  Quad.pool_ok P → Quad.repr P node t → Quad.full (S k) t → (S k < 31)%nat →
  INT64_MIN <= ox - 2 ^ Z.of_nat k → ox <= INT64_MAX →
  INT64_MIN <= oy - 2 ^ Z.of_nat k → oy <= INT64_MAX →
  ∃ r P',
    HashLife.expand node ox oy P =
      Done ((r, ox - 2 ^ Z.of_nat k, oy - 2 ^ Z.of_nat k), P') ∧
    Quad.pool_ok P' ∧ Quad.extends P P' ∧
    Quad.repr P' r (Region.expand_t t) ∧ Quad.full (S (S k)) (Region.expand_t t) ∧
    (∀ C, Region.shows t ox oy C →
          (∀ c, c ∈ C → Region.in_box ox oy (2 ^ Z.of_nat (S k)) c) →
          Region.shows (Region.expand_t t) (ox - 2 ^ Z.of_nat k) (oy - 2 ^ Z.of_nat k) C) ∧
    HashLife.center r P' = Done (node, P').
Proof.
intros Hok Hr Ht Hk Hx0 Hx1 Hy0 Hy1.
destruct (expand_spec P node t ox oy k Hok Hr Ht Hk Hx0 Hx1 Hy0 Hy1)
  as ([[r ox'] oy'] & P' & Hrun & Hok' & Hext & Ex & Ey & Rr).
cbn [fst snd] in Ex, Ey, Rr. subst ox' oy'.
exists r, P'. split; [done|]. split; [done|]. split; [done|]. split; [done|].
split; [by apply full_expand_t|]. split.
- intros C Hs Hbox. by apply shows_expand_t.
- apply (center_expand P' node t k r); [done| |done..].
  by apply (repr_mono P P').
Qed.

Lemma expand_centres_witness :
  Quad.pool_ok blinker_pool ∧ Quad.repr blinker_pool blinker_root blinker_tree ∧
  Quad.full 2 blinker_tree ∧ (2 < 31)%nat ∧
  INT64_MIN <= 0 - 2 ^ Z.of_nat 1 ∧ 0 <= INT64_MAX ∧
  INT64_MIN <= 0 - 2 ^ Z.of_nat 1 ∧ 0 <= INT64_MAX ∧
  ∃ r P',
    HashLife.expand blinker_root 0 0 blinker_pool =
      Done ((r, 0 - 2 ^ Z.of_nat 1, 0 - 2 ^ Z.of_nat 1), P') ∧
    Quad.pool_ok P' ∧ Quad.extends blinker_pool P' ∧
    Quad.repr P' r (Region.expand_t blinker_tree) ∧
    Quad.full 3 (Region.expand_t blinker_tree) ∧
    (∀ C, Region.shows blinker_tree 0 0 C →
          (∀ c, c ∈ C → Region.in_box 0 0 (2 ^ Z.of_nat 2) c) →
          Region.shows (Region.expand_t blinker_tree)
                       (0 - 2 ^ Z.of_nat 1) (0 - 2 ^ Z.of_nat 1) C) ∧
    HashLife.center r P' = Done (blinker_root, P').
Proof.
split; [apply blinker_pool_ok|]. split; [apply blinker_pool_ok|].
split; [by simpl|]. split; [lia|].
split; [done|]. split; [done|]. split; [done|]. split; [done|].
apply (expand_centres blinker_pool blinker_root blinker_tree 0 0 1);
  [apply blinker_pool_ok|apply blinker_pool_ok|by simpl|lia|done..].
Defined.

(** X15. In a well-formed pool, [flatten] on the node of a square of
    level k at (x, y), the square lying in the int64 range, leaves the
    pool as it is and adds to [cells] exactly the cells (x + i, y + j)
    whose leaf (i, j) is alive; a subtree of population 0 is skipped
    without loss. *)
Theorem flatten_emits_alive_leaves (P : HashLife.NodePool) (node : HashLife.ptr)
        (t : Quad.qt) (k : nat) (x y : Z) (cells : CellSet) :
  Quad.pool_ok P → Quad.repr P node t → Quad.full k t → (k <= 62)%nat →
  INT64_MIN <= x → x + 2 ^ Z.of_nat k <= INT64_MAX →
  INT64_MIN <= y → y + 2 ^ Z.of_nat k <= INT64_MAX →
  ∃ cells',
    HashLife.flatten (S k) node x y cells P = Done (cells', P) ∧
    ∀ c, c ∈ cells' ↔
         c ∈ cells ∨
         ∃ i j, 0 <= i < 2 ^ Z.of_nat k ∧ 0 <= j < 2 ^ Z.of_nat k ∧
                Quad.alive_at t i j = true ∧ c = Cell.mk (x + i) (y + j).
Proof.
intros Hok Hr Ht Hk Hx0 Hx1 Hy0 Hy1.
apply (flatten_spec k (S k) P node t x y cells); (done || lia).
Qed.

Lemma flatten_emits_alive_leaves_witness :
  Quad.pool_ok blinker_pool ∧ Quad.repr blinker_pool blinker_root blinker_tree ∧
  Quad.full 2 blinker_tree ∧ (2 <= 62)%nat ∧
  INT64_MIN <= 10 ∧ 10 + 2 ^ Z.of_nat 2 <= INT64_MAX ∧
  INT64_MIN <= -7 ∧ -7 + 2 ^ Z.of_nat 2 <= INT64_MAX ∧
  ∃ cells',
    HashLife.flatten 3 blinker_root 10 (-7) ∅ blinker_pool = Done (cells', blinker_pool) ∧
    ∀ c, c ∈ cells' ↔
         c ∈ (∅ : CellSet) ∨
         ∃ i j, 0 <= i < 2 ^ Z.of_nat 2 ∧ 0 <= j < 2 ^ Z.of_nat 2 ∧
                Quad.alive_at blinker_tree i j = true ∧ c = Cell.mk (10 + i) (-7 + j).
Proof.
split; [apply blinker_pool_ok|]. split; [apply blinker_pool_ok|].
split; [by simpl|]. split; [lia|].
split; [done|]. split; [done|]. split; [done|]. split; [done|].
apply (flatten_emits_alive_leaves blinker_pool blinker_root blinker_tree 2 10 (-7) ∅);
  [apply blinker_pool_ok|apply blinker_pool_ok|by simpl|lia|done..].
Defined.

(** X16. In a well-formed pool, [step_cluster] on an alive-set that fits
    in a window of side 2^29 between -2^62 and 2^62 returns normally; the
    set it returns is the next generation of the set under the rule, and
    the pool is well formed again.  The empty set is returned as it
    is. *)
Theorem step_cluster_is_rule (C : CellSet) (P : HashLife.NodePool) (a b : Z) :
  Quad.pool_ok P → window_origin a → window_origin b → in_window a b C →
  ∃ C' P',
    HashLife.step_cluster C P = Done (C', P') ∧
    Quad.pool_ok P' ∧ Quad.extends P P' ∧
    (∀ c, c ∈ C' ↔ live_neighbors C c = 3%nat ∨
                   (live_neighbors C c = 2%nat ∧ c ∈ C)) ∧
    (C = ∅ → C' = ∅ ∧ P' = P).
Proof.
intros Hok Ha Hb HC.
destruct (step_cluster_spec C P a b Hok Ha Hb HC) as (C' & P' & Hrun & Hok' & Hext & H).
exists C', P'. split; [done|]. split; [done|]. split; [done|]. split; [exact H|].
intros ->. unfold HashLife.step_cluster in Hrun.
rewrite bool_decide_eq_true_2 in Hrun by done. by injection Hrun as <- <-.
Qed.

Lemma step_cluster_is_rule_witness :
  Quad.pool_ok HashLife.clear ∧ window_origin (-4) ∧ window_origin (-4) ∧
  in_window (-4) (-4) glider ∧
  ∃ C' P',
    HashLife.step_cluster glider HashLife.clear = Done (C', P') ∧
    Quad.pool_ok P' ∧ Quad.extends HashLife.clear P' ∧
    (∀ c, c ∈ C' ↔ live_neighbors glider c = 3%nat ∨
                   (live_neighbors glider c = 2%nat ∧ c ∈ glider)) ∧
    (glider = ∅ → C' = ∅ ∧ P' = HashLife.clear).
Proof.
split; [apply pool_ok_clear|]. split; [unfold window_origin; lia|].
split; [unfold window_origin; lia|]. split; [vm_compute; reflexivity|].
apply (step_cluster_is_rule glider HashLife.clear (-4) (-4));
  [apply pool_ok_clear|unfold window_origin; lia|unfold window_origin; lia
  |vm_compute; reflexivity].
Defined.

(** X17. On a parent map that is a forest over the keys [D], [find] with
    fuel for more than [size D] nested calls returns the root of [k], the
    map is a forest again, and every key keeps its root (path compression
    changes no class); [unite] afterwards leaves [a] and [b] in one class
    and separates no two keys that were in one class. *)
Theorem union_find_joins (D : gset HashLife.ChunkKey) (rank : HashLife.ChunkKey → nat)
        (parent : HashLife.Parent) (a b : HashLife.ChunkKey) :
  UnionFind.forest D rank parent → a ∈ D → b ∈ D →
  (∃ r parent',
     HashLife.find (S (size D)) parent a = Done (r, parent') ∧
     UnionFind.root_of parent a r ∧ parent' !! r = Some r ∧
     UnionFind.forest D rank parent' ∧
     ∀ j r', UnionFind.root_of parent j r' → UnionFind.root_of parent' j r') ∧
  (∃ parent',
     HashLife.unite (S (size D)) parent a b = Done parent' ∧
     UnionFind.is_forest D parent' ∧
     UnionFind.same parent' a b ∧
     ∀ j1 j2, UnionFind.same parent j1 j2 → UnionFind.same parent' j1 j2).
Proof.
intros F Ha Hb. split.
- destruct (find_spec D rank (S (size D)) parent a F Ha) as (r & parent' & Hf & Hr & F' & K).
  { pose proof (above_le D rank a). lia. }
  exists r, parent'. split; [done|]. split; [done|]. split; [|done].
  apply (root_of_root parent' a). by apply K.
- apply (unite_spec D); [by exists rank|done|done|lia].
Qed.

Lemma union_find_joins_witness :
  UnionFind.forest two_keys two_ranks two_buckets ∧
  HashLife.ChunkKey.mk 0 0 ∈ two_keys ∧ HashLife.ChunkKey.mk 1 0 ∈ two_keys ∧
  (∃ r parent',
     HashLife.find (S (size two_keys)) two_buckets (HashLife.ChunkKey.mk 0 0) =
       Done (r, parent') ∧
     UnionFind.root_of two_buckets (HashLife.ChunkKey.mk 0 0) r ∧ parent' !! r = Some r ∧
     UnionFind.forest two_keys two_ranks parent' ∧
     ∀ j r', UnionFind.root_of two_buckets j r' → UnionFind.root_of parent' j r') ∧
  (∃ parent',
     HashLife.unite (S (size two_keys)) two_buckets
                    (HashLife.ChunkKey.mk 0 0) (HashLife.ChunkKey.mk 1 0) = Done parent' ∧
     UnionFind.is_forest two_keys parent' ∧
     UnionFind.same parent' (HashLife.ChunkKey.mk 0 0) (HashLife.ChunkKey.mk 1 0) ∧
     ∀ j1 j2, UnionFind.same two_buckets j1 j2 → UnionFind.same parent' j1 j2).
Proof.
split; [apply two_buckets_forest|].
split; [vm_compute; reflexivity|]. split; [vm_compute; reflexivity|].
apply (union_find_joins two_keys two_ranks two_buckets
         (HashLife.ChunkKey.mk 0 0) (HashLife.ChunkKey.mk 1 0));
  [apply two_buckets_forest|vm_compute; reflexivity|vm_compute; reflexivity].
Defined.

(** X18. In a well-formed pool, [empty_node] for a level up to 31 returns
    the node of the all-dead square of that level, of population 0, and
    the pool is well formed again; asked again, it returns the same node
    and leaves the pool as it is. *)
Theorem empty_node_cached (l : nat) (P : HashLife.NodePool) :
  Quad.pool_ok P → (l <= 31)%nat →
  ∃ p P' n,
    HashLife.empty_node l P = Done (p, P') ∧
    Quad.pool_ok P' ∧ Quad.extends P P' ∧
    Quad.repr P' p (Quad.empty_t l) ∧
    HashLife.arena P' !! p = Some n ∧
    HashLife.level n = l ∧ HashLife.population n = 0 ∧
    HashLife.empty_node l P' = Done (p, P').
Proof.
intros Hok Hl.
destruct (runs_returns _ _ _ (empty_node_runs true l P Hok (λ _, Hl)))
  as (p & P' & Hrun & Hok' & Hext & Hr).
destruct (repr_lookup P' p _ Hok' Hr) as (n & Hn & Hlvl & Hpop & _).
rewrite depth_empty_t in Hlvl. rewrite pop_empty_t in Hpop.
exists p, P', n.
split; [done|]. split; [done|]. split; [done|]. split; [done|].
split; [done|]. split; [done|]. split; [done|].
by apply (empty_node_twice l P).
Qed.

Lemma empty_node_cached_witness :
  Quad.pool_ok blinker_pool ∧ (3 <= 31)%nat ∧
  ∃ p P' n,
    HashLife.empty_node 3 blinker_pool = Done (p, P') ∧
    Quad.pool_ok P' ∧ Quad.extends blinker_pool P' ∧
    Quad.repr P' p (Quad.empty_t 3) ∧
    HashLife.arena P' !! p = Some n ∧
    HashLife.level n = 3%nat ∧ HashLife.population n = 0 ∧
    HashLife.empty_node 3 P' = Done (p, P').
Proof.
split; [apply blinker_pool_ok|]. split; [lia|].
apply (empty_node_cached 3 blinker_pool); [apply blinker_pool_ok|lia].
Defined.

(** X19. In a well-formed pool, [center] on the node of a square [t] of
    level k + 2 <= 32 returns the node of the square of level k + 1 whose
    cell (x, y) is the cell (x + 2^k, y + 2^k) of [t]: the centre of
    [t], with no generation computed. *)
Theorem center_is_the_centre (P : HashLife.NodePool) (p : HashLife.ptr)
        (t : Quad.qt) (k : nat) :
  Quad.pool_ok P → Quad.repr P p t → Quad.full (S (S k)) t → (k < 31)%nat →
  ∃ r P' u,
    HashLife.center p P = Done (r, P') ∧
    Quad.pool_ok P' ∧ Quad.extends P P' ∧
    Quad.repr P' r u ∧ Quad.full (S k) u ∧
    ∀ x y, 0 <= x < 2 ^ Z.of_nat (S k) → 0 <= y < 2 ^ Z.of_nat (S k) →
           Quad.alive_at u x y =
           Quad.alive_at t (x + 2 ^ Z.of_nat k) (y + 2 ^ Z.of_nat k).
Proof.
intros Hok Hr Ht Hk.
destruct (runs_returns _ _ _ (center_spec true P p t k Hok Hr Ht (λ _, Hk)))
  as (r & P' & Hrun & Hok' & Hext & Rr).
pose proof (full_center_t k t Ht) as Fc.
exists r, P', (Quad.center_t t).
split; [done|]. split; [done|]. split; [done|]. split; [done|]. split; [done|].
intros x y Hx Hy.
pose proof (window_center t t 0 0 k Ht (window_refl t)) as Hw.
unfold Quad.window in Hw. rewrite (full_depth _ _ Fc) in Hw.
rewrite (Hw x y Hx Hy). f_equal; lia.
Qed.

Lemma center_is_the_centre_witness :
  Quad.pool_ok blinker_pool ∧ Quad.repr blinker_pool blinker_root blinker_tree ∧
  Quad.full 2 blinker_tree ∧ (0 < 31)%nat ∧
  ∃ r P' u,
    HashLife.center blinker_root blinker_pool = Done (r, P') ∧
    Quad.pool_ok P' ∧ Quad.extends blinker_pool P' ∧
    Quad.repr P' r u ∧ Quad.full 1 u ∧
    ∀ x y, 0 <= x < 2 ^ Z.of_nat 1 → 0 <= y < 2 ^ Z.of_nat 1 →
           Quad.alive_at u x y =
           Quad.alive_at blinker_tree (x + 2 ^ Z.of_nat 0) (y + 2 ^ Z.of_nat 0).
Proof.
split; [apply blinker_pool_ok|]. split; [apply blinker_pool_ok|].
split; [by simpl|]. split; [lia|].
apply (center_is_the_centre blinker_pool blinker_root blinker_tree 0);
  [apply blinker_pool_ok|apply blinker_pool_ok|by simpl|lia].
Defined.

(** ** Reading and writing Life 1.06 text *)

(** X20. For an alive-set with int64 coordinates, [write] never stores
    past the end of its 8192-byte buffer, and the stream receives the
    header line followed by one line "x y" per alive cell and nothing
    else, each cell once; with [sorted] set, the lines come in ascending
    order of x, and of y among equal x. *)
Theorem write_emits_lines (cells : CellSet) (sorted : bool) :
  LifeText.cells_int64 (elements cells) →
  ∃ order,
    LifeText.write cells sorted =
      Done (LifeText.kHeader +:+
            LifeText.concat_lines (map LifeText.cell_line order)) ∧
    order ≡ₚ elements cells ∧
    (sorted = true →
     ∀ i j a b, order !! i = Some a → order !! j = Some b → (i < j)%nat →
       Cell.x a < Cell.x b ∨ (Cell.x a = Cell.x b ∧ Cell.y a < Cell.y b)).
Proof.
intros Hc. rewrite (write_text cells sorted Hc). destruct sorted.
- exists (SortedVectorEngine.sort_cells (elements cells)).
  split; [done|]. split; [apply sort_cells_Permutation|].
  intros _ i j a b Hi Hj Hlt.
  pose proof (sorted_lookup _ _ i j a b (sort_cells_sorted (elements cells)) Hi Hj Hlt)
    as Hab.
  apply not_after_spec in Hab.
  assert (a ≠ b) as Hne.
  { intros ->.
    assert (NoDup (SortedVectorEngine.sort_cells (elements cells))) as Hnd.
    { rewrite sort_cells_Permutation. apply NoDup_elements. }
    pose proof (NoDup_lookup _ _ _ _ Hnd Hi Hj). lia. }
  destruct a as [ax ay], b as [bx b_y]. simpl in *.
  destruct Hab as [?|[-> Hy]]; [by left|]. right. split; [done|].
  destruct (decide (ay = b_y)) as [->|]; [done|lia].
- exists (elements cells). split; [done|]. split; [done|]. done.
Qed.

Lemma write_emits_lines_witness :
  LifeText.cells_int64 (elements blinker) ∧
  ∃ order,
    LifeText.write blinker true =
      Done (LifeText.kHeader +:+
            LifeText.concat_lines (map LifeText.cell_line order)) ∧
    order ≡ₚ elements blinker ∧
    (true = true →
     ∀ i j a b, order !! i = Some a → order !! j = Some b → (i < j)%nat →
       Cell.x a < Cell.x b ∨ (Cell.x a = Cell.x b ∧ Cell.y a < Cell.y b)).
Proof.
split; [vm_compute; reflexivity|].
apply (write_emits_lines blinker true). vm_compute; reflexivity.
Defined.

(** X21. What [write] (sorted or not) and [format] emit for a game with
    int64 coordinates is accepted by [parse], which returns the same
    alive-set; with the engine of the game, the same game. *)
Theorem write_parse_round_trip (g : GameOfLife.t) (sorted : bool) :
  LifeText.cells_int64 (elements (GameOfLife.live_cells_ g)) →
  (∃ text, LifeText.write (GameOfLife.live_cells_ g) sorted = Done text ∧
           LifeText.parse_cells text = Returned (GameOfLife.live_cells_ g) ∧
           LifeText.parse text (GameOfLife.engine_ g) = Returned g) ∧
  (∃ text, LifeText.format g = Done text ∧
           LifeText.parse text (GameOfLife.engine_ g) = Returned g).
Proof.
intros Hc.
assert (∀ b, ∃ text,
          LifeText.write (GameOfLife.live_cells_ g) b = Done text ∧
          LifeText.parse_cells text = Returned (GameOfLife.live_cells_ g) ∧
          LifeText.parse text (GameOfLife.engine_ g) = Returned g) as H.
{ intros b. eexists. split; [apply (write_text _ b Hc)|].
  assert (LifeText.parse_cells
            (LifeText.kHeader +:+
             LifeText.concat_lines
               (map LifeText.cell_line
                  (if b
                   then SortedVectorEngine.sort_cells
                          (elements (GameOfLife.live_cells_ g))
                   else elements (GameOfLife.live_cells_ g))))
          = Returned (GameOfLife.live_cells_ g)) as E.
  { apply parse_cells_round; [|done].
    destruct b; [apply sort_cells_Permutation|done]. }
  split; [done|]. unfold LifeText.parse. rewrite E. by destruct g. }
split; [apply H|].
destruct (H false) as (text & Hw & _ & Hp). by exists text.
Qed.

Lemma write_parse_round_trip_witness :
  LifeText.cells_int64
    (elements (GameOfLife.live_cells_ (GameOfLife.mk boundary_trap Sorted))) ∧
  (∃ text,
     LifeText.write (GameOfLife.live_cells_ (GameOfLife.mk boundary_trap Sorted)) true
       = Done text ∧
     LifeText.parse_cells text =
       Returned (GameOfLife.live_cells_ (GameOfLife.mk boundary_trap Sorted)) ∧
     LifeText.parse text (GameOfLife.engine_ (GameOfLife.mk boundary_trap Sorted)) =
       Returned (GameOfLife.mk boundary_trap Sorted)) ∧
  (∃ text,
     LifeText.format (GameOfLife.mk boundary_trap Sorted) = Done text ∧
     LifeText.parse text (GameOfLife.engine_ (GameOfLife.mk boundary_trap Sorted)) =
       Returned (GameOfLife.mk boundary_trap Sorted)).
Proof.
split; [vm_compute; reflexivity|].
apply (write_parse_round_trip (GameOfLife.mk boundary_trap Sorted) true).
vm_compute; reflexivity.
Defined.

(** X22. [parse_cells] accepts a text made of blank lines, the header
    line "#Life 1.06", and then lines that are either blank or hold two
    decimal int64 numbers with at least one space or tab between them;
    spaces and tabs may come before the first number, and spaces, tabs
    and carriage returns at the end of any line.  It returns the set of
    the cells of the lines, whatever their order and however often a cell
    is repeated. *)
Theorem parse_cells_accepts (blanks : list string) (pad : string)
        (items : list LifeText.item) :
  forallb (LifeText.all_chars LifeText.inline_space) blanks = true →
  LifeText.all_chars LifeText.inline_space pad = true →
  forallb LifeText.item_ok items = true →
  LifeText.parse_cells
    (LifeText.concat_lines
       (map (λ ws, LifeText.item_text (LifeText.Blank ws)) blanks) +:+
     "#Life 1.06" +:+ pad +:+
     String LifeText.nl (LifeText.concat_lines (map LifeText.item_text items))) =
  Returned (list_to_set (items ≫= LifeText.item_cells)).
Proof. apply parse_cells_text. Qed.

Lemma parse_cells_accepts_witness :
  forallb (LifeText.all_chars LifeText.inline_space) [" "] = true ∧
  LifeText.all_chars LifeText.inline_space (String LifeText.cr EmptyString) = true ∧
  forallb LifeText.item_ok
    [LifeText.Entry " " (Cell.mk (-3) 5) (String LifeText.tab " ")
                    (String LifeText.cr EmptyString);
     LifeText.Blank EmptyString;
     LifeText.Entry EmptyString (Cell.mk INT64_MAX INT64_MIN) " " " ";
     LifeText.Entry EmptyString (Cell.mk (-3) 5) " " EmptyString] = true ∧
  LifeText.parse_cells
    (LifeText.concat_lines
       (map (λ ws, LifeText.item_text (LifeText.Blank ws)) [" "]) +:+
     "#Life 1.06" +:+ String LifeText.cr EmptyString +:+
     String LifeText.nl
       (LifeText.concat_lines
          (map LifeText.item_text
               [LifeText.Entry " " (Cell.mk (-3) 5) (String LifeText.tab " ")
                               (String LifeText.cr EmptyString);
                LifeText.Blank EmptyString;
                LifeText.Entry EmptyString (Cell.mk INT64_MAX INT64_MIN) " " " ";
                LifeText.Entry EmptyString (Cell.mk (-3) 5) " " EmptyString]))) =
  Returned
    (list_to_set
       ([LifeText.Entry " " (Cell.mk (-3) 5) (String LifeText.tab " ")
                        (String LifeText.cr EmptyString);
         LifeText.Blank EmptyString;
         LifeText.Entry EmptyString (Cell.mk INT64_MAX INT64_MIN) " " " ";
         LifeText.Entry EmptyString (Cell.mk (-3) 5) " " EmptyString]
          ≫= LifeText.item_cells)).
Proof.
split; [reflexivity|]. split; [reflexivity|]. split; [vm_compute; reflexivity|].
apply (parse_cells_accepts [" "] (String LifeText.cr EmptyString)); 
  [reflexivity|reflexivity|vm_compute; reflexivity].
Defined.

(** X23. On every input [parse_cells] either returns or throws a
    [runtime_error] whose message starts with "Invalid Life 1.06 file: ";
    the loop ends on every input.  Every cell it returns has int64
    coordinates: a number outside the int64 range is rejected, not
    wrapped. *)
Theorem parse_cells_outcome (input : string) :
  (∃ cells, LifeText.parse_cells input = Returned cells ∧
            ∀ c, c ∈ cells →
                 INT64_MIN <= Cell.x c <= INT64_MAX ∧
                 INT64_MIN <= Cell.y c <= INT64_MAX) ∨
  (∃ what, LifeText.parse_cells input = Threw what tt ∧
           String.prefix "Invalid Life 1.06 file: " what = true).
Proof.
pose proof (parse_loop_outcome (S (String.length input)) input false ∅) as H.
unfold LifeText.parse_cells.
destruct (LifeText.parse_loop (S (String.length input)) input false ∅)
  as [cells|what []|f].
- left. exists cells. split; [done|]. intros c Hc.
  destruct (H ltac:(lia) ltac:(set_solver) c Hc) as [Hx Hy].
  by rewrite <- !in_int64_spec.
- right. exists what. split; [done|]. apply H; [lia|set_solver].
- exfalso. apply H; [lia|set_solver].
Qed.

(** X24. A text that holds nothing but spaces, tabs, carriage returns
    and newlines (the empty text too) is rejected by [parse_cells] with
    the message for a missing header. *)
Theorem parse_cells_no_header (input : string) :
  LifeText.all_chars LifeText.is_space input = true →
  LifeText.parse_cells input = Threw LifeText.no_header tt.
Proof.
intros H. apply parse_loop_spaces; [done|lia].
Qed.

Lemma parse_cells_no_header_witness :
  LifeText.all_chars LifeText.is_space
    (String LifeText.nl (String " " (String LifeText.nl EmptyString))) = true ∧
  LifeText.parse_cells
    (String LifeText.nl (String " " (String LifeText.nl EmptyString))) =
  Threw LifeText.no_header tt.
Proof.
split; [reflexivity|].
apply (parse_cells_no_header
         (String LifeText.nl (String " " (String LifeText.nl EmptyString)))).
reflexivity.
Defined.

(** X25. If the first line that is not blank is, once its trailing
    spaces are trimmed, anything else than "#Life 1.06", [parse_cells]
    throws the message for an invalid header, whatever follows that
    line; so coordinates before the header are rejected. *)
Theorem parse_cells_bad_header (blanks : list string) (line rest : string)
        (e : nat) :
  forallb (LifeText.all_chars LifeText.inline_space) blanks = true →
  LifeText.all_chars (λ c, negb (Ascii.eqb c LifeText.nl)) line = true →
  LifeText.find_last_not_of line = Some e →
  LifeText.resize (e + 1) line ≠ "#Life 1.06" →
  LifeText.parse_cells
    (LifeText.concat_lines
       (map (λ ws, LifeText.item_text (LifeText.Blank ws)) blanks) +:+
     line +:+ String LifeText.nl rest) =
  Threw LifeText.bad_header tt.
Proof.
intros Hb Hnl He Hne. unfold LifeText.parse_cells.
destruct (parse_loop_blanks blanks
            (S (String.length
                  (LifeText.concat_lines
                     (map (λ ws, LifeText.item_text (LifeText.Blank ws)) blanks) +:+
                   line +:+ String LifeText.nl rest)))
            (line +:+ String LifeText.nl rest) false ∅ Hb) as (f1 & Hf1 & ->); [lia|].
destruct f1 as [|f1]; [lia|].
by apply (parse_loop_bad_header f1 line rest ∅ e).
Qed.

Lemma parse_cells_bad_header_witness :
  forallb (LifeText.all_chars LifeText.inline_space) [EmptyString] = true ∧
  LifeText.all_chars (λ c, negb (Ascii.eqb c LifeText.nl)) "0 1 " = true ∧
  LifeText.find_last_not_of "0 1 " = Some 2%nat ∧
  LifeText.resize (2 + 1) "0 1 " ≠ "#Life 1.06" ∧
  LifeText.parse_cells
    (LifeText.concat_lines
       (map (λ ws, LifeText.item_text (LifeText.Blank ws)) [EmptyString]) +:+
     "0 1 " +:+ String LifeText.nl LifeText.kHeader) =
  Threw LifeText.bad_header tt.
Proof.
split; [reflexivity|]. split; [reflexivity|]. split; [reflexivity|].
split; [discriminate|].
apply (parse_cells_bad_header [EmptyString] "0 1 " LifeText.kHeader 2);
  [reflexivity|reflexivity|reflexivity|discriminate].
Defined.

(** ** Numbers on the command line *)

(** X26. Whenever [parse_positive_int] accepts a string, the number it
    stores lies between 0 and [INT_MAX], and the string holds nothing but
    spaces, signs and digits: trailing garbage is rejected.  On the
    decimal form of an int64 number it succeeds exactly when the number
    lies between 0 and [INT_MAX], and then stores that number: 0 is
    accepted, negative numbers and numbers above [INT_MAX] are not. *)
Theorem parse_positive_int_spec (s : string) (v w : Z) :
  in_int64 w = true →
  (parse_positive_int (Some s) = Some v →
   0 <= v <= INT_MAX ∧ s ≠ EmptyString ∧ LifeText.all_chars number_char s = true) ∧
  parse_positive_int (Some (LifeText.decimal w)) =
    (if (0 <=? w) && (w <=? INT_MAX) then Some w else None).
Proof.
intros Hw.
assert (∀ s', s' ≠ EmptyString →
          parse_positive_int (Some s') =
          let '(val, end_, erange) := strtol s' in
          if negb (String.eqb end_ EmptyString) then None
          else if erange || (val <? 0) || (INT_MAX <? val) then None
          else Some val) as Hunfold.
{ intros s' Hs'. by destruct s'. }
split.
- intros H.
  assert (s ≠ EmptyString) as Hs by (by intros ->).
  rewrite (Hunfold s Hs) in H.
  destruct (strtol s) as [[val end_] erange] eqn:E.
  destruct (String.eqb_spec end_ EmptyString) as [->|]; [|done]. cbn [negb] in H.
  destruct erange; [done|]. cbn [orb] in H.
  destruct (Z.ltb_spec val 0); [done|]. cbn [orb] in H.
  destruct (Z.ltb_spec INT_MAX val); [done|]. injection H as ->.
  split; [done|]. split; [done|]. by apply (strtol_all s v false).
- rewrite Hunfold.
  + rewrite (strtol_decimal w Hw). cbn [negb orb String.eqb].
    destruct (Z.ltb_spec w 0), (Z.leb_spec 0 w); try lia; [done|].
    cbn [orb andb]. by destruct (Z.ltb_spec INT_MAX w), (Z.leb_spec w INT_MAX); try lia.
  + intros E'. pose proof (length_decimal w Hw) as Hl. rewrite E' in Hl.
    simpl in Hl. lia.
Qed.

Lemma parse_positive_int_spec_witness :
  in_int64 0 = true ∧
  (parse_positive_int (Some " +030") = Some 30 →
   0 <= 30 <= INT_MAX ∧ " +030" ≠ EmptyString ∧
   LifeText.all_chars number_char " +030" = true) ∧
  parse_positive_int (Some (LifeText.decimal 0)) =
    (if (0 <=? 0) && (0 <=? INT_MAX) then Some 0 else None).
Proof.
split; [reflexivity|]. apply (parse_positive_int_spec " +030" 30 0). reflexivity.
Defined.

(** ** The quadtree engine on groups that lie far apart *)

(** X27. For every alive-set whose cells lie in windows of side 2^29,
    the windows between -2^62 and 2^62 and pairwise at least 128 cells
    apart, one tick of the HashLifeEngine returns normally and returns
    exactly the cells with 3 alive neighbours in the set, or with 2 alive
    neighbours while being in the set: the clusters are stepped one by
    one and together give the next generation of the whole set. *)
Theorem hashlife_tick_far_apart (S : CellSet) (ws : list (Z * Z)) :
  in_windows ws S →
  ∃ S', HashLife.tick S = Done S' ∧
        ∀ c, c ∈ S' ↔ live_neighbors S c = 3%nat ∨
                       (live_neighbors S c = 2%nat ∧ c ∈ S).
Proof.
intros HS.
destruct (tick_in_pool_windows S ws HashLife.clear pool_ok_clear HS)
  as (S' & P' & Hrun & _ & _ & H).
exists S'. unfold HashLife.tick. by rewrite Hrun.
Qed.

Lemma hashlife_tick_far_apart_witness :
  in_windows [(-5, -5); (1099511627771, -5)] (glider ∪ far_glider) ∧
  ∃ S', HashLife.tick (glider ∪ far_glider) = Done S' ∧
        ∀ c, c ∈ S' ↔ live_neighbors (glider ∪ far_glider) c = 3%nat ∨
                       (live_neighbors (glider ∪ far_glider) c = 2%nat ∧
                        c ∈ glider ∪ far_glider).
Proof.
assert (in_windows [(-5, -5); (1099511627771, -5)] (glider ∪ far_glider)) as H.
{ unfold in_windows, well_inside. split; [reflexivity|]. split; vm_compute; reflexivity. }
split; [exact H|].
exact (hashlife_tick_far_apart (glider ∪ far_glider)
         [(-5, -5); (1099511627771, -5)] H).
Defined.

(** X28. For every alive-set whose cells lie at least [n] cells inside
    windows of side 2^29, the windows between -2^62 and 2^62 and pairwise
    at least 128 cells apart, the three engines return the same alive-set
    after [n] successive advances, and none of them faults. *)
Theorem engines_agree_far_apart (n : nat) (S : CellSet) (ws : list (Z * Z)) :
  well_inside (Z.of_nat n) ws S →
  ∃ S', advance_n Hashtable n S = Done S' ∧ advance_n Sorted n S = Done S' ∧
        advance_n Hashlife n S = Done S'.
Proof. apply engines_agree_far. Qed.

Lemma engines_agree_far_apart_witness :
  well_inside (Z.of_nat 3) [(-5, -5); (1099511627771, -5)] (glider ∪ far_glider) ∧
  ∃ S', advance_n Hashtable 3 (glider ∪ far_glider) = Done S' ∧
        advance_n Sorted 3 (glider ∪ far_glider) = Done S' ∧
        advance_n Hashlife 3 (glider ∪ far_glider) = Done S'.
Proof.
assert (well_inside (Z.of_nat 3) [(-5, -5); (1099511627771, -5)]
                    (glider ∪ far_glider)) as H.
{ unfold well_inside. split; [reflexivity|]. split; vm_compute; reflexivity. }
split; [exact H|].
exact (engines_agree_far_apart 3 (glider ∪ far_glider)
         [(-5, -5); (1099511627771, -5)] H).
Defined.

(** ** The viewport of the PNG frames *)

(** X29. For int64 bounds with [min <= max] on both axes, the head of
    [render_frame_fixed_viewport] computes the width and the height of
    the viewport without overflow when both spans [max - min] are below
    2^63 - 1, and rejects a width or height above
    [config.max_cells_dimension].  Its guard rejects a span above
    2^63 - 1 whose upper bound is positive; it lets the span 2^63 - 1
    through, where [max_x - min_x + 1] overflows. *)
Theorem viewport_cells_spec (m min_x max_x min_y max_y : Z) :
  in_int64 min_x = true → in_int64 max_x = true →
  in_int64 min_y = true → in_int64 max_y = true →
  min_x <= max_x → min_y <= max_y →
  (max_x - min_x < INT64_MAX → max_y - min_y < INT64_MAX →
   viewport_cells m min_x max_x min_y max_y =
   Done (if (m <? max_x - min_x + 1) || (m <? max_y - min_y + 1)
         then None else Some (max_x - min_x + 1, max_y - min_y + 1))) ∧
  (INT64_MAX < max_x - min_x → 0 < max_x →
   viewport_cells m min_x max_x min_y max_y = Done None) ∧
  (max_x - min_x = INT64_MAX → max_y - min_y <= INT64_MAX →
   viewport_cells m min_x max_x min_y max_y = Fault SignedOverflow).
Proof.
intros Hx0 Hx1 Hy0 Hy1 Hx Hy. split; [|split].
- by apply viewport_cells_safe.
- intros Hs Hpos. unfold viewport_cells. rewrite (span_guard_spec _ _ Hx0 Hx1).
  cbn [mbind outcome_bind].
  destruct (Z.ltb_spec 0 max_x); [|lia].
  by destruct (Z.ltb_spec INT64_MAX (max_x - min_x)); [|lia].
- intros Hs Hsy. unfold viewport_cells.
  rewrite (span_guard_spec _ _ Hx0 Hx1), (span_guard_spec _ _ Hy0 Hy1).
  cbn [mbind outcome_bind].
  destruct (Z.ltb_spec INT64_MAX (max_x - min_x)); [lia|]. rewrite andb_false_r.
  destruct (Z.ltb_spec INT64_MAX (max_y - min_y)); [lia|]. rewrite andb_false_r.
  rewrite (bind_assoc_eq _ _ _ _ (span_overflow _ _ Hx0 Hx1 ltac:(lia))).
  done.
Qed.

Lemma viewport_cells_spec_witness :
  in_int64 0 = true ∧ in_int64 INT64_MAX = true ∧
  in_int64 (-3) = true ∧ in_int64 4 = true ∧ 0 <= INT64_MAX ∧ -3 <= 4 ∧
  (INT64_MAX - 0 < INT64_MAX → 4 - -3 < INT64_MAX →
   viewport_cells 10000 0 INT64_MAX (-3) 4 =
   Done (if (10000 <? INT64_MAX - 0 + 1) || (10000 <? 4 - -3 + 1)
         then None else Some (INT64_MAX - 0 + 1, 4 - -3 + 1))) ∧
  (INT64_MAX < INT64_MAX - 0 → 0 < INT64_MAX →
   viewport_cells 10000 0 INT64_MAX (-3) 4 = Done None) ∧
  (INT64_MAX - 0 = INT64_MAX → 4 - -3 <= INT64_MAX →
   viewport_cells 10000 0 INT64_MAX (-3) 4 = Fault SignedOverflow).
Proof.
split; [reflexivity|]. split; [reflexivity|]. split; [reflexivity|].
split; [reflexivity|]. split; [done|]. split; [done|].
apply (viewport_cells_spec 10000 0 INT64_MAX (-3) 4); (reflexivity || done).
Defined.

(** X30. [main] fixes the viewport from the bounding box of the pattern.
    If the box is at most 10000 cells wide and high and
    [padding + iterations / 2] fits an [int], the viewport is the box
    grown by that amount on each side, clamped to the int64 range, and
    the dimension computation of [render_frame_fixed_viewport] on it does
    not overflow.  If the box is wider, but by less than 2^63 - 1, the
    rendering is turned off.  If the pattern spans 2^63 - 1 cells or more
    in x, [vp_max_x - vp_min_x + 1] overflows. *)
Theorem fixed_viewport_spec (game : GameOfLife.t) (padding iterations : Z)
        (x0 x1 y0 y1 : Z) :
  cells_in_range (GameOfLife.live_cells_ game) →
  0 <= padding <= INT_MAX → 0 <= iterations <= INT_MAX →
  get_bounding_box game = (true, (x0, x1, y0, y1)) →
  (x1 - x0 < 10000 → y1 - y0 < 10000 → padding + iterations `div` 2 <= INT_MAX →
   let g := padding + iterations `div` 2 in
   fixed_viewport game padding iterations =
     Done (Some (clamp64 (x0 - g), clamp64 (x1 + g),
                 clamp64 (y0 - g), clamp64 (y1 + g))) ∧
   ∀ m, ∃ r, viewport_cells m (clamp64 (x0 - g)) (clamp64 (x1 + g))
                              (clamp64 (y0 - g)) (clamp64 (y1 + g)) = Done r) ∧
  (10000 <= x1 - x0 < INT64_MAX → y1 - y0 < INT64_MAX →
   fixed_viewport game padding iterations = Done None) ∧
  (INT64_MAX <= x1 - x0 →
   fixed_viewport game padding iterations = Fault SignedOverflow).
Proof.
intros HS Hp Hi Hbox.
assert (in_int64 x0 = true ∧ in_int64 x1 = true ∧ in_int64 y0 = true ∧
        in_int64 y1 = true ∧ x0 <= x1 ∧ y0 <= y1) as (Hx0 & Hx1 & Hy0 & Hy1 & Hx & Hy).
{ unfold get_bounding_box in Hbox.
  case_bool_decide as Hne; [done|].
  injection Hbox as Hbox.
  destruct (bounding_box_spec _ _ _ _ _ (cells_in_range_Forall _ HS) Hbox)
    as [Hin Hatt].
  destruct Hatt as ((a1 & Ha1 & E1) & (a2 & Ha2 & E2) & (a3 & Ha3 & E3) & (a4 & Ha4 & E4)).
  { intros E. apply elements_empty_inv in E. by apply leibniz_equiv in E. }
  pose proof (Hin a1 Ha1) as B1. pose proof (Hin a3 Ha3) as B3.
  assert (∀ a, a ∈ elements (GameOfLife.live_cells_ game) →
               in_int64 (Cell.x a) = true ∧ in_int64 (Cell.y a) = true) as Hr.
  { intros a Ha. apply elem_of_elements in Ha.
    by apply andb_true_iff, (cells_in_range_elem _ _ HS). }
  destruct (Hr a1 Ha1) as [? _], (Hr a2 Ha2) as [? _],
           (Hr a3 Ha3) as [_ ?], (Hr a4 Ha4) as [_ ?].
  subst x0 x1 y0 y1. repeat split; (done || lia). }
unfold fixed_viewport. rewrite Hbox.
pose proof Hx0 as Bx0. pose proof Hx1 as Bx1. pose proof Hy0 as By0. pose proof Hy1 as By1.
rewrite in_int64_spec in Bx0, Bx1, By0, By1.
assert (INT64_MIN = -9223372036854775808) as Hmin by reflexivity.
assert (INT64_MAX = 9223372036854775807) as Hmax by reflexivity.
assert (INT_MAX = 2147483647) as Himax by reflexivity.
split; [|split].
- intros Hw Hh Hg. cbv zeta. set (g := padding + iterations `div` 2).
  rewrite (bind_assoc_eq _ _ _ _ (span_width _ _ Hx0 Hx1 Hx ltac:(lia))).
  cbn [mbind outcome_bind].
  rewrite (bind_assoc_eq _ _ _ _ (span_width _ _ Hy0 Hy1 Hy ltac:(lia))).
  cbn [mbind outcome_bind]. unfold MAX_RENDER_CELLS.
  destruct (Z.ltb_spec 10000 (x1 - x0 + 1)); [lia|].
  destruct (Z.ltb_spec 10000 (y1 - y0 + 1)); [lia|]. cbn [orb].
  assert (iterations ÷ 2 = iterations `div` 2) as -> by (apply Z.quot_div_nonneg; lia).
  fold g.
  assert (0 <= g <= INT_MAX) as Bg.
  { unfold g. pose proof (Z.div_pos iterations 2). lia. }
  assert (in_int64 g = true) as Hgi by (apply in_int64_spec; lia).
  unfold chk32, INT_MIN.
  destruct (Z.leb_spec (-2147483648) g); [|lia].
  destruct (Z.leb_spec g INT_MAX); [|lia]. cbn [andb mbind outcome_bind].
  destruct (safe_ops_clamp x0 g Hx0 Hgi) as [_ ->].
  destruct (safe_ops_clamp x1 g Hx1 Hgi) as [-> _].
  destruct (safe_ops_clamp y0 g Hy0 Hgi) as [_ ->].
  destruct (safe_ops_clamp y1 g Hy1 Hgi) as [-> _].
  cbn [mbind outcome_bind]. split; [done|].
  intros m. eexists. apply viewport_cells_safe; try apply clamp64_in;
    unfold clamp64; lia.
- intros Hw Hh.
  rewrite (bind_assoc_eq _ _ _ _ (span_width _ _ Hx0 Hx1 Hx ltac:(lia))).
  cbn [mbind outcome_bind].
  rewrite (bind_assoc_eq _ _ _ _ (span_width _ _ Hy0 Hy1 Hy ltac:(lia))).
  cbn [mbind outcome_bind]. unfold MAX_RENDER_CELLS.
  by destruct (Z.ltb_spec 10000 (x1 - x0 + 1)); [|lia].
- intros Hw.
  by rewrite (bind_assoc_eq _ _ _ _ (span_overflow _ _ Hx0 Hx1 Hw)).
Qed.

Lemma fixed_viewport_spec_witness :
  cells_in_range (GameOfLife.live_cells_ (GameOfLife.mk wide_pair Hashtable)) ∧
  0 <= 10 <= INT_MAX ∧ 0 <= 100 <= INT_MAX ∧
  get_bounding_box (GameOfLife.mk wide_pair Hashtable) =
    (true, (-5000000000000000000, 5000000000000000000, 0, 7)) ∧
  (5000000000000000000 - -5000000000000000000 < 10000 → 7 - 0 < 10000 →
   10 + 100 `div` 2 <= INT_MAX →
   let g := 10 + 100 `div` 2 in
   fixed_viewport (GameOfLife.mk wide_pair Hashtable) 10 100 =
     Done (Some (clamp64 (-5000000000000000000 - g), clamp64 (5000000000000000000 + g),
                 clamp64 (0 - g), clamp64 (7 + g))) ∧
   ∀ m, ∃ r, viewport_cells m (clamp64 (-5000000000000000000 - g))
                              (clamp64 (5000000000000000000 + g))
                              (clamp64 (0 - g)) (clamp64 (7 + g)) = Done r) ∧
  (10000 <= 5000000000000000000 - -5000000000000000000 < INT64_MAX →
   7 - 0 < INT64_MAX →
   fixed_viewport (GameOfLife.mk wide_pair Hashtable) 10 100 = Done None) ∧
  (INT64_MAX <= 5000000000000000000 - -5000000000000000000 →
   fixed_viewport (GameOfLife.mk wide_pair Hashtable) 10 100 = Fault SignedOverflow).
Proof.
split; [vm_compute; reflexivity|]. split; [done|]. split; [done|].
split; [vm_compute; reflexivity|].
apply (fixed_viewport_spec (GameOfLife.mk wide_pair Hashtable) 10 100);
  [vm_compute; reflexivity|done|done|vm_compute; reflexivity].
Defined.
